(** * Bit-packed vector arrays and the Euclid-LSH index of jubatus (Go)

    A shallow embedding of [internal/math/bitvector/array.go] and
    [internal/nearest/euclid_lsh.go].

    Conventions.
    - Go's [int] is a 64-bit two's complement integer and [word] a 64-bit
      unsigned one; both are carried by [Z], with the wrap-around written
      out ([Go.int_wrap], [Go.shl]).
    - A slice is its backing cells from the slice start up to the capacity,
      together with its length ([Go.slice]).
    - A run of the program either returns a value, returns an [error], or
      panics ([Go.res]).
    - [float32] and [float64] are the IEEE-754 binary32 and binary64 formats
      of [SpecFloat]. *)

From Stdlib Require Import String.
From Stdlib Require Import ZArith List Lia Bool Permutation Sorted.
From Stdlib Require Import Floats.SpecFloat.
From coqutil Require Import Z.bitblast.
Import ListNotations.
Local Open Scope Z_scope.

(* ===================================================================== *)
(** * Go primitives *)
(* ===================================================================== *)

Module Go.

(** The errors built with [fmt.Errorf] in the two files, one constructor
    per message. *)
Inductive error : Type :=
| BitNumMismatch (want got : Z)     (* "BitNum mismatch: %v, %v" *)
| InvalidIndex (n : Z)              (* "invalid Array index: %v" *)
| InvalidBitNum (b : Z)             (* "invalid BitNum: %v" *)
| UnsupportedVersion (v : Z)        (* "unsupported format version of ...: %v" *)
| IOFailure.                        (* an error of the reader or the decoder *)

(** Outcome of a call: a value, a returned error, or a run-time panic. *)
Inductive res (A : Type) : Type :=
| Val (a : A)
| Err (e : error)
| Panic.
Arguments Val {A} a.
Arguments Err {A} e.
Arguments Panic {A}.

Definition bind {A B : Type} (m : res A) (k : A -> res B) : res B :=
match m with
| Val a => k a
| Err e => Err e
| Panic => Panic
end.

(** Dereference of a pointer that may be nil. *)
Definition deref {A : Type} (p : option A) : res A :=
  match p with Some a => Val a | None => Panic end.

(** ** Integers *)

Definition wordBits : Z := 64.

(** [int]: two's complement on 64 bits. *)
Definition int_wrap (z : Z) : Z := (z + 2 ^ 63) mod 2 ^ 64 - 2 ^ 63.
Definition iadd (a b : Z) : Z := int_wrap (a + b).
Definition isub (a b : Z) : Z := int_wrap (a - b).
Definition imul (a b : Z) : Z := int_wrap (a * b).
(** [/] and [%] truncate toward zero.  A zero divisor panics in Go; every
    divisor below is [wordBits], a word count or a [bitNum], which is
    positive for every array [createArray] builds. *)
Definition idiv (a b : Z) : Z := Z.quot a b.
Definition imod (a b : Z) : Z := Z.rem a b.
(** The same with the run-time check, where the divisor is computed. *)
Definition idiv_chk {A : Type} (a b : Z) (k : Z -> res A) : res A :=
  if b =? 0 then Panic else k (Z.quot a b).
Definition imod_chk {A : Type} (a b : Z) (k : Z -> res A) : res A :=
  if b =? 0 then Panic else k (Z.rem a b).

Definition maxInt (a b : Z) : Z := if a <? b then b else a.
Definition minInt (a b : Z) : Z := if a <? b then a else b.

(** [word]: unsigned on 64 bits.  [to_word] is the conversion [word(x)]
    (and [uint(x)]) of an [int]. *)
Definition to_word (z : Z) : Z := z mod 2 ^ 64.
Definition shl (x s : Z) : Z := (Z.shiftl x s) mod 2 ^ 64.
Definition shr (x s : Z) : Z := Z.shiftr x s.
Definition wnot (x : Z) : Z := Z.lxor x (Z.ones 64).
Definition to_uint16 (x : Z) : Z := x mod 2 ^ 16.
Definition to_uint32 (x : Z) : Z := x mod 2 ^ 32.

(** ** Slices *)

Record slice (A : Type) : Type := mkslice {
cells : list A;   (* backing array, from the slice start to its capacity *)
slen : Z          (* len(s) *)
}.
Arguments mkslice {A} cells slen.
Arguments cells {A} s.
Arguments slen {A} s.

Section Slices.
Context {A : Type} (zero : A).

Definition nil_slice : slice A := mkslice [] 0.
Definition len (s : slice A) : Z := slen s.
Definition cap (s : slice A) : Z := Z.of_nat (length (cells s)).

(** The elements a slice shows: its first [len] cells. *)
Definition visible (s : slice A) : list A :=
    firstn (Z.to_nat (slen s)) (cells s).

(** [make([]A, n, c)]. *)
Definition make_cap (n c : Z) : res (slice A) :=
    if (0 <=? n) && (n <=? c)
    then Val (mkslice (repeat zero (Z.to_nat c)) n)
    else Panic.
(** [make([]A, n)]. *)
Definition make (n : Z) : res (slice A) := make_cap n n.

(** [s[i]] as a value. *)
Definition index (s : slice A) (i : Z) : res A :=
    if (0 <=? i) && (i <? slen s)
    then Val (nth (Z.to_nat i) (cells s) zero)
    else Panic.

(** [cells] with the elements of [src] written from position [off]. *)
Definition overwrite (cs : list A) (off : nat) (src : list A) : list A :=
    firstn off cs ++ src ++ skipn (off + length src) cs.

(** [s[i] = x]. *)
Definition store (s : slice A) (i : Z) (x : A) : res (slice A) :=
    if (0 <=? i) && (i <? slen s)
    then Val (mkslice (overwrite (cells s) (Z.to_nat i) [x]) (slen s))
    else Panic.

(** [s[:n]]: the bound is the capacity, not the length. *)
Definition slice_to (s : slice A) (n : Z) : res (slice A) :=
    if (0 <=? n) && (n <=? cap s) then Val (mkslice (cells s) n) else Panic.

(** [s[lo:]]. *)
Definition slice_from (s : slice A) (lo : Z) : res (slice A) :=
    if (0 <=? lo) && (lo <=? slen s)
    then Val (mkslice (skipn (Z.to_nat lo) (cells s)) (slen s - lo))
    else Panic.

(** [s[lo:hi]]. *)
Definition slice_range (s : slice A) (lo hi : Z) : res (slice A) :=
    if (0 <=? lo) && (lo <=? hi) && (hi <=? cap s)
    then Val (mkslice (skipn (Z.to_nat lo) (cells s)) (hi - lo))
    else Panic.

(** [copy(dst, src)] for a destination that is a slice of its own: the
      first [min(len(dst), len(src))] elements of [src] are written. *)
Definition copy (dst src : slice A) : slice A :=
    let k := Z.to_nat (Z.min (slen dst) (slen src)) in
    mkslice (overwrite (cells dst) 0 (firstn k (cells src))) (slen dst).

(** [copy(s[lo:], src)]: the write lands in the cells of [s]. *)
Definition copy_from (s : slice A) (lo : Z) (src : slice A) : res (slice A) :=
    if (0 <=? lo) && (lo <=? slen s)
    then let k := Z.to_nat (Z.min (slen s - lo) (slen src)) in
         Val (mkslice (overwrite (cells s) (Z.to_nat lo) (firstn k (cells src)))
                      (slen s))
    else Panic.

(** [copy(s[lo:hi], src)]. *)
Definition copy_range (s : slice A) (lo hi : Z) (src : slice A) : res (slice A) :=
    if (0 <=? lo) && (lo <=? hi) && (hi <=? cap s)
    then let k := Z.to_nat (Z.min (hi - lo) (slen src)) in
         Val (mkslice (overwrite (cells s) (Z.to_nat lo) (firstn k (cells src)))
                      (slen s))
    else Panic.
End Slices.

(** A counted loop [for i := 0; i < n; i++ { s = body(i, s) }]. *)
Fixpoint for_loop {S : Type} (n : nat) (i : Z) (body : Z -> S -> res S) (s : S)
: res S :=
match n with
| O => Val s
| Datatypes.S k => bind (body i s) (for_loop k (i + 1) body)
end.

End Go.

Notation "x <- m ;; k" := (Go.bind m (fun x => k))
(at level 61, m at next level, right associativity).


(* ===================================================================== *)
(** * Package bitvector *)
(* ===================================================================== *)

Module bitvector.
Import Go.

(** A [word] is carried by [Z]; [buf] is a slice of words. *)
Abbreviation word := Z (only parsing).
Abbreviation buf := (slice Z) (only parsing).

(** ** Helpers of vector.go *)

(** Modelled from the spec: [nWords] is declared in vector.go, which is not
    among the sources; a bit-vector is "backed by ceil(bitNum/64) words" and
    a buffer holds "ceil(bitNum*len/64)" words. *)
Definition nWords (bitNum n : Z) : Z :=
  idiv (iadd (imul bitNum n) (wordBits - 1)) wordBits.

(** Modelled from the spec: [leastBits] (vector.go) is the mask of the [n]
    least significant bits, [(1 << n) - 1] on a word. *)
Definition leastBits (n : Z) : word := to_word (shl 1 n - 1).

(** Modelled from the spec: [set(w, offset, x, n)] (vector.go) writes the
    [n] low bits of [x] into [*w] at bit [offset] and keeps the other bits. *)
Definition set_bits (w : word) (offset : Z) (x : word) (n : Z) : word :=
  let mask := shl (leastBits n) offset in
  Z.lor (Z.land w (wnot mask)) (Z.land (shl x offset) mask).

(** [set(&s[k], offset, x, n)]. *)
Definition set (s : buf) (k offset : Z) (x : word) (n : Z) : res buf :=
  w <- index 0 s k ;;
  store s k (set_bits w offset x n).

(** Modelled from the spec: [bitcount], [bitcount16] and [bitcount32]
    (vector.go) are the population counts of a 64-, 16- and 32-bit value. *)
Fixpoint popcount (n : nat) (x : Z) : Z :=
  match n with
  | O => 0
  | S k => Z.b2z (Z.odd x) + popcount k (Z.div2 x)
  end.
Definition bitcount (x : word) : Z := popcount 64 x.
Definition bitcount16 (x : Z) : Z := popcount 16 x.
Definition bitcount32 (x : Z) : Z := popcount 32 x.

Record Vector : Type := mkVector {
  vdata : buf;
  vbitNum : Z
}.

(** Modelled from the spec: [NewVector] (vector.go) builds the zero-filled
    vector of the given width, and nil for a width that is not positive. *)
Definition NewVector (bitNum : Z) : res (option Vector) :=
  if bitNum <=? 0 then Val None
  else d <- make 0 (nWords bitNum 1) ;; Val (Some (mkVector d bitNum)).

(** Modelled from the spec: the method [Set(i)] of [Vector] (vector.go) sets bit [i],
    for [0 <= i < bitNum]; an index out of those bounds is rejected and the
    vector is left as it was. *)
Definition Vector_Set (v : Vector) (i : Z) : res Vector :=
  if (0 <=? i) && (i <? vbitNum v)
  then d <- set (vdata v) (idiv i wordBits) (imod i wordBits) 1 1 ;;
       Val (mkVector d (vbitNum v))
  else Val v.

(** Number of bits in which two word sequences differ, word by word. *)
Fixpoint xor_popcount (xs ys : list word) : Z :=
  match xs, ys with
  | x :: xs', y :: ys' => bitcount (Z.lxor x y) + xor_popcount xs' ys'
  | _, _ => 0
  end.

(** Modelled from the spec: the package-level [HammingDistance(a, n, v)]
    (vector.go) that [generalArray.HammingDistance] delegates to "fails with
    BitWidthMismatch/IndexOutOfRange as above; else returns popcount of
    get(i) XOR v".  The array enters through its [BitNum] and [Get]. *)
Definition HammingDistance (aBitNum : Z) (aGet : Z -> res Vector)
    (n : Z) (v : Vector) : res Z :=
  if negb (aBitNum =? vbitNum v)
  then Err (BitNumMismatch aBitNum (vbitNum v))
  else x <- aGet n ;;
       Val (xor_popcount (visible (vdata x)) (visible (vdata v))).

(** The record [Save] encodes. *)
Record arrayData : Type := mkArrayData {
  Data : buf;
  BitNum : Z;
  Len : Z
}.

Definition arrayFormatVersion : Byte.byte := Byte.x01.

(** ** generalArray *)

Module generalArray.

Record t : Type := mk { data : buf; bitNum : Z; len : Z }.

Definition Len (a : t) : Z := len a.
Definition BitNum (a : t) : Z := bitNum a.

Definition cap (a : t) : res Z :=
  idiv_chk (imul (Go.len (data a)) wordBits) (bitNum a) (fun q => Val q).

Definition reserve (a : t) (n : Z) : res t :=
  currCap <- cap a ;;
  if n <=? currCap then Val a
  else
    let newCap := maxInt n (imul 2 currCap) in
    newBuf <- make 0 (nWords (bitNum a) newCap) ;;
    Val (mk (copy newBuf (data a)) (bitNum a) (len a)).

Definition Resize (a : t) (n : Z) : res t :=
  a' <- reserve a n ;;
  Val (mk (data a') (bitNum a') n).

Definition Get (a : t) (n : Z) : res Vector :=
  if (n <? 0) || (n >=? len a) then Err (InvalidIndex n) else
  (* the nth bitvector is stored in [lbit, rbit). *)
  let lbit := imul n (bitNum a) in
  let rbit := iadd lbit (bitNum a) in
  let l := idiv lbit wordBits in
  let r := idiv rbit wordBits in
  if (l =? r) || ((l + 1 =? r) && (imod rbit wordBits =? 0)) then
    (* the bitvector is stored in a word. *)
    let mask := leastBits (bitNum a) in
    let shift := Z.modulo (to_word lbit) wordBits in
    dl <- index 0 (data a) l ;;
    let x := Z.land (shr dl shift) mask in
    Val (mkVector (mkslice [x] 1) (bitNum a))
  else if imod lbit wordBits =? 0 then
    (* the bit vector starts from the least bit in a word. *)
    let retLen := nWords (bitNum a) 1 in
    retBuf <- make 0 retLen ;;
    src <- slice_from (data a) l ;;
    let retBuf := copy retBuf src in
    let nTrailingBits := imod rbit wordBits in
    retBuf <-
      (if negb (nTrailingBits =? 0)
       then w <- index 0 retBuf (retLen - 1) ;;
            store retBuf (retLen - 1) (Z.land w (leastBits nTrailingBits))
       else Val retBuf) ;;
    Val (mkVector retBuf (bitNum a))
  else
    let retLen := nWords (bitNum a) 1 in
    retBuf <- make 0 retLen ;;
    let leftOffset := imod lbit wordBits in
    let nLeftBits := wordBits - leftOffset in
    dl <- index 0 (data a) l ;;
    let leftBits := shr dl (to_word leftOffset) in
    let nRightBits := imod rbit wordBits in
    let nTrailingBits := imod (bitNum a) wordBits in
    mid <- slice_range (data a) (l + 1) r ;;
    let retBuf := copy retBuf mid in
    retBuf <-
      (if nRightBits =? 0 then store retBuf (retLen - 1) leftBits
       else if nLeftBits + nRightBits <=? wordBits then
         dr <- index 0 (data a) r ;;
         b1 <- set retBuf (retLen - 1) 0 dr nRightBits ;;
         set b1 (retLen - 1) nRightBits leftBits nLeftBits
       else
         dr <- index 0 (data a) r ;;
         b1 <- set retBuf (retLen - 2) 0 dr nRightBits ;;
         b2 <- set b1 (retLen - 2) nRightBits leftBits (wordBits - nRightBits) ;;
         set b2 (retLen - 1) 0
             (shr leftBits (to_word (wordBits - nRightBits))) nTrailingBits) ;;
    Val (mkVector retBuf (bitNum a)).

Definition HammingDistance (a : t) (n : Z) (v : Vector) : res Z :=
  bitvector.HammingDistance (BitNum a) (Get a) n v.

(** [Set]; the name is a keyword of Rocq, hence the underscore. *)
Definition Set_ (a : t) (n : Z) (v : Vector) : res t :=
  if negb (bitNum a =? vbitNum v)
  then Err (BitNumMismatch (bitNum a) (vbitNum v)) else
  if (n <? 0) || (n >=? len a) then Err (InvalidIndex n) else
  (* v will be stored in [lbit, rbit). *)
  let lbit := imul n (bitNum a) in
  let rbit := iadd lbit (bitNum a) in
  let l := idiv lbit wordBits in
  let r := idiv rbit wordBits in
  let upd d := Val (mk d (bitNum a) (len a)) in
  if (l =? r) || ((l + 1 =? r) && (imod rbit wordBits =? 0)) then
    (* v will be stored in a word. *)
    v0 <- index 0 (vdata v) 0 ;;
    d <- set (data a) l (imod lbit wordBits) v0 (bitNum a) ;;
    upd d
  else if imod lbit wordBits =? 0 then
    if imod rbit wordBits =? 0 then
      d <- copy_from (data a) l (vdata v) ;;
      upd d
    else
      let vlen := Go.len (vdata v) in
      vs <- slice_to (vdata v) (vlen - 1) ;;
      d <- copy_from (data a) l vs ;;
      vlast <- index 0 (vdata v) (vlen - 1) ;;
      d <- set d r 0 vlast (imod (bitNum a) wordBits) ;;
      upd d
  else
    d <- copy_range (data a) (l + 1) r (vdata v) ;;
    let lOffset := imod lbit wordBits in
    let leftNBits := wordBits - lOffset in
    let rightNBits := imod rbit wordBits in
    let bitNumRes := imod (bitNum a) wordBits in
    let vlen := Go.len (vdata v) in
    if leftNBits <? bitNumRes then
      vlast <- index 0 (vdata v) (vlen - 1) ;;
      d <- set d r 0 vlast rightNBits ;;
      d <- set d l lOffset (shr vlast (to_word rightNBits)) leftNBits ;;
      upd d
    else if leftNBits =? bitNumRes then
      (* this condition means rbit%wordBits == 0 *)
      vlast <- index 0 (vdata v) (vlen - 1) ;;
      d <- set d l lOffset vlast leftNBits ;;
      upd d
    else
      vprev <- index 0 (vdata v) (vlen - 2) ;;
      d <- set d r 0 vprev rightNBits ;;
      d <- set d l lOffset (shr vprev (to_word rightNBits)) (wordBits - rightNBits) ;;
      vlast <- index 0 (vdata v) (vlen - 1) ;;
      d <- set d l (wordBits - bitNumRes) vlast bitNumRes ;;
      upd d.

(** [Save]: the version byte, then the encoded record.  The writer is the
    byte sequence written so far; the encoder of the codec library is
    [encode]. *)
Definition Save (encode : arrayData -> list Byte.byte) (a : t)
    (w : list Byte.byte) : res (list Byte.byte) :=
  let w := w ++ [arrayFormatVersion] in
  Val (w ++ encode (mkArrayData (data a) (bitNum a) (len a))).

End generalArray.

(** ** smallBitsArray *)

Module smallBitsArray.

Record t : Type := mk { ga : generalArray.t }.

Definition Resize (a : t) (n : Z) : res t :=
  g <- generalArray.Resize (ga a) n ;; Val (mk g).

Definition Len (a : t) : Z := generalArray.Len (ga a).
Definition BitNum (a : t) : Z := generalArray.BitNum (ga a).

Definition HammingDistance (a : t) (n : Z) (v : Vector) : res Z :=
  if negb (BitNum a =? vbitNum v)
  then Err (BitNumMismatch (BitNum a) (vbitNum v)) else
  if (n <? 0) || (n >=? Len a) then Err (InvalidIndex n) else
  let lbit := imul n (BitNum a) in
  let rbit := iadd lbit (BitNum a) in
  let l := idiv lbit wordBits in
  let r := idiv rbit wordBits in
  let nRightBits := imod rbit wordBits in
  let loffset := to_word (imod lbit wordBits) in
  x <-
    (if (l =? r) || (nRightBits =? 0) then
       dl <- index 0 (generalArray.data (ga a)) l ;;
       Val (Z.land (shr dl loffset) (leastBits (BitNum a)))
     else
       dr <- index 0 (generalArray.data (ga a)) r ;;
       let x := Z.land dr (leastBits nRightBits) in
       dl <- index 0 (generalArray.data (ga a)) l ;;
       Val (Z.lor x (shl (shr dl loffset) (to_word nRightBits)))) ;;
  v0 <- index 0 (vdata v) 0 ;;
  Val (bitcount (Z.lxor x v0)).

Definition get (a : t) (n : Z) : res word :=
  if (n <? 0) || (n >=? Len a) then Err (InvalidIndex n) else
  let lbit := imul n (BitNum a) in
  let rbit := iadd lbit (BitNum a) in
  let l := idiv lbit wordBits in
  let r := idiv rbit wordBits in
  let nRightBits := imod rbit wordBits in
  let loffset := to_word (imod lbit wordBits) in
  if (l =? r) || (nRightBits =? 0) then
    dl <- index 0 (generalArray.data (ga a)) l ;;
    Val (Z.land (shr dl loffset) (leastBits (BitNum a)))
  else
    dr <- index 0 (generalArray.data (ga a)) r ;;
    let x := Z.land dr (leastBits nRightBits) in
    dl <- index 0 (generalArray.data (ga a)) l ;;
    Val (Z.lor x (shl (shr dl loffset) (to_word nRightBits))).

Definition Get (a : t) (n : Z) : res Vector :=
  x <- get a n ;;
  ov <- NewVector (generalArray.bitNum (ga a)) ;;
  v <- deref ov ;;
  d <- store (vdata v) 0 x ;;
  Val (mkVector d (vbitNum v)).

Definition Set_ (a : t) (n : Z) (v : Vector) : res t :=
  if negb (generalArray.bitNum (ga a) =? vbitNum v)
  then Err (BitNumMismatch (generalArray.bitNum (ga a)) (vbitNum v)) else
  if (n <? 0) || (n >=? Len a) then Err (InvalidIndex n) else
  let lbit := imul n (BitNum a) in
  let rbit := iadd lbit (BitNum a) in
  let l := idiv lbit wordBits in
  let r := idiv rbit wordBits in
  let nRightBits := imod rbit wordBits in
  let upd d :=
    Val (mk (generalArray.mk d (generalArray.bitNum (ga a))
                             (generalArray.len (ga a)))) in
  if (l =? r) || (nRightBits =? 0) then
    v0 <- index 0 (vdata v) 0 ;;
    d <- set (generalArray.data (ga a)) l (imod lbit wordBits) v0 (BitNum a) ;;
    upd d
  else
    v0 <- index 0 (vdata v) 0 ;;
    d <- set (generalArray.data (ga a)) r 0 v0 nRightBits ;;
    d <- set d l (imod lbit wordBits) (shr v0 (to_word nRightBits))
             (isub (BitNum a) nRightBits) ;;
    upd d.

Definition Save (encode : arrayData -> list Byte.byte) (a : t)
    (w : list Byte.byte) : res (list Byte.byte) :=
  generalArray.Save encode (ga a) w.

End smallBitsArray.

(** ** wordArray *)

Module wordArray.

Record t : Type := mk { data : buf }.

Definition Resize (a : t) (n : Z) : res t :=
  let cap := Go.cap (data a) in
  if n <=? cap then
    d <- slice_to (data a) n ;; Val (mk d)
  else
    newBuf <- make_cap 0 n (imul 2 (maxInt cap n)) ;;
    Val (mk (copy newBuf (data a))).

Definition Len (a : t) : Z := Go.len (data a).
Definition BitNum (a : t) : Z := wordBits.

Definition HammingDistance (a : t) (n : Z) (v : Vector) : res Z :=
  if negb (vbitNum v =? wordBits)
  then Err (BitNumMismatch wordBits (vbitNum v)) else
  if (n <? 0) || (n >=? Len a) then Err (InvalidIndex n) else
  dn <- index 0 (data a) n ;;
  v0 <- index 0 (vdata v) 0 ;;
  Val (bitcount (Z.lxor dn v0)).

Definition Get (a : t) (n : Z) : res Vector :=
  if (n <? 0) || (n >=? Len a) then Err (InvalidIndex n) else
  d <- slice_range (data a) n (n + 1) ;;
  Val (mkVector d wordBits).

Definition Set_ (a : t) (n : Z) (v : Vector) : res t :=
  if negb (vbitNum v =? wordBits)
  then Err (BitNumMismatch wordBits (vbitNum v)) else
  if (n <? 0) || (n >=? Len a) then Err (InvalidIndex n) else
  v0 <- index 0 (vdata v) 0 ;;
  d <- store (data a) n v0 ;;
  Val (mk d).

Definition Save (encode : arrayData -> list Byte.byte) (a : t)
    (w : list Byte.byte) : res (list Byte.byte) :=
  let ga := generalArray.mk (data a) wordBits (Go.len (data a)) in
  generalArray.Save encode ga w.

End wordArray.

(** ** smallPowerOfTwoBitsArray *)

Module smallPowerOfTwoBitsArray.

Record t : Type := mk { data : buf; bitNum : Z; len : Z }.

Definition Resize (a : t) (n : Z) : res t :=
  let newDataLen := nWords (bitNum a) n in
  let cap := Go.len (data a) in
  if cap >=? newDataLen then Val (mk (data a) (bitNum a) n)
  else
    newBuf <- make 0 (imul 2 (maxInt cap newDataLen)) ;;
    Val (mk (copy newBuf (data a)) (bitNum a) n).

Definition Len (a : t) : Z := len a.
Definition BitNum (a : t) : Z := bitNum a.

Definition HammingDistance (a : t) (n : Z) (v : Vector) : res Z :=
  if negb (bitNum a =? vbitNum v)
  then Err (BitNumMismatch (bitNum a) (vbitNum v)) else
  if (n <? 0) || (n >=? Len a) then Err (InvalidIndex n) else
  if bitNum a =? 1 then
    full <- index 0 (data a) (idiv n 64) ;;
    let part := Z.land (shr full (to_word (imod n 64))) 1 in
    v0 <- index 0 (vdata v) 0 ;;
    Val (int_wrap (Z.lxor part v0))
  else if bitNum a =? 2 then
    full <- index 0 (data a) (idiv n 32) ;;
    let part := Z.land (shr full (to_word (2 * imod n 32))) 3 in
    v0 <- index 0 (vdata v) 0 ;;
    Val (bitcount16 (to_uint16 (Z.lxor part v0)))
  else if bitNum a =? 4 then
    full <- index 0 (data a) (idiv n 16) ;;
    let part := Z.land (shr full (to_word (4 * imod n 16))) 15 in
    v0 <- index 0 (vdata v) 0 ;;
    Val (bitcount16 (to_uint16 (Z.lxor part v0)))
  else if bitNum a =? 8 then
    full <- index 0 (data a) (idiv n 8) ;;
    let part := Z.land (shr full (to_word (8 * imod n 8))) 255 in
    v0 <- index 0 (vdata v) 0 ;;
    Val (bitcount16 (to_uint16 (Z.lxor part v0)))
  else if bitNum a =? 16 then
    full <- index 0 (data a) (idiv n 4) ;;
    let part := to_uint16 (shr full (to_word (16 * imod n 4))) in
    v0 <- index 0 (vdata v) 0 ;;
    Val (bitcount16 (Z.lxor part (to_uint16 v0)))
  else if bitNum a =? 32 then
    full <- index 0 (data a) (idiv n 2) ;;
    let part := to_uint32 (shr full (to_word (32 * imod n 2))) in
    v0 <- index 0 (vdata v) 0 ;;
    Val (bitcount32 (Z.lxor part (to_uint32 v0)))
  else Err (InvalidBitNum (bitNum a)).

Definition get (a : t) (n : Z) : res word :=
  idiv_chk wordBits (bitNum a) (fun nelems =>
  let mask := leastBits (bitNum a) in
  idiv_chk n nelems (fun q =>
  full <- index 0 (data a) q ;;
  Val (Z.land (shr full (to_word (imul (imod n nelems) (bitNum a)))) mask))).

Definition Get (a : t) (n : Z) : res Vector :=
  if (n <? 0) || (n >=? Len a) then Err (InvalidIndex n) else
  ov <- NewVector (bitNum a) ;;
  x <- get a n ;;
  v <- deref ov ;;
  d <- store (vdata v) 0 x ;;
  Val (mkVector d (vbitNum v)).

Definition Set_ (a : t) (n : Z) (v : Vector) : res t :=
  if negb (bitNum a =? vbitNum v)
  then Err (BitNumMismatch (bitNum a) (vbitNum v)) else
  if (n <? 0) || (n >=? Len a) then Err (InvalidIndex n) else
  idiv_chk wordBits (bitNum a) (fun nelems =>
  let mask := leastBits (bitNum a) in
  idiv_chk n nelems (fun q =>
  let offset := to_word (imul (imod n nelems) (bitNum a)) in
  w <- index 0 (data a) q ;;
  d <- store (data a) q (Z.land w (wnot (shl mask offset))) ;;
  v0 <- index 0 (vdata v) 0 ;;
  w <- index 0 d q ;;
  d <- store d q (Z.lor w (shl v0 offset)) ;;
  Val (mk d (bitNum a) (len a)))).

Definition Save (encode : arrayData -> list Byte.byte) (a : t)
    (w : list Byte.byte) : res (list Byte.byte) :=
  let ga := generalArray.mk (data a) (bitNum a) (len a) in
  generalArray.Save encode ga w.

End smallPowerOfTwoBitsArray.

(** ** multipleOfWordBitsArray *)

Module multipleOfWordBitsArray.

Record t : Type := mk { data : buf; bitNum : Z }.

Definition Resize (a : t) (n : Z) : res t :=
  let newLen := imul n (idiv (bitNum a) wordBits) in
  let cap := Go.cap (data a) in
  if cap >=? newLen then
    d <- slice_to (data a) newLen ;; Val (mk d (bitNum a))
  else
    newBuf <- make_cap 0 newLen (imul 2 (maxInt cap newLen)) ;;
    Val (mk (copy newBuf (data a)) (bitNum a)).

(** The divisor [bitNum / wordBits] is at least 2 for the widths this
    specialization is selected for. *)
Definition Len (a : t) : Z :=
  idiv (Go.len (data a)) (idiv (bitNum a) wordBits).
Definition BitNum (a : t) : Z := bitNum a.

Definition HammingDistance (a : t) (n : Z) (v : Vector) : res Z :=
  if negb (bitNum a =? vbitNum v)
  then Err (BitNumMismatch (bitNum a) (vbitNum v)) else
  (* omit n >= a.Len() because a.Len() is slow. *)
  if n <? 0 then Err (InvalidIndex n) else
  let nw := idiv (bitNum a) wordBits in
  for_loop (Z.to_nat nw) 0
    (fun i ret =>
       d <- index 0 (data a) (iadd (imul n nw) i) ;;
       vi <- index 0 (vdata v) i ;;
       Val (iadd ret (bitcount (Z.lxor d vi))))
    0.

Definition Get (a : t) (n : Z) : res Vector :=
  if (n <? 0) || (n >=? Len a) then Err (InvalidIndex n) else
  ov <- NewVector (bitNum a) ;;
  let nw := idiv (bitNum a) wordBits in
  src <- slice_from (data a) (imul n nw) ;;
  v <- deref ov ;;
  Val (mkVector (copy (vdata v) src) (vbitNum v)).

Definition Set_ (a : t) (n : Z) (v : Vector) : res t :=
  if negb (bitNum a =? vbitNum v)
  then Err (BitNumMismatch (bitNum a) (vbitNum v)) else
  if (n <? 0) || (n >=? Len a) then Err (InvalidIndex n) else
  let nw := idiv (bitNum a) wordBits in
  d <- copy_from (data a) (imul n nw) (vdata v) ;;
  Val (mk d (bitNum a)).

Definition Save (encode : arrayData -> list Byte.byte) (a : t)
    (w : list Byte.byte) : res (list Byte.byte) :=
  let ga := generalArray.mk (data a) (bitNum a) (Len a) in
  generalArray.Save encode ga w.

End multipleOfWordBitsArray.

(** ** The Array interface and its five implementations *)

Inductive Array : Type :=
| General (a : generalArray.t)
| SmallBits (a : smallBitsArray.t)
| Word (a : wordArray.t)
| SmallPowerOfTwoBits (a : smallPowerOfTwoBitsArray.t)
| MultipleOfWordBits (a : multipleOfWordBitsArray.t).

(** [createArray]; [None] is the nil interface value. *)
Definition createArray (data : buf) (bitNum len : Z) : option Array :=
  if (bitNum <=? 0) || (len <? 0) then None else
  if bitNum <? wordBits then
    (* 2^n *)
    if Z.lxor bitNum (bitNum - 1) =? 0 then
      Some (SmallPowerOfTwoBits (smallPowerOfTwoBitsArray.mk data bitNum len))
    else
      Some (SmallBits (smallBitsArray.mk (generalArray.mk data bitNum len)))
  else if bitNum =? wordBits then
    Some (Word (wordArray.mk data))
  else if imod bitNum wordBits =? 0 then
    Some (MultipleOfWordBits (multipleOfWordBitsArray.mk data bitNum))
  else
    Some (General (generalArray.mk data bitNum len)).

Definition NewArray (bitNum : Z) : option Array :=
  createArray nil_slice bitNum 0.

Definition Resize (a : Array) (n : Z) : res Array :=
  match a with
  | General g => g' <- generalArray.Resize g n ;; Val (General g')
  | SmallBits s => s' <- smallBitsArray.Resize s n ;; Val (SmallBits s')
  | Word w => w' <- wordArray.Resize w n ;; Val (Word w')
  | SmallPowerOfTwoBits p =>
      p' <- smallPowerOfTwoBitsArray.Resize p n ;; Val (SmallPowerOfTwoBits p')
  | MultipleOfWordBits m =>
      m' <- multipleOfWordBitsArray.Resize m n ;; Val (MultipleOfWordBits m')
  end.

Definition ALen (a : Array) : Z :=
  match a with
  | General g => generalArray.Len g
  | SmallBits s => smallBitsArray.Len s
  | Word w => wordArray.Len w
  | SmallPowerOfTwoBits p => smallPowerOfTwoBitsArray.Len p
  | MultipleOfWordBits m => multipleOfWordBitsArray.Len m
  end.

Definition ABitNum (a : Array) : Z :=
  match a with
  | General g => generalArray.BitNum g
  | SmallBits s => smallBitsArray.BitNum s
  | Word w => wordArray.BitNum w
  | SmallPowerOfTwoBits p => smallPowerOfTwoBitsArray.BitNum p
  | MultipleOfWordBits m => multipleOfWordBitsArray.BitNum m
  end.

Definition AHammingDistance (a : Array) (n : Z) (v : Vector) : res Z :=
  match a with
  | General g => generalArray.HammingDistance g n v
  | SmallBits s => smallBitsArray.HammingDistance s n v
  | Word w => wordArray.HammingDistance w n v
  | SmallPowerOfTwoBits p => smallPowerOfTwoBitsArray.HammingDistance p n v
  | MultipleOfWordBits m => multipleOfWordBitsArray.HammingDistance m n v
  end.

Definition AGet (a : Array) (n : Z) : res Vector :=
  match a with
  | General g => generalArray.Get g n
  | SmallBits s => smallBitsArray.Get s n
  | Word w => wordArray.Get w n
  | SmallPowerOfTwoBits p => smallPowerOfTwoBitsArray.Get p n
  | MultipleOfWordBits m => multipleOfWordBitsArray.Get m n
  end.

Definition ASet (a : Array) (n : Z) (v : Vector) : res Array :=
  match a with
  | General g => g' <- generalArray.Set_ g n v ;; Val (General g')
  | SmallBits s => s' <- smallBitsArray.Set_ s n v ;; Val (SmallBits s')
  | Word w => w' <- wordArray.Set_ w n v ;; Val (Word w')
  | SmallPowerOfTwoBits p =>
      p' <- smallPowerOfTwoBitsArray.Set_ p n v ;; Val (SmallPowerOfTwoBits p')
  | MultipleOfWordBits m =>
      m' <- multipleOfWordBitsArray.Set_ m n v ;; Val (MultipleOfWordBits m')
  end.

Definition ASave (encode : arrayData -> list Byte.byte) (a : Array)
    (w : list Byte.byte) : res (list Byte.byte) :=
  match a with
  | General g => generalArray.Save encode g w
  | SmallBits s => smallBitsArray.Save encode s w
  | Word x => wordArray.Save encode x w
  | SmallPowerOfTwoBits p => smallPowerOfTwoBitsArray.Save encode p w
  | MultipleOfWordBits m => multipleOfWordBitsArray.Save encode m w
  end.

(** ** Loading *)

(** The decoder of the codec library: it consumes the bytes of one record
    from the reader and leaves the rest. *)
Definition decoder : Type := list Byte.byte -> option (arrayData * list Byte.byte).

Definition loadArrayFormatV1 (decode : decoder) (r : list Byte.byte)
  : res (option Array * list Byte.byte) :=
  match decode r with
  | None => Err IOFailure
  | Some (d, r') => Val (createArray (Data d) (BitNum d) (Len d), r')
  end.

Definition LoadArray (decode : decoder) (r : list Byte.byte)
  : res (option Array * list Byte.byte) :=
  match r with
  | [] => Err IOFailure
  | formatVersion :: r' =>
      if Byte.eqb formatVersion Byte.x01 then loadArrayFormatV1 decode r'
      else Err (UnsupportedVersion (Z.of_nat (Byte.to_nat formatVersion)))
  end.

End bitvector.

(* ===================================================================== *)
(** * Package nearest *)
(* ===================================================================== *)

Module nearest.
Import Go bitvector.

(** ** Floating point *)

(** [float32] is binary32 ([prec = 24], [emax = 128]) and [float64] is
    binary64 ([prec = 53], [emax = 1024]); every operation rounds to
    nearest, ties to even. *)
Definition float32 : Type := spec_float.
Definition float64 : Type := spec_float.

Definition f32_zero : float32 := S754_zero false.
Definition f32_two : float32 := S754_finite false 8388608 (-22).
Definition f32_add : float32 -> float32 -> float32 := SFadd 24 128.
Definition f32_sub : float32 -> float32 -> float32 := SFsub 24 128.
Definition f32_mul : float32 -> float32 -> float32 := SFmul 24 128.
Definition f32_lt : float32 -> float32 -> bool := SFltb.
Definition f64_mul : float64 -> float64 -> float64 := SFmul 53 1024.
Definition f64_div : float64 -> float64 -> float64 := SFdiv 53 1024.
Definition f64_sqrt : float64 -> float64 := SFsqrt 53 1024.

(** The conversions [float32(x)], [float64(x)] and [float64(n)]. *)
Definition to_float32 (x : float64) : float32 :=
  match x with
  | S754_finite s m e => binary_round 24 128 s m e
  | _ => x
  end.
Definition to_float64 (x : float32) : float64 :=
  match x with
  | S754_finite s m e => binary_round 53 1024 s m e
  | _ => x
  end.
Definition float64_of_int (n : Z) : float64 := binary_normalize 53 1024 n 0 false.

(** [math.Pi] as a [float64]: 0x400921FB54442D18. *)
Definition math_Pi : float64 := S754_finite false 7074237752028440 (-51).

Definition sqrt32 (x : float32) : float32 :=
  to_float32 (f64_sqrt (to_float64 x)).

(** ** Types of the package *)

(** Modelled from the spec: [FeatureVector], [ID] and [IDist] are declared
    in another file of the package; euclid_lsh.go reads a feature vector as
    a sequence of entries with a [Dim] and a [Value], a row identifier is a
    positive integer, and a result pairs an [ID] with a [Dist]. *)
Record FeatureElement : Type := mkFeatureElement {
  Dim : string;
  Value : float32
}.
Definition FeatureVector : Type := list FeatureElement.
Definition ID : Type := Z.
Record IDist : Type := mkIDist {
  IDist_ID : ID;
  IDist_Dist : float32
}.

(** Modelled from the spec: [sortByDist] orders results "ascending by
    score"; its [Less] compares the [Dist] fields. *)
Definition sortByDist_Less (a b : IDist) : bool :=
  f32_lt (IDist_Dist a) (IDist_Dist b).

Record EuclidLSH : Type := mkEuclidLSH {
  lshs : option Array;
  norms : slice float32
}.

Record euclidLSHMsgpack : Type := mkEuclidLSHMsgpack {
  FormatVersion : Z;
  Norms : slice float32
}.

Definition euclidLSHFormatVersion : Z := 1.

(** A method of [*EuclidLSH]: it runs on the index it receives and hands
    back the index it leaves. *)
Definition M (A : Type) : Type := EuclidLSH -> res (A * EuclidLSH).

Definition NewEuclidLSH (hashNum : Z) : EuclidLSH :=
  mkEuclidLSH (NewArray hashNum) nil_slice.

Definition squaredL2Norm (v : FeatureVector) : float32 :=
  fold_left (fun ret e => f32_add ret (f32_mul (Value e) (Value e))) v f32_zero.

Definition l2Norm (v : FeatureVector) : float32 := sqrt32 (squaredL2Norm v).

(** [binarize]: bit [i] of the sketch is set when [proj[i] > 0]. *)
Fixpoint binarize_loop (proj : list float32) (i : Z) (ret : option Vector)
  : res (option Vector) :=
  match proj with
  | [] => Val ret
  | x :: rest =>
      ret' <- (if f32_lt f32_zero x
               then v <- deref ret ;; v' <- Vector_Set v i ;; Val (Some v')
               else Val ret) ;;
      binarize_loop rest (i + 1) ret'
  end.

Definition binarize (proj : list float32) : res (option Vector) :=
  ret <- NewVector (Z.of_nat (length proj)) ;;
  binarize_loop proj 0 ret.

Section Index.

(** The parts of the Go libraries and of the package that the file calls:
    - [math_Cos] is [math.Cos];
    - [calcStringHash] is the string hash of the package (declared in
      another file);
    - [NormFloat64 seed j] is the draw number [j] of
      [rand.New(rand.NewSource(seed)).NormFloat64()];
    - [sort_Sort less] is [sort.Sort] on a slice ordered by [less];
    - [encode], [decode], [encode_lsh] and [decode_lsh] are the msgpack
      encoder and decoder of the codec library on the two records. *)
Variable math_Cos : float64 -> float64.
Variable calcStringHash : string -> Z.
Variable NormFloat64 : Z -> nat -> float64.
Variable sort_Sort : (IDist -> IDist -> bool) -> list IDist -> list IDist.
Variable encode : arrayData -> list Byte.byte.
Variable decode : decoder.
Variable encode_lsh : euclidLSHMsgpack -> list Byte.byte.
Variable decode_lsh : list Byte.byte -> option (euclidLSHMsgpack * list Byte.byte).

(** The inner loop of [randomProjection]:
    [for j := 0; j < hashNum; j++ { proj[j] += x * float32(r.NormFloat64()) }]
    from position [j] on. *)
Fixpoint add_draws (x : float32) (seed : Z) (j : nat) (proj : list float32)
  : list float32 :=
  match proj with
  | [] => []
  | p :: rest =>
      f32_add p (f32_mul x (to_float32 (NormFloat64 seed j)))
        :: add_draws x seed (S j) rest
  end.

Definition randomProjection (v : FeatureVector) (hashNum : Z)
  : res (list float32) :=
  if hashNum <? 0 then Panic
  else
    Val (fold_left
           (fun proj e =>
              let seed := calcStringHash (Dim e) in
              add_draws (Value e) (int_wrap seed) 0 proj)
           v (repeat f32_zero (Z.to_nat hashNum))).

Definition cosineLSH (v : FeatureVector) (hashNum : Z) : res (option Vector) :=
  proj <- randomProjection v hashNum ;;
  binarize proj.

Definition save (e : EuclidLSH) (w : list Byte.byte) : res (list Byte.byte) :=
  let w := w ++ encode_lsh (mkEuclidLSHMsgpack euclidLSHFormatVersion (norms e)) in
  a <- deref (lshs e) ;;
  ASave encode a w.

Definition loadEuclidLSHFormatV1 (r : list Byte.byte)
  : res (EuclidLSH * list Byte.byte) :=
  match decode_lsh r with
  | None => Err IOFailure
  | Some (d, r') =>
      ar <- LoadArray decode r' ;;
      Val (mkEuclidLSH (fst ar) (Norms d), snd ar)
  end.

Definition loadEuclidLSH (r : list Byte.byte)
  : res (EuclidLSH * list Byte.byte) :=
  match r with
  | [] => Err IOFailure
  | formatVersion :: r' =>
      if Byte.eqb formatVersion Byte.x01 then loadEuclidLSHFormatV1 r'
      else Err (UnsupportedVersion (Z.of_nat (Byte.to_nat formatVersion)))
  end.

Definition extend (n : Z) : M unit := fun e =>
  a <- deref (lshs e) ;;
  if ALen a <? n then
    a' <- Resize a n ;;
    if cap (norms e) >=? n then
      ns <- slice_range (norms e) 0 n ;;
      Val (tt, mkEuclidLSH (Some a') ns)
    else
      newNorms <- make_cap f32_zero n (maxInt (imul 2 (cap (norms e))) n) ;;
      Val (tt, mkEuclidLSH (Some a') (copy newNorms (norms e)))
  else Val (tt, e).

(** The first statement of [SetRow]. *)
Definition SetRow_extend (id : ID) : M unit := fun e =>
  if len (norms e) <? id then extend id e else Val (tt, e).

(** The call [e.lshs.Set(int(id-1), cosineLSH(v, e.lshs.BitNum()))] of
    [SetRow], with the result that [SetRow] drops. *)
Definition SetRow_Set (id : ID) (v : FeatureVector) (e : EuclidLSH)
  : res (res Array) :=
  a <- deref (lshs e) ;;
  ox <- cosineLSH v (ABitNum a) ;;
  x <- deref ox ;;
  Val (ASet a (id - 1) x).

Definition SetRow (id : ID) (v : FeatureVector) : M unit := fun e =>
  e1 <- SetRow_extend id e ;;
  let e1 := snd e1 in
  r <- SetRow_Set id v e1 ;;
  e2 <- match r with
        | Val a' => Val (mkEuclidLSH (Some a') (norms e1))
        | Err _ => Val e1
        | Panic => Panic
        end ;;
  ns <- store (norms e2) (id - 1) (l2Norm v) ;;
  Val (tt, mkEuclidLSH (lshs e2) ns).

(** The distance [neighborRowFromHash] goes on with: the first result of
    [HammingDistance], which is 0 where an error is returned with it. *)
Definition hDist_of (r : res Z) : res Z :=
  match r with
  | Val d => Val d
  | Err _ => Val 0
  | Panic => Panic
  end.

(** One turn of the first loop of [neighborRowFromHash]. *)
Definition row_score (x : option Vector) (norm : float32) (i : Z)
  (e : EuclidLSH) : res IDist :=
  a <- deref (lshs e) ;;
  xv <- deref x ;;
  hDist <- hDist_of (AHammingDistance a i xv) ;;
  let theta :=
    f64_div (f64_mul (float64_of_int hDist) math_Pi)
            (float64_of_int (ABitNum a)) in
  ni <- index f32_zero (norms e) i ;;
  let score :=
    f32_mul ni (f32_sub ni (f32_mul (f32_mul f32_two norm)
                                    (to_float32 (math_Cos theta)))) in
  Val (mkIDist (i + 1) score).

Fixpoint score_rows (x : option Vector) (norm : float32) (n : nat) (i : Z)
  (e : EuclidLSH) : res (list IDist) :=
  match n with
  | O => Val []
  | S k =>
      d <- row_score x norm i e ;;
      rest <- score_rows x norm k (i + 1) e ;;
      Val (d :: rest)
  end.

Definition neighborRowFromHash (x : option Vector) (norm : float32) (size : Z)
  : M (list IDist) := fun e =>
  buf <- score_rows x norm (Z.to_nat (len (norms e))) 0 e ;;
  let buf := sort_Sort sortByDist_Less buf in
  let k := minInt size (Z.of_nat (length buf)) in
  if k <? 0 then Panic
  else
    let squaredNorm := f32_mul norm norm in
    Val (map (fun b => mkIDist (IDist_ID b)
                               (sqrt32 (f32_add squaredNorm (IDist_Dist b))))
             (firstn (Z.to_nat k) buf),
         e).

Definition NeighborRowFromID (id : ID) (size : Z) : M (list IDist) := fun e =>
  a <- deref (lshs e) ;;
  match AGet a (id - 1) with
  | Val x =>
      n <- index f32_zero (norms e) (id - 1) ;;
      neighborRowFromHash (Some x) n size e
  | Err _ =>
      (* Get returns a nil vector with its error *)
      n <- index f32_zero (norms e) (id - 1) ;;
      neighborRowFromHash None n size e
  | Panic => Panic
  end.

Definition NeighborRowFromFV (v : FeatureVector) (size : Z) : M (list IDist) :=
  fun e =>
  a <- deref (lshs e) ;;
  x <- cosineLSH v (ABitNum a) ;;
  neighborRowFromHash x (l2Norm v) size e.

End Index.

End nearest.

(* ===================================================================== *)
(** * Vocabulary of the statements *)
(* ===================================================================== *)

Import Go bitvector.

(** A slice of the running program: its length lies within its capacity,
    and its capacity within what the runtime allocates (2^48 bytes, that is
    2^45 words). *)
Definition slice_ok {A : Type} (s : slice A) : Prop :=
  0 <= slen s <= cap s /\ cap s <= 2 ^ 45.

(** Every cell is a 64-bit word. *)
Definition cells_ok (cs : list Z) : Prop :=
  Forall (fun w => 0 <= w < 2 ^ 64) cs.
Definition words_ok (s : buf) : Prop := cells_ok (cells s).

(** The three fields of a [generalArray] (and of the two specializations
    with the same fields): a positive width and a buffer that holds the
    [len] elements. *)
Definition packed_ok (data : buf) (bitNum len : Z) : Prop :=
  slice_ok data /\ words_ok data /\
  0 < bitNum /\ 0 <= len /\ bitNum * len <= 64 * slen data.

(** An array of the running program, each specialization with the widths
    the selection table of the specification gives it; the general-packed
    baseline is taken at every width. *)
Definition array_ok (a : Array) : Prop :=
  match a with
  | General g =>
      packed_ok (generalArray.data g) (generalArray.bitNum g) (generalArray.len g)
  | SmallBits s =>
      let g := smallBitsArray.ga s in
      packed_ok (generalArray.data g) (generalArray.bitNum g) (generalArray.len g)
      /\ generalArray.bitNum g < 64
  | Word w =>
      slice_ok (wordArray.data w) /\ words_ok (wordArray.data w)
  | SmallPowerOfTwoBits p =>
      packed_ok (smallPowerOfTwoBitsArray.data p)
                (smallPowerOfTwoBitsArray.bitNum p)
                (smallPowerOfTwoBitsArray.len p)
      /\ In (smallPowerOfTwoBitsArray.bitNum p) [1; 2; 4; 8; 16; 32]
  | MultipleOfWordBits m =>
      slice_ok (multipleOfWordBitsArray.data m)
      /\ words_ok (multipleOfWordBitsArray.data m)
      /\ 64 < multipleOfWordBitsArray.bitNum m
      /\ multipleOfWordBitsArray.bitNum m mod 64 = 0
  end.

(** A bit-vector of width [b]: [ceil(b/64)] words, and no bit set at or
    above position [b]. *)
Definition vector_ok (b : Z) (v : Vector) : Prop :=
  vbitNum v = b /\ 0 < b /\
  slice_ok (vdata v) /\ words_ok (vdata v) /\
  slen (vdata v) = (b + 63) / 64 /\
  (forall k, 0 <= k < slen (vdata v) ->
     forall i, b <= 64 * k + i -> 0 <= i ->
       Z.testbit (nth (Z.to_nat k) (cells (vdata v)) 0) i = false).

(** The [generalArray] with the fields of an array, as the [Save] methods
    build it. *)
Definition as_general (a : Array) : generalArray.t :=
  match a with
  | General g => g
  | SmallBits s => smallBitsArray.ga s
  | Word w => generalArray.mk (wordArray.data w) wordBits (len (wordArray.data w))
  | SmallPowerOfTwoBits p =>
      generalArray.mk (smallPowerOfTwoBitsArray.data p)
                      (smallPowerOfTwoBitsArray.bitNum p)
                      (smallPowerOfTwoBitsArray.len p)
  | MultipleOfWordBits m =>
      generalArray.mk (multipleOfWordBitsArray.data m)
                      (multipleOfWordBitsArray.bitNum m)
                      (multipleOfWordBitsArray.Len m)
  end.

Definition is_MultipleOfWordBits (a : Array) : bool :=
  match a with
  | MultipleOfWordBits _ => true
  | _ => false
  end.

(** A bit-vector of the given words. *)
Definition vector_of (bitNum : Z) (ws : list word) : Vector :=
  mkVector (mkslice ws (Z.of_nat (length ws))) bitNum.

(** Bit [k] of a packed buffer: bit [k mod 64] of word [k / 64]. *)
Definition bit_at (cs : list Z) (k : Z) : bool :=
  Z.testbit (nth (Z.to_nat (k / 64)) cs 0) (k mod 64).

(** Two buffers with the same bits on [lo, hi). *)
Definition same_bits (cs cs' : list Z) (lo hi : Z) : Prop :=
  forall k, lo <= k < hi -> bit_at cs k = bit_at cs' k.

(** The words of the vector [generalArray.Get] returns for row [n] of a
    buffer with the cells [cs], branch by branch as the method computes
    them. *)
Definition general_words (cs : list Z) (b n : Z) : list Z :=
  let lbit := n * b in
  let rbit := lbit + b in
  let l := lbit / 64 in
  let r := rbit / 64 in
  let lo := lbit mod 64 in
  let ro := rbit mod 64 in
  let retLen := (b + 63) / 64 in
  if (l =? r) || ((l + 1 =? r) && (ro =? 0)) then
    [Z.land (Z.shiftr (nth (Z.to_nat l) cs 0) lo) (leastBits b)]
  else if lo =? 0 then
    let ws := firstn (Z.to_nat retLen) (skipn (Z.to_nat l) cs) in
    if ro =? 0 then ws
    else overwrite ws (Z.to_nat (retLen - 1))
           [Z.land (nth (Z.to_nat (retLen - 1)) ws 0) (Z.ones ro)]
  else
    let leftBits := Z.shiftr (nth (Z.to_nat l) cs 0) lo in
    let dr := nth (Z.to_nat r) cs 0 in
    let mid := firstn (Z.to_nat (r - (l + 1))) (skipn (Z.to_nat (l + 1)) cs) in
    let ws := overwrite (repeat 0 (Z.to_nat retLen)) 0 mid in
    if ro =? 0 then overwrite ws (Z.to_nat (retLen - 1)) [leftBits]
    else if 64 - lo + ro <=? 64 then
      overwrite ws (Z.to_nat (retLen - 1))
        [set_bits (set_bits 0 0 dr ro) ro leftBits (64 - lo)]
    else
      overwrite
        (overwrite ws (Z.to_nat (retLen - 2))
           [set_bits (set_bits 0 0 dr ro) ro leftBits (64 - ro)])
        (Z.to_nat (retLen - 1))
        [set_bits 0 0 (Z.shiftr leftBits (64 - ro)) (b mod 64)].

(** The buffer of an array. *)
Definition storage (a : Array) : buf := generalArray.data (as_general a).

(** A call [Resize(n)] whose buffers stay within what the runtime
    allocates. *)
Definition resize_fits (a : Array) (n : Z) : Prop :=
  2 * cap (storage a) <= 2 ^ 45 /\ ABitNum a * n <= 2 ^ 50.

(** No bit is set in the buffer at or beyond the rows of the array. *)
Definition tail_zero (a : Array) : Prop :=
  forall k, ABitNum a * ALen a <= k -> bit_at (cells (storage a)) k = false.

(** The all-zero words of a vector of width [b]. *)
Definition zero_words (b : Z) : list Z := repeat 0 (Z.to_nat ((b + 63) / 64)).

(** The widths [createArray] gives the general-packed specialization:
    above the word width and not a multiple of it. *)
Definition proper_width (a : Array) : Prop :=
  match a with
  | General g => 64 < generalArray.bitNum g /\ generalArray.bitNum g mod 64 <> 0
  | _ => True
  end.

(** What [Resize] leaves on each specialization: an array of the new
    length and the old width, in a buffer that at most doubles what the
    rows need, with the old bits where the old buffer had them and zeros
    in what was allocated. *)
Definition resized (a a' : Array) (n : Z) : Prop :=
  array_ok a' /\ ALen a' = n /\ ABitNum a' = ABitNum a /\
  (proper_width a -> proper_width a') /\
  cap (storage a') <= Z.max (cap (storage a)) ((ABitNum a * n + 63) / 32) /\
  forall k, 0 <= k ->
    bit_at (cells (storage a')) k = bit_at (cells (storage a)) k \/
    (64 * slen (storage a) <= k /\ bit_at (cells (storage a')) k = false).

(** The record the [Save] methods encode. *)
Definition record_of (a : Array) : arrayData :=
  let g := as_general a in
  mkArrayData (generalArray.data g) (generalArray.bitNum g) (generalArray.len g).

(** A slice that holds exactly the elements another slice shows. *)
Definition exact_copy {A : Type} (s : slice A) : slice A :=
  mkslice (visible s) (Z.of_nat (length (visible s))).

(** The codec round-trips the record [d]: decoding what was encoded gives
    the two integers back and a slice of the encoded words, and leaves the
    reader at the next byte. *)
Definition codec_roundtrip (encode : arrayData -> list Byte.byte)
    (decode : decoder) (d : arrayData) : Prop :=
  forall rest,
    decode (encode d ++ rest)
    = Some (mkArrayData (exact_copy (Data d)) (BitNum d) (Len d), rest).

(** A codec for one record, for the examples: nothing is written, and the
    record is handed back. *)
Definition encode_nothing : arrayData -> list Byte.byte := fun _ => [].
Definition decode_const (d : arrayData) : decoder := fun r => Some (d, r).

(** [d'] comes from [d] by writes that stay below bit [bound]: same length
    and capacity, cells that are words, and the bits from [bound] on as
    they were. *)
Definition written_below (bound : Z) (d d' : buf) : Prop :=
  slen d' = slen d /\ cap d' = cap d /\ cells_ok (cells d') /\
  forall k, bound <= k -> bit_at (cells d') k = bit_at (cells d) k.

(** The arrays a program builds without shrinking: a new array, grown by
    [Resize] and written by [Set]. *)
Inductive grown : Array -> Prop :=
| grown_new (bitNum : Z) (a : Array) :
    bitNum <= 2 ^ 50 -> NewArray bitNum = Some a -> grown a
| grown_Resize (a a' : Array) (n : Z) :
    grown a -> resize_fits a n -> ALen a <= n -> Resize a n = Val a' -> grown a'
| grown_Set (a a' : Array) (i : Z) (v : Vector) :
    grown a -> vector_ok (ABitNum a) v -> 0 <= i < ALen a ->
    ASet a i v = Val a' -> grown a'.

(* ===================================================================== *)
(** * Vocabulary of the statements on the index *)
(* ===================================================================== *)

Import nearest.

(** An index of the running program: a sketch array of a specialization,
    as many norms as the array has rows, and buffers within what the
    runtime allocates. *)
Definition index_ok (e : EuclidLSH) : Prop :=
  exists a,
    lshs e = Some a /\ array_ok a /\ proper_width a /\
    slice_ok (norms e) /\ len (norms e) = ALen a /\
    cap (storage a) <= 2 ^ 36 /\ ABitNum a <= 2 ^ 40 /\
    cap (norms e) <= 2 ^ 41.

(** The rows up to [id] fit in what the runtime allocates. *)
Definition row_fits (e : EuclidLSH) (id : ID) : Prop :=
  exists a, lshs e = Some a /\ ABitNum a * id <= 2 ^ 40.

(** The record [save] writes first. *)
Definition norms_record (e : EuclidLSH) : euclidLSHMsgpack :=
  mkEuclidLSHMsgpack euclidLSHFormatVersion (norms e).

(** The codec round-trips the record [d]: decoding what was encoded gives
    the version back and a slice of the encoded norms, and leaves the
    reader at the next byte. *)
Definition norms_roundtrip
    (encode_lsh : euclidLSHMsgpack -> list Byte.byte)
    (decode_lsh : list Byte.byte -> option (euclidLSHMsgpack * list Byte.byte))
    (d : euclidLSHMsgpack) : Prop :=
  forall rest,
    decode_lsh (encode_lsh d ++ rest)
    = Some (mkEuclidLSHMsgpack (FormatVersion d) (exact_copy (Norms d)), rest).

(** The codec round-trips the two records of the index. *)
Definition index_roundtrip
    (encode : arrayData -> list Byte.byte) (decode : decoder)
    (encode_lsh : euclidLSHMsgpack -> list Byte.byte)
    (decode_lsh : list Byte.byte -> option (euclidLSHMsgpack * list Byte.byte))
    (e : EuclidLSH) : Prop :=
  norms_roundtrip encode_lsh decode_lsh (norms_record e) /\
  forall a, lshs e = Some a -> codec_roundtrip encode decode (record_of a).

Section Mutations.

Variable calcStringHash : string -> Z.
Variable NormFloat64 : Z -> nat -> float64.
Variable encode : arrayData -> list Byte.byte.
Variable decode : decoder.
Variable encode_lsh : euclidLSHMsgpack -> list Byte.byte.
Variable decode_lsh : list Byte.byte -> option (euclidLSHMsgpack * list Byte.byte).

(** The indexes a program reaches: a new index of a positive width, an
    index after a [SetRow] that returned, and an index loaded from what
    [save] wrote.  [save] writes the two records and no version byte, so the
    loader of its output is [loadEuclidLSHFormatV1]. *)
Inductive mutated : EuclidLSH -> Prop :=
| mutated_new (hashNum : Z) :
    0 < hashNum <= 2 ^ 40 -> mutated (NewEuclidLSH hashNum)
| mutated_SetRow (e e' : EuclidLSH) (id : ID) (v : FeatureVector) :
    mutated e -> 1 <= id -> row_fits e id ->
    SetRow calcStringHash NormFloat64 id v e = Val (tt, e') ->
    mutated e'
| mutated_load (e e' : EuclidLSH) (bytes rest : list Byte.byte) :
    mutated e ->
    index_roundtrip encode decode encode_lsh decode_lsh e ->
    save encode encode_lsh e [] = Val bytes ->
    loadEuclidLSHFormatV1 decode decode_lsh (bytes ++ rest) = Val (e', rest) ->
    mutated e'.

End Mutations.

(** ** Queries *)

(** The two public queries: by the identifier of a stored row and by a
    feature vector. *)
Inductive query : Type :=
| ByID (id : ID)
| ByFV (v : FeatureVector).

Definition run_query (math_Cos : float64 -> float64)
    (calcStringHash : string -> Z) (NormFloat64 : Z -> nat -> float64)
    (sort_Sort : (IDist -> IDist -> bool) -> list IDist -> list IDist)
    (q : query) (size : Z) : M (list IDist) :=
  match q with
  | ByID id => NeighborRowFromID math_Cos sort_Sort id size
  | ByFV v => NeighborRowFromFV math_Cos calcStringHash NormFloat64 sort_Sort v size
  end.

(** A query the index can answer: an identifier of a stored row, or any
    feature vector. *)
Definition query_ok (q : query) (e : EuclidLSH) : Prop :=
  match q with
  | ByID id => 1 <= id <= len (norms e)
  | ByFV _ => True
  end.

(** The sketch and the norm a query is run with. *)
Definition query_of (calcStringHash : string -> Z)
    (NormFloat64 : Z -> nat -> float64)
    (q : query) (a : Array) (ns : slice float32)
    (x : Vector) (qn : float32) : Prop :=
  match q with
  | ByID id =>
      AGet a (id - 1) = Val x /\ index f32_zero ns (id - 1) = Val qn
  | ByFV v =>
      cosineLSH calcStringHash NormFloat64 v (ABitNum a) = Val (Some x) /\
      qn = l2Norm v
  end.

(** The words of row [i], as [Get] returns them. *)
Definition row_words (a : Array) (i : Z) : list Z :=
  general_words (cells (storage a)) (ABitNum a) i.

(** Number of bits in which row [i] differs from the sketch [x]. *)
Definition hamming (a : Array) (i : Z) (x : Vector) : Z :=
  xor_popcount (row_words a i) (visible (vdata x)).

(** [theta_i = hammingDistance(sketch_i, querySketch) * pi / hashNum]. *)
Definition theta_at (a : Array) (x : Vector) (i : Z) : float64 :=
  f64_div (f64_mul (float64_of_int (hamming a i x)) math_Pi)
          (float64_of_int (ABitNum a)).

(** [score_i = norm_i * (norm_i - 2 * queryNorm * cos(theta_i))]. *)
Definition score_at (math_Cos : float64 -> float64) (a : Array)
    (ns : slice float32) (x : Vector) (qn : float32) (i : Z) : float32 :=
  let ni := nth (Z.to_nat i) (cells ns) f32_zero in
  f32_mul ni
    (f32_sub ni
       (f32_mul (f32_mul f32_two qn) (to_float32 (math_Cos (theta_at a x i))))).

(** The rows [0 .. len) with their identifiers and scores. *)
Definition scored (math_Cos : float64 -> float64) (a : Array)
    (ns : slice float32) (x : Vector) (qn : float32) : list IDist :=
  map (fun i => mkIDist (Z.of_nat i + 1) (score_at math_Cos a ns x qn (Z.of_nat i)))
      (seq 0 (Z.to_nat (slen ns))).

(** The result reported for a ranked row:
    [(id, sqrt(queryNorm^2 + score))]. *)
Definition estimate (qn : float32) (d : IDist) : IDist :=
  mkIDist (IDist_ID d) (sqrt32 (f32_add (f32_mul qn qn) (IDist_Dist d))).

Definition is_nan (x : spec_float) : bool :=
  match x with
  | S754_nan => true
  | _ => false
  end.

(** No score is a NaN. *)
Definition scores_ordered (l : list IDist) : Prop :=
  Forall (fun d => is_nan (IDist_Dist d) = false) l.

(** Ascending by score: no element is below one before it. *)
Definition ascending (l : list IDist) : Prop :=
  StronglySorted (fun p r => sortByDist_Less r p = false) l.

(** ** The contract of [sort.Sort] *)

(** [less] is an ordering on the elements of [l], as the documentation of
    [sort.Interface] asks of [Less]: it is asymmetric, and two elements
    neither of which is before the next leave the first not before the
    last. *)
Definition ordering_on (less : IDist -> IDist -> bool) (l : list IDist) : Prop :=
  (forall a b, In a l -> In b l -> less a b = true -> less b a = false) /\
  (forall a b c, In a l -> In b l -> In c l ->
     less a b = false -> less b c = false -> less a c = false).

(** [sort.Sort] rearranges the elements, and leaves them in order where
    [less] is an ordering on them. *)
Definition sort_contract
    (sort : (IDist -> IDist -> bool) -> list IDist -> list IDist) : Prop :=
  forall less l,
    Permutation l (sort less l) /\
    (ordering_on less l ->
     StronglySorted (fun p r => less r p = false) (sort less l)).

(** A sort for the examples: insertion sort. *)
Fixpoint insert_by (less : IDist -> IDist -> bool) (x : IDist) (l : list IDist)
  : list IDist :=
  match l with
  | [] => [x]
  | y :: l' => if less x y then x :: l else y :: insert_by less x l'
  end.

Definition sort_by (less : IDist -> IDist -> bool) (l : list IDist) : list IDist :=
  fold_right (insert_by less) [] l.

(** The position of a float that is not a NaN in the order of [<]: the
    class (negative infinity, negative, zero, positive, positive infinity),
    then the exponent and the mantissa as [<] compares them. *)
Definition float_key (x : spec_float) : Z * Z * Z :=
  match x with
  | S754_infinity true => (-2, 0, 0)
  | S754_finite true m e => (-1, - e, - Z.pos m)
  | S754_finite false m e => (1, e, Z.pos m)
  | S754_infinity false => (2, 0, 0)
  | _ => (0, 0, 0)
  end.

Definition key_lt (k1 k2 : Z * Z * Z) : Prop :=
  let '(a1, b1, c1) := k1 in
  let '(a2, b2, c2) := k2 in
  a1 < a2 \/ (a1 = a2 /\ (b1 < b2 \/ (b1 = b2 /\ c1 < c2))).

(** ** Stand-ins for the library functions, for the examples *)

Definition f64_one : float64 := S754_finite false 4503599627370496 (-52).

(** A generator whose every draw is 1. *)
Definition unit_draws : Z -> nat -> float64 := fun _ _ => f64_one.

(** A string hash: the length of the name. *)
Definition length_hash (s : string) : Z := Z.of_nat (String.length s).

(** A cosine that is 1 everywhere. *)
Definition unit_cos : float64 -> float64 := fun _ => f64_one.

(** A codec for the norms of one index, as [encode_nothing] and
    [decode_const] are for the array. *)
Definition encode_no_norms : euclidLSHMsgpack -> list Byte.byte := fun _ => [].
Definition decode_norms (d : euclidLSHMsgpack)
  : list Byte.byte -> option (euclidLSHMsgpack * list Byte.byte) :=
  fun r => Some (d, r).

(** Feature vectors of the examples. *)
Definition f32_of_Z (n : Z) : float32 := binary_normalize 24 128 n 0 false.
Definition entry (name : string) (weight : Z) : FeatureElement :=
  mkFeatureElement name (f32_of_Z weight).

(** An index of the examples: 8-bit sketches, row 1 set from the vector
    (a: 3, bb: 4), then row 3 from (ccc: -1); row 2 is what [extend]
    leaves. *)
Definition example_fv1 : FeatureVector := [entry "a" 3; entry "bb" 4].
Definition example_fv3 : FeatureVector := [entry "ccc" (-1)].
Definition after_SetRow (id : ID) (v : FeatureVector) (e : EuclidLSH) : EuclidLSH :=
  match SetRow length_hash unit_draws id v e with
  | Val (_, e') => e'
  | _ => e
  end.
Definition example_index1 : EuclidLSH := after_SetRow 1 example_fv1 (NewEuclidLSH 8).
Definition example_index : EuclidLSH := after_SetRow 3 example_fv3 example_index1.

(* ===================================================================== *)
(** * Vocabulary of the statements on rows *)
(* ===================================================================== *)

(** Where bit [j] of row [n] lies in the buffer of an array of width [b],
    as [Get] and [Set] place it.  A row that lies within a word, or starts
    at bit 0 of one, is stored in order from bit [n * b].  A row that
    starts inside a word and goes on into the next ones has its first
    whole words in the words after the first, then the bits that fill the
    low end of its last word, then the rest in the high end of its first
    word. *)
Definition bit_pos (b n j : Z) : Z :=
  let lbit := n * b in
  let rbit := lbit + b in
  let l := lbit / 64 in
  let r := rbit / 64 in
  let lo := lbit mod 64 in
  let ro := rbit mod 64 in
  if (l =? r) || ((l + 1 =? r) && (ro =? 0)) || (lo =? 0) then lbit + j
  else
    let m := r - l - 1 in
    if j <? 64 * m then 64 * (l + 1) + j
    else if j - 64 * m <? ro then 64 * r + (j - 64 * m)
    else 64 * l + lo + (j - 64 * m - ro).

(** The cells [cs'] hold the words [v] in row [n], and the bits of [cs]
    everywhere else. *)
Definition row_stored (b n : Z) (v cs cs' : list Z) : Prop :=
  (forall j, 0 <= j < b -> bit_at cs' (bit_pos b n j) = bit_at v j) /\
  (forall k, 0 <= k -> k < n * b \/ n * b + b <= k ->
     bit_at cs' k = bit_at cs k).

(** What a caller reads in a vector: its width and its words. *)
Definition same_vector (x y : Vector) : Prop :=
  vbitNum x = vbitNum y /\ visible (vdata x) = visible (vdata y).

(** ** An array and a vector for the examples *)

(** Three rows of 70 bits in four words. *)
Definition example_array : Array :=
  General (generalArray.mk (mkslice [5; 0; 7; 0] 4) 70 3).

(** The vector of 70 bits that are all set. *)
Definition example_vector : Vector :=
  vector_of 70 [18446744073709551615; 63].

(** ** The sketch of a feature vector *)

(** Entry [j] of the projection of [v]: the sum, in the order of the
    entries of [v], of each value times draw number [j] of the generator
    seeded with the hash of the name. *)
Definition projection_at (calcStringHash : string -> Z)
    (NormFloat64 : Z -> nat -> float64) (v : FeatureVector) (j : nat) : float32 :=
  fold_left
    (fun acc e =>
       f32_add acc
         (f32_mul (Value e)
            (to_float32 (NormFloat64 (int_wrap (calcStringHash (Dim e))) j))))
    v f32_zero.

(** ** Indexes that never shrank *)

(** No bit is set in the buffer beyond the rows of the array, and no norm
    is stored beyond the norms: the rows that [extend] brings in read as
    zero. *)
Definition zero_beyond (e : EuclidLSH) : Prop :=
  (forall a, lshs e = Some a -> tail_zero a) /\
  forall i, slen (norms e) <= i ->
    nth (Z.to_nat i) (cells (norms e)) f32_zero = f32_zero.

(* ===================================================================== *)
(** * Machine arithmetic *)
(* ===================================================================== *)

Lemma int_wrap_small (z : Z) : - 2 ^ 63 <= z < 2 ^ 63 -> int_wrap z = z.
Proof.
  intros H. unfold int_wrap. rewrite Z.mod_small; lia.
Qed.

Lemma imul_small (a b : Z) : - 2 ^ 63 <= a * b < 2 ^ 63 -> imul a b = a * b.
Proof. apply int_wrap_small. Qed.

Lemma iadd_small (a b : Z) : - 2 ^ 63 <= a + b < 2 ^ 63 -> iadd a b = a + b.
Proof. apply int_wrap_small. Qed.

Lemma isub_small (a b : Z) : - 2 ^ 63 <= a - b < 2 ^ 63 -> isub a b = a - b.
Proof. apply int_wrap_small. Qed.

Lemma idiv_nonneg (a b : Z) : 0 <= a -> 0 < b -> idiv a b = a / b.
Proof. intros. apply Z.quot_div_nonneg; lia. Qed.

Lemma imod_nonneg (a b : Z) : 0 <= a -> 0 < b -> imod a b = a mod b.
Proof. intros. apply Z.rem_mod_nonneg; lia. Qed.

Lemma to_word_small (z : Z) : 0 <= z < 2 ^ 64 -> to_word z = z.
Proof. intros. unfold to_word. apply Z.mod_small; lia. Qed.

Lemma maxInt_max (a b : Z) : maxInt a b = Z.max a b.
Proof. unfold maxInt. destruct (Z.ltb_spec a b); lia. Qed.

Lemma minInt_min (a b : Z) : minInt a b = Z.min a b.
Proof. unfold minInt. destruct (Z.ltb_spec a b); lia. Qed.

(* ===================================================================== *)
(** * Slices *)
(* ===================================================================== *)

Section SliceFacts.
Context {A : Type} (zero : A).

Lemma index_in (s : slice A) (i : Z) :
  0 <= i < slen s -> index zero s i = Val (nth (Z.to_nat i) (cells s) zero).
Proof.
  intros H. unfold index.
  replace (0 <=? i) with true by (symmetry; apply Z.leb_le; lia).
  replace (i <? slen s) with true by (symmetry; apply Z.ltb_lt; lia).
  reflexivity.
Qed.

Lemma index_out (s : slice A) (i : Z) :
  i < 0 \/ slen s <= i -> index zero s i = Panic.
Proof.
  intros H. unfold index.
  destruct (Z.leb_spec 0 i); destruct (Z.ltb_spec i (slen s)); cbn; auto; lia.
Qed.

Lemma store_in (s : slice A) (i : Z) (x : A) :
  0 <= i < slen s ->
  store s i x = Val (mkslice (overwrite (cells s) (Z.to_nat i) [x]) (slen s)).
Proof.
  intros H. unfold store.
  replace (0 <=? i) with true by (symmetry; apply Z.leb_le; lia).
  replace (i <? slen s) with true by (symmetry; apply Z.ltb_lt; lia).
  reflexivity.
Qed.

Lemma overwrite_length (cs : list A) (off : nat) (src : list A) :
  (off + length src <= length cs)%nat ->
  length (overwrite cs off src) = length cs.
Proof.
  intros H. unfold overwrite.
  rewrite !length_app, length_firstn, length_skipn. lia.
Qed.

Lemma overwrite_nth (cs : list A) (off : nat) (src : list A) (k : nat) :
  (off + length src <= length cs)%nat ->
  nth k (overwrite cs off src) zero
  = if (off <=? k)%nat && (k <? off + length src)%nat
    then nth (k - off) src zero
    else nth k cs zero.
Proof.
  intros H. unfold overwrite.
  destruct (Nat.leb_spec off k) as [Hk | Hk]; cbn [andb].
  - rewrite app_nth2 by (rewrite length_firstn; lia).
    rewrite length_firstn, Nat.min_l by lia.
    destruct (Nat.ltb_spec k (off + length src)) as [Hk2 | Hk2].
    + rewrite app_nth1 by lia. reflexivity.
    + rewrite app_nth2 by lia. rewrite nth_skipn. f_equal. lia.
  - rewrite app_nth1 by (rewrite length_firstn; lia).
    rewrite nth_firstn.
    replace (k <? off)%nat with true by (symmetry; apply Nat.ltb_lt; lia).
    reflexivity.
Qed.

Lemma overwrite_nil (cs : list A) (off : nat) :
  (off <= length cs)%nat -> overwrite cs off [] = cs.
Proof.
  intros H. unfold overwrite. cbn [app length]. rewrite Nat.add_0_r.
  apply firstn_skipn.
Qed.

Lemma repeat_nth (x : A) (n k : nat) : nth k (repeat x n) x = x.
Proof.
  revert k. induction n as [| n IH]; intros [| k]; cbn; auto.
Qed.

Lemma make_cap_val (n c : Z) :
  0 <= n <= c -> make_cap zero n c = Val (mkslice (repeat zero (Z.to_nat c)) n).
Proof.
  intros H. unfold make_cap.
  replace (0 <=? n) with true by (symmetry; apply Z.leb_le; lia).
  replace (n <=? c) with true by (symmetry; apply Z.leb_le; lia).
  reflexivity.
Qed.

Lemma make_val (n : Z) :
  0 <= n -> make zero n = Val (mkslice (repeat zero (Z.to_nat n)) n).
Proof. intros H. apply make_cap_val. lia. Qed.

Lemma slice_to_val (s : slice A) (n : Z) :
  0 <= n <= cap s -> slice_to s n = Val (mkslice (cells s) n).
Proof.
  intros H. unfold slice_to.
  replace (0 <=? n) with true by (symmetry; apply Z.leb_le; lia).
  replace (n <=? cap s) with true by (symmetry; apply Z.leb_le; lia).
  reflexivity.
Qed.

Lemma slice_from_val (s : slice A) (lo : Z) :
  0 <= lo <= slen s ->
  slice_from s lo = Val (mkslice (skipn (Z.to_nat lo) (cells s)) (slen s - lo)).
Proof.
  intros H. unfold slice_from.
  replace (0 <=? lo) with true by (symmetry; apply Z.leb_le; lia).
  replace (lo <=? slen s) with true by (symmetry; apply Z.leb_le; lia).
  reflexivity.
Qed.

Lemma slice_range_val (s : slice A) (lo hi : Z) :
  0 <= lo <= hi -> hi <= cap s ->
  slice_range s lo hi = Val (mkslice (skipn (Z.to_nat lo) (cells s)) (hi - lo)).
Proof.
  intros H1 H2. unfold slice_range.
  replace (0 <=? lo) with true by (symmetry; apply Z.leb_le; lia).
  replace (lo <=? hi) with true by (symmetry; apply Z.leb_le; lia).
  replace (hi <=? cap s) with true by (symmetry; apply Z.leb_le; lia).
  reflexivity.
Qed.

Lemma copy_from_val (s : slice A) (lo : Z) (src : slice A) :
  0 <= lo <= slen s ->
  copy_from s lo src
  = Val (mkslice (overwrite (cells s) (Z.to_nat lo)
                    (firstn (Z.to_nat (Z.min (slen s - lo) (slen src))) (cells src)))
                 (slen s)).
Proof.
  intros H. unfold copy_from.
  replace (0 <=? lo) with true by (symmetry; apply Z.leb_le; lia).
  replace (lo <=? slen s) with true by (symmetry; apply Z.leb_le; lia).
  reflexivity.
Qed.

Lemma copy_range_val (s : slice A) (lo hi : Z) (src : slice A) :
  0 <= lo <= hi -> hi <= cap s ->
  copy_range s lo hi src
  = Val (mkslice (overwrite (cells s) (Z.to_nat lo)
                    (firstn (Z.to_nat (Z.min (hi - lo) (slen src))) (cells src)))
                 (slen s)).
Proof.
  intros H1 H2. unfold copy_range.
  replace (0 <=? lo) with true by (symmetry; apply Z.leb_le; lia).
  replace (lo <=? hi) with true by (symmetry; apply Z.leb_le; lia).
  replace (hi <=? cap s) with true by (symmetry; apply Z.leb_le; lia).
  reflexivity.
Qed.

End SliceFacts.

(* ===================================================================== *)
(** * Bit operations on words *)
(* ===================================================================== *)

Lemma leastBits_ones (n : Z) : 0 <= n <= 64 -> leastBits n = Z.ones n.
Proof.
  intros H. unfold leastBits, shl, to_word.
  rewrite Z.shiftl_1_l, Z.ones_equiv.
  destruct (Z.eq_dec n 64) as [-> | Hn].
  - reflexivity.
  - assert (0 < 2 ^ n < 2 ^ 64).
    { split; [apply Z.pow_pos_nonneg; lia | apply Z.pow_lt_mono_r; lia]. }
    rewrite (Z.mod_small (2 ^ n)) by lia.
    rewrite Z.mod_small by lia. lia.
Qed.

Lemma testbit_word_high (w i : Z) :
  0 <= w < 2 ^ 64 -> 64 <= i -> Z.testbit w i = false.
Proof.
  intros Hw Hi.
  destruct (Z.eq_dec w 0) as [-> | Hn]; [apply Z.testbit_0_l |].
  apply Z.bits_above_log2; [lia |].
  apply Z.log2_lt_pow2; [lia |].
  apply Z.lt_le_trans with (2 ^ 64); [lia | apply Z.pow_le_mono_r; lia].
Qed.

Lemma word_of_bits (w : Z) :
  0 <= w -> (forall i, 64 <= i -> Z.testbit w i = false) -> 0 <= w < 2 ^ 64.
Proof.
  intros Hw H. split; [assumption |].
  destruct (Z.eq_dec w 0) as [-> | Hn]; [reflexivity |].
  destruct (Z.lt_ge_cases w (2 ^ 64)) as [Hlt | Hge]; [assumption | exfalso].
  assert (Hl : 64 <= Z.log2 w) by (apply Z.log2_le_pow2; lia).
  specialize (H (Z.log2 w) Hl).
  rewrite Z.bit_log2 in H by lia. discriminate.
Qed.

Lemma shl_testbit (x s i : Z) :
  0 <= s -> 0 <= i ->
  Z.testbit (shl x s) i = (i <? 64) && (s <=? i) && Z.testbit x (i - s).
Proof.
  intros Hs Hi. unfold shl.
  rewrite Z.testbit_mod_pow2 by lia.
  destruct (Z.ltb_spec i 64); cbn [andb]; [| reflexivity].
  destruct (Z.leb_spec s i); cbn [andb].
  - apply Z.shiftl_spec; lia.
  - apply Z.shiftl_spec_low; lia.
Qed.

Lemma shl_range (x s : Z) : 0 <= shl x s < 2 ^ 64.
Proof. unfold shl. apply Z.mod_pos_bound. reflexivity. Qed.

Lemma wnot_testbit (x i : Z) :
  0 <= i -> Z.testbit (wnot x) i = xorb (Z.testbit x i) (i <? 64).
Proof.
  intros Hi. unfold wnot. rewrite Z.lxor_spec.
  rewrite Z.testbit_ones_nonneg by lia. reflexivity.
Qed.

(** What [set] leaves in the word: the [n] low bits of [x] at [offset],
    the bits of [w] elsewhere. *)
Lemma set_bits_testbit (w offset x n i : Z) :
  0 <= w < 2 ^ 64 -> 0 <= offset -> 0 <= n -> offset + n <= 64 -> 0 <= i ->
  Z.testbit (set_bits w offset x n) i
  = if (offset <=? i) && (i <? offset + n)
    then Z.testbit x (i - offset)
    else Z.testbit w i.
Proof.
  intros Hw Ho Hn Hon Hi. unfold set_bits.
  rewrite leastBits_ones by lia.
  rewrite Z.lor_spec, !Z.land_spec, wnot_testbit, !shl_testbit by lia.
  rewrite Z.testbit_ones by lia.
  destruct (Z.ltb_spec i 64) as [H64 | H64]; cbn [andb xorb].
  - destruct (Z.leb_spec offset i) as [Hoi | Hoi]; cbn [andb].
    + replace (0 <=? i - offset) with true by (symmetry; apply Z.leb_le; lia).
      cbn [andb].
      destruct (Z.ltb_spec (i - offset) n); destruct (Z.ltb_spec i (offset + n));
        try lia; cbn [xorb andb negb].
      * rewrite andb_false_r, andb_true_r. reflexivity.
      * rewrite andb_true_r, andb_false_r, orb_false_r. reflexivity.
    + cbn [xorb]. rewrite andb_true_r, orb_false_r. reflexivity.
  - rewrite (testbit_word_high w i) by lia.
    destruct ((offset <=? i) && (i <? offset + n)) eqn:E; [| reflexivity].
    apply andb_true_iff in E. destruct E as [_ E]. apply Z.ltb_lt in E. lia.
Qed.

Lemma set_bits_range (w offset x n : Z) :
  0 <= w < 2 ^ 64 -> 0 <= set_bits w offset x n < 2 ^ 64.
Proof.
  intros Hw. unfold set_bits.
  assert (Hm := shl_range (leastBits n) offset).
  assert (Hs := shl_range x offset).
  assert (H1 : 0 <= Z.land (shl x offset) (shl (leastBits n) offset))
    by (apply Z.land_nonneg; lia).
  assert (H2 : 0 <= Z.land w (wnot (shl (leastBits n) offset)))
    by (apply Z.land_nonneg; lia).
  apply word_of_bits; [apply Z.lor_nonneg; lia |].
  intros i Hi. rewrite Z.lor_spec, !Z.land_spec.
  rewrite (testbit_word_high w i), (testbit_word_high (shl x offset) i) by lia.
  reflexivity.
Qed.

(** [set] reads only the [n] low bits of [x]. *)
Lemma set_bits_ext (w offset x y n : Z) :
  0 <= w < 2 ^ 64 -> 0 <= offset -> 0 <= n -> offset + n <= 64 ->
  (forall j, 0 <= j < n -> Z.testbit x j = Z.testbit y j) ->
  set_bits w offset x n = set_bits w offset y n.
Proof.
  intros Hw Ho Hn Hon H. apply Z.bits_inj'. intros i Hi.
  rewrite !set_bits_testbit by lia.
  destruct (Z.leb_spec offset i); destruct (Z.ltb_spec i (offset + n));
    cbn [andb]; auto.
  apply H. lia.
Qed.

Lemma land_ones_word (x b : Z) : 0 <= b <= 64 -> 0 <= Z.land x (Z.ones b) < 2 ^ 64.
Proof.
  intros H. rewrite Z.land_ones by lia.
  assert (0 < 2 ^ b) by (apply Z.pow_pos_nonneg; lia).
  assert (2 ^ b <= 2 ^ 64) by (apply Z.pow_le_mono_r; lia).
  pose proof (Z.mod_pos_bound x (2 ^ b)). lia.
Qed.

(** [set(&s[k], offset, x, n)] on a cell of the slice. *)
Lemma set_val (s : buf) (k offset x n : Z) :
  0 <= k < slen s ->
  set s k offset x n
  = Val (mkslice (overwrite (cells s) (Z.to_nat k)
                    [set_bits (nth (Z.to_nat k) (cells s) 0) offset x n])
                 (slen s)).
Proof.
  intros H. unfold set. rewrite index_in by lia. cbn [bind].
  apply store_in. lia.
Qed.

(* ===================================================================== *)
(** * Population count *)
(* ===================================================================== *)

Lemma popcount_ext (n : nat) (x y : Z) :
  (forall i, 0 <= i < Z.of_nat n -> Z.testbit x i = Z.testbit y i) ->
  popcount n x = popcount n y.
Proof.
  revert x y. induction n as [| n IH]; intros x y H; [reflexivity |].
  cbn [popcount]. f_equal.
  - rewrite <- !Z.bit0_odd. f_equal. apply H. lia.
  - apply IH. intros i Hi. rewrite !Z.div2_spec, !Z.shiftr_spec by lia.
    apply H. lia.
Qed.

Lemma popcount_nonneg (n : nat) (x : Z) : 0 <= popcount n x <= Z.of_nat n.
Proof.
  revert x. induction n as [| n IH]; intros x; cbn [popcount]; [lia |].
  specialize (IH (Z.div2 x)). destruct (Z.odd x); cbn [Z.b2z]; lia.
Qed.

Lemma popcount_zero (n : nat) (x : Z) :
  (forall i, 0 <= i < Z.of_nat n -> Z.testbit x i = false) -> popcount n x = 0.
Proof.
  intros H. rewrite (popcount_ext n x 0).
  - clear. induction n as [| n IH]; cbn [popcount]; auto.
  - intros i Hi. rewrite Z.testbit_0_l. auto.
Qed.

(** Bits that are 0 above position [m] do not count. *)
Lemma popcount_narrow (m n : nat) (x : Z) :
  (m <= n)%nat ->
  (forall i, Z.of_nat m <= i < Z.of_nat n -> Z.testbit x i = false) ->
  popcount n x = popcount m x.
Proof.
  revert n x. induction m as [| m IH]; intros n x Hmn H.
  - cbn [popcount]. apply popcount_zero. intros i Hi. apply H. lia.
  - destruct n as [| n]; [lia |]. cbn [popcount]. f_equal.
    apply IH; [lia |]. intros i Hi.
    rewrite Z.div2_spec, Z.shiftr_spec by lia. apply H. lia.
Qed.

Lemma popcount_bit (x : Z) : 0 <= x <= 1 -> popcount 64 x = x.
Proof.
  intros H. assert (E : x = 0 \/ x = 1) by lia.
  destruct E as [-> | ->]; reflexivity.
Qed.

(* ===================================================================== *)
(** * Specialization selection *)
(* ===================================================================== *)

Lemma lxor_pred_nonzero (b : Z) : Z.lxor b (b - 1) <> 0.
Proof.
  intro H. apply Z.lxor_eq in H. lia.
Qed.

(** C2, as the code has it: below the word width [createArray] never
    selects the power-of-two-packed specialization, because
    [bitNum ^ (bitNum-1)] is an exclusive or and is never 0; a power of two
    such as 8 gets the small general-packed one. *)
Theorem createArray_small_is_smallBits (data : buf) (bitNum len : Z) :
  0 < bitNum < 64 -> 0 <= len ->
  createArray data bitNum len
  = Some (SmallBits (smallBitsArray.mk (generalArray.mk data bitNum len))).
Proof.
  intros Hb Hl. unfold createArray, wordBits.
  replace (bitNum <=? 0) with false by (symmetry; apply Z.leb_gt; lia).
  replace (len <? 0) with false by (symmetry; apply Z.ltb_ge; lia).
  replace (bitNum <? 64) with true by (symmetry; apply Z.ltb_lt; lia).
  cbn [orb].
  destruct (Z.eqb_spec (Z.lxor bitNum (bitNum - 1)) 0) as [E | _].
  - exfalso. exact (lxor_pred_nonzero _ E).
  - reflexivity.
Qed.

Lemma createArray_small_is_smallBits_witness :
  createArray nil_slice 8 0
  = Some (SmallBits (smallBitsArray.mk (generalArray.mk nil_slice 8 0))).
Proof.
  apply (createArray_small_is_smallBits nil_slice 8 0); lia.
Defined.

(* ===================================================================== *)
(** * Error results of HammingDistance *)
(* ===================================================================== *)

(** C4, refuted as stated: on the multi-word-aligned specialization an
    index at or above the length is not answered by an error; the array of
    width 128 and length 0 panics at index 0. *)
Lemma HammingDistance_multi_out_of_range_panics :
  let a := MultipleOfWordBits (multipleOfWordBitsArray.mk nil_slice 128) in
  let v := vector_of 128 [0; 0] in
  vbitNum v = ABitNum a /\ ALen a <= 0 /\
  AHammingDistance a 0 v = Panic /\
  AHammingDistance a 0 v <> Err (InvalidIndex 0).
Proof.
  cbv zeta. repeat split; try (vm_compute; congruence); discriminate.
Qed.

(** C4, amended: a vector of another width is answered by BitWidthMismatch
    on every specialization; with the right width, a negative index is
    answered by IndexOutOfRange on every specialization, and an index at or
    above the length on every specialization but the multi-word-aligned
    one, which leaves that check out. *)
Theorem HammingDistance_errors (a : Array) (i : Z) (v : Vector) :
  vbitNum v <> ABitNum a \/ i < 0 \/
    (ALen a <= i /\ is_MultipleOfWordBits a = false) ->
  AHammingDistance a i v
  = Err (if ABitNum a =? vbitNum v then InvalidIndex i
         else BitNumMismatch (ABitNum a) (vbitNum v)).
Proof.
  intros H.
  destruct (Z.eqb_spec (ABitNum a) (vbitNum v)) as [E | NE].
  - assert (Hi : i < 0 \/ (ALen a <= i /\ is_MultipleOfWordBits a = false))
      by (destruct H as [H | [H | H]]; [congruence | auto | auto]).
    clear H.
    destruct a as [g | s | w | p | m]; cbn in E, Hi |- *.
    + unfold generalArray.HammingDistance, bitvector.HammingDistance.
      rewrite E, Z.eqb_refl. cbn [negb].
      unfold generalArray.Get.
      replace ((i <? 0) || (i >=? generalArray.len g)) with true; [reflexivity|].
      symmetry. apply orb_true_iff. unfold generalArray.Len in Hi.
      destruct Hi as [Hi | [Hi _]]; [left; apply Z.ltb_lt | right; apply Z.geb_le]; lia.
    + unfold smallBitsArray.HammingDistance.
      rewrite E, Z.eqb_refl. cbn [negb].
      replace ((i <? 0) || (i >=? smallBitsArray.Len s)) with true; [reflexivity|].
      symmetry. apply orb_true_iff.
      destruct Hi as [Hi | [Hi _]]; [left; apply Z.ltb_lt | right; apply Z.geb_le]; lia.
    + unfold wordArray.HammingDistance, wordArray.BitNum in *.
      rewrite <- E, Z.eqb_refl. cbn [negb].
      replace ((i <? 0) || (i >=? wordArray.Len w)) with true; [reflexivity|].
      symmetry. apply orb_true_iff.
      destruct Hi as [Hi | [Hi _]]; [left; apply Z.ltb_lt | right; apply Z.geb_le]; lia.
    + unfold smallPowerOfTwoBitsArray.HammingDistance,
        smallPowerOfTwoBitsArray.BitNum in *.
      rewrite E, Z.eqb_refl. cbn [negb].
      replace ((i <? 0) || (i >=? smallPowerOfTwoBitsArray.Len p)) with true;
        [reflexivity|].
      symmetry. apply orb_true_iff.
      destruct Hi as [Hi | [Hi _]]; [left; apply Z.ltb_lt | right; apply Z.geb_le]; lia.
    + unfold multipleOfWordBitsArray.HammingDistance,
        multipleOfWordBitsArray.BitNum in *.
      rewrite E, Z.eqb_refl. cbn [negb].
      destruct Hi as [Hi | [_ Hi]]; [|discriminate].
      replace (i <? 0) with true by (symmetry; apply Z.ltb_lt; lia).
      reflexivity.
  - destruct a as [g | s | w | p | m]; cbn in NE |- *.
    + unfold generalArray.HammingDistance, bitvector.HammingDistance.
      replace (generalArray.BitNum g =? vbitNum v) with false
        by (symmetry; apply Z.eqb_neq; exact NE).
      reflexivity.
    + unfold smallBitsArray.HammingDistance.
      replace (smallBitsArray.BitNum s =? vbitNum v) with false
        by (symmetry; apply Z.eqb_neq; exact NE).
      reflexivity.
    + unfold wordArray.HammingDistance, wordArray.BitNum in *.
      replace (vbitNum v =? wordBits) with false
        by (symmetry; apply Z.eqb_neq; congruence).
      reflexivity.
    + unfold smallPowerOfTwoBitsArray.HammingDistance,
        smallPowerOfTwoBitsArray.BitNum in *.
      replace (smallPowerOfTwoBitsArray.bitNum p =? vbitNum v) with false
        by (symmetry; apply Z.eqb_neq; exact NE).
      reflexivity.
    + unfold multipleOfWordBitsArray.HammingDistance,
        multipleOfWordBitsArray.BitNum in *.
      replace (multipleOfWordBitsArray.bitNum m =? vbitNum v) with false
        by (symmetry; apply Z.eqb_neq; exact NE).
      reflexivity.
Qed.

Lemma HammingDistance_errors_witness :
  AHammingDistance (Word (wordArray.mk nil_slice)) 3 (vector_of 64 [0])
  = Err (InvalidIndex 3).
Proof.
  apply (HammingDistance_errors (Word (wordArray.mk nil_slice)) 3 (vector_of 64 [0])).
  right. right. split; [vm_compute; congruence | reflexivity].
Defined.

(* ===================================================================== *)
(** * Reading an element: common arithmetic *)
(* ===================================================================== *)

(** Bit positions of row [n] in a buffer that holds [len] rows. *)
Lemma packed_positions (d : buf) (b len n : Z) :
  packed_ok d b len -> 0 <= n < len ->
  imul n b = n * b /\ iadd (n * b) b = n * b + b /\
  0 <= n * b /\ n * b + b <= 64 * slen d /\ slen d <= 2 ^ 45 /\
  0 <= slen d <= cap d.
Proof.
  intros (Hs & _ & Hb & Hl & Hfit) Hn.
  destruct Hs as [Hs1 Hs2].
  assert (H1 : 0 <= n * b) by nia.
  assert (H2 : n * b + b <= b * len) by nia.
  assert (H3 : slen d <= 2 ^ 45) by lia.
  repeat split; try lia.
  - apply imul_small. lia.
  - apply iadd_small. lia.
Qed.

Lemma nWords_one (b : Z) : 0 < b <= 2 ^ 60 -> nWords b 1 = (b + 63) / 64.
Proof.
  intros H. unfold nWords, wordBits.
  rewrite imul_small by lia. rewrite iadd_small by lia.
  rewrite idiv_nonneg by lia. f_equal. lia.
Qed.

Lemma vector_ok_head (b : Z) (v : Vector) :
  vector_ok b v -> b <= 64 ->
  index 0 (vdata v) 0 = Val (nth 0 (cells (vdata v)) 0) /\
  visible (vdata v) = [nth 0 (cells (vdata v)) 0].
Proof.
  intros (_ & Hb & (Hs1 & Hs2) & _ & Hlen & _) H64.
  assert (E : slen (vdata v) = 1).
  { rewrite Hlen. Z.div_mod_to_equations. lia. }
  split.
  - apply index_in. lia.
  - unfold visible. rewrite E. unfold cap in Hs1.
    destruct (cells (vdata v)) as [| c cs]; [cbn in Hs1; lia | reflexivity].
Qed.

Lemma words_ok_nth (d : buf) (k : nat) :
  words_ok d -> 0 <= nth k (cells d) 0 < 2 ^ 64.
Proof.
  intros H. unfold words_ok, cells_ok in H. rewrite Forall_forall in H.
  destruct (Nat.lt_ge_cases k (length (cells d))) as [Hk | Hk].
  - apply H. apply nth_In. exact Hk.
  - rewrite nth_overflow by lia. lia.
Qed.

(* ===================================================================== *)
(** * smallBitsArray *)
(* ===================================================================== *)

Lemma smallBits_HammingDistance_get (s : smallBitsArray.t) (n : Z) (v : Vector) :
  smallBitsArray.HammingDistance s n v
  = if negb (smallBitsArray.BitNum s =? vbitNum v)
    then Err (BitNumMismatch (smallBitsArray.BitNum s) (vbitNum v))
    else x <- smallBitsArray.get s n ;;
         v0 <- index 0 (vdata v) 0 ;;
         Val (bitcount (Z.lxor x v0)).
Proof.
  unfold smallBitsArray.HammingDistance, smallBitsArray.get.
  destruct (negb (smallBitsArray.BitNum s =? vbitNum v)); [reflexivity |].
  destruct ((n <? 0) || (n >=? smallBitsArray.Len s)); [reflexivity |].
  cbv zeta.
  destruct ((_ =? _) || (_ =? 0)); reflexivity.
Qed.

Ltac bool_cases :=
  repeat match goal with
    | |- context [?a <? ?b] => destruct (Z.ltb_spec a b)
    | |- context [?a <=? ?b] => destruct (Z.leb_spec a b)
    end;
  cbn [andb orb negb xorb];
  rewrite ?andb_true_r, ?andb_false_r, ?orb_false_r, ?orb_true_r,
    ?andb_true_l, ?andb_false_l, ?orb_false_l, ?orb_true_l, ?Z.sub_0_r, ?Z.add_0_l.

Lemma in_range_test (n len : Z) :
  0 <= n < len -> (n <? 0) || (n >=? len) = false.
Proof.
  intros H. apply orb_false_iff. split; [apply Z.ltb_ge; lia |].
  rewrite Z.geb_leb. apply Z.leb_gt. lia.
Qed.




(** An element narrower than a word: the word [smallBitsArray.get] returns
    is the one the general-packed [Get] returns. *)
Lemma smallBits_get_general (d : buf) (b len n : Z) :
  packed_ok d b len -> b < 64 -> 0 <= n < len ->
  exists x,
    0 <= x < 2 ^ 64 /\
    smallBitsArray.get (smallBitsArray.mk (generalArray.mk d b len)) n = Val x /\
    generalArray.Get (generalArray.mk d b len) n
    = Val (mkVector (mkslice [x] 1) b).
Proof.
  intros Hok Hb Hn.
  destruct (packed_positions d b len n Hok Hn) as (Em & Ea & Hl0 & Hr & Hs & Hcap).
  destruct Hok as (_ & Hw & Hb0 & _ & _).
  unfold smallBitsArray.get, generalArray.Get,
    smallBitsArray.Len, smallBitsArray.BitNum, generalArray.Len, generalArray.BitNum.
  cbn [smallBitsArray.ga generalArray.data generalArray.bitNum generalArray.len].
  rewrite in_range_test by lia. rewrite Em, Ea. unfold wordBits.
  rewrite !idiv_nonneg, !imod_nonneg by lia.
  rewrite (to_word_small (n * b)) by lia.
  rewrite (to_word_small ((n * b) mod 64)) by (pose proof (Z.mod_pos_bound (n * b) 64); lia).
  rewrite (to_word_small ((n * b + b) mod 64)) by (pose proof (Z.mod_pos_bound (n * b + b) 64); lia).
  set (lbit := n * b) in *. set (rbit := lbit + b) in *.
  assert (Hlq := Z.div_mod lbit 64 ltac:(lia)).
  assert (Hrq := Z.div_mod rbit 64 ltac:(lia)).
  assert (Hlm := Z.mod_pos_bound lbit 64 ltac:(lia)).
  assert (Hrm := Z.mod_pos_bound rbit 64 ltac:(lia)).
  set (l := lbit / 64) in *. set (r := rbit / 64) in *.
  set (lo := lbit mod 64) in *. set (ro := rbit mod 64) in *.
  assert (Hl : 0 <= l < slen d) by lia.
  assert (Hdl := words_ok_nth d (Z.to_nat l) Hw).
  assert (Hdr := words_ok_nth d (Z.to_nat r) Hw).
  rewrite !(index_in 0 d l) by lia. cbn [bind].
  rewrite leastBits_ones by lia.
  destruct (Z.eqb_spec l r) as [Elr | Nlr]; cbn [orb andb].
  - (* within one word *)
    exists (Z.land (shr (nth (Z.to_nat l) (cells d) 0) lo) (Z.ones b)).
    split; [apply land_ones_word; lia |]. split; reflexivity.
  - destruct (Z.eqb_spec ro 0) as [Ero | Nro]; cbn [orb andb].
    + (* the element ends at the word boundary *)
      replace (l + 1 =? r) with true by (symmetry; apply Z.eqb_eq; lia).
      cbn [andb].
      exists (Z.land (shr (nth (Z.to_nat l) (cells d) 0) lo) (Z.ones b)).
      split; [apply land_ones_word; lia |]. split; reflexivity.
    + (* the element straddles the words l and r = l + 1 *)
      assert (Er : r = l + 1) by lia.
      assert (Hr2 : 0 <= r < slen d) by lia.
      assert (Hlo : lo <> 0) by lia.
      replace (l + 1 =? r) with true by (symmetry; apply Z.eqb_eq; lia).
      cbn [andb].
      replace (lo =? 0) with false by (symmetry; apply Z.eqb_neq; lia).
      rewrite !(index_in 0 d r) by lia. cbn [bind].
      rewrite leastBits_ones by lia.
      rewrite nWords_one by lia.
      replace ((b + 63) / 64) with 1 by (Z.div_mod_to_equations; lia).
      rewrite make_val by lia. cbn [bind].
      change (repeat 0 (Z.to_nat 1)) with [0].
      rewrite slice_range_val by lia. cbn [bind].
      unfold copy. cbn [slen cells].
      replace (Z.to_nat (Z.min 1 (r - (l + 1)))) with 0%nat by lia.
      cbn [firstn]. rewrite overwrite_nil by (cbn; lia).
      replace (ro =? 0) with false by (symmetry; apply Z.eqb_neq; lia).
      replace (64 - lo + ro <=? 64) with true by (symmetry; apply Z.leb_le; lia).
      change (1 - 1) with 0.
      rewrite set_val by (cbn; lia). cbn [bind].
      rewrite set_val by (cbn; lia). cbn [bind].
      cbn [cells slen Z.to_nat nth overwrite firstn skipn app length Nat.add].
      set (dl := nth (Z.to_nat l) (cells d) 0) in *.
      set (dr := nth (Z.to_nat r) (cells d) 0) in *.
      assert (Hin : 0 <= set_bits 0 0 dr ro < 2 ^ 64)
        by (apply set_bits_range; lia).
      assert (Hout : 0 <= set_bits (set_bits 0 0 dr ro) ro (shr dl lo) (64 - lo) < 2 ^ 64)
        by (apply set_bits_range; lia).
      exists (set_bits (set_bits 0 0 dr ro) ro (shr dl lo) (64 - lo)).
      split; [exact Hout |]. split; [| reflexivity].
      f_equal. apply Z.bits_inj'. intros i Hi.
      rewrite !set_bits_testbit by lia.
      rewrite Z.lor_spec, Z.land_spec, shl_testbit by lia.
      rewrite Z.testbit_ones by lia. unfold shr.
      rewrite Z.testbit_0_l.
      bool_cases; try lia; try reflexivity.
      rewrite Z.shiftr_spec by lia.
      apply testbit_word_high; [exact Hdl | lia].
Qed.

(* ===================================================================== *)
(** * generalArray.Get in closed form *)
(* ===================================================================== *)

Lemma overwrite_full {A : Type} (cs src : list A) :
  length src = length cs -> overwrite cs 0 src = src.
Proof.
  intros H. unfold overwrite. cbn [firstn app Nat.add].
  rewrite skipn_all2 by lia. apply app_nil_r.
Qed.

Lemma overwrite_twice {A : Type} (cs : list A) (k : nat) (x y : A) :
  (k < length cs)%nat ->
  overwrite (overwrite cs k [x]) k [y] = overwrite cs k [y].
Proof.
  intros H. unfold overwrite. cbn [length app].
  rewrite firstn_app, firstn_firstn, Nat.min_id, length_firstn.
  replace (k - Nat.min k (length cs))%nat with 0%nat by lia.
  cbn [firstn]. rewrite app_nil_r. f_equal. f_equal.
  rewrite skipn_app, length_firstn.
  rewrite (skipn_all2 (firstn k cs)) by (rewrite length_firstn; lia).
  replace (k + 1 - Nat.min k (length cs))%nat with 1%nat by lia.
  reflexivity.
Qed.

Lemma firstn_skipn_length {A : Type} (cs : list A) (l k : nat) :
  (l + k <= length cs)%nat -> length (firstn k (skipn l cs)) = k.
Proof.
  intros H. rewrite length_firstn, length_skipn. lia.
Qed.

Lemma overwrite1_nth_same (cs : list Z) (k : nat) (x : Z) :
  (k < length cs)%nat -> nth k (overwrite cs k [x]) 0 = x.
Proof.
  intros H. rewrite overwrite_nth by (cbn [length]; lia).
  rewrite Nat.leb_refl. cbn [length andb].
  replace (k <? k + 1)%nat with true by (symmetry; apply Nat.ltb_lt; lia).
  rewrite Nat.sub_diag. reflexivity.
Qed.

Lemma overwrite1_nth_other (cs : list Z) (k j : nat) (x : Z) :
  (k < length cs)%nat -> j <> k -> nth j (overwrite cs k [x]) 0 = nth j cs 0.
Proof.
  intros H Hj. rewrite overwrite_nth by (cbn [length]; lia).
  cbn [length].
  destruct (Nat.leb_spec k j); destruct (Nat.ltb_spec j (k + 1)); cbn [andb];
    try reflexivity; lia.
Qed.

Lemma overwrite1_length (cs : list Z) (k : nat) (x : Z) :
  (k < length cs)%nat -> length (overwrite cs k [x]) = length cs.
Proof. intros H. apply overwrite_length. cbn [length]. lia. Qed.

Lemma general_Get_words (d : buf) (b len n : Z) :
  packed_ok d b len -> 0 <= n < len ->
  generalArray.Get (generalArray.mk d b len) n
  = Val (mkVector (mkslice (general_words (cells d) b n) ((b + 63) / 64)) b).
Proof.
  intros Hok Hn.
  destruct (packed_positions d b len n Hok Hn) as (Em & Ea & Hl0 & Hr & Hs & Hcap).
  destruct Hok as (_ & Hw & Hb0 & _ & _).
  unfold generalArray.Get, general_words.
  cbn [generalArray.data generalArray.bitNum generalArray.len].
  rewrite in_range_test by lia. rewrite Em, Ea. unfold wordBits.
  rewrite !idiv_nonneg, !imod_nonneg by lia.
  rewrite (to_word_small (n * b)) by lia.
  rewrite (to_word_small ((n * b) mod 64))
    by (pose proof (Z.mod_pos_bound (n * b) 64); lia).
  set (lbit := n * b) in *. set (rbit := lbit + b) in *.
  assert (Hlq := Z.div_mod lbit 64 ltac:(lia)).
  assert (Hrq := Z.div_mod rbit 64 ltac:(lia)).
  assert (Hlm := Z.mod_pos_bound lbit 64 ltac:(lia)).
  assert (Hrm := Z.mod_pos_bound rbit 64 ltac:(lia)).
  assert (Hbq := Z.div_mod b 64 ltac:(lia)).
  assert (Hbm := Z.mod_pos_bound b 64 ltac:(lia)).
  assert (Htq := Z.div_mod (b + 63) 64 ltac:(lia)).
  assert (Htm := Z.mod_pos_bound (b + 63) 64 ltac:(lia)).
  set (l := lbit / 64) in *. set (r := rbit / 64) in *.
  set (lo := lbit mod 64) in *. set (ro := rbit mod 64) in *.
  set (retLen := (b + 63) / 64) in *.
  assert (Hl : 0 <= l < slen d) by lia.
  assert (Hcl : Z.of_nat (length (cells d)) = cap d) by reflexivity.
  rewrite (index_in 0 d l) by lia. cbn [bind].
  rewrite nWords_one by lia. fold retLen.
  destruct ((l =? r) || ((l + 1 =? r) && (ro =? 0))) eqn:Ea1.
  - (* one word *)
    assert (Hone : retLen = 1).
    { apply orb_true_iff in Ea1. destruct Ea1 as [E | E].
      - apply Z.eqb_eq in E. lia.
      - apply andb_true_iff in E. destruct E as [E1 E2].
        apply Z.eqb_eq in E1. apply Z.eqb_eq in E2. lia. }
    rewrite Hone. reflexivity.
  - apply orb_false_iff in Ea1. destruct Ea1 as [Nlr Ea2].
    apply Z.eqb_neq in Nlr.
    assert (Hlr : l < r) by lia.
    assert (Hrs : r <= slen d) by lia.
    rewrite make_val by lia. cbn [bind].
    destruct (Z.eqb_spec lo 0) as [Elo | Nlo].
    + (* aligned start *)
      rewrite slice_from_val by lia. cbn [bind].
      unfold copy. cbn [slen cells].
      replace (Z.min retLen (slen d - l)) with retLen by lia.
      rewrite overwrite_full
        by (rewrite firstn_skipn_length, repeat_length; lia).
      destruct (Z.eqb_spec ro 0) as [Ero | Nro]; cbn [negb bind].
      * reflexivity.
      * rewrite index_in by (cbn [slen]; lia). cbn [bind cells].
        rewrite store_in by (cbn [slen]; lia). cbn [cells slen].
        rewrite leastBits_ones by lia. reflexivity.
    + (* unaligned start *)
      rewrite slice_range_val by lia. cbn [bind].
      unfold copy. cbn [slen cells].
      replace (Z.min retLen (r - (l + 1))) with (r - (l + 1)) by lia.
      set (mid := firstn (Z.to_nat (r - (l + 1))) (skipn (Z.to_nat (l + 1)) (cells d))).
      assert (Hmid : length mid = Z.to_nat (r - (l + 1)))
        by (apply firstn_skipn_length; lia).
      set (ws := overwrite (repeat 0 (Z.to_nat retLen)) 0 mid).
      assert (Hws : length ws = Z.to_nat retLen).
      { unfold ws. rewrite overwrite_length; rewrite repeat_length; lia. }
      assert (Hzero : forall k, (Z.to_nat (r - (l + 1)) <= k)%nat -> nth k ws 0 = 0).
      { intros k Hk. unfold ws.
        rewrite overwrite_nth by (rewrite repeat_length; lia).
        destruct (Nat.ltb_spec k (0 + length mid)); [lia |].
        rewrite andb_false_r. apply repeat_nth. }
      destruct (Z.eqb_spec ro 0) as [Ero | Nro].
      * rewrite store_in by (cbn [slen]; lia). reflexivity.
      * assert (Hr2 : 0 <= r < slen d) by lia.
        rewrite (index_in 0 d r) by lia. cbn [bind].
        destruct (Z.leb_spec (64 - lo + ro) 64) as [Hfit | Hfit].
        -- rewrite set_val by (cbn [slen]; lia). cbn [bind cells slen].
           rewrite set_val by (cbn [slen]; lia). cbn [bind cells slen].
           rewrite overwrite1_nth_same by lia.
           rewrite overwrite_twice by lia.
           rewrite Hzero by lia. reflexivity.
        -- rewrite (to_word_small (64 - ro)) by lia.
           rewrite set_val by (cbn [slen]; lia). cbn [bind cells slen].
           rewrite set_val by (cbn [slen]; lia). cbn [bind cells slen].
           rewrite overwrite1_nth_same by lia.
           rewrite overwrite_twice by lia.
           rewrite set_val by (cbn [slen]; lia). cbn [bind cells slen].
           rewrite overwrite1_nth_other by lia.
           rewrite !Hzero by lia. reflexivity.
Qed.

(* ===================================================================== *)
(** * The bits a read depends on *)
(* ===================================================================== *)


Lemma cells_ok_nth (cs : list Z) (k : nat) : cells_ok cs -> 0 <= nth k cs 0 < 2 ^ 64.
Proof.
  intros H. unfold cells_ok in H. rewrite Forall_forall in H.
  destruct (Nat.lt_ge_cases k (length cs)) as [Hk | Hk].
  - apply H. apply nth_In. exact Hk.
  - rewrite nth_overflow by lia. lia.
Qed.

Lemma bit_at_word (cs : list Z) (k i : Z) :
  0 <= k -> 0 <= i < 64 ->
  bit_at cs (64 * k + i) = Z.testbit (nth (Z.to_nat k) cs 0) i.
Proof.
  intros Hk Hi. unfold bit_at.
  replace ((64 * k + i) / 64) with k by (Z.div_mod_to_equations; lia).
  replace ((64 * k + i) mod 64) with i by (Z.div_mod_to_equations; lia).
  reflexivity.
Qed.


Lemma same_bits_word (cs cs' : list Z) (lo hi k : Z) :
  cells_ok cs -> cells_ok cs' -> same_bits cs cs' lo hi ->
  0 <= k -> lo <= 64 * k -> 64 * k + 64 <= hi ->
  nth (Z.to_nat k) cs 0 = nth (Z.to_nat k) cs' 0.
Proof.
  intros Hc Hc' H Hk H1 H2. apply Z.bits_inj'. intros i Hi.
  destruct (Z.lt_ge_cases i 64) as [Hlt | Hge].
  - rewrite <- !bit_at_word by lia. apply H. lia.
  - rewrite !testbit_word_high; auto using cells_ok_nth.
Qed.

Lemma same_bits_high (cs cs' : list Z) (lo hi k s : Z) :
  cells_ok cs -> cells_ok cs' -> same_bits cs cs' lo hi ->
  0 <= k -> 0 <= s -> lo <= 64 * k + s -> 64 * k + 64 <= hi ->
  Z.shiftr (nth (Z.to_nat k) cs 0) s = Z.shiftr (nth (Z.to_nat k) cs' 0) s.
Proof.
  intros Hc Hc' H Hk Hs H1 H2. apply Z.bits_inj'. intros i Hi.
  rewrite !Z.shiftr_spec by lia.
  destruct (Z.lt_ge_cases (i + s) 64) as [Hlt | Hge].
  - rewrite <- !bit_at_word by lia. apply H. lia.
  - rewrite !testbit_word_high; auto using cells_ok_nth.
Qed.

Lemma same_bits_low (cs cs' : list Z) (lo hi k m j : Z) :
  same_bits cs cs' lo hi ->
  0 <= k -> lo <= 64 * k -> 64 * k + m <= hi -> m <= 64 -> 0 <= j < m ->
  Z.testbit (nth (Z.to_nat k) cs 0) j = Z.testbit (nth (Z.to_nat k) cs' 0) j.
Proof.
  intros H Hk H1 H2 Hm Hj.
  rewrite <- !bit_at_word by lia. apply H. lia.
Qed.

Lemma same_bits_field (cs cs' : list Z) (lo hi k s m : Z) :
  same_bits cs cs' lo hi ->
  0 <= k -> 0 <= s -> 0 <= m -> s + m <= 64 ->
  lo <= 64 * k + s -> 64 * k + s + m <= hi ->
  Z.land (Z.shiftr (nth (Z.to_nat k) cs 0) s) (Z.ones m)
  = Z.land (Z.shiftr (nth (Z.to_nat k) cs' 0) s) (Z.ones m).
Proof.
  intros H Hk Hs Hm Hsm H1 H2. apply Z.bits_inj'. intros i Hi.
  rewrite !Z.land_spec, !Z.shiftr_spec, Z.testbit_ones by lia.
  destruct (Z.ltb_spec i m) as [Hlt | Hge].
  - f_equal. rewrite <- !bit_at_word by lia. apply H. lia.
  - rewrite !andb_false_r. reflexivity.
Qed.

Lemma general_words_length (cs : list Z) (b n : Z) :
  0 < b -> 0 <= n -> n * b + b <= 64 * Z.of_nat (length cs) ->
  length (general_words cs b n) = Z.to_nat ((b + 63) / 64).
Proof.
  intros Hb Hn Hfit. unfold general_words.
  set (lbit := n * b) in *. set (rbit := lbit + b) in *.
  assert (Hl0 : 0 <= lbit) by (unfold lbit; nia).
  assert (Hlq := Z.div_mod lbit 64 ltac:(lia)).
  assert (Hrq := Z.div_mod rbit 64 ltac:(lia)).
  assert (Hlm := Z.mod_pos_bound lbit 64 ltac:(lia)).
  assert (Hrm := Z.mod_pos_bound rbit 64 ltac:(lia)).
  assert (Htq := Z.div_mod (b + 63) 64 ltac:(lia)).
  assert (Htm := Z.mod_pos_bound (b + 63) 64 ltac:(lia)).
  set (l := lbit / 64) in *. set (r := rbit / 64) in *.
  set (lo := lbit mod 64) in *. set (ro := rbit mod 64) in *.
  set (retLen := (b + 63) / 64) in *.
  destruct ((l =? r) || ((l + 1 =? r) && (ro =? 0))) eqn:Ea1.
  - apply orb_true_iff in Ea1. cbn [length].
    destruct Ea1 as [E | E].
    + apply Z.eqb_eq in E. lia.
    + apply andb_true_iff in E. destruct E as [E1 E2].
      apply Z.eqb_eq in E1. apply Z.eqb_eq in E2. lia.
  - apply orb_false_iff in Ea1. destruct Ea1 as [Nlr Ea2].
    apply Z.eqb_neq in Nlr.
    destruct (Z.eqb_spec lo 0) as [Elo | Nlo].
    + destruct (Z.eqb_spec ro 0) as [Ero | Nro].
      * apply firstn_skipn_length. lia.
      * rewrite overwrite1_length; rewrite firstn_skipn_length; lia.
    + assert (Hws : length (overwrite (repeat 0 (Z.to_nat retLen)) 0
                      (firstn (Z.to_nat (r - (l + 1)))
                         (skipn (Z.to_nat (l + 1)) cs))) = Z.to_nat retLen).
      { rewrite overwrite_length; rewrite ?repeat_length; [reflexivity |].
        rewrite firstn_skipn_length; lia. }
      destruct (Z.eqb_spec ro 0) as [Ero | Nro].
      * rewrite overwrite1_length; lia.
      * destruct (Z.leb_spec (64 - lo + ro) 64) as [Hf | Hf].
        -- rewrite overwrite1_length; lia.
        -- rewrite !overwrite1_length; rewrite ?overwrite1_length; lia.
Qed.

(** [generalArray.Get] on row [n] reads the bits of the row and no other. *)
Lemma general_words_ext (cs cs' : list Z) (b n : Z) :
  cells_ok cs -> cells_ok cs' -> 0 < b -> 0 <= n ->
  n * b + b <= 64 * Z.of_nat (length cs) ->
  n * b + b <= 64 * Z.of_nat (length cs') ->
  same_bits cs cs' (n * b) (n * b + b) ->
  general_words cs b n = general_words cs' b n.
Proof.
  intros Hc Hc' Hb Hn Hfit Hfit' Hsame. unfold general_words.
  set (lbit := n * b) in *. set (rbit := lbit + b) in *.
  assert (Hl0 : 0 <= lbit) by (unfold lbit; nia).
  assert (Hlq := Z.div_mod lbit 64 ltac:(lia)).
  assert (Hrq := Z.div_mod rbit 64 ltac:(lia)).
  assert (Hlm := Z.mod_pos_bound lbit 64 ltac:(lia)).
  assert (Hrm := Z.mod_pos_bound rbit 64 ltac:(lia)).
  assert (Htq := Z.div_mod (b + 63) 64 ltac:(lia)).
  assert (Htm := Z.mod_pos_bound (b + 63) 64 ltac:(lia)).
  set (l := lbit / 64) in *. set (r := rbit / 64) in *.
  set (lo := lbit mod 64) in *. set (ro := rbit mod 64) in *.
  set (retLen := (b + 63) / 64) in *.
  destruct ((l =? r) || ((l + 1 =? r) && (ro =? 0))) eqn:Ea1.
  - assert (Hb64 : lo + b <= 64).
    { apply orb_true_iff in Ea1. destruct Ea1 as [E | E].
      - apply Z.eqb_eq in E. lia.
      - apply andb_true_iff in E. destruct E as [E1 E2].
        apply Z.eqb_eq in E1. apply Z.eqb_eq in E2. lia. }
    rewrite leastBits_ones by lia. f_equal.
    apply (same_bits_field cs cs' lbit rbit); auto; lia.
  - apply orb_false_iff in Ea1. destruct Ea1 as [Nlr Ea2].
    apply Z.eqb_neq in Nlr.
    assert (Hlr : l < r) by lia.
    destruct (Z.eqb_spec lo 0) as [Elo | Nlo].
    + (* aligned start: whole words, then the low bits of the last one *)
      assert (Hnth : forall (j : nat) (xs : list Z),
                 (j < Z.to_nat retLen)%nat ->
                 nth j (firstn (Z.to_nat retLen) (skipn (Z.to_nat l) xs)) 0
                 = nth (Z.to_nat (l + Z.of_nat j)) xs 0).
      { intros j xs Hj. rewrite nth_firstn.
        replace (j <? Z.to_nat retLen)%nat with true
          by (symmetry; apply Nat.ltb_lt; lia).
        rewrite nth_skipn. f_equal. lia. }
      assert (Hlen : length (firstn (Z.to_nat retLen) (skipn (Z.to_nat l) cs))
                     = Z.to_nat retLen) by (apply firstn_skipn_length; lia).
      assert (Hlen' : length (firstn (Z.to_nat retLen) (skipn (Z.to_nat l) cs'))
                      = Z.to_nat retLen) by (apply firstn_skipn_length; lia).
      assert (Hfull : forall j : nat, 64 * (l + Z.of_nat j) + 64 <= rbit ->
                 nth (Z.to_nat (l + Z.of_nat j)) cs 0
                 = nth (Z.to_nat (l + Z.of_nat j)) cs' 0).
      { intros j Hj. apply (same_bits_word cs cs' lbit rbit); auto; lia. }
      destruct (Z.eqb_spec ro 0) as [Ero | Nro].
      * apply (nth_ext _ _ 0 0); [congruence |].
        intros j Hj. rewrite Hlen in Hj. rewrite !Hnth by lia.
        apply Hfull. lia.
      * apply (nth_ext _ _ 0 0).
        { rewrite !overwrite1_length; lia. }
        intros j Hj. rewrite overwrite1_length, Hlen in Hj by lia.
        destruct (Nat.eq_dec j (Z.to_nat (retLen - 1))) as [-> | Hne].
        -- rewrite !overwrite1_nth_same by lia.
           rewrite !Hnth by lia.
           replace (l + Z.of_nat (Z.to_nat (retLen - 1))) with r by lia.
           rewrite <- (Z.shiftr_0_r (nth (Z.to_nat r) cs 0)).
           rewrite <- (Z.shiftr_0_r (nth (Z.to_nat r) cs' 0)).
           apply (same_bits_field cs cs' lbit rbit); auto; lia.
        -- rewrite !overwrite1_nth_other by lia.
           rewrite !Hnth by lia. apply Hfull. lia.
    + (* unaligned start *)
      assert (Eleft : Z.shiftr (nth (Z.to_nat l) cs 0) lo
                      = Z.shiftr (nth (Z.to_nat l) cs' 0) lo).
      { apply (same_bits_high cs cs' lbit rbit); auto; lia. }
      assert (Emid : firstn (Z.to_nat (r - (l + 1))) (skipn (Z.to_nat (l + 1)) cs)
                     = firstn (Z.to_nat (r - (l + 1))) (skipn (Z.to_nat (l + 1)) cs')).
      { apply (nth_ext _ _ 0 0).
        - rewrite !firstn_skipn_length; lia.
        - intros j Hj. rewrite firstn_skipn_length in Hj by lia.
          rewrite !nth_firstn.
          replace (j <? Z.to_nat (r - (l + 1)))%nat with true
            by (symmetry; apply Nat.ltb_lt; lia).
          rewrite !nth_skipn.
          replace (Z.to_nat (l + 1) + j)%nat with (Z.to_nat (l + 1 + Z.of_nat j)) by lia.
          apply (same_bits_word cs cs' lbit rbit); auto; lia. }
      assert (Eright : set_bits 0 0 (nth (Z.to_nat r) cs 0) ro
                       = set_bits 0 0 (nth (Z.to_nat r) cs' 0) ro).
      { apply set_bits_ext; try lia.
        intros j Hj. apply (same_bits_low cs cs' lbit rbit r ro); auto; lia. }
      rewrite Eleft, Emid, Eright. reflexivity.
Qed.

(* ===================================================================== *)
(** * Every Get returns the words of the general-packed layout *)
(* ===================================================================== *)

Lemma NewVector_val (b : Z) :
  0 < b <= 2 ^ 60 ->
  NewVector b
  = Val (Some (mkVector (mkslice (repeat 0 (Z.to_nat ((b + 63) / 64)))
                                 ((b + 63) / 64)) b)).
Proof.
  intros H. unfold NewVector.
  replace (b <=? 0) with false by (symmetry; apply Z.leb_gt; lia).
  rewrite nWords_one by lia.
  rewrite make_val by (Z.div_mod_to_equations; lia). reflexivity.
Qed.

Lemma array_ok_general (a : Array) :
  array_ok a ->
  packed_ok (generalArray.data (as_general a)) (generalArray.bitNum (as_general a))
            (generalArray.len (as_general a)) /\
  generalArray.bitNum (as_general a) = ABitNum a /\
  generalArray.len (as_general a) = ALen a.
Proof.
  destruct a as [g | s | w | p | m];
    cbn [array_ok as_general ABitNum ALen generalArray.data generalArray.bitNum
         generalArray.len].
  - intros H. repeat split; apply H.
  - intros [H _]. repeat split; apply H.
  - intros [Hs Hw]. unfold packed_ok, wordBits, len, wordArray.Len, len.
    repeat split; try apply Hs; try apply Hw; lia.
  - intros [H _]. repeat split; apply H.
  - intros (Hs & Hw & Hb & Hm).
    unfold multipleOfWordBitsArray.Len, packed_ok, wordBits, len.
    assert (Hq := Z.div_mod (multipleOfWordBitsArray.bitNum m) 64 ltac:(lia)).
    set (b := multipleOfWordBitsArray.bitNum m) in *.
    set (d := multipleOfWordBitsArray.data m) in *.
    destruct Hs as [Hs1 Hs2].
    rewrite (idiv_nonneg b 64) by lia.
    assert (Hnw : 2 <= b / 64) by lia.
    rewrite idiv_nonneg by lia.
    assert (Hd := Z.div_mod (slen d) (b / 64) ltac:(lia)).
    assert (Hdm := Z.mod_pos_bound (slen d) (b / 64) ltac:(lia)).
    assert (0 <= slen d / (b / 64)) by (apply Z.div_pos; lia).
    repeat split; try assumption; try lia; nia.
Qed.

Lemma visible_full {A : Type} (cs : list A) :
  visible (mkslice cs (Z.of_nat (length cs))) = cs.
Proof.
  unfold visible. cbn [slen cells]. rewrite Nat2Z.id. apply firstn_all.
Qed.

Lemma visible_exact {A : Type} (cs : list A) (n : Z) :
  n = Z.of_nat (length cs) -> visible (mkslice cs n) = cs.
Proof. intros ->. apply visible_full. Qed.

(** The row as the general-packed [Get] lays it out. *)
Lemma general_Get_visible (d : buf) (b len n : Z) :
  packed_ok d b len -> 0 <= n < len ->
  exists x,
    generalArray.Get (generalArray.mk d b len) n = Val x /\
    vbitNum x = b /\
    visible (vdata x) = general_words (cells d) b n.
Proof.
  intros Hok Hn. eexists. split; [apply general_Get_words; assumption |].
  split; [reflexivity |]. cbn [vdata].
  destruct (packed_positions d b len n Hok Hn) as (_ & _ & Hl0 & Hr & Hs & Hcap).
  apply visible_exact.
  rewrite general_words_length; try lia.
  - destruct Hok as (_ & _ & Hb & _). rewrite Z2Nat.id; [reflexivity |].
    apply Z.div_pos; lia.
  - apply Hok.
  - unfold cap in Hcap. lia.
Qed.

Lemma smallBits_Get_visible (s : smallBitsArray.t) (n : Z) :
  array_ok (SmallBits s) -> 0 <= n < smallBitsArray.Len s ->
  exists x w,
    smallBitsArray.get s n = Val w /\
    smallBitsArray.Get s n = Val x /\
    vbitNum x = smallBitsArray.BitNum s /\
    visible (vdata x) = [w] /\
    general_words (cells (generalArray.data (smallBitsArray.ga s)))
                  (smallBitsArray.BitNum s) n = [w].
Proof.
  destruct s as [[d b len]].
  unfold smallBitsArray.Len, smallBitsArray.BitNum, generalArray.Len,
    generalArray.BitNum.
  cbn [array_ok smallBitsArray.ga generalArray.data generalArray.bitNum
       generalArray.len].
  intros [Hok Hb] Hn.
  destruct (smallBits_get_general d b len n Hok Hb Hn) as (w & Hw & Hget & Hgen).
  rewrite general_Get_words in Hgen by assumption.
  injection Hgen as Hwords Hlen.
  exists (mkVector (mkslice [w] 1) b), w.
  unfold smallBitsArray.Get. cbn [smallBitsArray.ga generalArray.bitNum].
  rewrite Hget. cbn [bind].
  assert (Hb0 : 0 < b) by apply Hok.
  rewrite NewVector_val by lia. rewrite Hlen. cbn [bind deref vdata vbitNum].
  change (repeat 0 (Z.to_nat 1)) with [0].
  rewrite store_in by (cbn; lia).
  repeat split; auto.
Qed.

Lemma firstn_skipn_cons {A : Type} (d : A) (cs : list A) (i k : nat) :
  (i < length cs)%nat ->
  firstn (S k) (skipn i cs) = nth i cs d :: firstn k (skipn (S i) cs).
Proof.
  revert i. induction cs as [| c cs IH]; intros i Hi; [cbn in Hi; lia |].
  destruct i as [| i].
  - reflexivity.
  - cbn [skipn nth]. apply IH. cbn in Hi. lia.
Qed.

Lemma word_Get_visible (w : wordArray.t) (n : Z) :
  array_ok (Word w) -> 0 <= n < wordArray.Len w ->
  exists x,
    wordArray.Get w n = Val x /\
    vbitNum x = 64 /\
    visible (vdata x) = [nth (Z.to_nat n) (cells (wordArray.data w)) 0] /\
    general_words (cells (wordArray.data w)) 64 n
    = [nth (Z.to_nat n) (cells (wordArray.data w)) 0].
Proof.
  destruct w as [d]. unfold wordArray.Len, len.
  cbn [array_ok wordArray.data]. intros [[Hs1 Hs2] Hw] Hn.
  unfold wordArray.Get, wordArray.Len, len. cbn [wordArray.data].
  rewrite in_range_test by lia.
  rewrite slice_range_val by lia. cbn [bind].
  eexists. split; [reflexivity |]. split; [reflexivity |].
  cbn [vdata]. unfold visible. cbn [slen cells].
  replace (n + 1 - n) with 1 by lia.
  change (Z.to_nat 1) with 1%nat.
  unfold cap in Hs1.
  rewrite (firstn_skipn_cons 0) by lia. cbn [firstn].
  split; [reflexivity |].
  unfold general_words.
  replace (n * 64 / 64) with n by (Z.div_mod_to_equations; lia).
  replace ((n * 64 + 64) / 64) with (n + 1) by (Z.div_mod_to_equations; lia).
  replace ((n * 64) mod 64) with 0 by (Z.div_mod_to_equations; lia).
  replace ((n * 64 + 64) mod 64) with 0 by (Z.div_mod_to_equations; lia).
  replace (n =? n + 1) with false by (symmetry; apply Z.eqb_neq; lia).
  rewrite !Z.eqb_refl. cbn [orb andb].
  rewrite leastBits_ones, Z.shiftr_0_r, Z.land_ones by lia.
  rewrite Z.mod_small; [reflexivity |].
  apply words_ok_nth. exact Hw.
Qed.

Lemma multi_Get_visible (m : multipleOfWordBitsArray.t) (n : Z) :
  array_ok (MultipleOfWordBits m) -> 0 <= n < multipleOfWordBitsArray.Len m ->
  let nw := multipleOfWordBitsArray.bitNum m / 64 in
  let ws := firstn (Z.to_nat nw)
              (skipn (Z.to_nat (n * nw)) (cells (multipleOfWordBitsArray.data m))) in
  2 <= nw /\ n * nw + nw <= slen (multipleOfWordBitsArray.data m) /\
  exists x,
    multipleOfWordBitsArray.Get m n = Val x /\
    vbitNum x = multipleOfWordBitsArray.bitNum m /\
    visible (vdata x) = ws /\
    general_words (cells (multipleOfWordBitsArray.data m))
                  (multipleOfWordBitsArray.bitNum m) n = ws.
Proof.
  destruct m as [d b]. unfold multipleOfWordBitsArray.Len, len.
  cbn [array_ok multipleOfWordBitsArray.data multipleOfWordBitsArray.bitNum].
  intros ([Hs1 Hs2] & Hw & Hb & Hm) Hn. unfold wordBits in *.
  rewrite (idiv_nonneg b 64) in Hn by lia.
  assert (Hq := Z.div_mod b 64 ltac:(lia)).
  set (nw := b / 64) in *.
  assert (Hnw : 2 <= nw) by lia.
  rewrite idiv_nonneg in Hn by lia.
  assert (Hd := Z.div_mod (slen d) nw ltac:(lia)).
  assert (Hdm := Z.mod_pos_bound (slen d) nw ltac:(lia)).
  assert (Hfit : n * nw + nw <= slen d) by nia.
  assert (Hn0 : 0 <= n * nw) by nia.
  cbv zeta. split; [exact Hnw |]. split; [exact Hfit |].
  unfold multipleOfWordBitsArray.Get, multipleOfWordBitsArray.Len, len, wordBits.
  cbn [multipleOfWordBitsArray.data multipleOfWordBitsArray.bitNum].
  rewrite (idiv_nonneg b 64) by lia. fold nw.
  rewrite idiv_nonneg by lia.
  rewrite in_range_test by lia.
  rewrite NewVector_val by lia. cbn [bind].
  replace ((b + 63) / 64) with nw by (Z.div_mod_to_equations; lia).
  rewrite imul_small by lia.
  rewrite slice_from_val by lia. cbn [bind deref vdata vbitNum].
  unfold copy. cbn [slen cells].
  replace (Z.min nw (slen d - n * nw)) with nw by lia.
  unfold cap in Hs1.
  rewrite overwrite_full by (rewrite firstn_skipn_length, repeat_length; lia).
  eexists. split; [reflexivity |]. split; [reflexivity |].
  cbn [vdata]. split.
  - apply visible_exact. rewrite firstn_skipn_length; lia.
  - unfold general_words.
    replace (n * b) with (64 * (n * nw)) by lia.
    replace (64 * (n * nw) + b) with (64 * (n * nw + nw)) by lia.
    replace (64 * (n * nw) / 64) with (n * nw) by (Z.div_mod_to_equations; lia).
    replace (64 * (n * nw + nw) / 64) with (n * nw + nw)
      by (Z.div_mod_to_equations; lia).
    replace ((64 * (n * nw)) mod 64) with 0 by (Z.div_mod_to_equations; lia).
    replace ((64 * (n * nw + nw)) mod 64) with 0 by (Z.div_mod_to_equations; lia).
    replace ((b + 63) / 64) with nw by (Z.div_mod_to_equations; lia).
    replace (n * nw =? n * nw + nw) with false by (symmetry; apply Z.eqb_neq; lia).
    replace (n * nw + 1 =? n * nw + nw) with false
      by (symmetry; apply Z.eqb_neq; lia).
    cbn [orb andb]. rewrite Z.eqb_refl. reflexivity.
Qed.

(** A power-of-two width: the element never straddles a word. *)
Lemma pow2_get_general (d : buf) (b len n : Z) :
  packed_ok d b len -> In b [1; 2; 4; 8; 16; 32] -> 0 <= n < len ->
  let w := Z.land (Z.shiftr (nth (Z.to_nat (n * b / 64)) (cells d) 0)
                            ((n * b) mod 64)) (Z.ones b) in
  0 <= n * b / 64 < slen d /\
  smallPowerOfTwoBitsArray.get (smallPowerOfTwoBitsArray.mk d b len) n = Val w /\
  general_words (cells d) b n = [w].
Proof.
  intros Hok Hb Hn.
  destruct (packed_positions d b len n Hok Hn) as (Em & Ea & Hl0 & Hr & Hs & Hcap).
  assert (Hb64 : 0 < b < 64) by (cbn [In] in Hb; lia).
  assert (Hlq := Z.div_mod (n * b) 64 ltac:(lia)).
  assert (Hrq := Z.div_mod (n * b + b) 64 ltac:(lia)).
  assert (Hlm := Z.mod_pos_bound (n * b) 64 ltac:(lia)).
  assert (Hrm := Z.mod_pos_bound (n * b + b) 64 ltac:(lia)).
  cbv zeta. split; [lia |].
  unfold smallPowerOfTwoBitsArray.get, general_words, idiv_chk, wordBits.
  cbn [smallPowerOfTwoBitsArray.data smallPowerOfTwoBitsArray.bitNum].
  rewrite leastBits_ones by lia.
  cbn [In] in Hb.
  destruct Hb as [<- | [<- | [<- | [<- | [<- | [<- | []]]]]]];
    match goal with
    | |- context [Z.quot 64 ?b] =>
        let q := eval compute in (Z.quot 64 b) in
        change (Z.quot 64 b) with q;
        change (b =? 0) with false; cbn [negb];
        change (q =? 0) with false;
        rewrite (Z.quot_div_nonneg n q) by lia;
        rewrite (imod_nonneg n q) by lia;
        assert (Hnq := Z.div_mod n q ltac:(lia));
        assert (Hnm := Z.mod_pos_bound n q ltac:(lia));
        rewrite imul_small by lia;
        rewrite to_word_small by lia;
        replace (n * b / 64) with (n / q) in * by lia;
        replace ((n * b) mod 64) with (n mod q * b) in * by lia;
        rewrite index_in by lia; cbn [bind]; unfold shr;
        split; [reflexivity |];
        destruct (Z.eqb_spec (n / q) ((n * b + b) / 64)) as [E | NE];
          cbn [orb]; [reflexivity |];
        replace (n / q + 1 =? (n * b + b) / 64) with true
          by (symmetry; apply Z.eqb_eq; lia);
        replace ((n * b + b) mod 64 =? 0) with true
          by (symmetry; apply Z.eqb_eq; lia);
        reflexivity
    end.
Qed.

(* ===================================================================== *)
(** * HammingDistance against Get *)
(* ===================================================================== *)

Lemma low_bits_lt (x m : Z) :
  0 <= x -> 0 <= m -> (forall i, m <= i -> Z.testbit x i = false) -> x < 2 ^ m.
Proof.
  intros Hx Hm H.
  destruct (Z.eq_dec x 0) as [-> | Hn]; [apply Z.pow_pos_nonneg; lia |].
  destruct (Z.lt_ge_cases x (2 ^ m)) as [Hlt | Hge]; [assumption | exfalso].
  assert (Hl : m <= Z.log2 x) by (apply Z.log2_le_pow2; lia).
  specialize (H (Z.log2 x) Hl).
  rewrite Z.bit_log2 in H by lia. discriminate.
Qed.

Lemma vector_ok_bits (b : Z) (v : Vector) (i : Z) :
  vector_ok b v -> b <= i ->
  Z.testbit (nth 0 (cells (vdata v)) 0) i = false.
Proof.
  intros (_ & Hb & _ & _ & Hlen & Hbits) Hi.
  apply (Hbits 0); try lia.
  rewrite Hlen. Z.div_mod_to_equations. lia.
Qed.

Lemma vector_ok_nth_range (b : Z) (v : Vector) (k : nat) :
  vector_ok b v -> 0 <= nth k (cells (vdata v)) 0 < 2 ^ 64.
Proof. intros (_ & _ & _ & Hw & _). apply words_ok_nth. exact Hw. Qed.

Lemma bitcount16_narrow (y : Z) :
  (forall i, 16 <= i -> Z.testbit y i = false) ->
  bitcount16 (to_uint16 y) = bitcount y.
Proof.
  intros H. unfold bitcount16, bitcount, to_uint16.
  rewrite (popcount_narrow 16 64 y) by (try lia; intros; apply H; lia).
  apply popcount_ext. intros i Hi.
  rewrite Z.testbit_mod_pow2 by lia.
  replace (i <? 16) with true by (symmetry; apply Z.ltb_lt; lia). reflexivity.
Qed.

Lemma bitcount32_narrow (y : Z) :
  (forall i, 32 <= i -> Z.testbit y i = false) ->
  bitcount32 (to_uint32 y) = bitcount y.
Proof.
  intros H. unfold bitcount32, bitcount, to_uint32.
  rewrite (popcount_narrow 32 64 y) by (try lia; intros; apply H; lia).
  apply popcount_ext. intros i Hi.
  rewrite Z.testbit_mod_pow2 by lia.
  replace (i <? 32) with true by (symmetry; apply Z.ltb_lt; lia). reflexivity.
Qed.

Lemma lxor_field_high (x s b v0 i : Z) :
  0 <= b -> b <= i ->
  Z.testbit v0 i = false ->
  Z.testbit (Z.lxor (Z.land (Z.shiftr x s) (Z.ones b)) v0) i = false.
Proof.
  intros Hb Hi Hv. rewrite Z.lxor_spec, Z.land_spec, Hv.
  rewrite Z.testbit_ones by lia.
  replace (i <? b) with false by (symmetry; apply Z.ltb_ge; lia).
  rewrite !andb_false_r. reflexivity.
Qed.

Lemma pow2_HammingDistance_get (p : smallPowerOfTwoBitsArray.t) (n : Z) (v : Vector) :
  array_ok (SmallPowerOfTwoBits p) ->
  vector_ok (smallPowerOfTwoBitsArray.bitNum p) v ->
  0 <= n < smallPowerOfTwoBitsArray.Len p ->
  exists w,
    smallPowerOfTwoBitsArray.get p n = Val w /\
    general_words (cells (smallPowerOfTwoBitsArray.data p))
                  (smallPowerOfTwoBitsArray.bitNum p) n = [w] /\
    smallPowerOfTwoBitsArray.HammingDistance p n v
    = Val (bitcount (Z.lxor w (nth 0 (cells (vdata v)) 0))).
Proof.
  destruct p as [d b len]. unfold smallPowerOfTwoBitsArray.Len.
  cbn [array_ok smallPowerOfTwoBitsArray.data smallPowerOfTwoBitsArray.bitNum
       smallPowerOfTwoBitsArray.len].
  intros [Hok Hb] Hv Hn.
  destruct (pow2_get_general d b len n Hok Hb Hn) as (Hl & Hget & Hgen).
  cbv zeta in Hget, Hgen.
  eexists. split; [exact Hget |]. split; [exact Hgen |].
  destruct (packed_positions d b len n Hok Hn) as (Em & Ea & Hl0 & Hr & Hs & Hcap).
  assert (Hb64 : 0 < b <= 64) by (cbn [In] in Hb; lia).
  destruct (vector_ok_head b v Hv ltac:(lia)) as [Hv0 _].
  assert (Hvb := fun i => vector_ok_bits b v i Hv).
  assert (Hvr := vector_ok_nth_range b v 0 Hv).
  set (v0 := nth 0 (cells (vdata v)) 0) in *.
  unfold smallPowerOfTwoBitsArray.HammingDistance, smallPowerOfTwoBitsArray.Len.
  cbn [smallPowerOfTwoBitsArray.data smallPowerOfTwoBitsArray.bitNum
       smallPowerOfTwoBitsArray.len].
  replace (vbitNum v) with b by (symmetry; apply Hv).
  rewrite Z.eqb_refl. cbn [negb]. rewrite in_range_test by lia.
  rewrite Hv0.
  assert (Hlq := Z.div_mod (n * b) 64 ltac:(lia)).
  assert (Hlm := Z.mod_pos_bound (n * b) 64 ltac:(lia)).
  set (x := nth (Z.to_nat (n * b / 64)) (cells d) 0) in *.
  cbn [In] in Hb.
  destruct Hb as [<- | [<- | [<- | [<- | [<- | [<- | []]]]]]];
    cbn [Z.eqb Pos.eqb]; unfold shr.
  - (* 1 bit *)
    rewrite !idiv_nonneg, !imod_nonneg by lia.
    replace (n / 64) with (n * 1 / 64) by (f_equal; lia).
    rewrite index_in by lia. cbn [bind]. fold x.
    rewrite to_word_small by (pose proof (Z.mod_pos_bound n 64); lia).
    replace (n mod 64) with ((n * 1) mod 64) by (f_equal; lia).
    change (Z.ones 1) with 1.
    f_equal.
    set (y := Z.lxor (Z.land (Z.shiftr x ((n * 1) mod 64)) 1) v0).
    assert (Hy0 : 0 <= y).
    { unfold y. apply Z.lxor_nonneg. split; intros _; [lia |].
      apply Z.land_nonneg. right. lia. }
    assert (Hy : y < 2 ^ 1).
    { apply low_bits_lt; try lia. intros i Hi. unfold y.
      apply (lxor_field_high x ((n * 1) mod 64) 1 v0 i); try lia. apply Hvb. lia. }
    rewrite int_wrap_small by lia.
    symmetry. apply popcount_bit. lia.
  - (* 2 bits *)
    rewrite !idiv_nonneg, !imod_nonneg by lia.
    replace (n / 32) with (n * 2 / 64) by (Z.div_mod_to_equations; lia).
    rewrite index_in by lia. cbn [bind]. fold x.
    rewrite to_word_small by (pose proof (Z.mod_pos_bound n 32); lia).
    replace (2 * (n mod 32)) with ((n * 2) mod 64) by (Z.div_mod_to_equations; lia).
    change (Z.ones 2) with 3.
    f_equal. apply bitcount16_narrow. intros i Hi.
    apply (lxor_field_high x ((n * 2) mod 64) 2 v0 i); try lia. apply Hvb. lia.
  - (* 4 bits *)
    rewrite !idiv_nonneg, !imod_nonneg by lia.
    replace (n / 16) with (n * 4 / 64) by (Z.div_mod_to_equations; lia).
    rewrite index_in by lia. cbn [bind]. fold x.
    rewrite to_word_small by (pose proof (Z.mod_pos_bound n 16); lia).
    replace (4 * (n mod 16)) with ((n * 4) mod 64) by (Z.div_mod_to_equations; lia).
    change (Z.ones 4) with 15.
    f_equal. apply bitcount16_narrow. intros i Hi.
    apply (lxor_field_high x ((n * 4) mod 64) 4 v0 i); try lia. apply Hvb. lia.
  - (* 8 bits *)
    rewrite !idiv_nonneg, !imod_nonneg by lia.
    replace (n / 8) with (n * 8 / 64) by (Z.div_mod_to_equations; lia).
    rewrite index_in by lia. cbn [bind]. fold x.
    rewrite to_word_small by (pose proof (Z.mod_pos_bound n 8); lia).
    replace (8 * (n mod 8)) with ((n * 8) mod 64) by (Z.div_mod_to_equations; lia).
    change (Z.ones 8) with 255.
    f_equal. apply bitcount16_narrow. intros i Hi.
    apply (lxor_field_high x ((n * 8) mod 64) 8 v0 i); try lia. apply Hvb. lia.
  - (* 16 bits *)
    rewrite !idiv_nonneg, !imod_nonneg by lia.
    replace (n / 4) with (n * 16 / 64) by (Z.div_mod_to_equations; lia).
    rewrite index_in by lia. cbn [bind]. fold x.
    rewrite to_word_small by (pose proof (Z.mod_pos_bound n 4); lia).
    replace (16 * (n mod 4)) with ((n * 16) mod 64) by (Z.div_mod_to_equations; lia).
    f_equal. unfold to_uint16 at 1. rewrite <- Z.land_ones by lia.
    assert (Hv16 : v0 < 2 ^ 16)
      by (apply low_bits_lt; try lia; intros i Hi; apply Hvb; lia).
    unfold to_uint16. rewrite (Z.mod_small v0) by lia.
    set (y := Z.lxor _ v0).
    assert (Hy : forall i, 16 <= i -> Z.testbit y i = false).
    { intros i Hi. unfold y. apply lxor_field_high; try lia. apply Hvb. lia. }
    unfold bitcount16, bitcount. symmetry.
    apply popcount_narrow; [lia |]. intros i Hi. apply Hy. lia.
  - (* 32 bits *)
    rewrite !idiv_nonneg, !imod_nonneg by lia.
    replace (n / 2) with (n * 32 / 64) by (Z.div_mod_to_equations; lia).
    rewrite index_in by lia. cbn [bind]. fold x.
    rewrite to_word_small by (pose proof (Z.mod_pos_bound n 2); lia).
    replace (32 * (n mod 2)) with ((n * 32) mod 64) by (Z.div_mod_to_equations; lia).
    f_equal. unfold to_uint32 at 1. rewrite <- Z.land_ones by lia.
    assert (Hv32 : v0 < 2 ^ 32)
      by (apply low_bits_lt; try lia; intros i Hi; apply Hvb; lia).
    unfold to_uint32. rewrite (Z.mod_small v0) by lia.
    set (y := Z.lxor _ v0).
    assert (Hy : forall i, 32 <= i -> Z.testbit y i = false).
    { intros i Hi. unfold y. apply lxor_field_high; try lia. apply Hvb. lia. }
    unfold bitcount32, bitcount. symmetry.
    apply popcount_narrow; [lia |]. intros i Hi. apply Hy. lia.
Qed.

Lemma multi_loop (d vd : buf) (base : Z) (k : nat) (i acc : Z) :
  0 <= base -> 0 <= i -> 0 <= acc <= 64 * i ->
  base + i + Z.of_nat k <= slen d -> slen d <= cap d -> slen d <= 2 ^ 45 ->
  i + Z.of_nat k <= slen vd -> slen vd <= cap vd ->
  for_loop k i
    (fun j ret =>
       x <- index 0 d (iadd base j) ;;
       vj <- index 0 vd j ;;
       Val (iadd ret (bitcount (Z.lxor x vj))))
    acc
  = Val (acc + xor_popcount (firstn k (skipn (Z.to_nat (base + i)) (cells d)))
                            (firstn k (skipn (Z.to_nat i) (cells vd)))).
Proof.
  revert i acc. induction k as [| k IH]; intros i acc Hb Hi Hacc Hd Hdc Hds Hv Hvc.
  - cbn [for_loop firstn xor_popcount]. f_equal. lia.
  - cbn [for_loop]. rewrite iadd_small by lia.
    rewrite index_in by lia. cbn [bind].
    rewrite index_in by lia. cbn [bind].
    assert (Hpc := popcount_nonneg 64
                     (Z.lxor (nth (Z.to_nat (base + i)) (cells d) 0)
                             (nth (Z.to_nat i) (cells vd) 0))).
    change (Z.of_nat 64) with 64 in Hpc. fold (bitcount
      (Z.lxor (nth (Z.to_nat (base + i)) (cells d) 0)
              (nth (Z.to_nat i) (cells vd) 0))) in Hpc.
    rewrite iadd_small by lia.
    rewrite IH by lia.
    unfold cap in *.
    rewrite (firstn_skipn_cons 0 (cells d)) by lia.
    rewrite (firstn_skipn_cons 0 (cells vd)) by lia.
    cbn [xor_popcount].
    replace (Z.to_nat (base + (i + 1))) with (S (Z.to_nat (base + i))) by lia.
    replace (Z.to_nat (i + 1)) with (S (Z.to_nat i)) by lia.
    f_equal. lia.
Qed.

Lemma vector_ok_visible (b : Z) (v : Vector) :
  vector_ok b v ->
  visible (vdata v) = firstn (Z.to_nat ((b + 63) / 64)) (cells (vdata v)) /\
  slen (vdata v) = (b + 63) / 64 /\ slen (vdata v) <= cap (vdata v).
Proof.
  intros (_ & _ & [Hs _] & _ & Hlen & _). unfold visible. rewrite Hlen.
  repeat split; lia.
Qed.

(** Every specialization reads a row as the general-packed layout has it. *)
Lemma AGet_words (a : Array) (n : Z) :
  array_ok a -> 0 <= n < ALen a ->
  exists x,
    AGet a n = Val x /\
    vbitNum x = ABitNum a /\
    visible (vdata x)
    = general_words (cells (generalArray.data (as_general a))) (ABitNum a) n.
Proof.
  intros Hok Hn. destruct a as [g | s | w | p | m].
  - destruct g as [d b len].
    cbn [array_ok generalArray.data generalArray.bitNum generalArray.len] in Hok.
    apply (general_Get_visible d b len n Hok Hn).
  - destruct (smallBits_Get_visible s n Hok Hn) as (x & w & _ & HG & Hb & Hvis & Hgen).
    exists x. cbn [AGet ABitNum as_general]. rewrite Hgen. auto.
  - destruct (word_Get_visible w n Hok Hn) as (x & HG & Hb & Hvis & Hgen).
    exists x. cbn [AGet ABitNum as_general generalArray.data].
    unfold wordArray.BitNum, wordBits. rewrite Hgen. auto.
  - destruct p as [d b len].
    cbn [array_ok smallPowerOfTwoBitsArray.data smallPowerOfTwoBitsArray.bitNum
         smallPowerOfTwoBitsArray.len] in Hok.
    destruct Hok as [Hok Hb].
    unfold ALen, smallPowerOfTwoBitsArray.Len in Hn.
    cbn [smallPowerOfTwoBitsArray.len] in Hn.
    destruct (pow2_get_general d b len n Hok Hb Hn) as (Hl & Hget & Hgen).
    cbv zeta in Hget, Hgen.
    cbn [AGet ABitNum as_general generalArray.data].
    unfold smallPowerOfTwoBitsArray.Get, smallPowerOfTwoBitsArray.Len,
      smallPowerOfTwoBitsArray.BitNum.
    cbn [smallPowerOfTwoBitsArray.len smallPowerOfTwoBitsArray.bitNum].
    rewrite in_range_test by lia.
    assert (Hb64 : 0 < b < 64) by (cbn [In] in Hb; lia).
    rewrite NewVector_val by lia. cbn [bind]. rewrite Hget. cbn [bind deref vdata vbitNum].
    replace ((b + 63) / 64) with 1 by (Z.div_mod_to_equations; lia).
    change (repeat 0 (Z.to_nat 1)) with [0].
    rewrite store_in by (cbn; lia).
    eexists. split; [reflexivity |]. split; [reflexivity |].
    cbn [smallPowerOfTwoBitsArray.data]. rewrite Hgen. reflexivity.
  - destruct (multi_Get_visible m n Hok Hn) as (_ & _ & x & HG & Hb & Hvis & Hgen).
    exists x. cbn [AGet ABitNum as_general generalArray.data].
    unfold multipleOfWordBitsArray.BitNum. rewrite Hgen. auto.
Qed.

(** Every specialization counts the bits in which the row, as the
    general-packed layout has it, differs from the vector. *)
Lemma AHammingDistance_words (a : Array) (n : Z) (v : Vector) :
  array_ok a -> vector_ok (ABitNum a) v -> 0 <= n < ALen a ->
  AHammingDistance a n v
  = Val (xor_popcount
           (general_words (cells (generalArray.data (as_general a))) (ABitNum a) n)
           (visible (vdata v))).
Proof.
  intros Hok Hv Hn. destruct a as [g | s | w | p | m].
  - destruct (AGet_words (General g) n Hok Hn) as (x & HG & Hb & Hvis).
    cbn [AHammingDistance AGet ABitNum as_general] in *.
    unfold generalArray.HammingDistance, bitvector.HammingDistance.
    replace (vbitNum v) with (generalArray.BitNum g) by (symmetry; apply Hv).
    rewrite Z.eqb_refl. cbn [negb]. rewrite HG. cbn [bind]. rewrite Hvis.
    reflexivity.
  - destruct (smallBits_Get_visible s n Hok Hn) as (x & w & Hget & _ & _ & _ & Hgen).
    cbn [AHammingDistance ABitNum as_general] in *. rewrite Hgen.
    rewrite smallBits_HammingDistance_get.
    replace (vbitNum v) with (smallBitsArray.BitNum s) by (symmetry; apply Hv).
    rewrite Z.eqb_refl. cbn [negb]. rewrite Hget. cbn [bind].
    assert (Hb : smallBitsArray.BitNum s <= 64) by (destruct Hok as [_ H]; unfold smallBitsArray.BitNum, generalArray.BitNum; lia).
    destruct (vector_ok_head _ v Hv Hb) as [Hv0 Hvis]. rewrite Hv0, Hvis.
    cbn [bind xor_popcount]. f_equal. lia.
  - destruct (word_Get_visible w n Hok Hn) as (x & _ & _ & _ & Hgen).
    cbn [AHammingDistance ABitNum as_general generalArray.data] in *.
    unfold wordArray.BitNum, wordBits in *. rewrite Hgen.
    unfold wordArray.HammingDistance, wordBits.
    replace (vbitNum v) with 64 by (symmetry; apply Hv).
    change (64 =? 64) with true. cbn [negb].
    cbn [ALen] in Hn. rewrite in_range_test by lia.
    unfold wordArray.Len, len in Hn.
    rewrite index_in by lia. cbn [bind].
    destruct (vector_ok_head _ v Hv ltac:(lia)) as [Hv0 Hvis]. rewrite Hv0, Hvis.
    cbn [bind xor_popcount]. f_equal. lia.
  - destruct (pow2_HammingDistance_get p n v Hok Hv Hn) as (w & _ & Hgen & HHD).
    cbn [AHammingDistance ABitNum as_general generalArray.data] in *.
    unfold smallPowerOfTwoBitsArray.BitNum. rewrite Hgen, HHD.
    assert (Hb : smallPowerOfTwoBitsArray.bitNum p <= 64)
      by (destruct Hok as [_ H]; cbn [In] in H; lia).
    destruct (vector_ok_head _ v Hv Hb) as [_ Hvis]. rewrite Hvis.
    cbn [xor_popcount]. f_equal. lia.
  - destruct (multi_Get_visible m n Hok Hn) as (Hnw & Hfit & x & _ & _ & _ & Hgen).
    cbv zeta in Hnw, Hfit, Hgen.
    cbn [AHammingDistance ABitNum as_general generalArray.data] in *.
    unfold multipleOfWordBitsArray.BitNum in *. rewrite Hgen.
    destruct m as [d b].
    cbn [array_ok multipleOfWordBitsArray.data multipleOfWordBitsArray.bitNum] in *.
    destruct Hok as ([Hs1 Hs2] & Hw & Hb & Hm).
    destruct (vector_ok_visible b v Hv) as (Hvis & Hvl & Hvc).
    unfold multipleOfWordBitsArray.HammingDistance, wordBits.
    cbn [multipleOfWordBitsArray.data multipleOfWordBitsArray.bitNum].
    replace (vbitNum v) with b by (symmetry; apply Hv).
    rewrite Z.eqb_refl. cbn [negb].
    replace (n <? 0) with false by (symmetry; apply Z.ltb_ge; lia).
    rewrite idiv_nonneg by lia.
    assert (Hn0 : 0 <= n * (b / 64)) by nia.
    rewrite imul_small by lia.
    replace ((b + 63) / 64) with (b / 64) in * by (Z.div_mod_to_equations; lia).
    rewrite multi_loop; try lia.
    rewrite Hvis. cbn [skipn Z.to_nat]. rewrite Z.add_0_r, Z.add_0_l.
    reflexivity.
Qed.

(** C3: on every specialization, for a row [i] in range and a vector of
    the array's width, [HammingDistance(i, v)] is the population count of
    [Get(i) XOR v], and it is what the general-packed baseline returns on
    the same buffer, width and length. *)
Theorem HammingDistance_popcount_xor (a : Array) (i : Z) (v : Vector) :
  array_ok a -> vector_ok (ABitNum a) v -> 0 <= i < ALen a ->
  exists x,
    AGet a i = Val x /\
    AHammingDistance a i v
    = Val (xor_popcount (visible (vdata x)) (visible (vdata v))) /\
    generalArray.HammingDistance (as_general a) i v = AHammingDistance a i v.
Proof.
  intros Hok Hv Hi.
  destruct (AGet_words a i Hok Hi) as (x & HG & Hb & Hvis).
  exists x. split; [exact HG |].
  rewrite Hvis, (AHammingDistance_words a i v Hok Hv Hi).
  split; [reflexivity |].
  destruct (array_ok_general a Hok) as (Hgok & Hgb & Hgl).
  assert (Hok' : array_ok (General (as_general a))) by exact Hgok.
  assert (Hv' : vector_ok (ABitNum (General (as_general a))) v)
    by (cbn [ABitNum]; unfold generalArray.BitNum; rewrite Hgb; exact Hv).
  assert (Hi' : 0 <= i < ALen (General (as_general a)))
    by (cbn [ALen]; unfold generalArray.Len; rewrite Hgl; exact Hi).
  pose proof (AHammingDistance_words _ i v Hok' Hv' Hi') as H.
  cbn [AHammingDistance ABitNum as_general] in H.
  unfold generalArray.BitNum in H. rewrite Hgb in H. exact H.
Qed.

Lemma HammingDistance_popcount_xor_witness :
  let a := SmallBits (smallBitsArray.mk
             (generalArray.mk (mkslice [17132060440953080069; 122] 2) 7 10)) in
  let v := vector_of 7 [0] in
  exists x,
    AGet a 9 = Val x /\
    AHammingDistance a 9 v
    = Val (xor_popcount (visible (vdata x)) (visible (vdata v))) /\
    generalArray.HammingDistance (as_general a) 9 v = AHammingDistance a 9 v.
Proof.
  cbv zeta.
  apply (HammingDistance_popcount_xor
           (SmallBits (smallBitsArray.mk
              (generalArray.mk (mkslice [17132060440953080069; 122] 2) 7 10)))
           9 (vector_of 7 [0])).
  - unfold array_ok, packed_ok, slice_ok, words_ok, cells_ok, cap.
    cbn [smallBitsArray.ga generalArray.data generalArray.bitNum generalArray.len
         cells slen length].
    repeat split; try lia; repeat constructor; lia.
  - unfold vector_ok, vector_of, slice_ok, words_ok, cells_ok, cap.
    cbn [ABitNum smallBitsArray.BitNum smallBitsArray.ga generalArray.BitNum
         generalArray.bitNum vdata vbitNum cells slen length].
    repeat split; try lia; try (repeat constructor; lia).
    intros k Hk j _ _. assert (k = 0) by lia. subst k. apply Z.testbit_0_l.
  - cbn [ALen smallBitsArray.Len smallBitsArray.ga generalArray.Len generalArray.len].
    lia.
Defined.

(* ===================================================================== *)
(** * Rows of zero bits *)
(* ===================================================================== *)

Lemma all0_repeat (m : nat) (l : list Z) :
  length l = m -> (forall j, nth j l 0 = 0) -> l = repeat 0 m.
Proof.
  intros Hl H. apply (nth_ext _ _ 0 0).
  - rewrite repeat_length. exact Hl.
  - intros j _. rewrite H. symmetry. apply repeat_nth.
Qed.

Lemma all0_app (l1 l2 : list Z) :
  (forall j, nth j l1 0 = 0) -> (forall j, nth j l2 0 = 0) ->
  forall j, nth j (l1 ++ l2) 0 = 0.
Proof.
  intros H1 H2 j. destruct (Nat.lt_ge_cases j (length l1)).
  - rewrite app_nth1 by lia. apply H1.
  - rewrite app_nth2 by lia. apply H2.
Qed.

Lemma all0_firstn (k : nat) (l : list Z) :
  (forall j, nth j l 0 = 0) -> forall j, nth j (firstn k l) 0 = 0.
Proof.
  intros H j. rewrite nth_firstn. destruct (j <? k)%nat; auto.
Qed.

Lemma all0_skipn (k : nat) (l : list Z) :
  (forall j, nth j l 0 = 0) -> forall j, nth j (skipn k l) 0 = 0.
Proof. intros H j. rewrite nth_skipn. apply H. Qed.

Lemma all0_overwrite (l src : list Z) (k : nat) :
  (forall j, nth j l 0 = 0) -> (forall j, nth j src 0 = 0) ->
  forall j, nth j (overwrite l k src) 0 = 0.
Proof.
  intros H1 H2. unfold overwrite.
  apply all0_app; [apply all0_firstn; assumption |].
  apply all0_app; [assumption | apply all0_skipn; assumption].
Qed.

Lemma all0_single : forall j, nth j [0] 0 = 0.
Proof. intros [| [| j]]; reflexivity. Qed.

Lemma set_bits_zero (offset n : Z) : set_bits 0 offset 0 n = 0.
Proof.
  unfold set_bits, shl. rewrite Z.land_0_l, Z.shiftl_0_l.
  reflexivity.
Qed.

Lemma general_words_zeros (N : nat) (b n : Z) :
  0 < b -> 0 <= n -> n * b + b <= 64 * Z.of_nat N ->
  general_words (repeat 0 N) b n = repeat 0 (Z.to_nat ((b + 63) / 64)).
Proof.
  intros Hb Hn Hfit.
  apply all0_repeat.
  - apply general_words_length; rewrite ?repeat_length; lia.
  - assert (Hz : forall j, nth j (repeat 0 N) 0 = 0) by (intros; apply repeat_nth).
    unfold general_words. rewrite !Hz.
    rewrite !Z.shiftr_0_l, Z.land_0_l, !set_bits_zero.
    destruct ((_ =? _) || _); [apply all0_single |].
    destruct (_ =? 0).
    + destruct (_ =? 0).
      * apply all0_firstn, all0_skipn, Hz.
      * apply all0_overwrite; [apply all0_firstn, all0_skipn, Hz |].
        rewrite nth_firstn, nth_skipn, Hz.
        destruct (_ <? _)%nat; rewrite ?Z.land_0_l; apply all0_single.
    + assert (Hws : forall j,
                nth j (overwrite (repeat 0 (Z.to_nat ((b + 63) / 64))) 0
                         (firstn (Z.to_nat ((n * b + b) / 64 - (n * b / 64 + 1)))
                            (skipn (Z.to_nat (n * b / 64 + 1)) (repeat 0 N)))) 0 = 0).
      { apply all0_overwrite; [intros; apply repeat_nth |].
        apply all0_firstn, all0_skipn, Hz. }
      destruct (_ =? 0); [apply all0_overwrite; [exact Hws | apply all0_single] |].
      destruct (_ <=? 64).
      * apply all0_overwrite; [exact Hws | apply all0_single].
      * apply all0_overwrite; [| apply all0_single].
        apply all0_overwrite; [exact Hws | apply all0_single].
Qed.

Lemma bit_at_zeros (N : nat) (k : Z) : bit_at (repeat 0 N) k = false.
Proof. unfold bit_at. rewrite repeat_nth. apply Z.testbit_0_l. Qed.

Lemma cells_ok_zeros (N : nat) : cells_ok (repeat 0 N).
Proof.
  unfold cells_ok. apply Forall_forall. intros x Hx.
  apply repeat_spec in Hx. subst x. lia.
Qed.

(** A row whose bits are all 0 reads as the all-zero vector. *)
Lemma general_words_zero (cs : list Z) (b n : Z) :
  cells_ok cs -> 0 < b -> 0 <= n ->
  n * b + b <= 64 * Z.of_nat (length cs) ->
  (forall k, n * b <= k < n * b + b -> bit_at cs k = false) ->
  general_words cs b n = repeat 0 (Z.to_nat ((b + 63) / 64)).
Proof.
  intros Hc Hb Hn Hfit Hz.
  rewrite (general_words_ext cs (repeat 0 (length cs)) b n);
    auto using cells_ok_zeros; rewrite ?repeat_length; try lia.
  - apply general_words_zeros; lia.
  - intros k Hk. rewrite bit_at_zeros. apply Hz. exact Hk.
Qed.

(* ===================================================================== *)
(** * Resize *)
(* ===================================================================== *)

(** The cells after [copy(make(buf, W), old)]: the old visible words, then
    zeros. *)
Lemma grown_nth (cs : list Z) (s W j : nat) :
  (s <= W)%nat -> (s <= length cs)%nat ->
  nth j (overwrite (repeat 0 W) 0 (firstn s cs)) 0
  = if (j <? s)%nat then nth j cs 0 else 0.
Proof.
  intros HsW Hs.
  rewrite overwrite_nth by (rewrite repeat_length, length_firstn; lia).
  rewrite length_firstn, Nat.min_l by lia. cbn [Nat.leb Nat.add andb].
  destruct (Nat.ltb_spec j s).
  - rewrite Nat.sub_0_r, nth_firstn.
    replace (j <? s)%nat with true by (symmetry; apply Nat.ltb_lt; lia).
    reflexivity.
  - apply repeat_nth.
Qed.

Lemma grown_length (cs : list Z) (s W : nat) :
  (s <= W)%nat -> (s <= length cs)%nat ->
  length (overwrite (repeat 0 W) 0 (firstn s cs)) = W.
Proof.
  intros HsW Hs. rewrite overwrite_length; rewrite ?repeat_length; auto.
  rewrite length_firstn. lia.
Qed.

Lemma grown_cells_ok (cs : list Z) (s W : nat) :
  (s <= W)%nat -> (s <= length cs)%nat -> cells_ok cs ->
  cells_ok (overwrite (repeat 0 W) 0 (firstn s cs)).
Proof.
  intros HsW Hs Hc. unfold cells_ok. apply Forall_forall. intros x Hx.
  destruct (In_nth _ _ 0 Hx) as (j & Hj & <-).
  rewrite grown_nth by assumption.
  destruct (j <? s)%nat; [apply cells_ok_nth; exact Hc | lia].
Qed.

Lemma grown_bits (cs : list Z) (s W : nat) (k : Z) :
  (s <= W)%nat -> (s <= length cs)%nat -> 0 <= k ->
  bit_at (overwrite (repeat 0 W) 0 (firstn s cs)) k = bit_at cs k \/
  (64 * Z.of_nat s <= k /\
   bit_at (overwrite (repeat 0 W) 0 (firstn s cs)) k = false).
Proof.
  intros HsW Hs Hk. unfold bit_at. rewrite grown_nth by assumption.
  assert (Hq := Z.div_mod k 64 ltac:(lia)).
  assert (Hm := Z.mod_pos_bound k 64 ltac:(lia)).
  destruct (Nat.ltb_spec (Z.to_nat (k / 64)) s).
  - left. reflexivity.
  - right. split; [lia | apply Z.testbit_0_l].
Qed.

Lemma packed_Resize (d : buf) (b len n : Z) :
  packed_ok d b len -> 2 * cap d <= 2 ^ 45 -> b * n <= 2 ^ 50 -> 0 <= n ->
  exists d',
    generalArray.Resize (generalArray.mk d b len) n
    = Val (generalArray.mk d' b n) /\
    packed_ok d' b n /\
    cap d' <= Z.max (cap d) ((b * n + 63) / 32) /\
    forall k, 0 <= k ->
      bit_at (cells d') k = bit_at (cells d) k \/
      (64 * slen d <= k /\ bit_at (cells d') k = false).
Proof.
  intros (([Hs1 Hs2] & Hs3) & Hw & Hb & Hl & Hfit) Hcap Hbn Hn.
  unfold generalArray.Resize, generalArray.reserve, generalArray.cap, idiv_chk,
    wordBits, Go.len.
  cbn [generalArray.data generalArray.bitNum generalArray.len].
  replace (b =? 0) with false by (symmetry; apply Z.eqb_neq; lia).
  rewrite imul_small by lia.
  rewrite Z.quot_div_nonneg by lia. cbn [bind].
  assert (Hq := Z.div_mod (slen d * 64) b ltac:(lia)).
  assert (Hm := Z.mod_pos_bound (slen d * 64) b ltac:(lia)).
  set (currCap := slen d * 64 / b) in *.
  assert (Hc0 : 0 <= currCap) by (apply Z.div_pos; lia).
  assert (Hcb : b * currCap <= 64 * slen d) by lia.
  destruct (Z.leb_spec n currCap) as [Hle | Hgt]; cbn [bind].
  - exists d. cbn [generalArray.data generalArray.bitNum].
    split; [reflexivity |]. split; [| split].
    + repeat split; try assumption; try lia. nia.
    + lia.
    + intros k Hk. left. reflexivity.
  - rewrite maxInt_max. rewrite (imul_small 2) by lia.
    set (newCap := Z.max n (2 * currCap)).
    assert (Hnc : b * newCap <= 2 ^ 51).
    { unfold newCap. destruct (Z.max_spec n (2 * currCap)) as [[_ ->] | [_ ->]]; nia. }
    assert (Hnc2 : 64 * slen d < b * newCap).
    { assert (b * n <= b * newCap) by (apply Z.mul_le_mono_nonneg_l; unfold newCap; lia).
      nia. }
    unfold nWords, wordBits.
    rewrite imul_small by nia. rewrite iadd_small by nia.
    rewrite idiv_nonneg by nia.
    assert (HWq := Z.div_mod (b * newCap + (64 - 1)) 64 ltac:(lia)).
    assert (HWm := Z.mod_pos_bound (b * newCap + (64 - 1)) 64 ltac:(lia)).
    set (W := (b * newCap + (64 - 1)) / 64) in *.
    assert (HW : slen d < W <= 2 ^ 45) by lia.
    rewrite make_val by lia. cbn [bind generalArray.data generalArray.bitNum].
    unfold copy. cbn [slen cells].
    replace (Z.min W (slen d)) with (slen d) by lia.
    eexists. split; [reflexivity |].
    assert (Hbnn : b * n <= b * newCap)
      by (apply Z.mul_le_mono_nonneg_l; unfold newCap; lia).
    assert (Hnn : b * newCap <= 2 * (b * n)).
    { unfold newCap. destruct (Z.max_spec n (2 * currCap)) as [[_ ->] | [_ ->]]; nia. }
    unfold cap in *.
    split; [| split;
              [cbn [cells]; rewrite grown_length by lia;
               Z.div_mod_to_equations; lia
              | intros k Hk;
                replace (slen d) with (Z.of_nat (Z.to_nat (slen d))) at 2 by lia;
                apply grown_bits; lia]].
    unfold packed_ok, slice_ok, words_ok, cap. cbn [slen cells].
    rewrite grown_length by lia.
    repeat split; try lia.
    apply grown_cells_ok; try lia. exact Hw.
Qed.

Lemma pow2_Resize (d : buf) (b len n : Z) :
  packed_ok d b len -> 2 * cap d <= 2 ^ 45 -> b * n <= 2 ^ 50 -> 0 <= n ->
  exists d',
    smallPowerOfTwoBitsArray.Resize (smallPowerOfTwoBitsArray.mk d b len) n
    = Val (smallPowerOfTwoBitsArray.mk d' b n) /\
    packed_ok d' b n /\
    cap d' <= Z.max (cap d) ((b * n + 63) / 32) /\
    forall k, 0 <= k ->
      bit_at (cells d') k = bit_at (cells d) k \/
      (64 * slen d <= k /\ bit_at (cells d') k = false).
Proof.
  intros (([Hs1 Hs2] & Hs3) & Hw & Hb & Hl & Hfit) Hcap Hbn Hn.
  unfold smallPowerOfTwoBitsArray.Resize, nWords, wordBits, Go.len.
  cbn [smallPowerOfTwoBitsArray.data smallPowerOfTwoBitsArray.bitNum].
  assert (Hbn0 : 0 <= b * n) by nia.
  rewrite imul_small by lia. rewrite iadd_small by lia.
  rewrite idiv_nonneg by lia.
  assert (HWq := Z.div_mod (b * n + (64 - 1)) 64 ltac:(lia)).
  assert (HWm := Z.mod_pos_bound (b * n + (64 - 1)) 64 ltac:(lia)).
  set (newDataLen := (b * n + (64 - 1)) / 64) in *.
  rewrite Z.geb_leb.
  destruct (Z.leb_spec newDataLen (slen d)) as [Hle | Hgt].
  - exists d. split; [reflexivity |]. split; [| split].
    + repeat split; try assumption; lia.
    + lia.
    + intros k Hk. left. reflexivity.
  - rewrite maxInt_max. rewrite imul_small by lia.
    set (W := 2 * Z.max (slen d) newDataLen).
    assert (HW : slen d < W <= 2 ^ 45) by lia.
    rewrite make_val by lia. cbn [bind].
    unfold copy. cbn [slen cells].
    replace (Z.min W (slen d)) with (slen d) by lia.
    eexists. split; [reflexivity |].
    unfold cap in *.
    split; [| split;
              [cbn [cells]; rewrite grown_length by lia;
               Z.div_mod_to_equations; lia
              | intros k Hk;
                replace (slen d) with (Z.of_nat (Z.to_nat (slen d))) at 2 by lia;
                apply grown_bits; lia]].
    unfold packed_ok, slice_ok, words_ok, cap. cbn [slen cells].
    rewrite grown_length by lia.
    repeat split; try lia.
    apply grown_cells_ok; try lia. exact Hw.
Qed.

Lemma word_Resize (d : buf) (n : Z) :
  slice_ok d -> words_ok d -> 2 * cap d <= 2 ^ 45 -> 64 * n <= 2 ^ 50 -> 0 <= n ->
  exists d',
    wordArray.Resize (wordArray.mk d) n = Val (wordArray.mk d') /\
    slice_ok d' /\ words_ok d' /\ slen d' = n /\
    cap d' <= Z.max (cap d) ((64 * n + 63) / 32) /\
    forall k, 0 <= k ->
      bit_at (cells d') k = bit_at (cells d) k \/
      (64 * slen d <= k /\ bit_at (cells d') k = false).
Proof.
  intros [[Hs1 Hs2] Hs3] Hw Hcap Hbn Hn.
  unfold wordArray.Resize. cbn [wordArray.data].
  destruct (Z.leb_spec n (cap d)) as [Hle | Hgt].
  - rewrite slice_to_val by lia. cbn [bind].
    eexists. split; [reflexivity |].
    unfold slice_ok, words_ok, cap in *. cbn [slen cells].
    repeat split; try assumption; try lia.
    intros k Hk. left. reflexivity.
  - rewrite maxInt_max. rewrite imul_small by lia.
    set (W := 2 * Z.max (cap d) n).
    assert (HW : n <= W <= 2 ^ 45) by lia.
    rewrite make_cap_val by lia. cbn [bind].
    unfold copy. cbn [slen cells].
    replace (Z.min n (slen d)) with (slen d) by lia.
    eexists. split; [reflexivity |].
    unfold slice_ok, words_ok, cap in *. cbn [slen cells].
    rewrite grown_length by lia.
    repeat split; try lia.
    + apply grown_cells_ok; try lia. exact Hw.
    + Z.div_mod_to_equations. lia.
    + intros k Hk.
      replace (slen d) with (Z.of_nat (Z.to_nat (slen d))) at 2 by lia.
      apply grown_bits; lia.
Qed.

Lemma multi_Resize (d : buf) (b n : Z) :
  slice_ok d -> words_ok d -> 64 < b -> b mod 64 = 0 ->
  2 * cap d <= 2 ^ 45 -> b * n <= 2 ^ 50 -> 0 <= n ->
  exists d',
    multipleOfWordBitsArray.Resize (multipleOfWordBitsArray.mk d b) n
    = Val (multipleOfWordBitsArray.mk d' b) /\
    slice_ok d' /\ words_ok d' /\ slen d' = n * (b / 64) /\
    cap d' <= Z.max (cap d) ((b * n + 63) / 32) /\
    forall k, 0 <= k ->
      bit_at (cells d') k = bit_at (cells d) k \/
      (64 * slen d <= k /\ bit_at (cells d') k = false).
Proof.
  intros [[Hs1 Hs2] Hs3] Hw Hb Hbm Hcap Hbn Hn.
  unfold multipleOfWordBitsArray.Resize, wordBits.
  cbn [multipleOfWordBitsArray.data multipleOfWordBitsArray.bitNum].
  rewrite idiv_nonneg by lia.
  assert (Hq := Z.div_mod b 64 ltac:(lia)).
  set (nw := b / 64) in *.
  assert (Hnw : 2 <= nw) by lia.
  assert (Hn0 : 0 <= n * nw) by nia.
  assert (Hn1 : n * nw <= 2 ^ 44) by nia.
  rewrite imul_small by lia.
  rewrite Z.geb_leb.
  destruct (Z.leb_spec (n * nw) (cap d)) as [Hle | Hgt].
  - rewrite slice_to_val by lia. cbn [bind].
    eexists. split; [reflexivity |].
    unfold slice_ok, words_ok, cap in *. cbn [slen cells].
    repeat split; try assumption; try lia.
    intros k Hk. left. reflexivity.
  - rewrite maxInt_max. rewrite imul_small by lia.
    set (W := 2 * Z.max (cap d) (n * nw)).
    assert (HW : n * nw <= W <= 2 ^ 45) by lia.
    rewrite make_cap_val by lia. cbn [bind].
    unfold copy. cbn [slen cells].
    replace (Z.min (n * nw) (slen d)) with (slen d) by lia.
    eexists. split; [reflexivity |].
    unfold slice_ok, words_ok, cap in *. cbn [slen cells].
    rewrite grown_length by lia.
    assert (Hbn2 : b * n = 64 * (n * nw)) by lia.
    repeat split; try lia.
    + apply grown_cells_ok; try lia. exact Hw.
    + rewrite Hbn2. Z.div_mod_to_equations. lia.
    + intros k Hk.
      replace (slen d) with (Z.of_nat (Z.to_nat (slen d))) at 2 by lia.
      apply grown_bits; lia.
Qed.

(** [Resize] on every specialization. *)
Lemma Resize_resized (a : Array) (n : Z) :
  array_ok a -> resize_fits a n -> 0 <= n ->
  exists a', Resize a n = Val a' /\ resized a a' n.
Proof.
  intros Hok [Hcap Hbn] Hn. unfold resized, storage in *.
  destruct a as [g | s | w | p | m].
  - destruct g as [d b len].
    cbn [array_ok as_general ABitNum generalArray.BitNum generalArray.data
         generalArray.bitNum generalArray.len] in *.
    destruct (packed_Resize d b len n Hok Hcap Hbn Hn) as (d' & HR & Hok' & Hcp' & Hbits).
    cbn [Resize]. rewrite HR. cbn [bind].
    eexists. split; [reflexivity |].
    cbn [array_ok as_general ABitNum ALen generalArray.BitNum generalArray.Len
         generalArray.data generalArray.bitNum generalArray.len].
    repeat (split; [solve [auto | reflexivity | intros H; exact H | exact I] |]); auto.
  - destruct s as [[d b len]].
    cbn [array_ok as_general ABitNum smallBitsArray.BitNum smallBitsArray.ga
         generalArray.BitNum generalArray.data generalArray.bitNum
         generalArray.len] in *.
    destruct Hok as [Hok Hb64].
    destruct (packed_Resize d b len n Hok Hcap Hbn Hn) as (d' & HR & Hok' & Hcp' & Hbits).
    cbn [Resize]. unfold smallBitsArray.Resize. cbn [smallBitsArray.ga].
    rewrite HR. cbn [bind].
    eexists. split; [reflexivity |].
    cbn [array_ok as_general ABitNum ALen smallBitsArray.BitNum smallBitsArray.Len
         smallBitsArray.ga generalArray.BitNum generalArray.Len
         generalArray.data generalArray.bitNum generalArray.len].
    repeat (split; [solve [auto | reflexivity | intros H; exact H | exact I] |]); auto.
  - destruct w as [d].
    cbn [array_ok as_general ABitNum wordArray.BitNum wordArray.data
         generalArray.data] in *.
    unfold wordBits in *. destruct Hok as [Hs Hw].
    destruct (word_Resize d n Hs Hw Hcap Hbn Hn) as (d' & HR & Hs' & Hw' & Hl' & Hcp' & Hbits).
    cbn [Resize]. rewrite HR. cbn [bind].
    eexists. split; [reflexivity |].
    cbn [array_ok as_general ABitNum ALen wordArray.BitNum wordArray.Len
         wordArray.data generalArray.data].
    unfold Go.len, wordBits in *.
    repeat (split; [solve [auto | reflexivity | intros H; exact H | exact I] |]); auto.
  - destruct p as [d b len].
    cbn [array_ok as_general ABitNum smallPowerOfTwoBitsArray.BitNum
         smallPowerOfTwoBitsArray.data smallPowerOfTwoBitsArray.bitNum
         smallPowerOfTwoBitsArray.len generalArray.data] in *.
    destruct Hok as [Hok Hb64].
    destruct (pow2_Resize d b len n Hok Hcap Hbn Hn) as (d' & HR & Hok' & Hcp' & Hbits).
    cbn [Resize]. rewrite HR. cbn [bind].
    eexists. split; [reflexivity |].
    cbn [array_ok as_general ABitNum ALen smallPowerOfTwoBitsArray.BitNum
         smallPowerOfTwoBitsArray.Len
         smallPowerOfTwoBitsArray.data smallPowerOfTwoBitsArray.bitNum
         smallPowerOfTwoBitsArray.len generalArray.data].
    repeat (split; [solve [auto | reflexivity | intros H; exact H | exact I] |]); auto.
  - destruct m as [d b].
    cbn [array_ok as_general ABitNum multipleOfWordBitsArray.BitNum
         multipleOfWordBitsArray.data multipleOfWordBitsArray.bitNum
         generalArray.data] in *.
    destruct Hok as (Hs & Hw & Hb & Hbm).
    destruct (multi_Resize d b n Hs Hw Hb Hbm Hcap Hbn Hn)
      as (d' & HR & Hs' & Hw' & Hl' & Hcp' & Hbits).
    cbn [Resize]. rewrite HR. cbn [bind].
    eexists. split; [reflexivity |].
    cbn [array_ok as_general ABitNum ALen multipleOfWordBitsArray.BitNum
         multipleOfWordBitsArray.Len
         multipleOfWordBitsArray.data multipleOfWordBitsArray.bitNum
         generalArray.data].
    unfold multipleOfWordBitsArray.Len, Go.len, wordBits.
    cbn [multipleOfWordBitsArray.data multipleOfWordBitsArray.bitNum].
    rewrite Hl'.
    rewrite (idiv_nonneg b 64) by lia.
    assert (Hq := Z.div_mod b 64 ltac:(lia)).
    assert (0 <= n * (b / 64)) by nia.
    rewrite idiv_nonneg by lia.
    rewrite Z.div_mul by lia.
    repeat (split; [solve [auto | reflexivity | intros H; exact H | exact I] |]); auto.
Qed.

Lemma array_ok_storage (a : Array) :
  array_ok a ->
  cells_ok (cells (storage a)) /\ 0 < ABitNum a /\ 0 <= ALen a /\
  ABitNum a * ALen a <= 64 * slen (storage a) /\
  slen (storage a) <= Z.of_nat (length (cells (storage a))).
Proof.
  intros Hok. destruct (array_ok_general a Hok) as (Hp & Hb & Hl).
  unfold storage. rewrite <- Hb, <- Hl.
  destruct Hp as ([[Hs1 Hs2] Hs3] & Hw & Hb0 & Hl0 & Hfit).
  unfold cap in *. repeat split; auto.
Qed.

(** C5, refuted as stated: growing after an earlier shrink shows the old
    contents again.  A word-aligned array gets one row, the row is set to
    1, the array is shrunk to no row and grown to one row again: row 0
    reads 1, not 0. *)
Lemma Resize_after_shrink_not_zero :
  (a0 <- deref (NewArray 64) ;;
   a1 <- Resize a0 1 ;;
   a2 <- ASet a1 0 (vector_of 64 [1]) ;;
   a3 <- Resize a2 0 ;;
   a4 <- Resize a3 1 ;;
   x <- AGet a4 0 ;;
   Val (ALen a3, ALen a4, visible (vdata x)))
  = Val (0, 1, [1]).
Proof. vm_compute. reflexivity. Qed.

(** C5, amended: a call [Resize(newLen)] with [newLen] above the length
    leaves every row below the old length with the value it had, and every
    row in [oldLen, newLen) reads as the all-zero vector provided no bit is
    set in the buffer at or beyond the old rows; the buffer of the grown
    array is again of that kind. *)
Theorem Resize_grow (a : Array) (newLen : Z) :
  array_ok a -> resize_fits a newLen -> ALen a < newLen ->
  exists a',
    Resize a newLen = Val a' /\ ALen a' = newLen /\ ABitNum a' = ABitNum a /\
    (forall i, 0 <= i < ALen a ->
       exists x x',
         AGet a i = Val x /\ AGet a' i = Val x' /\
         vbitNum x' = vbitNum x /\ visible (vdata x') = visible (vdata x)) /\
    (tail_zero a ->
       tail_zero a' /\
       forall i, ALen a <= i < newLen ->
         exists x,
           AGet a' i = Val x /\ vbitNum x = ABitNum a /\
           visible (vdata x) = zero_words (ABitNum a)).
Proof.
  intros Hok Hfits Hlt.
  destruct (array_ok_storage a Hok) as (Hc & Hb & Hl & Hfit & Hcap).
  destruct (Resize_resized a newLen Hok Hfits ltac:(lia))
    as (a' & HR & Hok' & Hl' & Hb' & _ & _ & Hbits).
  destruct (array_ok_storage a' Hok') as (Hc' & _ & _ & Hfit' & Hcap').
  rewrite Hl', Hb' in Hfit'.
  exists a'. split; [exact HR |]. split; [exact Hl' |]. split; [exact Hb' |].
  split.
  - intros i Hi.
    destruct (AGet_words a i Hok Hi) as (x & HG & Hxb & Hvis).
    destruct (AGet_words a' i Hok' ltac:(lia)) as (x' & HG' & Hxb' & Hvis').
    exists x, x'. split; [exact HG |]. split; [exact HG' |].
    split; [congruence |].
    rewrite Hvis, Hvis', Hb'. fold (storage a) (storage a').
    apply general_words_ext; auto; try lia; try nia.
    intros k Hk. destruct (Hbits k ltac:(nia)) as [E | [Hge _]]; [exact E | nia].
  - intros Hz.
    assert (Hz' : forall k, ABitNum a * ALen a <= k ->
                            bit_at (cells (storage a')) k = false).
    { intros k Hk. destruct (Hbits k ltac:(nia)) as [E | [_ E]]; [| exact E].
      rewrite E. apply Hz. exact Hk. }
    split.
    + intros k Hk. rewrite Hl', Hb' in Hk. apply Hz'. nia.
    + intros i Hi.
      destruct (AGet_words a' i Hok' ltac:(lia)) as (x' & HG' & Hxb' & Hvis').
      exists x'. split; [exact HG' |]. split; [congruence |].
      rewrite Hvis', Hb'. fold (storage a').
      apply general_words_zero; auto; try lia; try nia.
      intros k Hk. apply Hz'. nia.
Qed.

Lemma Resize_grow_witness :
  let a := SmallBits (smallBitsArray.mk (generalArray.mk nil_slice 7 0)) in
  exists a',
    Resize a 3 = Val a' /\ ALen a' = 3 /\ ABitNum a' = ABitNum a /\
    (forall i, 0 <= i < ALen a ->
       exists x x',
         AGet a i = Val x /\ AGet a' i = Val x' /\
         vbitNum x' = vbitNum x /\ visible (vdata x') = visible (vdata x)) /\
    (tail_zero a ->
       tail_zero a' /\
       forall i, ALen a <= i < 3 ->
         exists x,
           AGet a' i = Val x /\ vbitNum x = ABitNum a /\
           visible (vdata x) = zero_words (ABitNum a)).
Proof.
  cbv zeta.
  apply (Resize_grow
           (SmallBits (smallBitsArray.mk (generalArray.mk nil_slice 7 0))) 3).
  - unfold array_ok, packed_ok, slice_ok, words_ok, cells_ok, cap, nil_slice.
    cbn [smallBitsArray.ga generalArray.data generalArray.bitNum generalArray.len
         cells slen length].
    repeat split; try lia; constructor.
  - unfold resize_fits, storage, cap, nil_slice.
    cbn [as_general ABitNum smallBitsArray.BitNum smallBitsArray.ga
         generalArray.BitNum generalArray.data generalArray.bitNum cells length].
    split; lia.
  - cbn [ALen smallBitsArray.Len smallBitsArray.ga generalArray.Len generalArray.len].
    lia.
Defined.

(* ===================================================================== *)
(** * Writes *)
(* ===================================================================== *)

Lemma written_below_trans (bound : Z) (d1 d2 d3 : buf) :
  written_below bound d1 d2 -> written_below bound d2 d3 ->
  written_below bound d1 d3.
Proof.
  intros (H1 & H2 & H3 & H4) (K1 & K2 & K3 & K4).
  repeat split; try congruence.
  intros k Hk. rewrite K4, H4 by assumption. reflexivity.
Qed.

Lemma cells_ok_firstn (cs : list Z) (k : nat) : cells_ok cs -> cells_ok (firstn k cs).
Proof.
  unfold cells_ok. revert k. induction cs as [| c cs IH]; intros [| k] H; cbn;
    try constructor; inversion H; subst; auto.
Qed.

Lemma cells_ok_skipn (cs : list Z) (k : nat) : cells_ok cs -> cells_ok (skipn k cs).
Proof.
  unfold cells_ok. revert k. induction cs as [| c cs IH]; intros [| k] H; cbn;
    auto; inversion H; subst; auto.
Qed.

Lemma cells_ok_overwrite (cs src : list Z) (off : nat) :
  cells_ok cs -> cells_ok src -> cells_ok (overwrite cs off src).
Proof.
  intros Hc Hs. unfold overwrite.
  apply Forall_app. split; [apply cells_ok_firstn; exact Hc |].
  apply Forall_app. split; [exact Hs | apply cells_ok_skipn; exact Hc].
Qed.

(** Whole words written at [off, off + length src). *)
Lemma overwrite_written (bound : Z) (d : buf) (off : nat) (src : list Z) :
  cells_ok (cells d) -> cells_ok src ->
  (off + length src <= length (cells d))%nat ->
  64 * Z.of_nat (off + length src) <= bound ->
  written_below bound d (mkslice (overwrite (cells d) off src) (slen d)).
Proof.
  intros Hc Hs Hlen Hb. unfold written_below, cap. cbn [slen cells].
  rewrite overwrite_length by assumption.
  repeat split; auto using cells_ok_overwrite.
  intros k Hk. unfold bit_at.
  assert (Hq := Z.div_mod k 64 ltac:(lia)).
  assert (Hm := Z.mod_pos_bound k 64 ltac:(lia)).
  rewrite overwrite_nth by assumption.
  replace (Z.to_nat (k / 64) <? off + length src)%nat with false
    by (symmetry; apply Nat.ltb_ge; lia).
  rewrite andb_false_r. reflexivity.
Qed.

Lemma set_written (bound : Z) (d : buf) (j offset x m : Z) :
  cells_ok (cells d) -> 0 <= j < slen d -> slen d <= cap d ->
  0 <= offset -> 0 <= m -> offset + m <= 64 -> 64 * j + offset + m <= bound ->
  exists d', set d j offset x m = Val d' /\ written_below bound d d'.
Proof.
  intros Hc Hj Hcap Ho Hm Hom Hb. rewrite set_val by lia.
  eexists. split; [reflexivity |].
  unfold written_below, cap in *. cbn [slen cells].
  assert (Hw := cells_ok_nth (cells d) (Z.to_nat j) Hc).
  rewrite overwrite1_length by lia.
  repeat split.
  - apply cells_ok_overwrite; [exact Hc |].
    constructor; [| constructor]. apply set_bits_range. exact Hw.
  - intros k Hk. unfold bit_at.
    assert (Hq := Z.div_mod k 64 ltac:(lia)).
    assert (Hkm := Z.mod_pos_bound k 64 ltac:(lia)).
    destruct (Z.eq_dec (k / 64) j) as [E | NE].
    + rewrite E. rewrite overwrite1_nth_same by lia.
      rewrite set_bits_testbit by lia.
      replace (k mod 64 <? offset + m) with false
        by (symmetry; apply Z.ltb_ge; lia).
      rewrite andb_false_r. reflexivity.
    + rewrite overwrite1_nth_other by lia. reflexivity.
Qed.

Lemma store_written (d : buf) (j x : Z) :
  cells_ok (cells d) -> 0 <= j < slen d -> slen d <= cap d -> 0 <= x < 2 ^ 64 ->
  exists d', store d j x = Val d' /\ written_below (64 * (j + 1)) d d'.
Proof.
  intros Hc Hj Hcap Hx. rewrite store_in by lia.
  eexists. split; [reflexivity |].
  unfold cap in *.
  apply overwrite_written; auto; cbn [length]; try lia.
  constructor; [exact Hx | constructor].
Qed.

Lemma copy_from_written (bound : Z) (d : buf) (lo : Z) (src : buf) :
  cells_ok (cells d) -> cells_ok (cells src) ->
  0 <= lo <= slen d -> slen d <= cap d -> 0 <= slen src <= cap src ->
  64 * (lo + Z.min (slen d - lo) (slen src)) <= bound ->
  exists d', copy_from d lo src = Val d' /\ written_below bound d d'.
Proof.
  intros Hc Hs Hlo Hcap Hsrc Hb. rewrite copy_from_val by lia.
  eexists. split; [reflexivity |].
  unfold cap in *.
  apply overwrite_written; auto using cells_ok_firstn;
    rewrite length_firstn; lia.
Qed.

Lemma copy_range_written (bound : Z) (d : buf) (lo hi : Z) (src : buf) :
  cells_ok (cells d) -> cells_ok (cells src) ->
  0 <= lo <= hi -> hi <= cap d -> 0 <= slen src <= cap src ->
  64 * (lo + Z.min (hi - lo) (slen src)) <= bound ->
  exists d', copy_range d lo hi src = Val d' /\ written_below bound d d'.
Proof.
  intros Hc Hs Hlo Hcap Hsrc Hb. rewrite copy_range_val by lia.
  eexists. split; [reflexivity |].
  unfold cap in *.
  apply overwrite_written; auto using cells_ok_firstn;
    rewrite length_firstn; lia.
Qed.

(* ===================================================================== *)
(** * Save and LoadArray *)
(* ===================================================================== *)

Lemma ASave_record (encode : arrayData -> list Byte.byte) (a : Array)
    (w : list Byte.byte) :
  ASave encode a w = Val ((w ++ [Byte.x01]) ++ encode (record_of a)).
Proof. destruct a; reflexivity. Qed.

Lemma visible_length {A : Type} (s : slice A) :
  0 <= slen s <= cap s -> Z.of_nat (length (visible s)) = slen s.
Proof.
  intros H. unfold visible, cap in *. rewrite length_firstn. lia.
Qed.

Lemma visible_nth {A : Type} (z : A) (s : slice A) (j : nat) :
  (Z.of_nat j < slen s) -> nth j (visible s) z = nth j (cells s) z.
Proof.
  intros H. unfold visible. rewrite nth_firstn.
  replace (j <? Z.to_nat (slen s))%nat with true
    by (symmetry; apply Nat.ltb_lt; lia).
  reflexivity.
Qed.

Lemma visible_same_bits (d d' : buf) (k : Z) :
  0 <= slen d <= cap d -> 0 <= slen d' <= cap d' ->
  visible d' = visible d -> 0 <= k < 64 * slen d ->
  bit_at (cells d') k = bit_at (cells d) k.
Proof.
  intros Hd Hd' Hv Hk.
  assert (Hl : slen d' = slen d).
  { rewrite <- (visible_length d'), <- (visible_length d) by assumption.
    rewrite Hv. reflexivity. }
  unfold bit_at.
  assert (Hq := Z.div_mod k 64 ltac:(lia)).
  assert (Hm := Z.mod_pos_bound k 64 ltac:(lia)).
  rewrite <- (visible_nth 0 d') by lia.
  rewrite <- (visible_nth 0 d) by lia.
  rewrite Hv. reflexivity.
Qed.

(** The array [createArray] builds from a record is well formed, and has
    the width and the length of the array the record was made of. *)
Lemma exact_copy_ok (d : buf) :
  slice_ok d -> words_ok d ->
  slice_ok (exact_copy d) /\ words_ok (exact_copy d) /\
  visible (exact_copy d) = visible d /\
  cap (exact_copy d) <= cap d.
Proof.
  intros [Hs1 Hs3] Hw.
  assert (Hl : Z.of_nat (length (visible d)) = slen d)
    by (apply visible_length; lia).
  assert (Hv : visible (exact_copy d) = visible d).
  { unfold exact_copy. unfold visible at 1. cbn [slen cells].
    rewrite Nat2Z.id. apply firstn_all. }
  unfold slice_ok, words_ok, cap in *. unfold exact_copy at 1 2 3 4 5 7.
  cbn [slen cells]. rewrite Hl.
  repeat split; try lia; auto.
  unfold visible. apply cells_ok_firstn. exact Hw.
Qed.

Lemma createArray_loaded (a : Array) (data' : buf) :
  array_ok a -> proper_width a ->
  slice_ok data' -> words_ok data' ->
  visible data' = visible (storage a) ->
  exists a',
    createArray data' (ABitNum a) (ALen a) = Some a' /\
    array_ok a' /\ ABitNum a' = ABitNum a /\ ALen a' = ALen a /\
    storage a' = data' /\ proper_width a'.
Proof.
  intros Hok Hpw Hs' Hw' Hvis.
  destruct (array_ok_general a Hok) as (Hp & Hb & Hl).
  fold (storage a) in Hp. rewrite Hb, Hl in Hp.
  destruct Hp as ([Hs1 Hs2] & Hw & Hb0 & Hl0 & Hfit).
  assert (Hsl : slen data' = slen (storage a)).
  { rewrite <- (visible_length data'), <- (visible_length (storage a));
      [rewrite Hvis; reflexivity | exact Hs1 | apply Hs']. }
  assert (Hp' : packed_ok data' (ABitNum a) (ALen a)).
  { repeat split; try apply Hs'; auto; lia. }
  unfold createArray, wordBits.
  replace (ABitNum a <=? 0) with false by (symmetry; apply Z.leb_gt; lia).
  replace (ALen a <? 0) with false by (symmetry; apply Z.ltb_ge; lia).
  cbn [orb].
  destruct (Z.ltb_spec (ABitNum a) 64) as [Hlt | Hge].
  - destruct (Z.eqb_spec (Z.lxor (ABitNum a) (ABitNum a - 1)) 0) as [E | _];
      [exfalso; exact (lxor_pred_nonzero _ E) |].
    eexists. split; [reflexivity |].
    cbn [array_ok ABitNum ALen smallBitsArray.ga smallBitsArray.BitNum
         smallBitsArray.Len generalArray.BitNum generalArray.Len
         generalArray.data generalArray.bitNum generalArray.len].
    unfold storage. cbn [as_general smallBitsArray.ga generalArray.data proper_width].
    auto 10.
  - destruct (Z.eqb_spec (ABitNum a) 64) as [E64 | N64].
    + eexists. split; [reflexivity |].
      cbn [array_ok ABitNum ALen wordArray.BitNum wordArray.Len wordArray.data].
      unfold storage, wordBits, Go.len.
      cbn [as_general wordArray.data generalArray.data].
      cbn [proper_width].
      repeat split; try apply Hs'; auto.
      unfold wordArray.Len, Go.len. cbn [wordArray.data]. rewrite Hsl.
      (* the length of a word-aligned array is the length of its buffer *)
      destruct a as [g | s | w | p | m];
        cbn [array_ok proper_width ABitNum ALen storage as_general] in *.
      * unfold generalArray.BitNum in E64. lia.
      * unfold smallBitsArray.BitNum, generalArray.BitNum in E64.
        destruct Hok as [_ Hok]. lia.
      * reflexivity.
      * unfold smallPowerOfTwoBitsArray.BitNum in E64.
        destruct Hok as [_ Hok]. cbn [In] in Hok. lia.
      * unfold multipleOfWordBitsArray.BitNum in E64. lia.
    + assert (Hq := Z.div_mod (ABitNum a) 64 ltac:(lia)).
      assert (Hm := Z.mod_pos_bound (ABitNum a) 64 ltac:(lia)).
      rewrite imod_nonneg by lia.
      destruct (Z.eqb_spec (ABitNum a mod 64) 0) as [E0 | N0].
      * eexists. split; [reflexivity |].
        cbn [array_ok ABitNum ALen multipleOfWordBitsArray.BitNum
             multipleOfWordBitsArray.data multipleOfWordBitsArray.bitNum].
        unfold storage, multipleOfWordBitsArray.Len, Go.len.
        cbn [as_general multipleOfWordBitsArray.data
             multipleOfWordBitsArray.bitNum generalArray.data].
        cbn [proper_width].
        repeat split; try apply Hs'; auto; try lia.
        unfold multipleOfWordBitsArray.Len, Go.len.
        cbn [multipleOfWordBitsArray.data multipleOfWordBitsArray.bitNum].
        rewrite Hsl.
        destruct a as [g | s | w | p | m];
          cbn [array_ok proper_width ABitNum ALen storage as_general] in *.
        -- unfold generalArray.BitNum in E0. lia.
        -- unfold smallBitsArray.BitNum, generalArray.BitNum in Hge.
           destruct Hok as [_ Hok]. lia.
        -- unfold wordArray.BitNum, wordBits in N64. lia.
        -- unfold smallPowerOfTwoBitsArray.BitNum in Hge.
           destruct Hok as [_ Hok]. cbn [In] in Hok. lia.
        -- reflexivity.
      * eexists. split; [reflexivity |].
        cbn [array_ok ABitNum ALen generalArray.BitNum generalArray.Len
             generalArray.data generalArray.bitNum generalArray.len].
        unfold storage. cbn [as_general generalArray.data proper_width
                             generalArray.bitNum].
        repeat (split; [solve [auto | lia] |]). auto.
Qed.

(** C6: for every array of a specialization, with the codec round-tripping
    its record, [LoadArray] on the bytes [Save] wrote yields an array of
    the same length and width whose rows are equal, one by one, to those of
    the saved array. *)
Theorem Save_LoadArray_roundtrip (encode : arrayData -> list Byte.byte)
    (decode : decoder) (a : Array) :
  array_ok a -> proper_width a ->
  codec_roundtrip encode decode (record_of a) ->
  exists bytes a',
    ASave encode a [] = Val bytes /\
    LoadArray decode bytes = Val (Some a', []) /\
    ALen a' = ALen a /\ ABitNum a' = ABitNum a /\
    forall i, 0 <= i < ALen a ->
      exists x x',
        AGet a i = Val x /\ AGet a' i = Val x' /\
        vbitNum x' = vbitNum x /\ visible (vdata x') = visible (vdata x).
Proof.
  intros Hok Hpw Hcodec.
  pose proof (Hcodec []) as Hdec.
  rewrite app_nil_r in Hdec.
  destruct (array_ok_general a Hok) as (Hp & Hb & Hl).
  fold (storage a) in Hp.
  destruct (exact_copy_ok (storage a)) as (Hs' & Hw' & Hvis & _);
    [apply Hp | apply Hp |].
  set (data' := exact_copy (storage a)) in *.
  destruct (createArray_loaded a data' Hok Hpw Hs' Hw' Hvis)
    as (a' & Hcreate & Hok' & Hb' & Hl' & Hst' & _).
  exists ([Byte.x01] ++ encode (record_of a)), a'.
  split; [apply ASave_record |].
  split.
  { cbn [app LoadArray]. change (Byte.eqb Byte.x01 Byte.x01) with true. cbv iota.
    unfold loadArrayFormatV1. rewrite Hdec.
    unfold record_of. cbn [Data BitNum Len]. fold (storage a). fold data'.
    rewrite Hb, Hl, Hcreate. reflexivity. }
  split; [exact Hl' |]. split; [exact Hb' |].
  intros i Hi.
  destruct (AGet_words a i Hok Hi) as (x & HG & Hxb & Hvx).
  destruct (AGet_words a' i Hok' ltac:(lia)) as (x' & HG' & Hxb' & Hvx').
  exists x, x'. split; [exact HG |]. split; [exact HG' |].
  split; [congruence |].
  rewrite Hvx, Hvx', Hb'. fold (storage a) (storage a').
  destruct (array_ok_storage a Hok) as (Hc & Hb0 & Hl0 & Hfit & Hcap).
  destruct (array_ok_storage a' Hok') as (Hc' & _ & _ & Hfit' & Hcap').
  rewrite Hl', Hb' in Hfit'.
  apply general_words_ext; auto; try lia; try nia.
  intros k Hk. rewrite Hst'.
  apply visible_same_bits; auto.
  - split; [| unfold cap; lia]. apply Hp.
  - apply Hs'.
  - nia.
Qed.

Lemma Save_LoadArray_roundtrip_witness :
  let a := Word (wordArray.mk (mkslice [5; 9] 2)) in
  exists bytes a',
    ASave encode_nothing a [] = Val bytes /\
    LoadArray (decode_const (record_of a)) bytes = Val (Some a', []) /\
    ALen a' = ALen a /\ ABitNum a' = ABitNum a /\
    forall i, 0 <= i < ALen a ->
      exists x x',
        AGet a i = Val x /\ AGet a' i = Val x' /\
        vbitNum x' = vbitNum x /\ visible (vdata x') = visible (vdata x).
Proof.
  cbv zeta.
  apply (Save_LoadArray_roundtrip encode_nothing
           (decode_const (record_of (Word (wordArray.mk (mkslice [5; 9] 2)))))
           (Word (wordArray.mk (mkslice [5; 9] 2)))).
  - unfold array_ok, slice_ok, words_ok, cells_ok, cap.
    cbn [wordArray.data cells slen length].
    repeat split; try lia; repeat constructor; lia.
  - exact I.
  - intros rest. reflexivity.
Defined.

Ltac written_facts W :=
  let H1 := fresh "Hsl" in let H2 := fresh "Hcp" in let H3 := fresh "Hck" in
  pose proof (proj1 W) as H1;
  pose proof (proj1 (proj2 W)) as H2;
  pose proof (proj1 (proj2 (proj2 W))) as H3.

(** Run the next [set], [copy(s[lo:], v)] or [copy(s[lo:hi], v)] of the
    goal, a write below [bound]. *)
Ltac write_step bound d1 E1 W1 :=
  match goal with
  | |- context [set ?d ?j ?o ?x ?m] =>
      destruct (set_written bound d j o x m) as (d1 & E1 & W1);
      [ .. | rewrite E1; cbn [bind]; written_facts W1 ]
  | |- context [copy_from ?d ?lo ?src] =>
      destruct (copy_from_written bound d lo src) as (d1 & E1 & W1);
      [ .. | rewrite E1; cbn [bind]; written_facts W1 ]
  | |- context [copy_range ?d ?lo ?hi ?src] =>
      destruct (copy_range_written bound d lo hi src) as (d1 & E1 & W1);
      [ .. | rewrite E1; cbn [bind]; written_facts W1 ]
  end.

Lemma general_Set_written (d : buf) (b len n : Z) (v : Vector) :
  packed_ok d b len -> vector_ok b v -> 0 <= n < len ->
  exists d',
    generalArray.Set_ (generalArray.mk d b len) n v
    = Val (generalArray.mk d' b len) /\
    written_below (n * b + b) d d'.
Proof.
  intros Hok Hv Hn.
  destruct (packed_positions d b len n Hok Hn) as (Em & Ea & Hl0 & Hr & Hs & Hcap).
  destruct Hok as (_ & Hw & Hb0 & _ & _).
  destruct Hv as (Hvb & _ & [Hvs1 Hvs2] & Hvw & Hvl & _).
  unfold words_ok in Hw, Hvw.
  unfold generalArray.Set_.
  cbn [generalArray.data generalArray.bitNum generalArray.len].
  rewrite Hvb, Z.eqb_refl. cbn [negb].
  rewrite in_range_test by lia. rewrite Em, Ea. unfold wordBits, Go.len.
  rewrite !idiv_nonneg, !imod_nonneg by lia.
  set (lbit := n * b) in *. set (rbit := lbit + b) in *.
  assert (Hlq := Z.div_mod lbit 64 ltac:(lia)).
  assert (Hrq := Z.div_mod rbit 64 ltac:(lia)).
  assert (Hlm := Z.mod_pos_bound lbit 64 ltac:(lia)).
  assert (Hrm := Z.mod_pos_bound rbit 64 ltac:(lia)).
  assert (Hbq := Z.div_mod b 64 ltac:(lia)).
  assert (Hbm := Z.mod_pos_bound b 64 ltac:(lia)).
  assert (Htq := Z.div_mod (b + 63) 64 ltac:(lia)).
  assert (Htm := Z.mod_pos_bound (b + 63) 64 ltac:(lia)).
  set (l := lbit / 64) in *. set (r := rbit / 64) in *.
  set (lo := lbit mod 64) in *. set (ro := rbit mod 64) in *.
  set (vlen := slen (vdata v)) in *.
  assert (Hl : 0 <= l < slen d) by lia.
  assert (Hmult : b mod 64 = 0 -> lo = 0).
  { intros E. unfold lo, lbit.
    replace (n * b) with (n * (b / 64) * 64) by lia.
    apply Z.mod_mul. lia. }
  destruct ((l =? r) || ((l + 1 =? r) && (ro =? 0))) eqn:Ea1.
  - (* one word *)
    assert (Hone : lo + b <= 64).
    { apply orb_true_iff in Ea1. destruct Ea1 as [E | E].
      - apply Z.eqb_eq in E. lia.
      - apply andb_true_iff in E. destruct E as [E1 E2].
        apply Z.eqb_eq in E1. apply Z.eqb_eq in E2. lia. }
    rewrite index_in by lia. cbn [bind].
    write_step rbit d1 E1 W1; try lia; auto.
    eexists. split; [reflexivity | exact W1].
  - apply orb_false_iff in Ea1. destruct Ea1 as [Nlr Ea2].
    apply Z.eqb_neq in Nlr.
    assert (Hlr : l < r) by lia.
    assert (Hrs : r <= slen d) by lia.
    destruct (Z.eqb_spec lo 0) as [Elo | Nlo].
    + (* aligned start *)
      destruct (Z.eqb_spec ro 0) as [Ero | Nro].
      * write_step rbit d1 E1 W1; try lia; auto.
        eexists. split; [reflexivity | exact W1].
      * rewrite slice_to_val by lia. cbn [bind].
        write_step rbit d1 E1 W1; cbn [slen cells]; try lia; auto;
          try (unfold cap in *; cbn [slen cells] in *; lia).
        rewrite index_in by lia. cbn [bind].
        write_step rbit d2 E2 W2; try lia; auto.
        eexists. split; [reflexivity |].
        exact (written_below_trans _ _ _ _ W1 W2).
    + (* unaligned start *)
      write_step rbit d1 E1 W1; try lia; auto.
      destruct (Z.ltb_spec (64 - lo) (b mod 64)) as [Hlt | Hge].
      * rewrite index_in by lia. cbn [bind].
        write_step rbit d2 E2 W2; try lia; auto.
        write_step rbit d3 E3 W3; try lia; auto.
        eexists. split; [reflexivity |].
        exact (written_below_trans _ _ _ _ W1
                 (written_below_trans _ _ _ _ W2 W3)).
      * destruct (Z.eqb_spec (64 - lo) (b mod 64)) as [Eeq | Nne].
        -- rewrite index_in by lia. cbn [bind].
           write_step rbit d2 E2 W2; try lia; auto.
           eexists. split; [reflexivity |].
           exact (written_below_trans _ _ _ _ W1 W2).
        -- rewrite index_in by lia. cbn [bind].
           write_step rbit d2 E2 W2; try lia; auto.
           write_step rbit d3 E3 W3; try lia; auto.
           rewrite index_in by lia. cbn [bind].
           write_step rbit d4 E4 W4; try lia; auto.
           eexists. split; [reflexivity |].
           exact (written_below_trans _ _ _ _ W1
                    (written_below_trans _ _ _ _ W2
                       (written_below_trans _ _ _ _ W3 W4))).
Qed.

(** A cell replaced by a word that keeps its bits from position [t] on. *)
Lemma word_written (bound : Z) (d : buf) (j x t : Z) :
  cells_ok (cells d) -> 0 <= j < slen d -> slen d <= cap d ->
  0 <= x < 2 ^ 64 -> 0 <= t ->
  (forall i, t <= i < 64 ->
     Z.testbit x i = Z.testbit (nth (Z.to_nat j) (cells d) 0) i) ->
  64 * j + t <= bound ->
  exists d', store d j x = Val d' /\ written_below bound d d'.
Proof.
  intros Hc Hj Hcap Hx Ht Hbits Hb. rewrite store_in by lia.
  eexists. split; [reflexivity |].
  unfold written_below, cap in *. cbn [slen cells].
  rewrite overwrite1_length by lia.
  repeat split.
  - apply cells_ok_overwrite; [exact Hc |]. constructor; [exact Hx | constructor].
  - intros k Hk. unfold bit_at.
    assert (Hq := Z.div_mod k 64 ltac:(lia)).
    assert (Hkm := Z.mod_pos_bound k 64 ltac:(lia)).
    destruct (Z.eq_dec (k / 64) j) as [E | NE].
    + rewrite E. rewrite overwrite1_nth_same by lia. apply Hbits. lia.
    + rewrite overwrite1_nth_other by lia. reflexivity.
Qed.

Lemma smallBits_Set_written (d : buf) (b len n : Z) (v : Vector) :
  packed_ok d b len -> b < 64 -> vector_ok b v -> 0 <= n < len ->
  exists d',
    smallBitsArray.Set_ (smallBitsArray.mk (generalArray.mk d b len)) n v
    = Val (smallBitsArray.mk (generalArray.mk d' b len)) /\
    written_below (n * b + b) d d'.
Proof.
  intros Hok Hb64 Hv Hn.
  destruct (packed_positions d b len n Hok Hn) as (Em & Ea & Hl0 & Hr & Hs & Hcap).
  destruct Hok as (_ & Hw & Hb0 & _ & _).
  destruct (vector_ok_head b v Hv ltac:(lia)) as [Hv0 _].
  destruct Hv as (Hvb & _).
  unfold words_ok in Hw.
  unfold smallBitsArray.Set_, smallBitsArray.Len, smallBitsArray.BitNum,
    generalArray.Len, generalArray.BitNum.
  cbn [smallBitsArray.ga generalArray.data generalArray.bitNum generalArray.len].
  rewrite Hvb, Z.eqb_refl. cbn [negb].
  rewrite in_range_test by lia. rewrite Em, Ea. unfold wordBits.
  rewrite !idiv_nonneg, !imod_nonneg by lia.
  set (lbit := n * b) in *. set (rbit := lbit + b) in *.
  assert (Hlq := Z.div_mod lbit 64 ltac:(lia)).
  assert (Hrq := Z.div_mod rbit 64 ltac:(lia)).
  assert (Hlm := Z.mod_pos_bound lbit 64 ltac:(lia)).
  assert (Hrm := Z.mod_pos_bound rbit 64 ltac:(lia)).
  set (l := lbit / 64) in *. set (r := rbit / 64) in *.
  set (lo := lbit mod 64) in *. set (ro := rbit mod 64) in *.
  rewrite Hv0. cbn [bind].
  destruct ((l =? r) || (ro =? 0)) eqn:Ec.
  - assert (Hone : lo + b <= 64).
    { apply orb_true_iff in Ec. destruct Ec as [E | E]; apply Z.eqb_eq in E; lia. }
    write_step rbit d1 E1 W1; try lia; auto.
    eexists. split; [reflexivity | exact W1].
  - apply orb_false_iff in Ec. destruct Ec as [Nlr Nro].
    apply Z.eqb_neq in Nlr. apply Z.eqb_neq in Nro.
    rewrite isub_small by lia.
    write_step rbit d1 E1 W1; try lia; auto.
    write_step rbit d2 E2 W2; try lia; auto.
    eexists. split; [reflexivity |].
    exact (written_below_trans _ _ _ _ W1 W2).
Qed.

Lemma word_Set_written (d : buf) (n : Z) (v : Vector) :
  slice_ok d -> words_ok d -> vector_ok 64 v -> 0 <= n < slen d ->
  exists d',
    wordArray.Set_ (wordArray.mk d) n v = Val (wordArray.mk d') /\
    written_below (n * 64 + 64) d d'.
Proof.
  intros [[Hs1 Hs2] Hs3] Hw Hv Hn.
  destruct (vector_ok_head 64 v Hv ltac:(lia)) as [Hv0 _].
  assert (Hvr := vector_ok_nth_range 64 v 0 Hv).
  destruct Hv as (Hvb & _).
  unfold wordArray.Set_, wordArray.Len, Go.len, wordBits. cbn [wordArray.data].
  rewrite Hvb. change (64 =? 64) with true. cbn [negb].
  rewrite in_range_test by lia. rewrite Hv0. cbn [bind].
  destruct (store_written d n (nth 0 (cells (vdata v)) 0)) as (d' & E & W);
    auto; try lia.
  rewrite E. cbn [bind]. eexists. split; [reflexivity |].
  replace (n * 64 + 64) with (64 * (n + 1)) by lia. exact W.
Qed.

Lemma multi_Set_written (d : buf) (b n : Z) (v : Vector) :
  slice_ok d -> words_ok d -> 64 < b -> b mod 64 = 0 ->
  vector_ok b v -> 0 <= n < slen d / (b / 64) ->
  exists d',
    multipleOfWordBitsArray.Set_ (multipleOfWordBitsArray.mk d b) n v
    = Val (multipleOfWordBitsArray.mk d' b) /\
    written_below (n * b + b) d d'.
Proof.
  intros [[Hs1 Hs2] Hs3] Hw Hb Hbm Hv Hn.
  destruct Hv as (Hvb & _ & [Hvs1 Hvs2] & Hvw & Hvl & _).
  unfold words_ok in Hw, Hvw.
  unfold multipleOfWordBitsArray.Set_, multipleOfWordBitsArray.Len, Go.len, wordBits.
  cbn [multipleOfWordBitsArray.data multipleOfWordBitsArray.bitNum].
  rewrite Hvb, Z.eqb_refl. cbn [negb].
  rewrite (idiv_nonneg b 64) by lia.
  assert (Hq := Z.div_mod b 64 ltac:(lia)).
  replace ((b + 63) / 64) with (b / 64) in Hvl by (Z.div_mod_to_equations; lia).
  set (nw := b / 64) in *.
  assert (Hnw : 2 <= nw) by lia.
  rewrite idiv_nonneg by lia.
  assert (Hd := Z.div_mod (slen d) nw ltac:(lia)).
  assert (Hdm := Z.mod_pos_bound (slen d) nw ltac:(lia)).
  assert (Hfit : n * nw + nw <= slen d) by nia.
  assert (Hn0 : 0 <= n * nw) by nia.
  rewrite in_range_test by lia.
  rewrite imul_small by lia.
  write_step (n * b + b) d1 E1 W1; try lia; auto.
  eexists. split; [reflexivity | exact W1].
Qed.

Lemma land_word (w y : Z) : 0 <= w < 2 ^ 64 -> 0 <= Z.land w y < 2 ^ 64.
Proof.
  intros Hw. apply word_of_bits.
  - apply Z.land_nonneg. left. lia.
  - intros i Hi. rewrite Z.land_spec, (testbit_word_high w i) by lia. reflexivity.
Qed.

Lemma lor_word (w y : Z) :
  0 <= w < 2 ^ 64 -> 0 <= y < 2 ^ 64 -> 0 <= Z.lor w y < 2 ^ 64.
Proof.
  intros Hw Hy. apply word_of_bits.
  - apply Z.lor_nonneg. lia.
  - intros i Hi.
    rewrite Z.lor_spec, (testbit_word_high w i), (testbit_word_high y i) by lia.
    reflexivity.
Qed.

Lemma pow2_Set_written (d : buf) (b len n : Z) (v : Vector) :
  packed_ok d b len -> In b [1; 2; 4; 8; 16; 32] -> vector_ok b v ->
  0 <= n < len ->
  exists d',
    smallPowerOfTwoBitsArray.Set_ (smallPowerOfTwoBitsArray.mk d b len) n v
    = Val (smallPowerOfTwoBitsArray.mk d' b len) /\
    written_below (n * b + b) d d'.
Proof.
  intros Hok Hb Hv Hn.
  destruct (packed_positions d b len n Hok Hn) as (Em & Ea & Hl0 & Hr & Hs & Hcap).
  destruct Hok as (_ & Hw & Hb0 & _ & _).
  assert (Hb64 : 0 < b < 64) by (cbn [In] in Hb; lia).
  destruct (vector_ok_head b v Hv ltac:(lia)) as [Hv0 _].
  assert (Hvbits := fun i => vector_ok_bits b v i Hv).
  assert (Hvr := vector_ok_nth_range b v 0 Hv).
  destruct Hv as (Hvb & _).
  unfold words_ok in Hw.
  assert (Hlq := Z.div_mod (n * b) 64 ltac:(lia)).
  assert (Hlm := Z.mod_pos_bound (n * b) 64 ltac:(lia)).
  assert (Hrq := Z.div_mod (n * b + b) 64 ltac:(lia)).
  assert (Hrm := Z.mod_pos_bound (n * b + b) 64 ltac:(lia)).
  unfold smallPowerOfTwoBitsArray.Set_, smallPowerOfTwoBitsArray.Len, idiv_chk,
    wordBits.
  cbn [smallPowerOfTwoBitsArray.data smallPowerOfTwoBitsArray.bitNum
       smallPowerOfTwoBitsArray.len].
  rewrite Hvb, Z.eqb_refl. cbn [negb].
  rewrite in_range_test by lia.
  rewrite leastBits_ones by lia.
  set (v0 := nth 0 (cells (vdata v)) 0) in *.
  assert (Hgoal : forall l lo,
            l = n * b / 64 -> lo = (n * b) mod 64 -> lo + b <= 64 ->
            exists d',
              (w <- index 0 d l ;;
               d0 <- store d l (Z.land w (wnot (shl (Z.ones b) lo))) ;;
               v1 <- index 0 (vdata v) 0 ;;
               w0 <- index 0 d0 l ;;
               d1 <- store d0 l (Z.lor w0 (shl v1 lo)) ;;
               Val (smallPowerOfTwoBitsArray.mk d1 b len))
              = Val (smallPowerOfTwoBitsArray.mk d' b len) /\
              written_below (n * b + b) d d').
  { intros l lo -> -> Hfield.
    set (l := n * b / 64) in *. set (lo := (n * b) mod 64) in *.
    assert (Hl : 0 <= l < slen d) by lia.
    rewrite index_in by lia. cbn [bind].
    assert (Hdl := cells_ok_nth (cells d) (Z.to_nat l) Hw).
    destruct (word_written (n * b + b) d l
                (Z.land (nth (Z.to_nat l) (cells d) 0) (wnot (shl (Z.ones b) lo)))
                (lo + b)) as (d1 & E1 & W1); auto; try lia.
    { apply land_word. exact Hdl. }
    { intros i Hi. rewrite Z.land_spec, wnot_testbit, shl_testbit by lia.
      rewrite Z.testbit_ones by lia.
      replace (i - lo <? b) with false by (symmetry; apply Z.ltb_ge; lia).
      replace (i <? 64) with true by (symmetry; apply Z.ltb_lt; lia).
      rewrite !andb_false_r. cbn [xorb]. apply andb_true_r. }
    rewrite E1. cbn [bind]. written_facts W1.
    rewrite Hv0. cbn [bind].
    rewrite index_in by lia. cbn [bind].
    assert (Hd1 := cells_ok_nth (cells d1) (Z.to_nat l) Hck).
    destruct (word_written (n * b + b) d1 l
                (Z.lor (nth (Z.to_nat l) (cells d1) 0) (shl v0 lo))
                (lo + b)) as (d2 & E2 & W2); auto; try lia.
    { apply lor_word; [exact Hd1 | apply shl_range]. }
    { intros i Hi. rewrite Z.lor_spec, shl_testbit by lia.
      rewrite Hvbits by lia. rewrite !andb_false_r. apply orb_false_r. }
    rewrite E2. cbn [bind].
    eexists. split; [reflexivity |].
    exact (written_below_trans _ _ _ _ W1 W2). }
  cbn [In] in Hb.
  destruct Hb as [<- | [<- | [<- | [<- | [<- | [<- | []]]]]]];
    match goal with
    | |- context [Z.quot 64 ?b] =>
        let q := eval compute in (Z.quot 64 b) in
        change (Z.quot 64 b) with q;
        change (b =? 0) with false; cbn [negb];
        change (q =? 0) with false;
        rewrite (Z.quot_div_nonneg n q) by lia;
        rewrite (imod_nonneg n q) by lia;
        assert (Hnq := Z.div_mod n q ltac:(lia));
        assert (Hnm := Z.mod_pos_bound n q ltac:(lia));
        rewrite imul_small by lia;
        rewrite to_word_small by lia;
        apply Hgoal; lia
    end.
Qed.

Lemma written_packed_ok (bound : Z) (d d' : buf) (b len : Z) :
  packed_ok d b len -> written_below bound d d' -> packed_ok d' b len.
Proof.
  intros ([[Hs1 Hs2] Hs3] & Hw & Hb & Hl & Hfit) (Hsl & Hcp & Hck & _).
  unfold packed_ok, slice_ok, words_ok. rewrite Hsl, Hcp. auto 10.
Qed.

(** [Set] on every specialization: a row in range and a vector of the
    array's width are stored; the array keeps its length and width, and
    no bit beyond the row is touched. *)
Lemma ASet_written (a : Array) (n : Z) (v : Vector) :
  array_ok a -> vector_ok (ABitNum a) v -> 0 <= n < ALen a ->
  exists a',
    ASet a n v = Val a' /\ array_ok a' /\
    ALen a' = ALen a /\ ABitNum a' = ABitNum a /\
    written_below (n * ABitNum a + ABitNum a) (storage a) (storage a') /\
    (proper_width a -> proper_width a').
Proof.
  intros Hok Hv Hn. unfold storage. destruct a as [g | s | w | p | m].
  - destruct g as [d b len].
    cbn [array_ok ABitNum ALen as_general generalArray.BitNum generalArray.Len
         generalArray.data generalArray.bitNum generalArray.len] in *.
    destruct (general_Set_written d b len n v Hok Hv Hn) as (d' & E & W).
    cbn [ASet]. rewrite E. cbn [bind]. eexists. split; [reflexivity |].
    cbn [array_ok ABitNum ALen as_general generalArray.BitNum generalArray.Len
         generalArray.data generalArray.bitNum generalArray.len].
    repeat (split; [solve [eauto using written_packed_ok] |]). auto.
  - destruct s as [[d b len]].
    cbn [array_ok ABitNum ALen as_general smallBitsArray.BitNum smallBitsArray.Len
         smallBitsArray.ga generalArray.BitNum generalArray.Len
         generalArray.data generalArray.bitNum generalArray.len] in *.
    destruct Hok as [Hok Hb].
    destruct (smallBits_Set_written d b len n v Hok Hb Hv Hn) as (d' & E & W).
    cbn [ASet]. rewrite E. cbn [bind]. eexists. split; [reflexivity |].
    cbn [array_ok ABitNum ALen as_general smallBitsArray.BitNum smallBitsArray.Len
         smallBitsArray.ga generalArray.BitNum generalArray.Len
         generalArray.data generalArray.bitNum generalArray.len].
    repeat (split; [solve [eauto using written_packed_ok] |]). auto.
  - destruct w as [d].
    cbn [array_ok ABitNum ALen as_general wordArray.BitNum wordArray.Len
         wordArray.data generalArray.data] in *.
    unfold wordBits, Go.len in *. destruct Hok as [Hs Hw].
    destruct (word_Set_written d n v Hs Hw Hv Hn) as (d' & E & W).
    cbn [ASet]. rewrite E. cbn [bind]. eexists. split; [reflexivity |].
    cbn [array_ok ABitNum ALen as_general wordArray.BitNum wordArray.Len
         wordArray.data generalArray.data].
    unfold wordBits, Go.len.
    destruct W as (Hsl & Hcp & Hck & Hbits). destruct Hs as [[Hs1 Hs2] Hs3].
    unfold slice_ok, words_ok, written_below. rewrite Hsl, Hcp. auto 12.
  - destruct p as [d b len].
    cbn [array_ok ABitNum ALen as_general smallPowerOfTwoBitsArray.BitNum
         smallPowerOfTwoBitsArray.Len smallPowerOfTwoBitsArray.data
         smallPowerOfTwoBitsArray.bitNum smallPowerOfTwoBitsArray.len
         generalArray.data] in *.
    destruct Hok as [Hok Hb].
    destruct (pow2_Set_written d b len n v Hok Hb Hv Hn) as (d' & E & W).
    cbn [ASet]. rewrite E. cbn [bind]. eexists. split; [reflexivity |].
    cbn [array_ok ABitNum ALen as_general smallPowerOfTwoBitsArray.BitNum
         smallPowerOfTwoBitsArray.Len smallPowerOfTwoBitsArray.data
         smallPowerOfTwoBitsArray.bitNum smallPowerOfTwoBitsArray.len
         generalArray.data].
    repeat (split; [solve [eauto using written_packed_ok] |]). auto.
  - destruct m as [d b].
    cbn [array_ok ABitNum ALen as_general multipleOfWordBitsArray.BitNum
         multipleOfWordBitsArray.data multipleOfWordBitsArray.bitNum
         generalArray.data] in *.
    unfold multipleOfWordBitsArray.Len, Go.len, wordBits in *.
    cbn [multipleOfWordBitsArray.data multipleOfWordBitsArray.bitNum] in *.
    destruct Hok as (Hs & Hw & Hb & Hbm).
    rewrite (idiv_nonneg b 64) in Hn by lia.
    assert (Hq := Z.div_mod b 64 ltac:(lia)).
    assert (Hsl0 : 0 <= slen d) by apply Hs.
    rewrite idiv_nonneg in Hn by lia.
    destruct (multi_Set_written d b n v Hs Hw Hb Hbm Hv Hn) as (d' & E & W).
    cbn [ASet]. rewrite E. cbn [bind]. eexists. split; [reflexivity |].
    cbn [array_ok ABitNum ALen as_general multipleOfWordBitsArray.BitNum
         multipleOfWordBitsArray.data multipleOfWordBitsArray.bitNum
         generalArray.data].
    unfold multipleOfWordBitsArray.Len, Go.len, wordBits.
    cbn [multipleOfWordBitsArray.data multipleOfWordBitsArray.bitNum].
    pose proof W as (Hsl & Hcp & Hck & Hbits). destruct Hs as [[Hs1 Hs2] Hs3].
    unfold slice_ok, words_ok. rewrite Hsl, Hcp. auto 12.
Qed.

(** Writing a row in range keeps the bits beyond the rows at zero. *)
Lemma ASet_tail_zero (a a' : Array) (n : Z) (v : Vector) :
  array_ok a -> vector_ok (ABitNum a) v -> 0 <= n < ALen a ->
  ASet a n v = Val a' -> tail_zero a -> tail_zero a'.
Proof.
  intros Hok Hv Hn HS Hz.
  destruct (ASet_written a n v Hok Hv Hn) as (a'' & E & _ & Hl & Hb & W & _).
  rewrite HS in E. injection E as <-.
  destruct (array_ok_storage a Hok) as (_ & Hb0 & _).
  intros k Hk. rewrite Hl, Hb in Hk.
  destruct W as (_ & _ & _ & Hbits). rewrite Hbits by nia. apply Hz. exact Hk.
Qed.

(* ===================================================================== *)
(** * Sketches *)
(* ===================================================================== *)

(** The vector [NewVector] builds has no bit set. *)
Lemma NewVector_ok (b : Z) :
  0 < b <= 2 ^ 50 ->
  exists v, NewVector b = Val (Some v) /\ vector_ok b v.
Proof.
  intros Hb. rewrite NewVector_val by lia. eexists. split; [reflexivity |].
  assert (Hq : 0 < (b + 63) / 64 <= 2 ^ 45) by (Z.div_mod_to_equations; lia).
  unfold vector_ok, slice_ok, words_ok, cap. cbn [vdata vbitNum slen cells].
  rewrite repeat_length.
  repeat split; try lia.
  - apply cells_ok_zeros.
  - intros k Hk i Hi Hi0. rewrite repeat_nth. apply Z.testbit_0_l.
Qed.

(** Bits at or above the width, read through [bit_at]. *)
Lemma vector_ok_bit_at (b : Z) (d : buf) :
  0 <= b -> slen d = (b + 63) / 64 -> cells_ok (cells d) ->
  (forall k, 0 <= k < slen d ->
     forall i, b <= 64 * k + i -> 0 <= i ->
       Z.testbit (nth (Z.to_nat k) (cells d) 0) i = false)
  <-> (forall j, b <= j < 64 * slen d -> bit_at (cells d) j = false).
Proof.
  intros Hb Hlen Hc. split.
  - intros H j Hj. unfold bit_at. apply H; Z.div_mod_to_equations; lia.
  - intros H k Hk i Hi Hi0.
    destruct (Z.lt_ge_cases i 64) as [Hlt | Hge].
    + rewrite <- bit_at_word by lia. apply H. lia.
    + apply testbit_word_high; [apply cells_ok_nth; exact Hc | lia].
Qed.

(** [Set(i)] on a vector: it returns, and leaves a vector of the same
    width. *)
Lemma Vector_Set_ok (b : Z) (v : Vector) (i : Z) :
  vector_ok b v -> b <= 2 ^ 50 ->
  exists v', Vector_Set v i = Val v' /\ vector_ok b v'.
Proof.
  intros Hv Hb. pose proof Hv as (Hbn & Hb0 & [Hs1 Hs2] & Hw & Hlen & Hhigh).
  unfold Vector_Set. rewrite Hbn.
  destruct (Z.leb_spec 0 i) as [Hi0 | Hi0]; cbn [andb];
    [| exists v; split; [reflexivity | exact Hv]].
  destruct (Z.ltb_spec i b) as [Hib | Hib];
    [| exists v; split; [reflexivity | exact Hv]].
  unfold wordBits. rewrite idiv_nonneg, imod_nonneg by lia.
  assert (Hq := Z.div_mod i 64 ltac:(lia)).
  assert (Hm := Z.mod_pos_bound i 64 ltac:(lia)).
  destruct (set_written b (vdata v) (i / 64) (i mod 64) 1 1) as (d' & E & W);
    try lia; auto.
  { rewrite Hlen. Z.div_mod_to_equations. lia. }
  rewrite E. cbn [bind]. eexists. split; [reflexivity |].
  destruct W as (Hsl & Hcp & Hc' & Hbits).
  unfold vector_ok, slice_ok, words_ok. cbn [vdata vbitNum].
  rewrite Hsl, Hcp.
  repeat split; try lia; auto.
  rewrite <- Hsl.
  apply (proj2 (vector_ok_bit_at b d' ltac:(lia) ltac:(lia) Hc')).
  intros j Hj. rewrite Hbits by lia.
  apply (proj1 (vector_ok_bit_at b (vdata v) ltac:(lia) Hlen Hw) Hhigh). lia.
Qed.

(** The loop of [binarize] from a vector of the width. *)
Lemma binarize_loop_ok (b : Z) (proj : list float32) :
  b <= 2 ^ 50 ->
  forall (i : Z) (v : Vector),
    vector_ok b v ->
    exists v', binarize_loop proj i (Some v) = Val (Some v') /\ vector_ok b v'.
Proof.
  intros Hb. induction proj as [| x rest IH]; intros i v Hv.
  - exists v. split; [reflexivity | exact Hv].
  - cbn [binarize_loop]. destruct (f32_lt f32_zero x).
    + cbn [deref bind].
      destruct (Vector_Set_ok b v i Hv Hb) as (v1 & E1 & Hv1).
      rewrite E1. cbn [bind]. apply IH. exact Hv1.
    + cbn [bind]. apply IH. exact Hv.
Qed.

Lemma add_draws_length (NormFloat64 : Z -> nat -> float64)
    (x : float32) (seed : Z) (proj : list float32) :
  forall j, length (add_draws NormFloat64 x seed j proj) = length proj.
Proof.
  induction proj as [| p rest IH]; intros j; cbn [add_draws length].
  - reflexivity.
  - rewrite IH. reflexivity.
Qed.

Lemma randomProjection_length (calcStringHash : string -> Z)
    (NormFloat64 : Z -> nat -> float64) (v : FeatureVector) (hashNum : Z) :
  0 <= hashNum ->
  exists proj,
    randomProjection calcStringHash NormFloat64 v hashNum = Val proj /\
    Z.of_nat (length proj) = hashNum.
Proof.
  intros Hh. unfold randomProjection.
  replace (hashNum <? 0) with false by (symmetry; apply Z.ltb_ge; lia).
  eexists. split; [reflexivity |].
  assert (Hgen : forall init,
             length (fold_left
                       (fun proj e =>
                          let seed := calcStringHash (Dim e) in
                          add_draws NormFloat64 (Value e) (int_wrap seed) 0 proj)
                       v init) = length init).
  { induction v as [| e v IH]; intros init; cbn [fold_left].
    - reflexivity.
    - rewrite IH. cbv zeta. apply add_draws_length. }
  rewrite Hgen, repeat_length. lia.
Qed.

(** [cosineLSH] returns a sketch of the width asked for. *)
Lemma cosineLSH_ok (calcStringHash : string -> Z)
    (NormFloat64 : Z -> nat -> float64) (v : FeatureVector) (hashNum : Z) :
  0 < hashNum <= 2 ^ 50 ->
  exists x,
    cosineLSH calcStringHash NormFloat64 v hashNum = Val (Some x) /\
    vector_ok hashNum x.
Proof.
  intros Hh. unfold cosineLSH.
  destruct (randomProjection_length calcStringHash NormFloat64 v hashNum)
    as (proj & E & Hlen); [lia |].
  rewrite E. cbn [bind]. unfold binarize. rewrite Hlen.
  destruct (NewVector_ok hashNum Hh) as (v0 & E0 & Hv0).
  rewrite E0. cbn [bind]. apply binarize_loop_ok; [lia | exact Hv0].
Qed.

(* ===================================================================== *)
(** * The index *)
(* ===================================================================== *)

(** [NewArray] at a positive width: an empty array of that width. *)
Lemma NewArray_ok (h : Z) :
  0 < h ->
  exists a,
    NewArray h = Some a /\ array_ok a /\ proper_width a /\
    ABitNum a = h /\ ALen a = 0 /\ storage a = nil_slice.
Proof.
  intros Hh. unfold NewArray, createArray.
  replace (h <=? 0) with false by (symmetry; apply Z.leb_gt; lia).
  cbn [orb]. change (0 <? 0) with false. cbv iota.
  assert (Hnil : packed_ok nil_slice h 0).
  { unfold packed_ok, slice_ok, words_ok, cells_ok, cap, nil_slice.
    cbn [slen cells length]. repeat split; try lia. constructor. }
  unfold wordBits.
  destruct (Z.ltb_spec h 64) as [Hlt | Hge].
  - replace (Z.lxor h (h - 1) =? 0) with false
      by (symmetry; apply Z.eqb_neq; apply lxor_pred_nonzero).
    eexists. split; [reflexivity |].
    cbn [array_ok proper_width smallBitsArray.ga generalArray.data
         generalArray.bitNum generalArray.len].
    repeat split; auto; apply Hnil.
  - destruct (Z.eqb_spec h 64) as [E64 | N64].
    + eexists. split; [reflexivity |].
      cbn [array_ok proper_width wordArray.data].
      unfold wordArray.BitNum, wordBits.
      repeat split; auto; try apply Hnil; lia.
    + rewrite imod_nonneg by lia.
      destruct (Z.eqb_spec (h mod 64) 0) as [E0 | N0].
      * eexists. split; [reflexivity |].
        cbn [array_ok proper_width multipleOfWordBitsArray.data
             multipleOfWordBitsArray.bitNum].
        repeat split; auto; try apply Hnil; lia.
      * eexists. split; [reflexivity |].
        cbn [array_ok proper_width generalArray.data generalArray.bitNum
             generalArray.len].
        repeat split; auto; try apply Hnil; lia.
Qed.

(** A new index of a positive width. *)
Lemma NewEuclidLSH_ok (h : Z) :
  0 < h <= 2 ^ 40 -> index_ok (NewEuclidLSH h).
Proof.
  intros Hh. destruct (NewArray_ok h) as (a & E & Hok & Hpw & Hb & Hl & Hst);
    [lia |].
  exists a. unfold NewEuclidLSH. cbn [lshs norms]. rewrite Hst, Hb, Hl.
  unfold slice_ok, cap, len, nil_slice. cbn [slen cells length].
  repeat split; auto; lia.
Qed.

(** [extend(n)] beyond the rows of the index: the array and the norms are
    both brought to length [n]. *)
Lemma extend_ok (e : EuclidLSH) (n : Z) :
  index_ok e -> len (norms e) < n -> row_fits e n ->
  exists a e1 a1,
    lshs e = Some a /\
    extend n e = Val (tt, e1) /\ index_ok e1 /\
    lshs e1 = Some a1 /\ ALen a1 = n /\ len (norms e1) = n /\
    ABitNum a1 = ABitNum a.
Proof.
  intros (a & Ha & Hok & Hpw & [Hs1 Hs2] & Hlen & Hcap & Hb & Hnc) Hn
         (a0 & Ha0 & Hfit).
  rewrite Ha in Ha0. injection Ha0 as <-.
  unfold len in *.
  destruct (array_ok_storage a Hok) as (_ & Hb0 & Hl0 & _ & _).
  assert (Hn1 : n <= 2 ^ 40) by nia.
  destruct (Resize_resized a n) as (a1 & ER & Hok1 & Hl1 & Hb1 & Hpw1 & Hcap1 & _);
    [exact Hok | split; lia | lia |].
  assert (Hcap1' : cap (storage a1) <= 2 ^ 36).
  { apply Z.le_trans with (1 := Hcap1).
    apply Z.max_lub; [lia |]. Z.div_mod_to_equations. lia. }
  unfold extend. rewrite Ha. cbn [deref bind].
  replace (ALen a <? n) with true by (symmetry; apply Z.ltb_lt; lia).
  rewrite ER. cbn [bind].
  destruct (Z.geb_spec (cap (norms e)) n) as [Hge | Hlt].
  - rewrite slice_range_val by lia. cbn [bind skipn Z.to_nat].
    exists a, (mkEuclidLSH (Some a1) (mkslice (cells (norms e)) (n - 0))), a1.
    split; [reflexivity |]. split; [reflexivity |]. cbn [lshs norms slen].
    split; [| repeat split; auto; lia].
    exists a1. cbn [lshs norms]. unfold slice_ok, cap, len in *.
    cbn [slen cells]. rewrite Hb1. repeat split; auto; lia.
  - rewrite imul_small by lia. rewrite maxInt_max.
    rewrite make_cap_val by lia. cbn [bind].
    set (c := Z.max (2 * cap (norms e)) n).
    exists a, (mkEuclidLSH (Some a1)
                 (copy (mkslice (repeat f32_zero (Z.to_nat c)) n) (norms e))), a1.
    split; [reflexivity |]. split; [reflexivity |]. cbn [lshs norms copy slen].
    split; [| repeat split; auto; lia].
    exists a1. cbn [lshs norms]. unfold slice_ok, cap, len in *.
    cbn [slen cells copy].
    rewrite overwrite_length;
      rewrite ?repeat_length, ?length_firstn; cbn [Nat.add]; try lia.
    rewrite Hb1. repeat split; auto; lia.
Qed.

(** The first statement of [SetRow]: afterwards row [id - 1] exists, in
    the array and in the norms. *)
Lemma SetRow_extend_ok (e : EuclidLSH) (id : ID) :
  index_ok e -> 1 <= id -> row_fits e id ->
  exists a e1 a1,
    lshs e = Some a /\
    SetRow_extend id e = Val (tt, e1) /\ index_ok e1 /\
    lshs e1 = Some a1 /\ ABitNum a1 = ABitNum a /\
    len (norms e1) = ALen a1 /\ ALen a1 = Z.max id (len (norms e)).
Proof.
  intros He Hid Hfit. unfold SetRow_extend.
  destruct (Z.ltb_spec (len (norms e)) id) as [Hlt | Hge].
  - destruct (extend_ok e id He Hlt Hfit)
      as (a & e1 & a1 & Ha & E & He1 & Ha1 & Hl1 & Hn1 & Hb1).
    exists a, e1, a1. repeat split; auto; lia.
  - pose proof He as (a & Ha & _ & _ & _ & Hlen & _).
    exists a, e, a. repeat split; auto; lia.
Qed.

(** The call of [Set] in [SetRow], on an index that has row [id - 1]: the
    sketch has the width of the array and [Set] stores it. *)
Lemma SetRow_Set_ok (calcStringHash : string -> Z)
    (NormFloat64 : Z -> nat -> float64)
    (e : EuclidLSH) (a : Array) (id : ID) (v : FeatureVector) :
  index_ok e -> lshs e = Some a -> 1 <= id <= ALen a ->
  exists x a',
    cosineLSH calcStringHash NormFloat64 v (ABitNum a) = Val (Some x) /\
    vector_ok (ABitNum a) x /\
    ASet a (id - 1) x = Val a' /\
    SetRow_Set calcStringHash NormFloat64 id v e = Val (Val a') /\
    index_ok (mkEuclidLSH (Some a') (norms e)) /\
    ALen a' = ALen a /\ ABitNum a' = ABitNum a.
Proof.
  intros (a0 & Ha0 & Hok & Hpw & Hs & Hlen & Hcap & Hb & Hnc) Ha Hid.
  rewrite Ha in Ha0. injection Ha0 as <-.
  destruct (array_ok_storage a Hok) as (_ & Hb0 & _).
  destruct (cosineLSH_ok calcStringHash NormFloat64 v (ABitNum a))
    as (x & Ex & Hx); [lia |].
  destruct (ASet_written a (id - 1) x Hok Hx)
    as (a' & ES & Hok' & Hl' & Hb' & (_ & Hcp & _) & Hpw'); [lia |].
  exists x, a'. unfold SetRow_Set. rewrite Ha. cbn [deref bind].
  rewrite Ex. cbn [deref bind].
  repeat (split; [solve [auto] |]).
  split; [rewrite ES; reflexivity |].
  split; [| auto].
  exists a'. cbn [lshs norms]. rewrite Hcp, Hl', Hb'.
  repeat (split; [solve [auto] |]). auto.
Qed.

(** [SetRow] with an identifier from 1 on returns, and leaves an index
    with as many norms as rows. *)
Lemma SetRow_ok (calcStringHash : string -> Z)
    (NormFloat64 : Z -> nat -> float64)
    (e : EuclidLSH) (id : ID) (v : FeatureVector) :
  index_ok e -> 1 <= id -> row_fits e id ->
  exists e' a',
    SetRow calcStringHash NormFloat64 id v e = Val (tt, e') /\
    index_ok e' /\ lshs e' = Some a' /\
    ALen a' = Z.max id (len (norms e)) /\ len (norms e') = ALen a'.
Proof.
  intros He Hid Hfit.
  destruct (SetRow_extend_ok e id He Hid Hfit)
    as (a & e1 & a1 & Ha & E1 & He1 & Ha1 & Hb1 & Hn1 & Hl1).
  destruct (SetRow_Set_ok calcStringHash NormFloat64 e1 a1 id v He1 Ha1)
    as (x & a2 & _ & _ & _ & E2 & He2 & Hl2 & Hb2); [lia |].
  unfold SetRow. rewrite E1. cbn [bind snd]. rewrite E2. cbn [bind].
  unfold len in *. cbn [lshs norms].
  rewrite store_in by lia. cbn [bind].
  eexists. exists a2. split; [reflexivity |]. cbn [lshs norms slen].
  split; [| repeat split; lia].
  destruct He2 as (a3 & Ha3 & Hok3 & Hpw3 & [Hs1 Hs2] & Hlen3 & Hcap3 & Hb3 & Hnc3).
  cbn [lshs norms] in *. injection Ha3 as <-.
  exists a2. cbn [lshs norms]. unfold slice_ok, cap, len in *. cbn [slen cells].
  rewrite overwrite_length by (cbn [length]; lia).
  repeat split; auto; lia.
Qed.

(** ** Saving and loading *)

Lemma exact_copy_len {A : Type} (s : slice A) :
  0 <= slen s <= cap s ->
  slen (exact_copy s) = slen s /\ cap (exact_copy s) = slen s.
Proof.
  intros H. unfold exact_copy, cap. cbn [slen cells].
  rewrite visible_length by exact H. auto.
Qed.

(** [LoadArray] on what [Save] wrote, with the codec round-tripping the
    record of the array. *)
Lemma LoadArray_saved (encode : arrayData -> list Byte.byte) (decode : decoder)
    (a : Array) (rest : list Byte.byte) :
  array_ok a -> proper_width a ->
  codec_roundtrip encode decode (record_of a) ->
  exists a',
    LoadArray decode (Byte.x01 :: encode (record_of a) ++ rest)
    = Val (Some a', rest) /\
    array_ok a' /\ proper_width a' /\
    ABitNum a' = ABitNum a /\ ALen a' = ALen a /\
    storage a' = exact_copy (storage a).
Proof.
  intros Hok Hpw Hcodec.
  destruct (array_ok_general a Hok) as (Hp & Hb & Hl).
  fold (storage a) in Hp.
  destruct (exact_copy_ok (storage a)) as (Hs' & Hw' & Hvis & _);
    [apply Hp | apply Hp |].
  destruct (createArray_loaded a (exact_copy (storage a)) Hok Hpw Hs' Hw' Hvis)
    as (a' & Hcreate & Hok' & Hb' & Hl' & Hst' & Hpw').
  exists a'. split; [| auto 10].
  cbn [LoadArray]. change (Byte.eqb Byte.x01 Byte.x01) with true. cbv iota.
  unfold loadArrayFormatV1. rewrite Hcodec.
  unfold record_of. cbn [Data BitNum Len]. fold (storage a).
  rewrite Hb, Hl, Hcreate. reflexivity.
Qed.

(** Loading what [save] wrote, with the codec round-tripping the two
    records: the loader returns an index with the rows and the norms of
    the saved one. *)
Lemma load_saved (encode : arrayData -> list Byte.byte) (decode : decoder)
    (encode_lsh : euclidLSHMsgpack -> list Byte.byte)
    (decode_lsh : list Byte.byte -> option (euclidLSHMsgpack * list Byte.byte))
    (e : EuclidLSH) :
  index_ok e ->
  index_roundtrip encode decode encode_lsh decode_lsh e ->
  exists bytes e',
    save encode encode_lsh e [] = Val bytes /\
    index_ok e' /\
    forall rest,
      loadEuclidLSHFormatV1 decode decode_lsh (bytes ++ rest) = Val (e', rest).
Proof.
  intros (a & Ha & Hok & Hpw & [Hs1 Hs2] & Hlen & Hcap & Hb & Hnc) [Hn Hc].
  specialize (Hc a Ha).
  destruct (LoadArray_saved encode decode a [] Hok Hpw Hc)
    as (a' & EL0 & Hok' & Hpw' & Hb' & Hl' & Hst').
  destruct (array_ok_general a Hok) as (Hp & _).
  fold (storage a) in Hp.
  destruct (exact_copy_ok (storage a)) as (_ & _ & _ & Hcp);
    [apply Hp | apply Hp |].
  destruct (exact_copy_len (norms e) Hs1) as [Hsl Hcl].
  exists ((encode_lsh (norms_record e) ++ [Byte.x01]) ++ encode (record_of a)),
         (mkEuclidLSH (Some a') (exact_copy (norms e))).
  split.
  { unfold save. rewrite Ha. cbn [deref bind app].
    rewrite ASave_record. reflexivity. }
  split.
  { exists a'. cbn [lshs norms]. unfold slice_ok, len in *.
    rewrite Hst', Hsl, Hcl, Hb', Hl'.
    repeat (split; [solve [auto | lia] |]). lia. }
  intros rest. unfold loadEuclidLSHFormatV1.
  rewrite <- !app_assoc. rewrite Hn. cbn [app bind Norms norms_record].
  destruct (LoadArray_saved encode decode a rest Hok Hpw Hc)
    as (a'' & EL & _ & _ & _ & _ & Hst'').
  rewrite EL. cbn [bind fst snd].
  assert (a'' = a') as ->; [| reflexivity].
  clear - EL EL0 Hc.
  cbn [LoadArray] in EL, EL0.
  change (Byte.eqb Byte.x01 Byte.x01) with true in EL, EL0. cbv iota in EL, EL0.
  unfold loadArrayFormatV1 in EL, EL0. rewrite Hc in EL, EL0.
  congruence.
Qed.

(** Every index a program reaches is well formed. *)
Lemma mutated_index_ok (calcStringHash : string -> Z)
    (NormFloat64 : Z -> nat -> float64)
    (encode : arrayData -> list Byte.byte) (decode : decoder)
    (encode_lsh : euclidLSHMsgpack -> list Byte.byte)
    (decode_lsh : list Byte.byte -> option (euclidLSHMsgpack * list Byte.byte))
    (e : EuclidLSH) :
  mutated calcStringHash NormFloat64 encode decode encode_lsh decode_lsh e ->
  index_ok e.
Proof.
  induction 1 as [h Hh | e e' id v _ IH Hid Hfit ES
                  | e e' bytes rest _ IH Hrt Hsave Hload].
  - apply NewEuclidLSH_ok. exact Hh.
  - destruct (SetRow_ok calcStringHash NormFloat64 e id v IH Hid Hfit)
      as (e2 & a2 & E & He2 & _).
    rewrite ES in E. injection E as <-. exact He2.
  - destruct (load_saved encode decode encode_lsh decode_lsh e IH Hrt)
      as (bytes' & e2 & Hsave' & He2 & Hload').
    rewrite Hsave in Hsave'. injection Hsave' as <-.
    rewrite Hload' in Hload. injection Hload as <-. exact He2.
Qed.

(** The index of the examples is one a program reaches. *)
Lemma example_index_mutated :
  mutated length_hash unit_draws encode_nothing
          (decode_const (mkArrayData nil_slice 8 0))
          encode_no_norms
          (decode_norms (mkEuclidLSHMsgpack 1 nil_slice))
          example_index.
Proof.
  apply (mutated_SetRow _ _ _ _ _ _ example_index1 example_index 3 example_fv3).
  - apply (mutated_SetRow _ _ _ _ _ _ (NewEuclidLSH 8) example_index1 1 example_fv1).
    + apply mutated_new. lia.
    + lia.
    + eexists. split; [reflexivity |]. vm_compute. discriminate.
    + vm_compute. reflexivity.
  - lia.
  - eexists. split; [vm_compute; reflexivity |]. vm_compute. discriminate.
  - vm_compute. reflexivity.
Defined.

Lemma example_index_ok : index_ok example_index.
Proof.
  exact (mutated_index_ok _ _ _ _ _ _ example_index example_index_mutated).
Defined.
(* ===================================================================== *)
(** * The layout of a row *)
(* ===================================================================== *)

(** A bit of a row lies within the row. *)
Lemma bit_pos_range (b n j : Z) :
  0 < b -> 0 <= n -> 0 <= j < b ->
  n * b <= bit_pos b n j < n * b + b.
Proof.
  intros Hb Hn Hj. unfold bit_pos.
  set (lbit := n * b) in *. set (rbit := lbit + b) in *.
  assert (Hl0 : 0 <= lbit) by (unfold lbit; nia).
  assert (Hlq := Z.div_mod lbit 64 ltac:(lia)).
  assert (Hrq := Z.div_mod rbit 64 ltac:(lia)).
  assert (Hlm := Z.mod_pos_bound lbit 64 ltac:(lia)).
  assert (Hrm := Z.mod_pos_bound rbit 64 ltac:(lia)).
  set (l := lbit / 64) in *. set (r := rbit / 64) in *.
  set (lo := lbit mod 64) in *. set (ro := rbit mod 64) in *.
  destruct ((l =? r) || ((l + 1 =? r) && (ro =? 0)) || (lo =? 0)) eqn:Ec; [lia |].
  apply orb_false_iff in Ec. destruct Ec as [Ec _].
  apply orb_false_iff in Ec. destruct Ec as [Nlr _]. apply Z.eqb_neq in Nlr.
  destruct (Z.ltb_spec j (64 * (r - l - 1))); [lia |].
  destruct (Z.ltb_spec (j - 64 * (r - l - 1)) ro); lia.
Qed.

(** Two lists of words with the same bits are the same. *)
Lemma words_eq_bits (ws vs : list Z) :
  length ws = length vs -> cells_ok ws -> cells_ok vs ->
  (forall j, 0 <= j < 64 * Z.of_nat (length ws) -> bit_at ws j = bit_at vs j) ->
  ws = vs.
Proof.
  intros Hlen Hw Hv Hbits. apply (nth_ext _ _ 0 0); [exact Hlen |].
  intros k Hk. apply Z.bits_inj'. intros i Hi.
  destruct (Z.lt_ge_cases i 64) as [Hlt | Hge].
  - replace k with (Z.to_nat (Z.of_nat k)) by lia.
    rewrite <- !bit_at_word by lia. apply Hbits. lia.
  - rewrite !testbit_word_high; auto using cells_ok_nth.
Qed.

Lemma bit_at_nil (j : Z) : bit_at [] j = false.
Proof. unfold bit_at. destruct (Z.to_nat (j / 64)); apply Z.testbit_0_l. Qed.

(** A bit beyond the words of a list. *)
Lemma bit_at_beyond (ws : list Z) (j : Z) :
  64 * Z.of_nat (length ws) <= j -> bit_at ws j = false.
Proof.
  intros Hj. unfold bit_at.
  rewrite nth_overflow; [apply Z.testbit_0_l |].
  Z.div_mod_to_equations. lia.
Qed.

Lemma bit_at_single (w j : Z) :
  0 <= j -> bit_at [w] j = (j <? 64) && Z.testbit w j.
Proof.
  intros Hj. unfold bit_at.
  assert (Hq := Z.div_mod j 64 ltac:(lia)).
  assert (Hm := Z.mod_pos_bound j 64 ltac:(lia)).
  destruct (Z.ltb_spec j 64) as [Hlt | Hge]; cbn [andb].
  - replace (j / 64) with 0 by lia. replace (j mod 64) with j by lia. reflexivity.
  - destruct (Z.to_nat (j / 64)) as [| k] eqn:E; [lia |].
    cbn [nth]. destruct k; apply Z.testbit_0_l.
Qed.

Lemma bit_at_repeat (n : nat) (j : Z) : bit_at (repeat 0 n) j = false.
Proof. unfold bit_at. rewrite repeat_nth. apply Z.testbit_0_l. Qed.

(** The bits of a buffer after whole words are written into it. *)
Lemma bit_at_overwrite (ws : list Z) (off : nat) (src : list Z) (j : Z) :
  (off + length src <= length ws)%nat -> 0 <= j ->
  bit_at (overwrite ws off src) j
  = if (64 * Z.of_nat off <=? j) && (j <? 64 * Z.of_nat (off + length src))
    then bit_at src (j - 64 * Z.of_nat off)
    else bit_at ws j.
Proof.
  intros Hlen Hj. unfold bit_at.
  assert (Hq := Z.div_mod j 64 ltac:(lia)).
  assert (Hm := Z.mod_pos_bound j 64 ltac:(lia)).
  rewrite overwrite_nth by exact Hlen.
  destruct (Z.leb_spec (64 * Z.of_nat off) j) as [H1 | H1];
    destruct (Z.ltb_spec j (64 * Z.of_nat (off + length src))) as [H2 | H2];
    cbn [andb].
  - replace (off <=? Z.to_nat (j / 64))%nat with true
      by (symmetry; apply Nat.leb_le; lia).
    replace (Z.to_nat (j / 64) <? off + length src)%nat with true
      by (symmetry; apply Nat.ltb_lt; lia).
    cbn [andb].
    replace ((j - 64 * Z.of_nat off) / 64) with (j / 64 - Z.of_nat off)
      by (Z.div_mod_to_equations; lia).
    replace ((j - 64 * Z.of_nat off) mod 64) with (j mod 64)
      by (Z.div_mod_to_equations; lia).
    f_equal. f_equal. lia.
  - replace (Z.to_nat (j / 64) <? off + length src)%nat with false
      by (symmetry; apply Nat.ltb_ge; lia).
    rewrite andb_false_r. reflexivity.
  - replace (off <=? Z.to_nat (j / 64))%nat with false
      by (symmetry; apply Nat.leb_gt; lia).
    reflexivity.
  - replace (off <=? Z.to_nat (j / 64))%nat with false
      by (symmetry; apply Nat.leb_gt; lia).
    reflexivity.
Qed.

(** The bits of a buffer after one word is replaced. *)
Lemma bit_at_overwrite1 (ws : list Z) (k : nat) (x : Z) (j : Z) :
  (k < length ws)%nat -> 0 <= j ->
  bit_at (overwrite ws k [x]) j
  = if j / 64 =? Z.of_nat k then Z.testbit x (j mod 64) else bit_at ws j.
Proof.
  intros Hk Hj. unfold bit_at.
  assert (Hq := Z.div_mod j 64 ltac:(lia)).
  assert (Hm := Z.mod_pos_bound j 64 ltac:(lia)).
  destruct (Z.eqb_spec (j / 64) (Z.of_nat k)) as [E | NE].
  - replace (Z.to_nat (j / 64)) with k by lia.
    rewrite overwrite1_nth_same by exact Hk. reflexivity.
  - rewrite overwrite1_nth_other by lia. reflexivity.
Qed.

(** The bits of a run of words of a buffer. *)
Lemma bit_at_firstn_skipn (cs : list Z) (l m : nat) (j : Z) :
  0 <= j ->
  bit_at (firstn m (skipn l cs)) j
  = if j <? 64 * Z.of_nat m then bit_at cs (64 * Z.of_nat l + j) else false.
Proof.
  intros Hj. unfold bit_at.
  assert (Hq := Z.div_mod j 64 ltac:(lia)).
  assert (Hm := Z.mod_pos_bound j 64 ltac:(lia)).
  rewrite nth_firstn, nth_skipn.
  replace ((64 * Z.of_nat l + j) / 64) with (Z.of_nat l + j / 64)
    by (Z.div_mod_to_equations; lia).
  replace ((64 * Z.of_nat l + j) mod 64) with (j mod 64)
    by (Z.div_mod_to_equations; lia).
  destruct (Z.ltb_spec j (64 * Z.of_nat m)) as [H | H].
  - replace (Z.to_nat (j / 64) <? m)%nat with true
      by (symmetry; apply Nat.ltb_lt; lia).
    f_equal. f_equal. lia.
  - replace (Z.to_nat (j / 64) <? m)%nat with false
      by (symmetry; apply Nat.ltb_ge; lia).
    apply Z.testbit_0_l.
Qed.

Lemma bit_at_firstn (cs : list Z) (m : nat) (j : Z) :
  0 <= j ->
  bit_at (firstn m cs) j = if j <? 64 * Z.of_nat m then bit_at cs j else false.
Proof.
  intros Hj. change (firstn m cs) with (firstn m (skipn 0 cs)).
  rewrite bit_at_firstn_skipn by exact Hj. reflexivity.
Qed.

(** The bits of the words [generalArray.Get] returns for row [n]: bit [j]
    of the row is the bit of the buffer at [bit_pos b n j], and no bit is
    set from the width on. *)
Lemma general_words_bits (cs : list Z) (b n j : Z) :
  cells_ok cs -> 0 < b -> 0 <= n ->
  n * b + b <= 64 * Z.of_nat (length cs) -> 0 <= j ->
  bit_at (general_words cs b n) j
  = if j <? b then bit_at cs (bit_pos b n j) else false.
Proof.
  intros Hc Hb Hn Hfit Hj. unfold general_words, bit_pos.
  set (lbit := n * b) in *. set (rbit := lbit + b) in *.
  assert (Hl0 : 0 <= lbit) by (unfold lbit; nia).
  assert (Hlq := Z.div_mod lbit 64 ltac:(lia)).
  assert (Hrq := Z.div_mod rbit 64 ltac:(lia)).
  assert (Hlm := Z.mod_pos_bound lbit 64 ltac:(lia)).
  assert (Hrm := Z.mod_pos_bound rbit 64 ltac:(lia)).
  assert (Hbq := Z.div_mod b 64 ltac:(lia)).
  assert (Hbm := Z.mod_pos_bound b 64 ltac:(lia)).
  assert (Htq := Z.div_mod (b + 63) 64 ltac:(lia)).
  assert (Htm := Z.mod_pos_bound (b + 63) 64 ltac:(lia)).
  assert (Hjq := Z.div_mod j 64 ltac:(lia)).
  assert (Hjm := Z.mod_pos_bound j 64 ltac:(lia)).
  set (l := lbit / 64) in *. set (r := rbit / 64) in *.
  set (lo := lbit mod 64) in *. set (ro := rbit mod 64) in *.
  set (retLen := (b + 63) / 64) in *.
  assert (Hdl := cells_ok_nth cs (Z.to_nat l) Hc).
  assert (Hdr := cells_ok_nth cs (Z.to_nat r) Hc).
  assert (Hmult : b mod 64 = 0 -> lo = 0).
  { intros E. unfold lo, lbit.
    replace (n * b) with (n * (b / 64) * 64) by lia.
    apply Z.mod_mul. lia. }
  destruct ((l =? r) || ((l + 1 =? r) && (ro =? 0))) eqn:Ea1.
  - (* one word *)
    cbn [orb].
    assert (Hb64 : lo + b <= 64).
    { apply orb_true_iff in Ea1. destruct Ea1 as [E | E].
      - apply Z.eqb_eq in E. lia.
      - apply andb_true_iff in E. destruct E as [E1 E2].
        apply Z.eqb_eq in E1. apply Z.eqb_eq in E2. lia. }
    rewrite leastBits_ones by lia. rewrite bit_at_single by lia.
    rewrite Z.land_spec, Z.shiftr_spec, Z.testbit_ones by lia.
    destruct (Z.ltb_spec j b) as [Hjb | Hjb].
    + replace (j <? 64) with true by (symmetry; apply Z.ltb_lt; lia).
      replace (0 <=? j) with true by (symmetry; apply Z.leb_le; lia).
      cbn [andb]. rewrite andb_true_r.
      replace (lbit + j) with (64 * l + (j + lo)) by lia.
      rewrite bit_at_word by lia. reflexivity.
    + rewrite !andb_false_r. reflexivity.
  - apply orb_false_iff in Ea1. destruct Ea1 as [Nlr Ea2].
    apply Z.eqb_neq in Nlr. cbn [orb].
    assert (Hlr : l < r) by lia.
    destruct (Z.eqb_spec lo 0) as [Elo | Nlo].
    + (* aligned start *)
      assert (Hlen : length (firstn (Z.to_nat retLen) (skipn (Z.to_nat l) cs))
                     = Z.to_nat retLen) by (apply firstn_skipn_length; lia).
      destruct (Z.eqb_spec ro 0) as [Ero | Nro].
      * rewrite bit_at_firstn_skipn by lia.
        destruct (Z.ltb_spec j b) as [Hjb | Hjb].
        -- replace (j <? 64 * Z.of_nat (Z.to_nat retLen)) with true
             by (symmetry; apply Z.ltb_lt; lia).
           f_equal; lia.
        -- replace (j <? 64 * Z.of_nat (Z.to_nat retLen)) with false
             by (symmetry; apply Z.ltb_ge; lia).
           reflexivity.
      * rewrite bit_at_overwrite1 by lia.
        destruct (Z.eqb_spec (j / 64) (Z.of_nat (Z.to_nat (retLen - 1)))) as [E | NE].
        -- rewrite Z.land_spec, Z.testbit_ones by lia.
           replace (Z.to_nat (retLen - 1)) with (Z.to_nat (j / 64)) by lia.
           fold (bit_at (firstn (Z.to_nat retLen) (skipn (Z.to_nat l) cs)) j).
           rewrite bit_at_firstn_skipn by lia.
           replace (j <? 64 * Z.of_nat (Z.to_nat retLen)) with true
             by (symmetry; apply Z.ltb_lt; lia).
           replace (0 <=? j mod 64) with true by (symmetry; apply Z.leb_le; lia).
           cbn [andb].
           destruct (Z.ltb_spec j b) as [Hjb | Hjb].
           ++ replace (j mod 64 <? ro) with true by (symmetry; apply Z.ltb_lt; lia).
              rewrite andb_true_r. f_equal; lia.
           ++ replace (j mod 64 <? ro) with false by (symmetry; apply Z.ltb_ge; lia).
              apply andb_false_r.
        -- rewrite bit_at_firstn_skipn by lia.
           destruct (Z.ltb_spec j b) as [Hjb | Hjb].
           ++ replace (j <? 64 * Z.of_nat (Z.to_nat retLen)) with true
                by (symmetry; apply Z.ltb_lt; lia).
              f_equal; lia.
           ++ replace (j <? 64 * Z.of_nat (Z.to_nat retLen)) with false
                by (symmetry; apply Z.ltb_ge; lia).
              reflexivity.
    + (* unaligned start *)
      assert (Hbm0 : b mod 64 <> 0) by (intro E; apply Nlo; apply Hmult; exact E).
      set (m := r - l - 1) in *.
      replace (r - (l + 1)) with m by lia.
      assert (Hmid : length (firstn (Z.to_nat m) (skipn (Z.to_nat (l + 1)) cs))
                     = Z.to_nat m) by (apply firstn_skipn_length; lia).
      set (mid := firstn (Z.to_nat m) (skipn (Z.to_nat (l + 1)) cs)) in *.
      assert (Hws : length (overwrite (repeat 0 (Z.to_nat retLen)) 0 mid)
                    = Z.to_nat retLen).
      { rewrite overwrite_length; rewrite ?repeat_length; lia. }
      assert (Hwsb : forall k, 0 <= k ->
                bit_at (overwrite (repeat 0 (Z.to_nat retLen)) 0 mid) k
                = if k <? 64 * m then bit_at cs (64 * (l + 1) + k) else false).
      { intros k Hk. rewrite bit_at_overwrite by (rewrite ?repeat_length; lia).
        cbn [Nat.add]. rewrite Hmid.
        replace (64 * Z.of_nat 0 <=? k) with true by (symmetry; apply Z.leb_le; lia).
        cbn [andb]. rewrite bit_at_repeat.
        replace (64 * Z.of_nat (Z.to_nat m)) with (64 * m) by lia.
        destruct (Z.ltb_spec k (64 * m)) as [H | H]; [| reflexivity].
        unfold mid. rewrite bit_at_firstn_skipn by lia.
        replace (k - 64 * Z.of_nat 0 <? 64 * Z.of_nat (Z.to_nat m)) with true
          by (symmetry; apply Z.ltb_lt; lia).
        f_equal; lia. }
      set (ws := overwrite (repeat 0 (Z.to_nat retLen)) 0 mid) in *.
      assert (Hleft : forall t, 0 <= t -> lo + t < 64 ->
                Z.testbit (Z.shiftr (nth (Z.to_nat l) cs 0) lo) t
                = bit_at cs (64 * l + lo + t)).
      { intros t Ht Hlt. rewrite Z.shiftr_spec by lia.
        replace (64 * l + lo + t) with (64 * l + (t + lo)) by lia.
        rewrite bit_at_word by lia. reflexivity. }
      assert (Hlefth : forall t, 0 <= t -> 64 <= lo + t ->
                Z.testbit (Z.shiftr (nth (Z.to_nat l) cs 0) lo) t = false).
      { intros t Ht Hlt. rewrite Z.shiftr_spec by lia.
        apply testbit_word_high; [exact Hdl | lia]. }
      assert (Hright : forall t, 0 <= t < 64 ->
                Z.testbit (nth (Z.to_nat r) cs 0) t = bit_at cs (64 * r + t)).
      { intros t Ht. rewrite bit_at_word by lia. reflexivity. }
      destruct (Z.eqb_spec ro 0) as [Ero | Nro].
      * (* the row ends a word *)
        rewrite bit_at_overwrite1 by lia.
        destruct (Z.eqb_spec (j / 64) (Z.of_nat (Z.to_nat (retLen - 1)))) as [E | NE].
        -- destruct (Z.ltb_spec j b) as [Hjb | Hjb].
           ++ replace (j <? 64 * m) with false by (symmetry; apply Z.ltb_ge; lia).
              replace (j - 64 * m <? ro) with false by (symmetry; apply Z.ltb_ge; lia).
              rewrite Hleft by lia. f_equal; lia.
           ++ apply Hlefth; lia.
        -- rewrite Hwsb by lia.
           destruct (Z.ltb_spec j b) as [Hjb | Hjb].
           ++ replace (j <? 64 * m) with true by (symmetry; apply Z.ltb_lt; lia).
              reflexivity.
           ++ replace (j <? 64 * m) with false by (symmetry; apply Z.ltb_ge; lia).
              reflexivity.
      * destruct (Z.leb_spec (64 - lo + ro) 64) as [Hf | Hf].
        -- (* the two ends fill one word *)
           rewrite bit_at_overwrite1 by lia.
           destruct (Z.eqb_spec (j / 64) (Z.of_nat (Z.to_nat (retLen - 1)))) as [E | NE].
           ++ rewrite set_bits_testbit; try lia.
              2: { apply set_bits_range. lia. }
              rewrite set_bits_testbit by lia.
              rewrite Z.testbit_0_l.
              replace (j <? 64 * m) with false by (symmetry; apply Z.ltb_ge; lia).
              replace (j - 64 * m) with (j mod 64) by lia.
              destruct (Z.ltb_spec (j mod 64) ro) as [H1 | H1].
              ** replace (ro <=? j mod 64) with false by (symmetry; apply Z.leb_gt; lia).
                 cbn [andb].
                 replace (0 <=? j mod 64) with true by (symmetry; apply Z.leb_le; lia).
                 replace (j mod 64 <? 0 + ro) with true by (symmetry; apply Z.ltb_lt; lia).
                 cbn [andb]. rewrite Z.sub_0_r.
                 replace (j <? b) with true by (symmetry; apply Z.ltb_lt; lia).
                 apply Hright. lia.
              ** replace (ro <=? j mod 64) with true by (symmetry; apply Z.leb_le; lia).
                 cbn [andb].
                 destruct (Z.ltb_spec j b) as [Hjb | Hjb].
                 --- replace (j mod 64 <? ro + (64 - lo)) with true
                       by (symmetry; apply Z.ltb_lt; lia).
                     rewrite Hleft by lia. f_equal; lia.
                 --- replace (j mod 64 <? ro + (64 - lo)) with false
                       by (symmetry; apply Z.ltb_ge; lia).
                     replace (0 <=? j mod 64) with true by (symmetry; apply Z.leb_le; lia).
                     replace (j mod 64 <? 0 + ro) with false by (symmetry; apply Z.ltb_ge; lia).
                     reflexivity.
           ++ rewrite Hwsb by lia.
              destruct (Z.ltb_spec j b) as [Hjb | Hjb].
              ** replace (j <? 64 * m) with true by (symmetry; apply Z.ltb_lt; lia).
                 reflexivity.
              ** replace (j <? 64 * m) with false by (symmetry; apply Z.ltb_ge; lia).
                 reflexivity.
        -- (* the two ends fill more than a word *)
           rewrite bit_at_overwrite1 by (rewrite ?overwrite1_length; lia).
           destruct (Z.eqb_spec (j / 64) (Z.of_nat (Z.to_nat (retLen - 1)))) as [E | NE].
           ++ rewrite set_bits_testbit by lia.
              rewrite Z.testbit_0_l. rewrite Z.shiftr_spec by lia.
              replace (j <? 64 * m) with false by (symmetry; apply Z.ltb_ge; lia).
              replace (j - 64 * m <? ro) with false by (symmetry; apply Z.ltb_ge; lia).
              replace (0 <=? j mod 64) with true by (symmetry; apply Z.leb_le; lia).
              cbn [andb]. rewrite Z.sub_0_r.
              destruct (Z.ltb_spec j b) as [Hjb | Hjb].
              ** replace (j mod 64 <? 0 + b mod 64) with true
                   by (symmetry; apply Z.ltb_lt; lia).
                 rewrite Hleft by lia. f_equal; lia.
              ** replace (j mod 64 <? 0 + b mod 64) with false
                   by (symmetry; apply Z.ltb_ge; lia).
                 reflexivity.
           ++ rewrite bit_at_overwrite1 by lia.
              destruct (Z.eqb_spec (j / 64) (Z.of_nat (Z.to_nat (retLen - 2)))) as [E2 | NE2].
              ** rewrite set_bits_testbit; try lia.
                 2: { apply set_bits_range. lia. }
                 rewrite set_bits_testbit by lia.
                 rewrite Z.testbit_0_l.
                 replace (j <? 64 * m) with false by (symmetry; apply Z.ltb_ge; lia).
                 replace (j - 64 * m) with (j mod 64) by lia.
                 replace (j <? b) with true by (symmetry; apply Z.ltb_lt; lia).
                 destruct (Z.ltb_spec (j mod 64) ro) as [H1 | H1].
                 --- replace (ro <=? j mod 64) with false by (symmetry; apply Z.leb_gt; lia).
                     cbn [andb].
                     replace (0 <=? j mod 64) with true by (symmetry; apply Z.leb_le; lia).
                     replace (j mod 64 <? 0 + ro) with true by (symmetry; apply Z.ltb_lt; lia).
                     cbn [andb]. rewrite Z.sub_0_r. apply Hright. lia.
                 --- replace (ro <=? j mod 64) with true by (symmetry; apply Z.leb_le; lia).
                     replace (j mod 64 <? ro + (64 - ro)) with true
                       by (symmetry; apply Z.ltb_lt; lia).
                     cbn [andb]. rewrite Hleft by lia. f_equal; lia.
              ** rewrite Hwsb by lia.
                 destruct (Z.ltb_spec j b) as [Hjb | Hjb].
                 --- replace (j <? 64 * m) with true by (symmetry; apply Z.ltb_lt; lia).
                     reflexivity.
                 --- replace (j <? 64 * m) with false by (symmetry; apply Z.ltb_ge; lia).
                     reflexivity.
Qed.

Lemma shiftr_word (w s : Z) : 0 <= w < 2 ^ 64 -> 0 <= s -> 0 <= Z.shiftr w s < 2 ^ 64.
Proof.
  intros Hw Hs. apply word_of_bits.
  - apply Z.shiftr_nonneg. lia.
  - intros i Hi. rewrite Z.shiftr_spec by lia.
    apply testbit_word_high; [exact Hw | lia].
Qed.

Lemma cells_ok_repeat (n : nat) : cells_ok (repeat 0 n).
Proof. apply Forall_forall. intros x Hx. apply repeat_spec in Hx. subst. lia. Qed.

Lemma cells_ok_one (x : Z) : 0 <= x < 2 ^ 64 -> cells_ok [x].
Proof. intros H. constructor; [exact H | constructor]. Qed.

(** The words [generalArray.Get] returns are 64-bit words. *)
Lemma general_words_cells_ok (cs : list Z) (b n : Z) :
  cells_ok cs -> 0 < b -> 0 <= n -> cells_ok (general_words cs b n).
Proof.
  intros Hc Hb Hn. unfold general_words.
  assert (Hl0 : 0 <= n * b) by nia.
  assert (Hlm := Z.mod_pos_bound (n * b) 64 ltac:(lia)).
  assert (Hdl := cells_ok_nth cs (Z.to_nat (n * b / 64)) Hc).
  repeat match goal with
         | |- cells_ok (if ?c then _ else _) => destruct c
         end;
    repeat first
      [ apply cells_ok_overwrite | apply cells_ok_one | apply cells_ok_firstn
      | apply cells_ok_skipn | apply cells_ok_repeat | exact Hc
      | apply set_bits_range | apply land_word | apply shiftr_word
      | apply cells_ok_nth | lia ].
Qed.

(* ===================================================================== *)
(** * What a write leaves *)
(* ===================================================================== *)

(** [set(&d[j], offset, x, m)]: the [m] low bits of [x] from bit [offset]
    of word [j], and the other bits as they were. *)
Lemma set_stored (d : buf) (j offset x m : Z) :
  cells_ok (cells d) -> 0 <= j < slen d -> slen d <= cap d ->
  0 <= offset -> 0 <= m -> offset + m <= 64 ->
  exists d',
    set d j offset x m = Val d' /\
    slen d' = slen d /\ cap d' = cap d /\ cells_ok (cells d') /\
    forall k, 0 <= k ->
      bit_at (cells d') k
      = if (64 * j + offset <=? k) && (k <? 64 * j + offset + m)
        then Z.testbit x (k - (64 * j + offset))
        else bit_at (cells d) k.
Proof.
  intros Hc Hj Hcap Ho Hm Hom. rewrite set_val by lia.
  eexists. split; [reflexivity |].
  unfold cap in *. cbn [slen cells].
  assert (Hw := cells_ok_nth (cells d) (Z.to_nat j) Hc).
  rewrite overwrite1_length by lia.
  repeat split.
  - apply cells_ok_overwrite; [exact Hc |].
    apply cells_ok_one. apply set_bits_range. exact Hw.
  - intros k Hk. rewrite bit_at_overwrite1 by lia.
    assert (Hq := Z.div_mod k 64 ltac:(lia)).
    assert (Hkm := Z.mod_pos_bound k 64 ltac:(lia)).
    destruct (Z.eqb_spec (k / 64) (Z.of_nat (Z.to_nat j))) as [E | NE].
    + rewrite set_bits_testbit by lia.
      replace (64 * j + offset <=? k) with (offset <=? k mod 64)
        by (apply eq_true_iff_eq; rewrite !Z.leb_le; lia).
      replace (k <? 64 * j + offset + m) with (k mod 64 <? offset + m)
        by (apply eq_true_iff_eq; rewrite !Z.ltb_lt; lia).
      replace (k - (64 * j + offset)) with (k mod 64 - offset) by lia.
      unfold bit_at. replace (Z.to_nat (k / 64)) with (Z.to_nat j) by lia.
      reflexivity.
    + replace ((64 * j + offset <=? k) && (k <? 64 * j + offset + m)) with false;
        [reflexivity |].
      symmetry. apply andb_false_iff. rewrite Z.leb_gt, Z.ltb_ge. lia.
Qed.

(** Whole words written from word [lo] on. *)
Lemma overwrite_stored (d : buf) (lo : Z) (src : list Z) (cnt : Z) :
  cells_ok (cells d) -> cells_ok src -> 0 <= lo -> 0 <= cnt ->
  lo + cnt <= cap d ->
  let d' := mkslice (overwrite (cells d) (Z.to_nat lo) (firstn (Z.to_nat cnt) src))
                    (slen d) in
  cnt <= Z.of_nat (length src) ->
  slen d' = slen d /\ cap d' = cap d /\ cells_ok (cells d') /\
  forall k, 0 <= k ->
    bit_at (cells d') k
    = if (64 * lo <=? k) && (k <? 64 * (lo + cnt))
      then bit_at src (k - 64 * lo)
      else bit_at (cells d) k.
Proof.
  intros Hc Hs Hlo Hcnt Hcap d' Hsrc. unfold d', cap in *. cbn [slen cells].
  assert (Hfl : length (firstn (Z.to_nat cnt) src) = Z.to_nat cnt)
    by (rewrite length_firstn; lia).
  rewrite overwrite_length by lia.
  repeat split.
  - apply cells_ok_overwrite; [exact Hc | apply cells_ok_firstn; exact Hs].
  - intros k Hk. rewrite bit_at_overwrite by lia. rewrite Hfl.
    replace (64 * Z.of_nat (Z.to_nat lo)) with (64 * lo) by lia.
    replace (64 * Z.of_nat (Z.to_nat lo + Z.to_nat cnt)) with (64 * (lo + cnt)) by lia.
    destruct ((64 * lo <=? k) && (k <? 64 * (lo + cnt))) eqn:E; [| reflexivity].
    apply andb_true_iff in E. destruct E as [E1 E2].
    apply Z.leb_le in E1. apply Z.ltb_lt in E2.
    rewrite bit_at_firstn by lia.
    replace (k - 64 * lo <? 64 * Z.of_nat (Z.to_nat cnt)) with true
      by (symmetry; apply Z.ltb_lt; lia).
    reflexivity.
Qed.

Lemma copy_from_stored (d : buf) (lo : Z) (src : buf) :
  cells_ok (cells d) -> cells_ok (cells src) ->
  0 <= lo <= slen d -> slen d <= cap d -> 0 <= slen src <= cap src ->
  exists d',
    copy_from d lo src = Val d' /\
    slen d' = slen d /\ cap d' = cap d /\ cells_ok (cells d') /\
    forall k, 0 <= k ->
      bit_at (cells d') k
      = if (64 * lo <=? k) && (k <? 64 * (lo + Z.min (slen d - lo) (slen src)))
        then bit_at (cells src) (k - 64 * lo)
        else bit_at (cells d) k.
Proof.
  intros Hc Hs Hlo Hcap Hsrc. rewrite copy_from_val by lia.
  eexists. split; [reflexivity |].
  apply overwrite_stored; auto; unfold cap in *; lia.
Qed.

Lemma copy_range_stored (d : buf) (lo hi : Z) (src : buf) :
  cells_ok (cells d) -> cells_ok (cells src) ->
  0 <= lo <= hi -> hi <= cap d -> 0 <= slen src <= cap src ->
  exists d',
    copy_range d lo hi src = Val d' /\
    slen d' = slen d /\ cap d' = cap d /\ cells_ok (cells d') /\
    forall k, 0 <= k ->
      bit_at (cells d') k
      = if (64 * lo <=? k) && (k <? 64 * (lo + Z.min (hi - lo) (slen src)))
        then bit_at (cells src) (k - 64 * lo)
        else bit_at (cells d) k.
Proof.
  intros Hc Hs Hlo Hcap Hsrc. rewrite copy_range_val by lia.
  eexists. split; [reflexivity |].
  apply overwrite_stored; auto; unfold cap in *; lia.
Qed.

(** Run the next [set], [copy(s[lo:], v)] or [copy(s[lo:hi], v)] of the
    goal, with the bits it leaves. *)
Ltac stored_step d1 E1 B1 :=
  let H1 := fresh "Hsl" in let H2 := fresh "Hcp" in let H3 := fresh "Hck" in
  match goal with
  | |- context [set ?d ?j ?o ?x ?m] =>
      destruct (set_stored d j o x m) as (d1 & E1 & H1 & H2 & H3 & B1);
      [ .. | rewrite E1; cbn [bind] ]
  | |- context [copy_from ?d ?lo ?src] =>
      destruct (copy_from_stored d lo src) as (d1 & E1 & H1 & H2 & H3 & B1);
      [ .. | rewrite E1; cbn [bind] ]
  | |- context [copy_range ?d ?lo ?hi ?src] =>
      destruct (copy_range_stored d lo hi src) as (d1 & E1 & H1 & H2 & H3 & B1);
      [ .. | rewrite E1; cbn [bind] ]
  end.

(** Settle the test of the first conditional of the goal. *)
Ltac cond_off :=
  match goal with
  | |- context [if (?a <=? ?b) && (?c <? ?e) then _ else _] =>
      replace ((a <=? b) && (c <? e)) with false
        by (symmetry; apply andb_false_iff; rewrite Z.leb_gt, Z.ltb_ge; lia)
  end.
Ltac cond_on :=
  match goal with
  | |- context [if (?a <=? ?b) && (?c <? ?e) then _ else _] =>
      replace ((a <=? b) && (c <? e)) with true
        by (symmetry; apply andb_true_iff; rewrite Z.leb_le, Z.ltb_lt; lia)
  end.

(** A bit of a word of a vector, as a bit of the vector. *)
Ltac vector_bit :=
  unfold shr; rewrite ?Z.shiftr_spec by lia;
  rewrite <- bit_at_word by lia; f_equal; lia.

Lemma general_Set_stored (d : buf) (b len n : Z) (v : Vector) :
  packed_ok d b len -> vector_ok b v -> 0 <= n < len ->
  exists d',
    generalArray.Set_ (generalArray.mk d b len) n v
    = Val (generalArray.mk d' b len) /\
    row_stored b n (cells (vdata v)) (cells d) (cells d').
Proof.
  intros Hok Hv Hn.
  destruct (packed_positions d b len n Hok Hn) as (Em & Ea & Hl0 & Hr & Hs & Hcap).
  destruct Hok as (_ & Hw & Hb0 & _ & _).
  destruct Hv as (Hvb & _ & [Hvs1 Hvs2] & Hvw & Hvl & _).
  unfold words_ok in Hw, Hvw.
  unfold generalArray.Set_, row_stored, bit_pos.
  cbn [generalArray.data generalArray.bitNum generalArray.len].
  rewrite Hvb, Z.eqb_refl. cbn [negb].
  rewrite in_range_test by lia. rewrite Em, Ea. unfold wordBits, Go.len.
  rewrite !idiv_nonneg, !imod_nonneg by lia.
  set (lbit := n * b) in *. set (rbit := lbit + b) in *.
  assert (Hlq := Z.div_mod lbit 64 ltac:(lia)).
  assert (Hrq := Z.div_mod rbit 64 ltac:(lia)).
  assert (Hlm := Z.mod_pos_bound lbit 64 ltac:(lia)).
  assert (Hrm := Z.mod_pos_bound rbit 64 ltac:(lia)).
  assert (Hbq := Z.div_mod b 64 ltac:(lia)).
  assert (Hbm := Z.mod_pos_bound b 64 ltac:(lia)).
  assert (Htq := Z.div_mod (b + 63) 64 ltac:(lia)).
  assert (Htm := Z.mod_pos_bound (b + 63) 64 ltac:(lia)).
  set (l := lbit / 64) in *. set (r := rbit / 64) in *.
  set (lo := lbit mod 64) in *. set (ro := rbit mod 64) in *.
  set (vlen := slen (vdata v)) in *.
  assert (Hl : 0 <= l < slen d) by lia.
  assert (Hmult : b mod 64 = 0 -> lo = 0).
  { intros E. unfold lo, lbit.
    replace (n * b) with (n * (b / 64) * 64) by lia.
    apply Z.mod_mul. lia. }
  destruct ((l =? r) || ((l + 1 =? r) && (ro =? 0))) eqn:Ea1.
  - (* one word *)
    cbn [orb].
    assert (Hone : lo + b <= 64).
    { apply orb_true_iff in Ea1. destruct Ea1 as [E | E].
      - apply Z.eqb_eq in E. lia.
      - apply andb_true_iff in E. destruct E as [E1 E2].
        apply Z.eqb_eq in E1. apply Z.eqb_eq in E2. lia. }
    rewrite index_in by lia. cbn [bind].
    stored_step d1 E1 B1; try lia; auto.
    eexists. split; [reflexivity |]. split.
    + intros j Hj. rewrite B1 by lia. cond_on. vector_bit.
    + intros k Hk Hout. rewrite B1 by lia. cond_off. reflexivity.
  - apply orb_false_iff in Ea1. destruct Ea1 as [Nlr Ea2].
    apply Z.eqb_neq in Nlr. cbn [orb].
    assert (Hlr : l < r) by lia.
    assert (Hrs : r <= slen d) by lia.
    destruct (Z.eqb_spec lo 0) as [Elo | Nlo].
    + (* aligned start *)
      destruct (Z.eqb_spec ro 0) as [Ero | Nro].
      * stored_step d1 E1 B1; try lia; auto.
        eexists. split; [reflexivity |]. split.
        -- intros j Hj. rewrite B1 by lia. cond_on. f_equal; lia.
        -- intros k Hk Hout. rewrite B1 by lia. cond_off. reflexivity.
      * rewrite slice_to_val by lia. cbn [bind].
        stored_step d1 E1 B1; cbn [slen cells]; try lia; auto;
          try (unfold cap in *; cbn [slen cells] in *; lia).
        rewrite index_in by lia. cbn [bind].
        stored_step d2 E2 B2; try lia; auto.
        eexists. split; [reflexivity |]. split.
        -- intros j Hj. rewrite B2 by lia.
           destruct (Z.ltb_spec j (64 * (vlen - 1))) as [H1 | H1].
           ++ cond_off. rewrite B1 by lia. cbn [slen cells]. cond_on. f_equal; lia.
           ++ cond_on. vector_bit.
        -- intros k Hk Hout. rewrite B2 by lia. cond_off.
           rewrite B1 by lia. cbn [slen cells]. cond_off. reflexivity.
    + (* unaligned start *)
      assert (Hbm0 : b mod 64 <> 0) by (intro E; apply Nlo; apply Hmult; exact E).
      set (m := r - l - 1) in *.
      stored_step d1 E1 B1; try lia; auto.
      replace (Z.min (r - (l + 1)) (slen (vdata v))) with m in B1 by lia.
      destruct (Z.ltb_spec (64 - lo) (b mod 64)) as [Hlt | Hge].
      * rewrite index_in by lia. cbn [bind].
        rewrite to_word_small by lia.
        stored_step d2 E2 B2; try lia; auto.
        stored_step d3 E3 B3; try lia; auto.
        eexists. split; [reflexivity |]. split.
        -- intros j Hj.
           destruct (Z.ltb_spec j (64 * m)) as [H1 | H1];
             [| destruct (Z.ltb_spec (j - 64 * m) ro) as [H2 | H2]];
             rewrite B3 by lia.
           ++ cond_off. rewrite B2 by lia. cond_off.
              rewrite B1 by lia. cond_on. f_equal; lia.
           ++ cond_off. rewrite B2 by lia. cond_on. vector_bit.
           ++ cond_on. vector_bit.
        -- intros k Hk Hout. rewrite B3 by lia. cond_off.
           rewrite B2 by lia. cond_off. rewrite B1 by lia. cond_off. reflexivity.
      * destruct (Z.eqb_spec (64 - lo) (b mod 64)) as [Eeq | Nne].
        -- rewrite index_in by lia. cbn [bind].
           stored_step d2 E2 B2; try lia; auto.
           eexists. split; [reflexivity |]. split.
           ++ intros j Hj.
              destruct (Z.ltb_spec j (64 * m)) as [H1 | H1];
                [| replace (j - 64 * m <? ro) with false
                     by (symmetry; apply Z.ltb_ge; lia)];
                rewrite B2 by lia.
              ** cond_off. rewrite B1 by lia. cond_on. f_equal; lia.
              ** cond_on. vector_bit.
           ++ intros k Hk Hout. rewrite B2 by lia. cond_off.
              rewrite B1 by lia. cond_off. reflexivity.
        -- rewrite index_in by lia. cbn [bind].
           rewrite to_word_small by lia.
           stored_step d2 E2 B2; try lia; auto.
           stored_step d3 E3 B3; try lia; auto.
           rewrite index_in by lia. cbn [bind].
           stored_step d4 E4 B4; try lia; auto.
           eexists. split; [reflexivity |]. split.
           ++ intros j Hj.
              destruct (Z.ltb_spec j (64 * m)) as [H1 | H1];
                [| destruct (Z.ltb_spec (j - 64 * m) ro) as [H2 | H2]];
                rewrite B4 by lia.
              ** cond_off. rewrite B3 by lia. cond_off. rewrite B2 by lia. cond_off.
                 rewrite B1 by lia. cond_on. f_equal; lia.
              ** cond_off. rewrite B3 by lia. cond_off.
                 rewrite B2 by lia. cond_on. vector_bit.
              ** destruct (Z.ltb_spec (j - 64 * m) 64) as [H3 | H3].
                 --- cond_off. rewrite B3 by lia. cond_on. vector_bit.
                 --- cond_on. vector_bit.
           ++ intros k Hk Hout. rewrite B4 by lia. cond_off.
              rewrite B3 by lia. cond_off. rewrite B2 by lia. cond_off.
              rewrite B1 by lia. cond_off. reflexivity.
Qed.

(** A row that lies within a word, or starts one, is stored in order. *)
Lemma bit_pos_in_order (b n j : Z) :
  0 < b -> 0 <= n -> (n * b) mod 64 + b <= 64 \/ (n * b) mod 64 = 0 ->
  bit_pos b n j = n * b + j.
Proof.
  intros Hb Hn H. unfold bit_pos.
  set (lbit := n * b) in *. set (rbit := lbit + b) in *.
  assert (Hl0 : 0 <= lbit) by (unfold lbit; nia).
  assert (Hlq := Z.div_mod lbit 64 ltac:(lia)).
  assert (Hrq := Z.div_mod rbit 64 ltac:(lia)).
  assert (Hlm := Z.mod_pos_bound lbit 64 ltac:(lia)).
  assert (Hrm := Z.mod_pos_bound rbit 64 ltac:(lia)).
  set (l := lbit / 64) in *. set (r := rbit / 64) in *.
  set (lo := lbit mod 64) in *. set (ro := rbit mod 64) in *.
  destruct ((l =? r) || ((l + 1 =? r) && (ro =? 0)) || (lo =? 0)) eqn:Ec;
    [reflexivity |].
  apply orb_false_iff in Ec. destruct Ec as [Ec Nlo].
  apply orb_false_iff in Ec. destruct Ec as [Nlr Ec].
  apply Z.eqb_neq in Nlr. apply Z.eqb_neq in Nlo.
  apply andb_false_iff in Ec.
  destruct Ec as [Ec | Ec]; apply Z.eqb_neq in Ec; lia.
Qed.

(** [d[j] = x]: the bits of [x] in word [j]. *)
Lemma store_stored (d : buf) (j x : Z) :
  cells_ok (cells d) -> 0 <= j < slen d -> slen d <= cap d -> 0 <= x < 2 ^ 64 ->
  exists d',
    store d j x = Val d' /\
    slen d' = slen d /\ cap d' = cap d /\ cells_ok (cells d') /\
    forall k, 0 <= k ->
      bit_at (cells d') k
      = if (64 * j <=? k) && (k <? 64 * j + 64)
        then Z.testbit x (k - 64 * j)
        else bit_at (cells d) k.
Proof.
  intros Hc Hj Hcap Hx. rewrite store_in by lia.
  eexists. split; [reflexivity |].
  unfold cap in *. cbn [slen cells].
  rewrite overwrite1_length by lia.
  repeat split.
  - apply cells_ok_overwrite; [exact Hc | apply cells_ok_one; exact Hx].
  - intros k Hk. rewrite bit_at_overwrite1 by lia.
    assert (Hq := Z.div_mod k 64 ltac:(lia)).
    assert (Hkm := Z.mod_pos_bound k 64 ltac:(lia)).
    destruct (Z.eqb_spec (k / 64) (Z.of_nat (Z.to_nat j))) as [E | NE].
    + cond_on. f_equal. lia.
    + cond_off. reflexivity.
Qed.

Lemma smallBits_Set_stored (d : buf) (b len n : Z) (v : Vector) :
  packed_ok d b len -> b < 64 -> vector_ok b v -> 0 <= n < len ->
  exists d',
    smallBitsArray.Set_ (smallBitsArray.mk (generalArray.mk d b len)) n v
    = Val (smallBitsArray.mk (generalArray.mk d' b len)) /\
    row_stored b n (cells (vdata v)) (cells d) (cells d').
Proof.
  intros Hok Hb64 Hv Hn.
  destruct (packed_positions d b len n Hok Hn) as (Em & Ea & Hl0 & Hr & Hs & Hcap).
  destruct Hok as (_ & Hw & Hb0 & _ & _).
  destruct (vector_ok_head b v Hv ltac:(lia)) as [Hv0 _].
  destruct Hv as (Hvb & _).
  unfold words_ok in Hw.
  unfold smallBitsArray.Set_, smallBitsArray.Len, smallBitsArray.BitNum,
    generalArray.Len, generalArray.BitNum, row_stored, bit_pos.
  cbn [smallBitsArray.ga generalArray.data generalArray.bitNum generalArray.len].
  rewrite Hvb, Z.eqb_refl. cbn [negb].
  rewrite in_range_test by lia. rewrite Em, Ea. unfold wordBits.
  rewrite !idiv_nonneg, !imod_nonneg by lia.
  set (lbit := n * b) in *. set (rbit := lbit + b) in *.
  assert (Hlq := Z.div_mod lbit 64 ltac:(lia)).
  assert (Hrq := Z.div_mod rbit 64 ltac:(lia)).
  assert (Hlm := Z.mod_pos_bound lbit 64 ltac:(lia)).
  assert (Hrm := Z.mod_pos_bound rbit 64 ltac:(lia)).
  set (l := lbit / 64) in *. set (r := rbit / 64) in *.
  set (lo := lbit mod 64) in *. set (ro := rbit mod 64) in *.
  rewrite Hv0. cbn [bind].
  destruct ((l =? r) || (ro =? 0)) eqn:Ec.
  - assert (Hone : lo + b <= 64).
    { apply orb_true_iff in Ec. destruct Ec as [E | E]; apply Z.eqb_eq in E; lia. }
    replace ((l =? r) || (l + 1 =? r) && (ro =? 0) || (lo =? 0)) with true.
    2: { symmetry. apply orb_true_iff. left.
         apply orb_true_iff in Ec. destruct Ec as [E | E].
         - rewrite E. reflexivity.
         - apply Z.eqb_eq in E. rewrite E.
           destruct (Z.eqb_spec l r) as [| N]; [reflexivity |].
           cbn [orb]. rewrite andb_true_r. apply Z.eqb_eq. lia. }
    stored_step d1 E1 B1; try lia; auto.
    eexists. split; [reflexivity |]. split.
    + intros j Hj. rewrite B1 by lia. cond_on.
      change (nth 0 (cells (vdata v)) 0)
        with (nth (Z.to_nat 0) (cells (vdata v)) 0).
      vector_bit.
    + intros k Hk Hout. rewrite B1 by lia. cond_off. reflexivity.
  - apply orb_false_iff in Ec. destruct Ec as [Nlr Nro].
    rewrite Nlr, Nro. rewrite andb_false_r. cbn [orb].
    apply Z.eqb_neq in Nlr. apply Z.eqb_neq in Nro.
    replace (lo =? 0) with false by (symmetry; apply Z.eqb_neq; lia).
    rewrite isub_small by lia.
    rewrite to_word_small by lia.
    stored_step d1 E1 B1; try lia; auto.
    stored_step d2 E2 B2; try lia; auto.
    change (nth 0 (cells (vdata v)) 0)
      with (nth (Z.to_nat 0) (cells (vdata v)) 0) in *.
    eexists. split; [reflexivity |]. split.
    + intros j Hj.
      replace (j <? 64 * (r - l - 1)) with false by (symmetry; apply Z.ltb_ge; lia).
      replace (j - 64 * (r - l - 1)) with j by lia.
      destruct (Z.ltb_spec j ro) as [H2 | H2]; rewrite B2 by lia.
      * cond_off. rewrite B1 by lia. cond_on. vector_bit.
      * cond_on. vector_bit.
    + intros k Hk Hout. rewrite B2 by lia. cond_off.
      rewrite B1 by lia. cond_off. reflexivity.
Qed.

Lemma word_Set_stored (d : buf) (n : Z) (v : Vector) :
  slice_ok d -> words_ok d -> vector_ok 64 v -> 0 <= n < slen d ->
  exists d',
    wordArray.Set_ (wordArray.mk d) n v = Val (wordArray.mk d') /\
    row_stored 64 n (cells (vdata v)) (cells d) (cells d').
Proof.
  intros [[Hs1 Hs2] Hs3] Hw Hv Hn.
  destruct (vector_ok_head 64 v Hv ltac:(lia)) as [Hv0 _].
  assert (Hvr := vector_ok_nth_range 64 v 0 Hv).
  destruct Hv as (Hvb & _).
  unfold wordArray.Set_, wordArray.Len, Go.len, wordBits. cbn [wordArray.data].
  rewrite Hvb. change (64 =? 64) with true. cbn [negb].
  rewrite in_range_test by lia. rewrite Hv0. cbn [bind].
  destruct (store_stored d n (nth 0 (cells (vdata v)) 0)) as (d' & E & _ & _ & _ & B);
    auto; try lia.
  rewrite E. cbn [bind]. eexists. split; [reflexivity |].
  assert (Hmod : (n * 64) mod 64 = 0) by (apply Z.mod_mul; lia).
  split.
  - intros j Hj. rewrite bit_pos_in_order by lia.
    rewrite B by lia. cond_on.
    change (nth 0 (cells (vdata v)) 0)
      with (nth (Z.to_nat 0) (cells (vdata v)) 0).
    vector_bit.
  - intros k Hk Hout. rewrite B by lia. cond_off. reflexivity.
Qed.

Lemma multi_Set_stored (d : buf) (b n : Z) (v : Vector) :
  slice_ok d -> words_ok d -> 64 < b -> b mod 64 = 0 ->
  vector_ok b v -> 0 <= n < slen d / (b / 64) ->
  exists d',
    multipleOfWordBitsArray.Set_ (multipleOfWordBitsArray.mk d b) n v
    = Val (multipleOfWordBitsArray.mk d' b) /\
    row_stored b n (cells (vdata v)) (cells d) (cells d').
Proof.
  intros [[Hs1 Hs2] Hs3] Hw Hb Hbm Hv Hn.
  destruct Hv as (Hvb & _ & [Hvs1 Hvs2] & Hvw & Hvl & _).
  unfold words_ok in Hw, Hvw.
  unfold multipleOfWordBitsArray.Set_, multipleOfWordBitsArray.Len, Go.len, wordBits.
  cbn [multipleOfWordBitsArray.data multipleOfWordBitsArray.bitNum].
  rewrite Hvb, Z.eqb_refl. cbn [negb].
  rewrite (idiv_nonneg b 64) by lia.
  assert (Hq := Z.div_mod b 64 ltac:(lia)).
  replace ((b + 63) / 64) with (b / 64) in Hvl by (Z.div_mod_to_equations; lia).
  assert (Hmod : (n * b) mod 64 = 0).
  { replace (n * b) with (n * (b / 64) * 64) by lia. apply Z.mod_mul. lia. }
  set (nw := b / 64) in *.
  assert (Hnw : 2 <= nw) by lia.
  rewrite idiv_nonneg by lia.
  assert (Hd := Z.div_mod (slen d) nw ltac:(lia)).
  assert (Hdm := Z.mod_pos_bound (slen d) nw ltac:(lia)).
  assert (Hfit : n * nw + nw <= slen d) by nia.
  assert (Hn0 : 0 <= n * nw) by nia.
  rewrite in_range_test by lia.
  rewrite imul_small by lia.
  stored_step d1 E1 B1; try lia; auto.
  eexists. split; [reflexivity |]. split.
  - intros j Hj. rewrite bit_pos_in_order by lia.
    rewrite B1 by lia. cond_on. f_equal; lia.
  - intros k Hk Hout. rewrite B1 by lia. cond_off. reflexivity.
Qed.

Lemma pow2_Set_stored (d : buf) (b len n : Z) (v : Vector) :
  packed_ok d b len -> In b [1; 2; 4; 8; 16; 32] -> vector_ok b v ->
  0 <= n < len ->
  exists d',
    smallPowerOfTwoBitsArray.Set_ (smallPowerOfTwoBitsArray.mk d b len) n v
    = Val (smallPowerOfTwoBitsArray.mk d' b len) /\
    row_stored b n (cells (vdata v)) (cells d) (cells d').
Proof.
  intros Hok Hb Hv Hn.
  destruct (packed_positions d b len n Hok Hn) as (Em & Ea & Hl0 & Hr & Hs & Hcap).
  destruct Hok as (_ & Hw & Hb0 & _ & _).
  assert (Hb64 : 0 < b < 64) by (cbn [In] in Hb; lia).
  destruct (vector_ok_head b v Hv ltac:(lia)) as [Hv0 _].
  assert (Hvbits := fun i => vector_ok_bits b v i Hv).
  assert (Hvr := vector_ok_nth_range b v 0 Hv).
  destruct Hv as (Hvb & _).
  unfold words_ok in Hw.
  assert (Hlq := Z.div_mod (n * b) 64 ltac:(lia)).
  assert (Hlm := Z.mod_pos_bound (n * b) 64 ltac:(lia)).
  assert (Hrq := Z.div_mod (n * b + b) 64 ltac:(lia)).
  assert (Hrm := Z.mod_pos_bound (n * b + b) 64 ltac:(lia)).
  unfold smallPowerOfTwoBitsArray.Set_, smallPowerOfTwoBitsArray.Len, idiv_chk,
    wordBits.
  cbn [smallPowerOfTwoBitsArray.data smallPowerOfTwoBitsArray.bitNum
       smallPowerOfTwoBitsArray.len].
  rewrite Hvb, Z.eqb_refl. cbn [negb].
  rewrite in_range_test by lia.
  rewrite leastBits_ones by lia.
  set (v0 := nth 0 (cells (vdata v)) 0) in *.
  assert (Hgoal : forall l lo,
            l = n * b / 64 -> lo = (n * b) mod 64 -> lo + b <= 64 ->
            exists d',
              (w <- index 0 d l ;;
               d0 <- store d l (Z.land w (wnot (shl (Z.ones b) lo))) ;;
               v1 <- index 0 (vdata v) 0 ;;
               w0 <- index 0 d0 l ;;
               d1 <- store d0 l (Z.lor w0 (shl v1 lo)) ;;
               Val (smallPowerOfTwoBitsArray.mk d1 b len))
              = Val (smallPowerOfTwoBitsArray.mk d' b len) /\
              row_stored b n (cells (vdata v)) (cells d) (cells d')).
  { intros l lo -> -> Hfield.
    set (l := n * b / 64) in *. set (lo := (n * b) mod 64) in *.
    assert (Hl : 0 <= l < slen d) by lia.
    rewrite index_in by lia. cbn [bind].
    assert (Hdl := cells_ok_nth (cells d) (Z.to_nat l) Hw).
    destruct (store_stored d l
                (Z.land (nth (Z.to_nat l) (cells d) 0) (wnot (shl (Z.ones b) lo))))
      as (d1 & E1 & Hsl1 & Hcp1 & Hck1 & B1); auto; try lia.
    { apply land_word. exact Hdl. }
    rewrite E1. cbn [bind].
    rewrite Hv0. cbn [bind].
    rewrite index_in by lia. cbn [bind].
    assert (Hd1 := cells_ok_nth (cells d1) (Z.to_nat l) Hck1).
    destruct (store_stored d1 l (Z.lor (nth (Z.to_nat l) (cells d1) 0) (shl v0 lo)))
      as (d2 & E2 & Hsl2 & Hcp2 & Hck2 & B2); auto; try lia.
    { apply lor_word; [exact Hd1 | apply shl_range]. }
    rewrite E2. cbn [bind].
    eexists. split; [reflexivity |].
    assert (Hword : forall i, 0 <= i < 64 ->
              Z.testbit (nth (Z.to_nat l) (cells d1) 0) i
              = Z.testbit (nth (Z.to_nat l) (cells d) 0) i
                && negb ((lo <=? i) && (i <? lo + b))).
    { intros i Hi. rewrite <- bit_at_word by lia. rewrite B1 by lia. cond_on.
      replace (64 * l + i - 64 * l) with i by lia.
      rewrite Z.land_spec, wnot_testbit, shl_testbit by lia.
      rewrite Z.testbit_ones by lia.
      replace (i <? 64) with true by (symmetry; apply Z.ltb_lt; lia).
      cbn [andb]. f_equal.
      destruct (Z.leb_spec lo i) as [H1 | H1]; cbn [andb negb]; [| reflexivity].
      replace (0 <=? i - lo) with true by (symmetry; apply Z.leb_le; lia).
      cbn [andb].
      replace (i - lo <? b) with (i <? lo + b)
        by (apply eq_true_iff_eq; rewrite !Z.ltb_lt; lia).
      destruct (i <? lo + b); reflexivity. }
    split.
    - intros j Hj. rewrite bit_pos_in_order by (fold lo; lia).
      rewrite B2 by lia. cond_on.
      replace (n * b + j - 64 * l) with (lo + j) by lia.
      rewrite Z.lor_spec, Hword, shl_testbit by lia.
      replace (lo <=? lo + j) with true by (symmetry; apply Z.leb_le; lia).
      replace (lo + j <? lo + b) with true by (symmetry; apply Z.ltb_lt; lia).
      replace (lo + j <? 64) with true by (symmetry; apply Z.ltb_lt; lia).
      cbn [andb negb]. rewrite andb_false_r. cbn [orb].
      replace (lo + j - lo) with j by lia.
      unfold v0. change (nth 0 (cells (vdata v)) 0)
        with (nth (Z.to_nat 0) (cells (vdata v)) 0).
      vector_bit.
    - intros k Hk Hout. rewrite B2 by lia.
      destruct ((64 * l <=? k) && (k <? 64 * l + 64)) eqn:Ek.
      + apply andb_true_iff in Ek. destruct Ek as [Ek1 Ek2].
        apply Z.leb_le in Ek1. apply Z.ltb_lt in Ek2.
        rewrite Z.lor_spec, Hword, shl_testbit by lia.
        replace ((lo <=? k - 64 * l) && (k - 64 * l <? lo + b)) with false
          by (symmetry; apply andb_false_iff; rewrite Z.leb_gt, Z.ltb_ge; lia).
        cbn [negb]. rewrite andb_true_r.
        replace (k - 64 * l <? 64) with true by (symmetry; apply Z.ltb_lt; lia).
        cbn [andb].
        destruct (Z.leb_spec lo (k - 64 * l)) as [H1 | H1]; cbn [andb].
        * unfold v0. rewrite Hvbits by lia. rewrite orb_false_r.
          replace k with (64 * l + (k - 64 * l)) at 2 by lia.
          rewrite bit_at_word by lia. reflexivity.
        * rewrite orb_false_r.
          replace k with (64 * l + (k - 64 * l)) at 2 by lia.
          rewrite bit_at_word by lia. reflexivity.
      + rewrite B1 by lia. rewrite Ek. reflexivity. }
  cbn [In] in Hb.
  destruct Hb as [<- | [<- | [<- | [<- | [<- | [<- | []]]]]]];
    match goal with
    | |- context [Z.quot 64 ?b] =>
        let q := eval compute in (Z.quot 64 b) in
        change (Z.quot 64 b) with q;
        change (b =? 0) with false; cbn [negb];
        change (q =? 0) with false;
        rewrite (Z.quot_div_nonneg n q) by lia;
        rewrite (imod_nonneg n q) by lia;
        assert (Hnq := Z.div_mod n q ltac:(lia));
        assert (Hnm := Z.mod_pos_bound n q ltac:(lia));
        rewrite imul_small by lia;
        rewrite to_word_small by lia;
        apply Hgoal; lia
    end.
Qed.

(** [Set] on every specialization: the vector is stored in row [n], and
    no bit of another row is touched. *)
Lemma ASet_stored (a a' : Array) (n : Z) (v : Vector) :
  array_ok a -> vector_ok (ABitNum a) v -> 0 <= n < ALen a ->
  ASet a n v = Val a' ->
  row_stored (ABitNum a) n (cells (vdata v))
             (cells (storage a)) (cells (storage a')).
Proof.
  intros Hok Hv Hn HS. unfold storage. destruct a as [g | s | w | p | m].
  - destruct g as [d b len].
    cbn [array_ok ABitNum ALen as_general generalArray.BitNum generalArray.Len
         generalArray.data generalArray.bitNum generalArray.len] in *.
    destruct (general_Set_stored d b len n v Hok Hv Hn) as (d' & E & W).
    cbn [ASet] in HS. rewrite E in HS. cbn [bind] in HS. injection HS as <-.
    exact W.
  - destruct s as [[d b len]].
    cbn [array_ok ABitNum ALen as_general smallBitsArray.BitNum smallBitsArray.Len
         smallBitsArray.ga generalArray.BitNum generalArray.Len
         generalArray.data generalArray.bitNum generalArray.len] in *.
    destruct Hok as [Hok Hb].
    destruct (smallBits_Set_stored d b len n v Hok Hb Hv Hn) as (d' & E & W).
    cbn [ASet] in HS. rewrite E in HS. cbn [bind] in HS. injection HS as <-.
    exact W.
  - destruct w as [d].
    cbn [array_ok ABitNum ALen as_general wordArray.BitNum wordArray.Len
         wordArray.data generalArray.data] in *.
    unfold wordBits, Go.len in *. destruct Hok as [Hs Hw].
    destruct (word_Set_stored d n v Hs Hw Hv Hn) as (d' & E & W).
    cbn [ASet] in HS. rewrite E in HS. cbn [bind] in HS. injection HS as <-.
    exact W.
  - destruct p as [d b len].
    cbn [array_ok ABitNum ALen as_general smallPowerOfTwoBitsArray.BitNum
         smallPowerOfTwoBitsArray.Len smallPowerOfTwoBitsArray.data
         smallPowerOfTwoBitsArray.bitNum smallPowerOfTwoBitsArray.len
         generalArray.data] in *.
    destruct Hok as [Hok Hb].
    destruct (pow2_Set_stored d b len n v Hok Hb Hv Hn) as (d' & E & W).
    cbn [ASet] in HS. rewrite E in HS. cbn [bind] in HS. injection HS as <-.
    exact W.
  - destruct m as [d b].
    cbn [array_ok ABitNum ALen as_general multipleOfWordBitsArray.BitNum
         multipleOfWordBitsArray.data multipleOfWordBitsArray.bitNum
         generalArray.data] in *.
    unfold multipleOfWordBitsArray.Len, Go.len, wordBits in *.
    cbn [multipleOfWordBitsArray.data multipleOfWordBitsArray.bitNum] in *.
    destruct Hok as (Hs & Hw & Hb & Hbm).
    rewrite (idiv_nonneg b 64) in Hn by lia.
    assert (Hq := Z.div_mod b 64 ltac:(lia)).
    assert (Hsl0 : 0 <= slen d) by apply Hs.
    rewrite idiv_nonneg in Hn by lia.
    destruct (multi_Set_stored d b n v Hs Hw Hb Hbm Hv Hn) as (d' & E & W).
    cbn [ASet] in HS. rewrite E in HS. cbn [bind] in HS. injection HS as <-.
    exact W.
Qed.

(* ===================================================================== *)
(** * Reading what was written *)
(* ===================================================================== *)

(** The bits a vector of width [b] shows. *)
Lemma vector_ok_visible_bits (b : Z) (v : Vector) (j : Z) :
  vector_ok b v -> 0 <= j ->
  bit_at (visible (vdata v)) j
  = if j <? b then bit_at (cells (vdata v)) j else false.
Proof.
  intros (Hvb & Hb0 & [Hs1 Hs2] & Hvw & Hvl & Hhigh) Hj.
  assert (Hq := Z.div_mod j 64 ltac:(lia)).
  assert (Hm := Z.mod_pos_bound j 64 ltac:(lia)).
  assert (Htq := Z.div_mod (b + 63) 64 ltac:(lia)).
  assert (Htm := Z.mod_pos_bound (b + 63) 64 ltac:(lia)).
  unfold visible. rewrite bit_at_firstn by lia.
  destruct (Z.ltb_spec j b) as [Hjb | Hjb].
  - replace (j <? 64 * Z.of_nat (Z.to_nat (slen (vdata v)))) with true
      by (symmetry; apply Z.ltb_lt; lia).
    reflexivity.
  - destruct (Z.ltb_spec j (64 * Z.of_nat (Z.to_nat (slen (vdata v)))))
      as [Hin | Hout]; [| reflexivity].
    unfold bit_at. apply Hhigh; lia.
Qed.

(** The words [Get] returns for a row in which [v] is stored. *)
Lemma stored_words (b n : Z) (v : Vector) (cs cs' : list Z) :
  cells_ok cs' -> vector_ok b v -> 0 <= n ->
  n * b + b <= 64 * Z.of_nat (length cs') ->
  row_stored b n (cells (vdata v)) cs cs' ->
  general_words cs' b n = visible (vdata v).
Proof.
  intros Hc Hv Hn Hfit [Hrow _].
  pose proof Hv as (Hvb & Hb0 & [Hs1 Hs2] & Hvw & Hvl & Hhigh).
  assert (Hlen := general_words_length cs' b n Hb0 Hn Hfit).
  assert (Htq := Z.div_mod (b + 63) 64 ltac:(lia)).
  assert (Htm := Z.mod_pos_bound (b + 63) 64 ltac:(lia)).
  apply words_eq_bits.
  - rewrite Hlen. symmetry. apply Nat2Z.inj.
    rewrite visible_length by lia. lia.
  - apply general_words_cells_ok; auto.
  - unfold visible. apply cells_ok_firstn. exact Hvw.
  - intros j Hj. rewrite general_words_bits by (auto; lia).
    rewrite (vector_ok_visible_bits b v j Hv) by lia.
    destruct (Z.ltb_spec j b) as [Hjb | Hjb]; [| reflexivity].
    apply Hrow. lia.
Qed.

(** [Get(n)] after [Set(n, v)]: the vector stored. *)
Lemma ASet_Get_same (a : Array) (n : Z) (v : Vector) :
  array_ok a -> vector_ok (ABitNum a) v -> 0 <= n < ALen a ->
  exists a' x,
    ASet a n v = Val a' /\ array_ok a' /\
    ALen a' = ALen a /\ ABitNum a' = ABitNum a /\
    AGet a' n = Val x /\ same_vector x v.
Proof.
  intros Hok Hv Hn.
  destruct (ASet_written a n v Hok Hv Hn) as (a' & ES & Hok' & Hl' & Hb' & _ & _).
  assert (Hst := ASet_stored a a' n v Hok Hv Hn ES).
  destruct (AGet_words a' n Hok') as (x & EG & Hxb & Hxw); [lia |].
  destruct (array_ok_storage a' Hok') as (Hc' & Hb0 & Hl0 & Hfit & Hcap).
  exists a', x. repeat (split; [solve [auto] |]).
  split; [rewrite Hxb, Hb'; symmetry; apply Hv |].
  rewrite Hxw. fold (storage a'). rewrite Hb'.
  apply (stored_words (ABitNum a) n v (cells (storage a))); auto; try lia.
  rewrite Hb', Hl' in Hfit. nia.
Qed.

(** [Get(m)] after [Set(n, v)], for another row [m]: what it was. *)
Lemma ASet_Get_other (a a' : Array) (n m : Z) (v : Vector) :
  array_ok a -> vector_ok (ABitNum a) v -> 0 <= n < ALen a ->
  ASet a n v = Val a' -> 0 <= m < ALen a -> m <> n ->
  exists x x',
    AGet a m = Val x /\ AGet a' m = Val x' /\ same_vector x' x.
Proof.
  intros Hok Hv Hn ES Hm Hmn.
  destruct (ASet_written a n v Hok Hv Hn) as (a'' & ES' & Hok' & Hl' & Hb' & _ & _).
  rewrite ES in ES'. injection ES' as <-.
  destruct (ASet_stored a a' n v Hok Hv Hn ES) as [_ Hframe].
  destruct (AGet_words a m Hok Hm) as (x & EG & Hxb & Hxw).
  destruct (AGet_words a' m Hok') as (x' & EG' & Hxb' & Hxw'); [lia |].
  destruct (array_ok_storage a Hok) as (Hc & Hb0 & Hl0 & Hfit & Hcap).
  destruct (array_ok_storage a' Hok') as (Hc' & _ & _ & Hfit' & Hcap').
  exists x, x'. repeat (split; [solve [auto] |]).
  split; [congruence |].
  rewrite Hxw, Hxw'. fold (storage a) (storage a'). rewrite Hb'.
  rewrite Hb', Hl' in Hfit'.
  apply general_words_ext; auto; try lia; try nia.
  intros k Hk. apply Hframe; nia.
Qed.

(* ===================================================================== *)
(** * Rows of an array: storing and reading *)
(* ===================================================================== *)

Lemma example_array_ok : array_ok example_array.
Proof.
  unfold example_array, array_ok, packed_ok, slice_ok, words_ok, cells_ok, cap.
  cbn [generalArray.data generalArray.bitNum generalArray.len cells slen length].
  repeat split; try lia; repeat constructor; lia.
Defined.

Lemma example_vector_ok : vector_ok (ABitNum example_array) example_vector.
Proof.
  unfold example_vector, example_array, vector_ok, vector_of, slice_ok, words_ok,
    cells_ok, cap.
  cbn [ABitNum generalArray.BitNum generalArray.bitNum vdata vbitNum cells slen
       length].
  repeat split; try lia; try (repeat constructor; lia).
  intros k Hk i Hi Hi0.
  assert (Hk' : k = 0 \/ k = 1) by lia.
  destruct Hk' as [-> | ->];
    [change (Z.to_nat 0) with 0%nat | change (Z.to_nat 1) with 1%nat]; cbn [nth].
  - apply testbit_word_high; lia.
  - apply Z.bits_above_log2; [lia |]. change (Z.log2 63) with 5. lia.
Defined.

(** X1 (array.go, the five [Set] and [Get] methods): storing a vector of
    the array's width in a row in range returns no error and keeps the
    length and the width of the array, and reading that row afterwards
    returns a vector of the same width with the same words. *)
Theorem Set_then_Get (a : Array) (n : Z) (v : Vector) :
  array_ok a -> vector_ok (ABitNum a) v -> 0 <= n < ALen a ->
  exists a' x,
    ASet a n v = Val a' /\ ALen a' = ALen a /\ ABitNum a' = ABitNum a /\
    AGet a' n = Val x /\ same_vector x v.
Proof.
  intros Hok Hv Hn.
  destruct (ASet_Get_same a n v Hok Hv Hn) as (a' & x & ES & _ & Hl & Hb & EG & Hx).
  exists a', x. auto.
Qed.

Lemma Set_then_Get_witness :
  exists a' x,
    ASet example_array 1 example_vector = Val a' /\
    ALen a' = ALen example_array /\ ABitNum a' = ABitNum example_array /\
    AGet a' 1 = Val x /\ same_vector x example_vector.
Proof.
  apply (Set_then_Get example_array 1 example_vector).
  - exact example_array_ok.
  - exact example_vector_ok.
  - cbn [ALen example_array generalArray.Len generalArray.len]. lia.
Defined.

(** X2 (array.go, the five [Set] and [Get] methods): storing a vector in
    row [n] changes no other row: every other row in range reads
    afterwards as it read before. *)
Theorem Set_keeps_other_rows (a : Array) (n : Z) (v : Vector) :
  array_ok a -> vector_ok (ABitNum a) v -> 0 <= n < ALen a ->
  exists a',
    ASet a n v = Val a' /\
    forall m, 0 <= m < ALen a -> m <> n ->
      exists x x',
        AGet a m = Val x /\ AGet a' m = Val x' /\ same_vector x' x.
Proof.
  intros Hok Hv Hn.
  destruct (ASet_written a n v Hok Hv Hn) as (a' & ES & _).
  exists a'. split; [exact ES |].
  intros m Hm Hmn. exact (ASet_Get_other a a' n m v Hok Hv Hn ES Hm Hmn).
Qed.

Lemma Set_keeps_other_rows_witness :
  exists a',
    ASet example_array 1 example_vector = Val a' /\
    forall m, 0 <= m < ALen example_array -> m <> 1 ->
      exists x x',
        AGet example_array m = Val x /\ AGet a' m = Val x' /\ same_vector x' x.
Proof.
  apply (Set_keeps_other_rows example_array 1 example_vector).
  - exact example_array_ok.
  - exact example_vector_ok.
  - cbn [ALen example_array generalArray.Len generalArray.len]. lia.
Defined.

Lemma out_of_range_test (n len : Z) :
  n < 0 \/ len <= n -> (n <? 0) || (n >=? len) = true.
Proof.
  intros H. apply orb_true_iff. rewrite Z.ltb_lt, Z.geb_leb, Z.leb_le. lia.
Qed.

(** A read outside the rows. *)
Lemma AGet_out_of_range (a : Array) (n : Z) :
  n < 0 \/ ALen a <= n -> AGet a n = Err (InvalidIndex n).
Proof.
  intros H. destruct a as [g | s | w | p | m]; cbn [AGet ALen] in *.
  - unfold generalArray.Get, generalArray.Len in *.
    rewrite out_of_range_test by exact H. reflexivity.
  - unfold smallBitsArray.Get, smallBitsArray.get in *.
    rewrite out_of_range_test by exact H. reflexivity.
  - unfold wordArray.Get in *.
    rewrite out_of_range_test by exact H. reflexivity.
  - unfold smallPowerOfTwoBitsArray.Get in *.
    rewrite out_of_range_test by exact H. reflexivity.
  - unfold multipleOfWordBitsArray.Get in *.
    rewrite out_of_range_test by exact H. reflexivity.
Qed.

(** A write of a vector of another width. *)
Lemma ASet_width_mismatch (a : Array) (n : Z) (v : Vector) :
  vbitNum v <> ABitNum a ->
  ASet a n v = Err (BitNumMismatch (ABitNum a) (vbitNum v)).
Proof.
  intros H. destruct a as [g | s | w | p | m]; cbn [ASet ABitNum] in *.
  - unfold generalArray.Set_, generalArray.BitNum in *.
    replace (generalArray.bitNum g =? vbitNum v) with false
      by (symmetry; apply Z.eqb_neq; congruence).
    reflexivity.
  - unfold smallBitsArray.Set_, smallBitsArray.BitNum, generalArray.BitNum in *.
    replace (generalArray.bitNum (smallBitsArray.ga s) =? vbitNum v) with false
      by (symmetry; apply Z.eqb_neq; congruence).
    reflexivity.
  - unfold wordArray.Set_, wordArray.BitNum in *.
    replace (vbitNum v =? wordBits) with false
      by (symmetry; apply Z.eqb_neq; congruence).
    reflexivity.
  - unfold smallPowerOfTwoBitsArray.Set_, smallPowerOfTwoBitsArray.BitNum in *.
    replace (smallPowerOfTwoBitsArray.bitNum p =? vbitNum v) with false
      by (symmetry; apply Z.eqb_neq; congruence).
    reflexivity.
  - unfold multipleOfWordBitsArray.Set_, multipleOfWordBitsArray.BitNum in *.
    replace (multipleOfWordBitsArray.bitNum m =? vbitNum v) with false
      by (symmetry; apply Z.eqb_neq; congruence).
    reflexivity.
Qed.

(** A write outside the rows. *)
Lemma ASet_out_of_range (a : Array) (n : Z) (v : Vector) :
  vbitNum v = ABitNum a -> n < 0 \/ ALen a <= n ->
  ASet a n v = Err (InvalidIndex n).
Proof.
  intros E H. destruct a as [g | s | w | p | m]; cbn [ASet ABitNum ALen] in *.
  - unfold generalArray.Set_, generalArray.BitNum, generalArray.Len in *.
    rewrite E, Z.eqb_refl. cbn [negb].
    rewrite out_of_range_test by exact H. reflexivity.
  - unfold smallBitsArray.Set_, smallBitsArray.BitNum, generalArray.BitNum in *.
    rewrite E, Z.eqb_refl. cbn [negb].
    rewrite out_of_range_test by exact H. reflexivity.
  - unfold wordArray.Set_, wordArray.BitNum in *.
    rewrite E, Z.eqb_refl. cbn [negb].
    rewrite out_of_range_test by exact H. reflexivity.
  - unfold smallPowerOfTwoBitsArray.Set_, smallPowerOfTwoBitsArray.BitNum in *.
    rewrite E, Z.eqb_refl. cbn [negb].
    rewrite out_of_range_test by exact H. reflexivity.
  - unfold multipleOfWordBitsArray.Set_, multipleOfWordBitsArray.BitNum in *.
    rewrite E, Z.eqb_refl. cbn [negb].
    rewrite out_of_range_test by exact H. reflexivity.
Qed.

(** X3 (array.go, the five [Get] and [Set] methods): on every
    specialization a read at an index below 0 or from the length on
    returns the invalid-index error; a write of a vector of another width
    returns the width-mismatch error, whatever the index, and a write of a
    vector of the array's width at such an index returns the invalid-index
    error.  None of them panics. *)
Theorem Get_Set_errors (a : Array) (n : Z) (v : Vector) :
  array_ok a ->
  (n < 0 \/ ALen a <= n -> AGet a n = Err (InvalidIndex n)) /\
  (vbitNum v <> ABitNum a ->
     ASet a n v = Err (BitNumMismatch (ABitNum a) (vbitNum v))) /\
  (vbitNum v = ABitNum a -> n < 0 \/ ALen a <= n ->
     ASet a n v = Err (InvalidIndex n)).
Proof.
  intros _. split; [| split].
  - apply AGet_out_of_range.
  - apply ASet_width_mismatch.
  - apply ASet_out_of_range.
Qed.

Lemma Get_Set_errors_witness :
  (3 < 0 \/ ALen example_array <= 3 -> AGet example_array 3 = Err (InvalidIndex 3)) /\
  (vbitNum example_vector <> ABitNum example_array ->
     ASet example_array 3 example_vector
     = Err (BitNumMismatch (ABitNum example_array) (vbitNum example_vector))) /\
  (vbitNum example_vector = ABitNum example_array ->
   3 < 0 \/ ALen example_array <= 3 ->
     ASet example_array 3 example_vector = Err (InvalidIndex 3)).
Proof.
  apply (Get_Set_errors example_array 3 example_vector).
  exact example_array_ok.
Defined.

(** X4 (array.go, [NewArray] and [createArray]): [NewArray] returns nil
    exactly for a width that is not positive; for a positive width it
    returns an array of that width with no rows, on which every read
    returns the invalid-index error. *)
Theorem NewArray_empty (bitNum : Z) :
  match NewArray bitNum with
  | None => bitNum <= 0
  | Some a =>
      0 < bitNum /\ array_ok a /\ ABitNum a = bitNum /\ ALen a = 0 /\
      forall n, AGet a n = Err (InvalidIndex n)
  end.
Proof.
  destruct (Z.leb_spec bitNum 0) as [Hle | Hgt].
  - unfold NewArray, createArray.
    replace (bitNum <=? 0) with true by (symmetry; apply Z.leb_le; lia).
    exact Hle.
  - destruct (NewArray_ok bitNum Hgt) as (a & E & Hok & _ & Hb & Hl & _).
    rewrite E. repeat (split; [solve [auto] |]).
    intros n. apply AGet_out_of_range. lia.
Qed.

(* ===================================================================== *)
(** * The distance as a count of bits *)
(* ===================================================================== *)

Lemma bit_at_cons (w : Z) (ws : list Z) (j : Z) :
  0 <= j ->
  bit_at (w :: ws) j = if j <? 64 then Z.testbit w j else bit_at ws (j - 64).
Proof.
  intros Hj. unfold bit_at.
  assert (Hq := Z.div_mod j 64 ltac:(lia)).
  assert (Hm := Z.mod_pos_bound j 64 ltac:(lia)).
  destruct (Z.ltb_spec j 64) as [Hlt | Hge].
  - replace (j / 64) with 0 by lia. replace (j mod 64) with j by lia. reflexivity.
  - replace ((j - 64) / 64) with (j / 64 - 1) by (Z.div_mod_to_equations; lia).
    replace ((j - 64) mod 64) with (j mod 64) by (Z.div_mod_to_equations; lia).
    replace (Z.to_nat (j / 64)) with (S (Z.to_nat (j / 64 - 1))) by lia.
    reflexivity.
Qed.

(** Two word sequences that agree from bit [B] on differ in at most [B]
    bits. *)
Lemma xor_popcount_bound (ws : list Z) :
  forall (vs : list Z) (B : Z),
    0 <= B -> (forall j, B <= j -> bit_at ws j = bit_at vs j) ->
    0 <= xor_popcount ws vs <= B.
Proof.
  induction ws as [| w ws IH]; intros vs B HB Hsame; [cbn; lia |].
  destruct vs as [| v vs]; [cbn; lia |].
  cbn [xor_popcount]. unfold bitcount.
  assert (Hp := popcount_nonneg 64 (Z.lxor w v)).
  destruct (Z.le_gt_cases 64 B) as [Hbig | Hsmall].
  - assert (Ht : 0 <= xor_popcount ws vs <= B - 64).
    { apply IH; [lia |]. intros j Hj.
      specialize (Hsame (j + 64) ltac:(lia)).
      rewrite !bit_at_cons in Hsame by lia.
      replace (j + 64 <? 64) with false in Hsame by (symmetry; apply Z.ltb_ge; lia).
      replace (j + 64 - 64) with j in Hsame by lia. exact Hsame. }
    change (Z.of_nat 64) with 64 in Hp. lia.
  - assert (Ht : 0 <= xor_popcount ws vs <= 0).
    { apply IH; [lia |]. intros j Hj.
      specialize (Hsame (j + 64) ltac:(lia)).
      rewrite !bit_at_cons in Hsame by lia.
      replace (j + 64 <? 64) with false in Hsame by (symmetry; apply Z.ltb_ge; lia).
      replace (j + 64 - 64) with j in Hsame by lia. exact Hsame. }
    rewrite (popcount_narrow (Z.to_nat B) 64).
    + assert (Hq := popcount_nonneg (Z.to_nat B) (Z.lxor w v)). lia.
    + lia.
    + intros i Hi. rewrite Z.lxor_spec.
      specialize (Hsame i ltac:(lia)).
      rewrite !bit_at_cons in Hsame by lia.
      replace (i <? 64) with true in Hsame
        by (symmetry; apply Z.ltb_lt; change (Z.of_nat 64) with 64 in Hi; lia).
      rewrite Hsame. apply xorb_nilpotent.
Qed.

(** A word with no bit counted is 0. *)
Lemma popcount_zero_inv (n : nat) :
  forall x, popcount n x = 0 ->
    forall i, 0 <= i < Z.of_nat n -> Z.testbit x i = false.
Proof.
  induction n as [| n IH]; intros x H i Hi; [lia |].
  cbn [popcount] in H.
  assert (Hp := popcount_nonneg n (Z.div2 x)).
  assert (Hodd : Z.odd x = false) by (destruct (Z.odd x); cbn [Z.b2z] in H; [lia | reflexivity]).
  rewrite Hodd in H. cbn [Z.b2z] in H.
  destruct (Z.eq_dec i 0) as [-> | Hne].
  - rewrite Z.bit0_odd. exact Hodd.
  - replace i with (Z.succ (i - 1)) by lia.
    rewrite <- Z.div2_bits by lia. rewrite <- Z.div2_div. apply IH; lia.
Qed.

Lemma bitcount_zero_iff (w v : Z) :
  0 <= w < 2 ^ 64 -> 0 <= v < 2 ^ 64 ->
  bitcount (Z.lxor w v) = 0 <-> w = v.
Proof.
  intros Hw Hv. unfold bitcount. split.
  - intros H. apply Z.lxor_eq. apply Z.bits_inj'. intros i Hi.
    rewrite Z.bits_0.
    destruct (Z.lt_ge_cases i 64) as [Hlt | Hge].
    + apply (popcount_zero_inv 64 _ H). change (Z.of_nat 64) with 64. lia.
    + rewrite Z.lxor_spec, !testbit_word_high by (auto; lia). reflexivity.
  - intros ->. rewrite Z.lxor_nilpotent. apply popcount_zero.
    intros i _. apply Z.bits_0.
Qed.

(** Two sequences of as many words differ in no bit exactly when they are
    the same. *)
Lemma xor_popcount_zero_iff (ws : list Z) :
  forall vs, length ws = length vs -> cells_ok ws -> cells_ok vs ->
    xor_popcount ws vs = 0 <-> ws = vs.
Proof.
  induction ws as [| w ws IH]; intros [| v vs] Hlen Hw Hv;
    cbn [length] in Hlen; try discriminate.
  - cbn. tauto.
  - cbn [xor_popcount]. inversion Hw as [| ? ? Hw1 Hw2]. inversion Hv as [| ? ? Hv1 Hv2].
    subst.
    assert (Hp := popcount_nonneg 64 (Z.lxor w v)).
    assert (Ht := xor_popcount_bound ws vs (64 * Z.of_nat (length ws)) ltac:(lia)).
    assert (Ht0 : 0 <= xor_popcount ws vs).
    { apply Ht. intros j Hj. rewrite !bit_at_beyond by lia. reflexivity. }
    specialize (IH vs ltac:(lia) Hw2 Hv2).
    pose proof (bitcount_zero_iff w v Hw1 Hv1) as Hb. unfold bitcount in *.
    split.
    + intros H. f_equal; [apply Hb | apply IH]; lia.
    + intros E. injection E as E1 E2.
      apply Hb in E1. apply IH in E2. lia.
Qed.

(** X5 (array.go, the five [HammingDistance] and [Get] methods): for a
    row in range and a vector of the array's width, the distance lies
    between 0 and the width, and it is 0 exactly when the row reads as
    that vector. *)
Theorem HammingDistance_bounds (a : Array) (n : Z) (v : Vector) :
  array_ok a -> vector_ok (ABitNum a) v -> 0 <= n < ALen a ->
  exists d x,
    AHammingDistance a n v = Val d /\ AGet a n = Val x /\
    0 <= d <= ABitNum a /\
    (d = 0 <-> same_vector x v).
Proof.
  intros Hok Hv Hn.
  destruct (AGet_words a n Hok Hn) as (x & EG & Hxb & Hxw).
  destruct (array_ok_storage a Hok) as (Hc & Hb0 & Hl0 & Hfit & Hcap).
  pose proof Hv as (Hvb & _ & [Hs1 Hs2] & Hvw & Hvl & _).
  assert (Hrow : n * ABitNum a + ABitNum a
                 <= 64 * Z.of_nat (length (cells (storage a)))) by nia.
  eexists. exists x. split; [apply AHammingDistance_words; assumption |].
  split; [exact EG |].
  fold (storage a) in *.
  assert (Htq := Z.div_mod (ABitNum a + 63) 64 ltac:(lia)).
  assert (Htm := Z.mod_pos_bound (ABitNum a + 63) 64 ltac:(lia)).
  split.
  - apply xor_popcount_bound; [lia |].
    intros j Hj. rewrite general_words_bits by (auto; lia).
    rewrite (vector_ok_visible_bits _ v j Hv) by lia.
    replace (j <? ABitNum a) with false by (symmetry; apply Z.ltb_ge; lia).
    reflexivity.
  - unfold same_vector. rewrite Hxw, Hxb, Hvb.
    rewrite xor_popcount_zero_iff.
    + tauto.
    + rewrite general_words_length by (auto; lia).
      apply Nat2Z.inj. rewrite visible_length by lia. lia.
    + apply general_words_cells_ok; auto; lia.
    + unfold visible. apply cells_ok_firstn. exact Hvw.
Qed.

Lemma HammingDistance_bounds_witness :
  exists d x,
    AHammingDistance example_array 1 example_vector = Val d /\
    AGet example_array 1 = Val x /\
    0 <= d <= ABitNum example_array /\
    (d = 0 <-> same_vector x example_vector).
Proof.
  apply (HammingDistance_bounds example_array 1 example_vector).
  - exact example_array_ok.
  - exact example_vector_ok.
  - cbn [ALen example_array generalArray.Len generalArray.len]. lia.
Defined.

(** X6 (array.go, the five [Resize] and [Get] methods): resizing to a
    length that is not above the current one leaves an array of that
    length and the same width, in which every row below the new length
    reads as before and every read from the new length on returns the
    invalid-index error. *)
Theorem Resize_shrink (a : Array) (n : Z) :
  array_ok a -> resize_fits a n -> 0 <= n <= ALen a ->
  exists a',
    Resize a n = Val a' /\ ALen a' = n /\ ABitNum a' = ABitNum a /\
    (forall i, 0 <= i < n ->
       exists x x',
         AGet a i = Val x /\ AGet a' i = Val x' /\ same_vector x' x) /\
    (forall i, n <= i -> AGet a' i = Err (InvalidIndex i)).
Proof.
  intros Hok Hfit Hn.
  destruct (Resize_resized a n Hok Hfit ltac:(lia))
    as (a' & ER & Hok' & Hl' & Hb' & _ & _ & Hbits).
  exists a'. repeat (split; [solve [auto] |]).
  split.
  - intros i Hi.
    destruct (AGet_words a i Hok ltac:(lia)) as (x & EG & Hxb & Hxw).
    destruct (AGet_words a' i Hok' ltac:(lia)) as (x' & EG' & Hxb' & Hxw').
    destruct (array_ok_storage a Hok) as (Hc & Hb0 & Hl0 & Hrows & Hcap).
    destruct (array_ok_storage a' Hok') as (Hc' & _ & _ & Hrows' & Hcap').
    exists x, x'. repeat (split; [solve [auto] |]).
    split; [congruence |].
    rewrite Hxw, Hxw'. fold (storage a) (storage a'). rewrite Hb'.
    rewrite Hb', Hl' in Hrows'.
    apply general_words_ext; auto; try lia; try nia.
    intros k Hk.
    destruct (Hbits k ltac:(nia)) as [E | [Hout _]]; [exact E | nia].
  - intros i Hi. apply AGet_out_of_range. lia.
Qed.

Lemma Resize_shrink_witness :
  exists a',
    Resize example_array 2 = Val a' /\ ALen a' = 2 /\
    ABitNum a' = ABitNum example_array /\
    (forall i, 0 <= i < 2 ->
       exists x x',
         AGet example_array i = Val x /\ AGet a' i = Val x' /\ same_vector x' x) /\
    (forall i, 2 <= i -> AGet a' i = Err (InvalidIndex i)).
Proof.
  apply (Resize_shrink example_array 2).
  - exact example_array_ok.
  - unfold resize_fits, storage, cap, example_array.
    cbn [as_general ABitNum generalArray.BitNum generalArray.data
         generalArray.bitNum cells length].
    split; lia.
  - cbn [ALen example_array generalArray.Len generalArray.len]. lia.
Defined.

(* ===================================================================== *)
(** * The projection and its sketch *)
(* ===================================================================== *)

Lemma add_draws_map (NormFloat64 : Z -> nat -> float64)
    (x : float32) (seed : Z) (accs : nat -> float32) (n : nat) :
  forall s,
    add_draws NormFloat64 x seed s (map accs (seq s n))
    = map (fun j => f32_add (accs j) (f32_mul x (to_float32 (NormFloat64 seed j))))
          (seq s n).
Proof.
  induction n as [| n IH]; intros s; cbn [seq map add_draws]; [reflexivity |].
  rewrite IH. reflexivity.
Qed.

Lemma fold_draws_map (calcStringHash : string -> Z)
    (NormFloat64 : Z -> nat -> float64) (v : FeatureVector) (n : nat) :
  forall accs : nat -> float32,
    fold_left
      (fun proj e =>
         let seed := calcStringHash (Dim e) in
         add_draws NormFloat64 (Value e) (int_wrap seed) 0 proj)
      v (map accs (seq 0 n))
    = map (fun j =>
             fold_left
               (fun acc e =>
                  f32_add acc
                    (f32_mul (Value e)
                       (to_float32
                          (NormFloat64 (int_wrap (calcStringHash (Dim e))) j))))
               v (accs j))
          (seq 0 n).
Proof.
  induction v as [| e v IH]; intros accs; cbn [fold_left]; [reflexivity |].
  cbv zeta. rewrite add_draws_map. rewrite IH. reflexivity.
Qed.

Lemma repeat_as_map {A : Type} (z : A) (n : nat) :
  forall s, repeat z n = map (fun _ : nat => z) (seq s n).
Proof.
  induction n as [| n IH]; intros s; cbn [seq map repeat]; [reflexivity |].
  rewrite <- IH. reflexivity.
Qed.

(** X8 (euclid_lsh.go, [randomProjection]): for a width that is not
    negative, the projection has one entry per bit, and entry [j] is the
    sum, accumulated in [float32] in the order of the features, of each
    value times draw [j] of the generator seeded with the hash of the
    feature's name; a negative width panics. *)
Theorem randomProjection_entries (calcStringHash : string -> Z)
    (NormFloat64 : Z -> nat -> float64) (v : FeatureVector) (hashNum : Z) :
  randomProjection calcStringHash NormFloat64 v hashNum
  = if hashNum <? 0 then Panic
    else Val (map (projection_at calcStringHash NormFloat64 v)
                  (seq 0 (Z.to_nat hashNum))).
Proof.
  unfold randomProjection. destruct (hashNum <? 0); [reflexivity |].
  f_equal. rewrite (repeat_as_map f32_zero (Z.to_nat hashNum) 0).
  rewrite fold_draws_map. reflexivity.
Qed.


(** [Set(i)] on a vector, for a bit of the vector: bit [i] is set and the
    others are as they were. *)
Lemma Vector_Set_bits (b : Z) (v : Vector) (i : Z) :
  vector_ok b v -> b <= 2 ^ 50 -> 0 <= i < b ->
  exists v',
    Vector_Set v i = Val v' /\ vector_ok b v' /\
    forall k, 0 <= k ->
      bit_at (cells (vdata v')) k = (k =? i) || bit_at (cells (vdata v)) k.
Proof.
  intros Hv Hb Hi.
  destruct (Vector_Set_ok b v i Hv Hb) as (v' & E & Hv').
  exists v'. split; [exact E |]. split; [exact Hv' |].
  pose proof Hv as (Hbn & Hb0 & [Hs1 Hs2] & Hw & Hlen & Hhigh).
  unfold Vector_Set in E. rewrite Hbn in E.
  replace ((0 <=? i) && (i <? b)) with true in E
    by (symmetry; apply andb_true_iff; rewrite Z.leb_le, Z.ltb_lt; lia).
  unfold wordBits in E. rewrite idiv_nonneg, imod_nonneg in E by lia.
  assert (Hq := Z.div_mod i 64 ltac:(lia)).
  assert (Hm := Z.mod_pos_bound i 64 ltac:(lia)).
  destruct (set_stored (vdata v) (i / 64) (i mod 64) 1 1)
    as (d' & Ed & _ & _ & _ & B); try lia; auto.
  { rewrite Hlen. Z.div_mod_to_equations. lia. }
  rewrite Ed in E. cbn [bind] in E. injection E as <-. cbn [vdata].
  intros k Hk. rewrite B by lia.
  destruct (Z.eqb_spec k i) as [-> | Hne]; cbn [orb].
  - cond_on. replace (i - (64 * (i / 64) + i mod 64)) with 0 by lia. reflexivity.
  - cond_off. reflexivity.
Qed.

(** The loop of [binarize] from position [i]: the bits from [i] on are
    set where the entries are positive, and the bits below are kept. *)
Lemma binarize_loop_bits (b : Z) (proj : list float32) :
  b <= 2 ^ 50 ->
  forall (i : Z) (v : Vector),
    vector_ok b v -> 0 <= i -> i + Z.of_nat (length proj) <= b ->
    exists v',
      binarize_loop proj i (Some v) = Val (Some v') /\ vector_ok b v' /\
      forall k, 0 <= k ->
        bit_at (cells (vdata v')) k
        = if (i <=? k) && (k <? i + Z.of_nat (length proj))
          then f32_lt f32_zero (nth (Z.to_nat (k - i)) proj f32_zero)
               || bit_at (cells (vdata v)) k
          else bit_at (cells (vdata v)) k.
Proof.
  intros Hb. induction proj as [| x rest IH]; intros i v Hv Hi Hfit.
  - exists v. split; [reflexivity |]. split; [exact Hv |].
    intros k Hk. cbn [length]. cond_off. reflexivity.
  - cbn [length] in Hfit. cbn [binarize_loop].
    destruct (f32_lt f32_zero x) eqn:Ex.
    + cbn [deref bind].
      destruct (Vector_Set_bits b v i Hv Hb ltac:(lia)) as (v1 & E1 & Hv1 & B1).
      rewrite E1. cbn [bind].
      destruct (IH (i + 1) v1 Hv1 ltac:(lia) ltac:(lia)) as (v' & E & Hv' & B).
      exists v'. split; [exact E |]. split; [exact Hv' |].
      intros k Hk. rewrite B by lia. rewrite B1 by lia. cbn [length].
      destruct (Z.eqb_spec k i) as [-> | Hne].
      * cond_off. cond_on. replace (i - i) with 0 by lia. cbn [Z.to_nat nth].
        rewrite Ex. reflexivity.
      * cbn [orb].
        destruct (Z.lt_ge_cases k i) as [Hlt | Hge].
        -- cond_off. cond_off. reflexivity.
        -- destruct (Z.lt_ge_cases k (i + Z.of_nat (S (length rest)))) as [H2 | H2].
           ++ cond_on. cond_on.
              replace (Z.to_nat (k - i)) with (S (Z.to_nat (k - (i + 1)))) by lia.
              reflexivity.
           ++ cond_off. cond_off. reflexivity.
    + cbn [bind].
      destruct (IH (i + 1) v Hv ltac:(lia) ltac:(lia)) as (v' & E & Hv' & B).
      exists v'. split; [exact E |]. split; [exact Hv' |].
      intros k Hk. rewrite B by lia. cbn [length].
      destruct (Z.eqb_spec k i) as [-> | Hne].
      * cond_off. cond_on. replace (i - i) with 0 by lia. cbn [Z.to_nat nth].
        rewrite Ex. reflexivity.
      * destruct (Z.lt_ge_cases k i) as [Hlt | Hge].
        -- cond_off. cond_off. reflexivity.
        -- destruct (Z.lt_ge_cases k (i + Z.of_nat (S (length rest)))) as [H2 | H2].
           ++ cond_on. cond_on.
              replace (Z.to_nat (k - i)) with (S (Z.to_nat (k - (i + 1)))) by lia.
              reflexivity.
           ++ cond_off. cond_off. reflexivity.
Qed.

(** X9 (euclid_lsh.go, [binarize]): for a projection with at least one
    entry, the result is a vector with one bit per entry, and bit [i] is
    set exactly when entry [i] is above 0 (so not for a NaN, a zero or a
    negative entry); no bit is set from the width on. *)
Theorem binarize_bits (proj : list float32) :
  0 < Z.of_nat (length proj) <= 2 ^ 50 ->
  exists x,
    binarize proj = Val (Some x) /\
    vector_ok (Z.of_nat (length proj)) x /\
    forall i, 0 <= i < Z.of_nat (length proj) ->
      bit_at (cells (vdata x)) i
      = f32_lt f32_zero (nth (Z.to_nat i) proj f32_zero).
Proof.
  intros Hlen. unfold binarize.
  destruct (NewVector_ok (Z.of_nat (length proj)) Hlen) as (v0 & E0 & Hv0).
  rewrite E0. cbn [bind].
  destruct (binarize_loop_bits (Z.of_nat (length proj)) proj ltac:(lia) 0 v0 Hv0
              ltac:(lia) ltac:(lia)) as (x & E & Hx & B).
  exists x. split; [exact E |]. split; [exact Hx |].
  intros i Hi. rewrite B by lia. cond_on.
  rewrite Z.sub_0_r.
  rewrite NewVector_val in E0 by lia. injection E0 as <-. cbn [vdata cells].
  rewrite bit_at_repeat. apply orb_false_r.
Qed.

Lemma binarize_bits_witness :
  exists x,
    binarize [f32_two; f32_zero] = Val (Some x) /\
    vector_ok (Z.of_nat (length [f32_two; f32_zero])) x /\
    forall i, 0 <= i < Z.of_nat (length [f32_two; f32_zero]) ->
      bit_at (cells (vdata x)) i
      = f32_lt f32_zero (nth (Z.to_nat i) [f32_two; f32_zero] f32_zero).
Proof.
  apply (binarize_bits [f32_two; f32_zero]). cbn [length Z.of_nat]. lia.
Defined.

(** X10 (euclid_lsh.go, [cosineLSH] with [randomProjection] and
    [binarize]): for a positive width the sketch of a feature vector is a
    vector of that width, and its bit [j] is set exactly when entry [j] of
    the projection is above 0. *)
Theorem cosineLSH_sketch (calcStringHash : string -> Z)
    (NormFloat64 : Z -> nat -> float64) (v : FeatureVector) (hashNum : Z) :
  0 < hashNum <= 2 ^ 50 ->
  exists x,
    cosineLSH calcStringHash NormFloat64 v hashNum = Val (Some x) /\
    vector_ok hashNum x /\
    forall j, 0 <= j < hashNum ->
      bit_at (cells (vdata x)) j
      = f32_lt f32_zero
          (projection_at calcStringHash NormFloat64 v (Z.to_nat j)).
Proof.
  intros Hh. unfold cosineLSH, randomProjection.
  replace (hashNum <? 0) with false by (symmetry; apply Z.ltb_ge; lia).
  rewrite (repeat_as_map f32_zero (Z.to_nat hashNum) 0), fold_draws_map.
  cbn [bind]. fold (projection_at calcStringHash NormFloat64 v).
  set (proj := map (projection_at calcStringHash NormFloat64 v)
                   (seq 0 (Z.to_nat hashNum))).
  assert (Hlen : Z.of_nat (length proj) = hashNum).
  { unfold proj. rewrite length_map, length_seq. lia. }
  unfold binarize. rewrite Hlen.
  destruct (NewVector_ok hashNum Hh) as (v0 & E0 & Hv0).
  rewrite E0. cbn [bind].
  destruct (binarize_loop_bits hashNum proj ltac:(lia) 0 v0 Hv0
              ltac:(lia) ltac:(lia)) as (x & E & Hx & B).
  exists x. split; [exact E |]. split; [exact Hx |].
  intros j Hj. rewrite B by lia. cond_on. rewrite Z.sub_0_r.
  rewrite NewVector_val in E0 by lia. injection E0 as <-. cbn [vdata cells].
  rewrite bit_at_repeat, orb_false_r. f_equal. unfold proj.
  rewrite (nth_indep _ f32_zero
             (projection_at calcStringHash NormFloat64 v 0))
    by (rewrite length_map, length_seq; lia).
  rewrite map_nth. rewrite seq_nth by lia. reflexivity.
Qed.

Lemma cosineLSH_sketch_witness :
  exists x,
    cosineLSH length_hash unit_draws example_fv1 8 = Val (Some x) /\
    vector_ok 8 x /\
    forall j, 0 <= j < 8 ->
      bit_at (cells (vdata x)) j
      = f32_lt f32_zero (projection_at length_hash unit_draws example_fv1 (Z.to_nat j)).
Proof.
  apply (cosineLSH_sketch length_hash unit_draws example_fv1 8). lia.
Defined.

(* ===================================================================== *)
(** * Rows of the index *)
(* ===================================================================== *)

(** [Resize] keeps the rows that remain. *)
Lemma Resize_keeps_rows (a a' : Array) (n i : Z) :
  array_ok a -> resize_fits a n -> 0 <= n -> Resize a n = Val a' ->
  0 <= i < n -> i < ALen a ->
  exists x x',
    AGet a i = Val x /\ AGet a' i = Val x' /\ same_vector x' x.
Proof.
  intros Hok Hfit Hn ER Hi Hil.
  destruct (Resize_resized a n Hok Hfit Hn)
    as (a'' & ER' & Hok' & Hl' & Hb' & _ & _ & Hbits).
  rewrite ER in ER'. injection ER' as <-.
  destruct (AGet_words a i Hok ltac:(lia)) as (x & EG & Hxb & Hxw).
  destruct (AGet_words a' i Hok' ltac:(lia)) as (x' & EG' & Hxb' & Hxw').
  destruct (array_ok_storage a Hok) as (Hc & Hb0 & Hl0 & Hrows & Hcap).
  destruct (array_ok_storage a' Hok') as (Hc' & _ & _ & Hrows' & Hcap').
  exists x, x'. repeat (split; [solve [auto] |]).
  split; [congruence |].
  rewrite Hxw, Hxw'. fold (storage a) (storage a'). rewrite Hb'.
  rewrite Hb', Hl' in Hrows'.
  apply general_words_ext; auto; try lia; try nia.
  intros k Hk.
  destruct (Hbits k ltac:(nia)) as [E | [Hout _]]; [exact E | nia].
Qed.

(** [extend(n)] beyond the rows keeps the rows and the norms there
    were. *)
Lemma extend_keeps (e e1 : EuclidLSH) (a a1 : Array) (n : Z) :
  index_ok e -> len (norms e) < n -> row_fits e n ->
  extend n e = Val (tt, e1) -> lshs e = Some a -> lshs e1 = Some a1 ->
  forall i, 0 <= i < len (norms e) ->
    (exists x x1, AGet a i = Val x /\ AGet a1 i = Val x1 /\ same_vector x1 x) /\
    nth (Z.to_nat i) (cells (norms e1)) f32_zero
    = nth (Z.to_nat i) (cells (norms e)) f32_zero.
Proof.
  intros (a0 & Ha0 & Hok & Hpw & [Hs1 Hs2] & Hlen & Hcap & Hb & Hnc) Hn
         (a2 & Ha2 & Hfit) EE Ha Ha1 i Hi.
  rewrite Ha in Ha0, Ha2. injection Ha0 as <-. injection Ha2 as <-.
  unfold len in *.
  destruct (array_ok_storage a Hok) as (_ & Hb0 & Hl0 & _ & _).
  assert (Hn1 : n <= 2 ^ 40) by nia.
  assert (Hrf : resize_fits a n) by (split; lia).
  destruct (Resize_resized a n Hok Hrf ltac:(lia)) as (a' & ER & _).
  unfold extend in EE. rewrite Ha in EE. cbn [deref bind] in EE.
  replace (ALen a <? n) with true in EE by (symmetry; apply Z.ltb_lt; lia).
  rewrite ER in EE. cbn [bind] in EE.
  assert (Hrows : exists x x1,
             AGet a i = Val x /\ AGet a' i = Val x1 /\ same_vector x1 x).
  { apply (Resize_keeps_rows a a' n i); auto; lia. }
  destruct (Z.geb_spec (cap (norms e)) n) as [Hge | Hlt].
  - rewrite slice_range_val in EE by lia. cbn [bind skipn Z.to_nat] in EE.
    injection EE as <-. cbn [lshs norms cells] in *. injection Ha1 as <-.
    split; [exact Hrows | reflexivity].
  - rewrite imul_small in EE by lia. rewrite maxInt_max in EE.
    rewrite make_cap_val in EE by lia. cbn [bind] in EE.
    injection EE as <-. cbn [lshs norms cells copy slen] in *. injection Ha1 as <-.
    split; [exact Hrows |].
    unfold cap in *.
    rewrite overwrite_nth
      by (rewrite ?repeat_length, ?length_firstn; cbn [Nat.add]; lia).
    rewrite length_firstn. cbn [Nat.add Nat.leb andb].
    replace (Z.to_nat i <? Nat.min (Z.to_nat (Z.min n (slen (norms e))))
                                   (length (cells (norms e))))%nat
      with true by (symmetry; apply Nat.ltb_lt; lia).
    rewrite Nat.sub_0_r. rewrite nth_firstn.
    replace (Z.to_nat i <? Z.to_nat (Z.min n (slen (norms e))))%nat
      with true by (symmetry; apply Nat.ltb_lt; lia).
    reflexivity.
Qed.

(** The first statement of [SetRow] keeps the rows and the norms there
    were. *)
Lemma SetRow_extend_keeps (e e1 : EuclidLSH) (a a1 : Array) (id : ID) :
  index_ok e -> 1 <= id -> row_fits e id ->
  SetRow_extend id e = Val (tt, e1) -> lshs e = Some a -> lshs e1 = Some a1 ->
  forall i, 0 <= i < len (norms e) ->
    (exists x x1, AGet a i = Val x /\ AGet a1 i = Val x1 /\ same_vector x1 x) /\
    nth (Z.to_nat i) (cells (norms e1)) f32_zero
    = nth (Z.to_nat i) (cells (norms e)) f32_zero.
Proof.
  intros He Hid Hfit EE Ha Ha1 i Hi. unfold SetRow_extend in EE.
  destruct (Z.ltb_spec (len (norms e)) id) as [Hlt | Hge].
  - exact (extend_keeps e e1 a a1 id He Hlt Hfit EE Ha Ha1 i Hi).
  - injection EE as <-. rewrite Ha in Ha1. injection Ha1 as <-.
    split; [| reflexivity].
    destruct He as (a0 & Ha0 & Hok & _ & _ & Hlen & _).
    rewrite Ha in Ha0. injection Ha0 as <-.
    destruct (AGet_words a i Hok ltac:(lia)) as (x & EG & _).
    exists x, x. repeat split; auto.
Qed.

(** [SetRow] with an identifier from 1 on: the row holds the sketch of
    the vector, its norm holds the norm of the vector, and the other rows
    and norms are as they were. *)
Lemma SetRow_spec (calcStringHash : string -> Z)
    (NormFloat64 : Z -> nat -> float64)
    (e : EuclidLSH) (id : ID) (v : FeatureVector) :
  index_ok e -> 1 <= id -> row_fits e id ->
  exists a e' a' x xr,
    lshs e = Some a /\
    SetRow calcStringHash NormFloat64 id v e = Val (tt, e') /\
    lshs e' = Some a' /\ ABitNum a' = ABitNum a /\
    ALen a' = Z.max id (len (norms e)) /\ len (norms e') = ALen a' /\
    cosineLSH calcStringHash NormFloat64 v (ABitNum a) = Val (Some x) /\
    AGet a' (id - 1) = Val xr /\ same_vector xr x /\
    index f32_zero (norms e') (id - 1) = Val (l2Norm v) /\
    forall j, 1 <= j <= len (norms e) -> j <> id ->
      (exists y y',
         AGet a (j - 1) = Val y /\ AGet a' (j - 1) = Val y' /\ same_vector y' y) /\
      index f32_zero (norms e') (j - 1) = index f32_zero (norms e) (j - 1).
Proof.
  intros He Hid Hfit.
  destruct (SetRow_extend_ok e id He Hid Hfit)
    as (a & e1 & a1 & Ha & E1 & He1 & Ha1 & Hb1 & Hn1 & Hl1).
  destruct (SetRow_Set_ok calcStringHash NormFloat64 e1 a1 id v He1 Ha1)
    as (x & a2 & Ex & Hx & ES & E2 & He2 & Hl2 & Hb2); [lia |].
  pose proof He1 as (a1' & Ha1' & Hok1 & _).
  rewrite Ha1 in Ha1'. injection Ha1' as <-.
  destruct (ASet_Get_same a1 (id - 1) x Hok1 Hx ltac:(lia))
    as (a2' & xr & ES' & _ & _ & _ & EG & Hxr).
  rewrite ES in ES'. injection ES' as <-.
  pose proof He as (a0 & Ha0 & _ & _ & [Hs1 Hs2] & Hlen & _).
  rewrite Ha in Ha0. injection Ha0 as <-.
  pose proof He1 as (a1' & Ha1' & _ & _ & [Ht1 Ht2] & Hlen1 & _).
  rewrite Ha1 in Ha1'. injection Ha1' as <-.
  unfold len in *.
  exists a. eexists. exists a2, x, xr.
  split; [exact Ha |].
  split.
  { unfold SetRow. rewrite E1. cbn [bind snd]. rewrite E2. cbn [bind].
    cbn [lshs norms]. rewrite store_in by lia. cbn [bind]. reflexivity. }
  cbn [lshs norms slen cells].
  split; [reflexivity |].
  split; [congruence |].
  split; [lia |].
  split; [lia |].
  split; [rewrite <- Hb1; exact Ex |].
  split; [exact EG |].
  split; [exact Hxr |].
  split.
  { unfold index. cbn [slen cells].
    replace ((0 <=? id - 1) && (id - 1 <? slen (norms e1))) with true
      by (symmetry; apply andb_true_iff; rewrite Z.leb_le, Z.ltb_lt; lia).
    unfold cap in *.
    rewrite overwrite_nth by (cbn [length]; lia).
    cbn [length].
    replace ((Z.to_nat (id - 1) <=? Z.to_nat (id - 1))%nat
             && (Z.to_nat (id - 1) <? Z.to_nat (id - 1) + 1)%nat) with true
      by (symmetry; apply andb_true_iff; rewrite Nat.leb_le, Nat.ltb_lt; lia).
    rewrite Nat.sub_diag. reflexivity. }
  intros j Hj Hne.
  destruct (SetRow_extend_keeps e e1 a a1 id He Hid Hfit E1 Ha Ha1 (j - 1)
              ltac:(unfold len; lia)) as [(y & y1 & Ey & Ey1 & Hy1) Hnorm].
  destruct (ASet_Get_other a1 a2 (id - 1) (j - 1) x Hok1 Hx ltac:(lia) ES
              ltac:(lia) ltac:(lia)) as (y1' & y2 & Ey1' & Ey2 & Hy2).
  rewrite Ey1 in Ey1'. injection Ey1' as <-.
  split.
  - exists y, y2. repeat (split; [solve [auto] |]).
    destruct Hy1 as [P1 P2]. destruct Hy2 as [Q1 Q2].
    split; congruence.
  - unfold index. cbn [slen cells].
    replace ((0 <=? j - 1) && (j - 1 <? slen (norms e1))) with true
      by (symmetry; apply andb_true_iff; rewrite Z.leb_le, Z.ltb_lt; lia).
    replace ((0 <=? j - 1) && (j - 1 <? slen (norms e))) with true
      by (symmetry; apply andb_true_iff; rewrite Z.leb_le, Z.ltb_lt; lia).
    f_equal. unfold cap in *.
    rewrite overwrite_nth by (cbn [length]; lia).
    cbn [length].
    replace ((Z.to_nat (id - 1) <=? Z.to_nat (j - 1))%nat
             && (Z.to_nat (j - 1) <? Z.to_nat (id - 1) + 1)%nat) with false
      by (symmetry; apply andb_false_iff; rewrite Nat.leb_gt, Nat.ltb_ge; lia).
    exact Hnorm.
Qed.

Lemma example_row_fits (id : ID) :
  0 <= id <= 2 ^ 30 -> row_fits example_index id.
Proof.
  intros H. eexists. split; [vm_compute; reflexivity |].
  cbn [ABitNum smallBitsArray.BitNum smallBitsArray.ga generalArray.BitNum
       generalArray.bitNum]. lia.
Defined.

(** X11 (euclid_lsh.go, [SetRow] with [extend] and [cosineLSH]; array.go,
    [Set] and [Get]): on a well-formed index, [SetRow(id, v)] with an
    identifier from 1 on returns; afterwards the array and the norms both
    have [max(id, len)] elements, row [id - 1] reads as the sketch of [v]
    and norm [id - 1] is the norm of [v]. *)
Theorem SetRow_stores_row (calcStringHash : string -> Z)
    (NormFloat64 : Z -> nat -> float64)
    (e : EuclidLSH) (id : ID) (v : FeatureVector) :
  index_ok e -> 1 <= id -> row_fits e id ->
  exists a e' a' x xr,
    lshs e = Some a /\
    SetRow calcStringHash NormFloat64 id v e = Val (tt, e') /\
    lshs e' = Some a' /\ ABitNum a' = ABitNum a /\
    ALen a' = Z.max id (len (norms e)) /\ len (norms e') = ALen a' /\
    cosineLSH calcStringHash NormFloat64 v (ABitNum a) = Val (Some x) /\
    AGet a' (id - 1) = Val xr /\ same_vector xr x /\
    index f32_zero (norms e') (id - 1) = Val (l2Norm v).
Proof.
  intros He Hid Hfit.
  destruct (SetRow_spec calcStringHash NormFloat64 e id v He Hid Hfit)
    as (a & e' & a' & x & xr & H1 & H2 & H3 & H4 & H5 & H6 & H7 & H8 & H9 & H10 & _).
  exists a, e', a', x, xr. auto 12.
Qed.

Lemma SetRow_stores_row_witness :
  exists a e' a' x xr,
    lshs example_index = Some a /\
    SetRow length_hash unit_draws 5 example_fv1 example_index = Val (tt, e') /\
    lshs e' = Some a' /\ ABitNum a' = ABitNum a /\
    ALen a' = Z.max 5 (len (norms example_index)) /\ len (norms e') = ALen a' /\
    cosineLSH length_hash unit_draws example_fv1 (ABitNum a) = Val (Some x) /\
    AGet a' (5 - 1) = Val xr /\ same_vector xr x /\
    index f32_zero (norms e') (5 - 1) = Val (l2Norm example_fv1).
Proof.
  apply (SetRow_stores_row length_hash unit_draws example_index 5 example_fv1).
  - exact example_index_ok.
  - lia.
  - apply example_row_fits. lia.
Defined.

(** X12 (euclid_lsh.go, [SetRow] with [extend]; array.go, [Resize], [Set]
    and [Get]): [SetRow(id, v)] changes no other row: every row that
    existed, other than [id], reads afterwards as before, in the array
    and in the norms. *)
Theorem SetRow_keeps_other_rows (calcStringHash : string -> Z)
    (NormFloat64 : Z -> nat -> float64)
    (e : EuclidLSH) (id : ID) (v : FeatureVector) :
  index_ok e -> 1 <= id -> row_fits e id ->
  exists a e' a',
    lshs e = Some a /\
    SetRow calcStringHash NormFloat64 id v e = Val (tt, e') /\
    lshs e' = Some a' /\
    forall j, 1 <= j <= len (norms e) -> j <> id ->
      (exists y y',
         AGet a (j - 1) = Val y /\ AGet a' (j - 1) = Val y' /\ same_vector y' y) /\
      index f32_zero (norms e') (j - 1) = index f32_zero (norms e) (j - 1).
Proof.
  intros He Hid Hfit.
  destruct (SetRow_spec calcStringHash NormFloat64 e id v He Hid Hfit)
    as (a & e' & a' & x & xr & H1 & H2 & H3 & _ & _ & _ & _ & _ & _ & _ & H11).
  exists a, e', a'. auto.
Qed.

Lemma SetRow_keeps_other_rows_witness :
  exists a e' a',
    lshs example_index = Some a /\
    SetRow length_hash unit_draws 2 example_fv1 example_index = Val (tt, e') /\
    lshs e' = Some a' /\
    forall j, 1 <= j <= len (norms example_index) -> j <> 2 ->
      (exists y y',
         AGet a (j - 1) = Val y /\ AGet a' (j - 1) = Val y' /\ same_vector y' y) /\
      index f32_zero (norms e') (j - 1)
      = index f32_zero (norms example_index) (j - 1).
Proof.
  apply (SetRow_keeps_other_rows length_hash unit_draws example_index 2 example_fv1).
  - exact example_index_ok.
  - lia.
  - apply example_row_fits. lia.
Defined.

(** X13 (euclid_lsh.go, [SetRow]; array.go, [Set]): [SetRow] drops the
    error that [Set] returns; on a well-formed index and for an
    identifier from 1 on there is none to drop: after the first statement
    [id - 1] is a row of the array, the sketch has the width of the
    array, and [Set] returns no error. *)
Theorem SetRow_Set_returns_no_error (calcStringHash : string -> Z)
    (NormFloat64 : Z -> nat -> float64)
    (e : EuclidLSH) (id : ID) (v : FeatureVector) :
  index_ok e -> 1 <= id -> row_fits e id ->
  exists e1 a1 x a2,
    SetRow_extend id e = Val (tt, e1) /\ lshs e1 = Some a1 /\
    0 <= id - 1 < ALen a1 /\
    cosineLSH calcStringHash NormFloat64 v (ABitNum a1) = Val (Some x) /\
    vbitNum x = ABitNum a1 /\
    ASet a1 (id - 1) x = Val a2 /\
    SetRow_Set calcStringHash NormFloat64 id v e1 = Val (Val a2).
Proof.
  intros He Hid Hfit.
  destruct (SetRow_extend_ok e id He Hid Hfit)
    as (a & e1 & a1 & Ha & E1 & He1 & Ha1 & Hb1 & Hn1 & Hl1).
  destruct (SetRow_Set_ok calcStringHash NormFloat64 e1 a1 id v He1 Ha1)
    as (x & a2 & Ex & Hx & ES & E2 & _); [lia |].
  exists e1, a1, x, a2.
  repeat (split; [solve [auto | lia | apply Hx] |]). exact E2.
Qed.

Lemma SetRow_Set_returns_no_error_witness :
  exists e1 a1 x a2,
    SetRow_extend 5 example_index = Val (tt, e1) /\ lshs e1 = Some a1 /\
    0 <= 5 - 1 < ALen a1 /\
    cosineLSH length_hash unit_draws example_fv1 (ABitNum a1) = Val (Some x) /\
    vbitNum x = ABitNum a1 /\
    ASet a1 (5 - 1) x = Val a2 /\
    SetRow_Set length_hash unit_draws 5 example_fv1 e1 = Val (Val a2).
Proof.
  apply (SetRow_Set_returns_no_error length_hash unit_draws example_index 5
           example_fv1).
  - exact example_index_ok.
  - lia.
  - apply example_row_fits. lia.
Defined.

(** X14 (euclid_lsh.go, [SetRow]): identifiers start at 1.  On a
    well-formed index [SetRow] with an identifier of 0 or below panics:
    no row is added, [Set] rejects the index [id - 1], the error is
    dropped, and the assignment to [norms[id-1]] is out of range. *)
Theorem SetRow_nonpositive_id_panics (calcStringHash : string -> Z)
    (NormFloat64 : Z -> nat -> float64)
    (e : EuclidLSH) (id : ID) (v : FeatureVector) :
  index_ok e -> id <= 0 ->
  SetRow calcStringHash NormFloat64 id v e = Panic.
Proof.
  intros (a & Ha & Hok & _ & [Hs1 Hs2] & Hlen & _ & Hb & _) Hid.
  destruct (array_ok_storage a Hok) as (_ & Hb0 & _).
  destruct (cosineLSH_ok calcStringHash NormFloat64 v (ABitNum a))
    as (x & Ex & Hx); [lia |].
  unfold SetRow, SetRow_extend, len.
  replace (slen (norms e) <? id) with false by (symmetry; apply Z.ltb_ge; lia).
  cbn [bind snd]. unfold SetRow_Set. rewrite Ha. cbn [deref bind].
  rewrite Ex. cbn [deref bind].
  rewrite ASet_out_of_range by (try apply Hx; lia).
  cbn [bind]. unfold store.
  replace (0 <=? id - 1) with false by (symmetry; apply Z.leb_gt; lia).
  reflexivity.
Qed.

Lemma SetRow_nonpositive_id_panics_witness :
  SetRow length_hash unit_draws 0 example_fv1 example_index = Panic.
Proof.
  apply (SetRow_nonpositive_id_panics length_hash unit_draws example_index 0
           example_fv1).
  - exact example_index_ok.
  - lia.
Defined.

(* ===================================================================== *)
(** * Saving and loading the index *)
(* ===================================================================== *)

(** Two arrays of the same shape whose buffers show the same words have
    the same rows. *)
Lemma same_storage_rows (a a' : Array) (i : Z) :
  array_ok a -> array_ok a' ->
  ABitNum a' = ABitNum a -> ALen a' = ALen a ->
  visible (storage a') = visible (storage a) ->
  0 <= i < ALen a ->
  exists x x',
    AGet a i = Val x /\ AGet a' i = Val x' /\ same_vector x' x.
Proof.
  intros Hok Hok' Hb' Hl' Hvis Hi.
  destruct (AGet_words a i Hok Hi) as (x & HG & Hxb & Hvx).
  destruct (AGet_words a' i Hok' ltac:(lia)) as (x' & HG' & Hxb' & Hvx').
  exists x, x'. split; [exact HG |]. split; [exact HG' |].
  split; [congruence |].
  rewrite Hvx, Hvx', Hb'. fold (storage a) (storage a').
  destruct (array_ok_general a Hok) as (Hp & _).
  destruct (array_ok_general a' Hok') as (Hp' & _).
  fold (storage a) in Hp. fold (storage a') in Hp'.
  destruct (array_ok_storage a Hok) as (Hc & Hb0 & Hl0 & Hfit & Hcap).
  destruct (array_ok_storage a' Hok') as (Hc' & _ & _ & Hfit' & Hcap').
  rewrite Hl', Hb' in Hfit'.
  apply general_words_ext; auto; try lia; try nia.
  intros k Hk.
  apply visible_same_bits; auto.
  - split; [| unfold cap; lia]. apply Hp.
  - split; [| unfold cap; lia]. apply Hp'.
  - nia.
Qed.

(** X15 (euclid_lsh.go, [save], [loadEuclidLSHFormatV1] and
    [loadEuclidLSH]; array.go, [Save], [LoadArray], [createArray]): with a
    codec that round-trips the two records, what [save] writes for a
    well-formed index is read back by [loadEuclidLSHFormatV1] as a
    well-formed index with the same width, as many rows, the same norms
    and the same rows, the reader left at the byte after the index.
    [save] writes no version byte of its own, and [loadEuclidLSH] reads
    the same index once the byte 1 is put in front. *)
Theorem save_load_roundtrip (encode : arrayData -> list Byte.byte)
    (decode : decoder)
    (encode_lsh : euclidLSHMsgpack -> list Byte.byte)
    (decode_lsh : list Byte.byte -> option (euclidLSHMsgpack * list Byte.byte))
    (e : EuclidLSH) :
  index_ok e ->
  index_roundtrip encode decode encode_lsh decode_lsh e ->
  exists bytes e' a a',
    save encode encode_lsh e [] = Val bytes /\
    (forall rest,
       loadEuclidLSHFormatV1 decode decode_lsh (bytes ++ rest) = Val (e', rest) /\
       loadEuclidLSH decode decode_lsh (Byte.x01 :: bytes ++ rest)
       = Val (e', rest)) /\
    index_ok e' /\ lshs e = Some a /\ lshs e' = Some a' /\
    ABitNum a' = ABitNum a /\ ALen a' = ALen a /\
    visible (norms e') = visible (norms e) /\
    forall i, 0 <= i < ALen a ->
      exists x x',
        AGet a i = Val x /\ AGet a' i = Val x' /\ same_vector x' x.
Proof.
  intros He Hrt.
  pose proof He as (a & Ha & Hok & Hpw & [Hs1 Hs2] & Hlen & Hcap & Hb & Hnc).
  pose proof Hrt as [Hn Hc]. specialize (Hc a Ha).
  destruct (LoadArray_saved encode decode a [] Hok Hpw Hc)
    as (a' & EL0 & Hok' & Hpw' & Hb' & Hl' & Hst').
  destruct (array_ok_general a Hok) as (Hp & _).
  fold (storage a) in Hp.
  destruct (exact_copy_ok (storage a)) as (_ & _ & Hvis & Hcp);
    [apply Hp | apply Hp |].
  destruct (exact_copy_len (norms e) Hs1) as [Hsl Hcl].
  exists ((encode_lsh (norms_record e) ++ [Byte.x01]) ++ encode (record_of a)),
         (mkEuclidLSH (Some a') (exact_copy (norms e))), a, a'.
  split.
  { unfold save. rewrite Ha. cbn [deref bind app].
    rewrite ASave_record. reflexivity. }
  assert (Hload : forall rest,
             loadEuclidLSHFormatV1 decode decode_lsh
               (((encode_lsh (norms_record e) ++ [Byte.x01])
                 ++ encode (record_of a)) ++ rest)
             = Val (mkEuclidLSH (Some a') (exact_copy (norms e)), rest)).
  { intros rest. unfold loadEuclidLSHFormatV1.
    rewrite <- !app_assoc. rewrite Hn. cbn [app bind Norms norms_record].
    destruct (LoadArray_saved encode decode a rest Hok Hpw Hc)
      as (a'' & EL & _).
    rewrite EL. cbn [bind fst snd].
    assert (a'' = a') as ->; [| reflexivity].
    clear - EL EL0 Hc.
    cbn [LoadArray] in EL, EL0.
    change (Byte.eqb Byte.x01 Byte.x01) with true in EL, EL0.
    cbv iota in EL, EL0.
    unfold loadArrayFormatV1 in EL, EL0. rewrite Hc in EL, EL0.
    congruence. }
  split.
  { intros rest. split; [apply Hload |].
    cbn [loadEuclidLSH]. change (Byte.eqb Byte.x01 Byte.x01) with true.
    cbv iota. apply Hload. }
  split.
  { exists a'. cbn [lshs norms]. unfold slice_ok, len in *.
    rewrite Hst', Hsl, Hcl, Hb', Hl'.
    repeat (split; [solve [auto | lia] |]). lia. }
  cbn [lshs norms].
  repeat (split; [solve [auto] |]).
  split.
  { unfold exact_copy. unfold visible at 1. cbn [slen cells].
    rewrite Nat2Z.id. apply firstn_all. }
  intros i Hi.
  apply same_storage_rows; auto. rewrite Hst'. exact Hvis.
Qed.

Lemma example_index_roundtrip :
  index_roundtrip encode_nothing
    (decode_const
       (mkArrayData (exact_copy (mkslice [255] 1)) 8 3))
    encode_no_norms
    (decode_norms
       (mkEuclidLSHMsgpack 1 (exact_copy (norms example_index))))
    example_index.
Proof.
  split.
  - intros rest. reflexivity.
  - intros a Ha. vm_compute in Ha. injection Ha as <-.
    intros rest. reflexivity.
Defined.

Lemma save_load_roundtrip_witness :
  exists bytes e' a a',
    save encode_nothing encode_no_norms example_index [] = Val bytes /\
    (forall rest,
       loadEuclidLSHFormatV1
         (decode_const (mkArrayData (exact_copy (mkslice [255] 1)) 8 3))
         (decode_norms (mkEuclidLSHMsgpack 1 (exact_copy (norms example_index))))
         (bytes ++ rest) = Val (e', rest) /\
       loadEuclidLSH
         (decode_const (mkArrayData (exact_copy (mkslice [255] 1)) 8 3))
         (decode_norms (mkEuclidLSHMsgpack 1 (exact_copy (norms example_index))))
         (Byte.x01 :: bytes ++ rest) = Val (e', rest)) /\
    index_ok e' /\ lshs example_index = Some a /\ lshs e' = Some a' /\
    ABitNum a' = ABitNum a /\ ALen a' = ALen a /\
    visible (norms e') = visible (norms example_index) /\
    forall i, 0 <= i < ALen a ->
      exists x x',
        AGet a i = Val x /\ AGet a' i = Val x' /\ same_vector x' x.
Proof.
  apply (save_load_roundtrip encode_nothing
           (decode_const (mkArrayData (exact_copy (mkslice [255] 1)) 8 3))
           encode_no_norms
           (decode_norms (mkEuclidLSHMsgpack 1 (exact_copy (norms example_index))))
           example_index).
  - exact example_index_ok.
  - exact example_index_roundtrip.
Defined.

(* ===================================================================== *)
(** * The vector a read returns *)
(* ===================================================================== *)

(** The slice of the vector [Get] returns. *)
Lemma AGet_shape (a : Array) (n : Z) (x : Vector) :
  array_ok a -> 0 <= n < ALen a -> AGet a n = Val x ->
  slice_ok (vdata x) /\ words_ok (vdata x) /\
  slen (vdata x) = (ABitNum a + 63) / 64.
Proof.
  intros Hok Hn HG. destruct a as [g | s | w | p | m].
  - destruct g as [d b len].
    cbn [array_ok ABitNum ALen AGet generalArray.BitNum generalArray.Len
         generalArray.data generalArray.bitNum generalArray.len] in *.
    rewrite general_Get_words in HG by assumption. injection HG as <-.
    destruct (packed_positions d b len n Hok Hn) as (_ & _ & Hl0 & Hr & Hs & Hcap).
    pose proof Hok as (_ & Hw & Hb0 & _ & _).
    assert (Htq := Z.div_mod (b + 63) 64 ltac:(lia)).
    assert (Htm := Z.mod_pos_bound (b + 63) 64 ltac:(lia)).
    unfold slice_ok, words_ok, cap in *. cbn [vdata slen cells].
    rewrite general_words_length by (auto; lia).
    repeat split; try lia.
    apply general_words_cells_ok; auto; lia.
  - destruct s as [[d b len]].
    unfold smallBitsArray.Len, smallBitsArray.BitNum, generalArray.Len,
      generalArray.BitNum in *.
    cbn [array_ok ABitNum ALen AGet smallBitsArray.BitNum smallBitsArray.ga
         generalArray.BitNum generalArray.data generalArray.bitNum
         generalArray.len] in *.
    destruct Hok as [Hok Hb].
    destruct (smallBits_get_general d b len n Hok Hb Hn) as (w & Hw & Hget & _).
    assert (Hb0 : 0 < b) by apply Hok.
    unfold smallBitsArray.Get in HG.
    cbn [smallBitsArray.ga generalArray.bitNum] in HG.
    rewrite Hget in HG. cbn [bind] in HG.
    rewrite NewVector_val in HG by lia.
    replace ((b + 63) / 64) with 1 in * by (Z.div_mod_to_equations; lia).
    cbn [bind deref vdata vbitNum] in HG.
    change (repeat 0 (Z.to_nat 1)) with [0] in HG.
    rewrite store_in in HG by (cbn; lia). cbn [bind] in HG. injection HG as <-.
    unfold slice_ok, words_ok, cap. cbn.
    repeat split; try lia. apply cells_ok_one. exact Hw.
  - destruct w as [d].
    cbn [array_ok ABitNum ALen AGet wordArray.BitNum wordArray.data] in *.
    unfold wordArray.Len, wordArray.BitNum, Go.len, wordBits in *.
    cbn [wordArray.data] in *.
    destruct Hok as [[[Hs1 Hs2] Hs3] Hw].
    unfold wordArray.Get, wordArray.Len, Go.len in HG. cbn [wordArray.data] in HG.
    rewrite in_range_test in HG by lia.
    rewrite slice_range_val in HG by lia. cbn [bind] in HG. injection HG as <-.
    unfold slice_ok, words_ok, cap in *. cbn [vdata slen cells].
    rewrite length_skipn. change ((64 + 63) / 64) with 1.
    repeat split; try lia. apply cells_ok_skipn. exact Hw.
  - destruct p as [d b len].
    cbn [array_ok ABitNum ALen AGet smallPowerOfTwoBitsArray.BitNum
         smallPowerOfTwoBitsArray.Len smallPowerOfTwoBitsArray.data
         smallPowerOfTwoBitsArray.bitNum smallPowerOfTwoBitsArray.len] in *.
    unfold smallPowerOfTwoBitsArray.Len, smallPowerOfTwoBitsArray.BitNum in *.
    cbn [smallPowerOfTwoBitsArray.len smallPowerOfTwoBitsArray.bitNum] in *.
    destruct Hok as [Hok Hb].
    destruct (pow2_get_general d b len n Hok Hb Hn) as (Hl & Hget & _).
    cbv zeta in Hget.
    assert (Hb64 : 0 < b < 64) by (cbn [In] in Hb; lia).
    unfold smallPowerOfTwoBitsArray.Get, smallPowerOfTwoBitsArray.Len in HG.
    cbn [smallPowerOfTwoBitsArray.len smallPowerOfTwoBitsArray.bitNum] in HG.
    rewrite in_range_test in HG by lia.
    rewrite NewVector_val in HG by lia. cbn [bind] in HG.
    rewrite Hget in HG. cbn [bind deref vdata vbitNum] in HG.
    replace ((b + 63) / 64) with 1 in * by (Z.div_mod_to_equations; lia).
    change (repeat 0 (Z.to_nat 1)) with [0] in HG.
    rewrite store_in in HG by (cbn; lia). cbn [bind] in HG. injection HG as <-.
    unfold slice_ok, words_ok, cap. cbn.
    repeat split; try lia. apply cells_ok_one. apply land_word.
    apply shiftr_word; [| apply Z.mod_pos_bound; lia].
    apply cells_ok_nth. apply Hok.
  - destruct (multi_Get_visible m n Hok Hn) as (Hnw & Hfit & _).
    destruct m as [d b].
    cbn [array_ok ABitNum ALen AGet multipleOfWordBitsArray.BitNum
         multipleOfWordBitsArray.data multipleOfWordBitsArray.bitNum] in *.
    unfold multipleOfWordBitsArray.BitNum in *.
    cbn [multipleOfWordBitsArray.bitNum] in *.
    destruct Hok as ([[Hs1 Hs2] Hs3] & Hw & Hb & Hbm).
    assert (Hq := Z.div_mod b 64 ltac:(lia)).
    unfold multipleOfWordBitsArray.Get in HG.
    rewrite in_range_test in HG by exact Hn.
    cbn [multipleOfWordBitsArray.data multipleOfWordBitsArray.bitNum] in HG.
    unfold cap in *.
    assert (Hb2 : b <= 2 ^ 60) by nia.
    rewrite NewVector_val in HG by lia. cbn [bind] in HG.
    unfold wordBits in HG. rewrite (idiv_nonneg b 64) in HG by lia.
    rewrite imul_small in HG by nia.
    rewrite slice_from_val in HG by nia. cbn [bind deref vdata vbitNum] in HG.
    injection HG as <-.
    replace ((b + 63) / 64) with (b / 64) in * by (Z.div_mod_to_equations; lia).
    unfold slice_ok, words_ok, cap. cbn [vdata copy slen cells].
    rewrite overwrite_length
      by (rewrite repeat_length, length_firstn; cbn [Nat.add]; lia).
    rewrite repeat_length.
    repeat split; try lia.
    apply cells_ok_overwrite; [apply cells_ok_repeat |].
    apply cells_ok_firstn, cells_ok_skipn. exact Hw.
Qed.

(** [Get] returns a well-formed vector of the array's width. *)
Lemma AGet_vector_ok (a : Array) (n : Z) (x : Vector) :
  array_ok a -> 0 <= n < ALen a -> AGet a n = Val x ->
  vector_ok (ABitNum a) x.
Proof.
  intros Hok Hn HG.
  destruct (AGet_shape a n x Hok Hn HG) as (Hs & Hw & Hlen).
  destruct (AGet_words a n Hok Hn) as (x' & HG' & Hxb & Hxw).
  rewrite HG in HG'. injection HG' as <-.
  destruct (array_ok_storage a Hok) as (Hc & Hb0 & Hl0 & Hfit & Hcap).
  unfold vector_ok. repeat (split; [solve [auto] |]).
  intros k Hk i Hi Hi0.
  destruct (Z.lt_ge_cases i 64) as [Hlt | Hge].
  - rewrite <- (visible_nth 0 (vdata x)) by lia.
    rewrite <- bit_at_word by lia. rewrite Hxw.
    rewrite general_words_bits by (auto; try lia; fold (storage a); nia).
    replace (64 * k + i <? ABitNum a) with false
      by (symmetry; apply Z.ltb_ge; lia).
    reflexivity.
  - apply testbit_word_high; [apply cells_ok_nth; exact Hw | lia].
Qed.

(* ===================================================================== *)
(** * Queries *)
(* ===================================================================== *)

(** The first loop of [neighborRowFromHash]: the rows with their
    scores. *)
Lemma score_rows_map (math_Cos : float64 -> float64)
    (e : EuclidLSH) (a : Array) (x : Vector) (qn : float32) :
  index_ok e -> lshs e = Some a -> vector_ok (ABitNum a) x ->
  forall (n : nat) (i : Z),
    0 <= i -> i + Z.of_nat n <= len (norms e) ->
    score_rows math_Cos (Some x) qn n i e
    = Val (map (fun j => mkIDist (Z.of_nat j + 1)
                           (score_at math_Cos a (norms e) x qn (Z.of_nat j)))
               (seq (Z.to_nat i) n)).
Proof.
  intros (a0 & Ha0 & Hok & _ & [Hs1 Hs2] & Hlen & _) Ha Hx.
  rewrite Ha in Ha0. injection Ha0 as <-. unfold len in *.
  induction n as [| n IH]; intros i Hi Hfit; [reflexivity |].
  cbn [score_rows seq map]. unfold row_score.
  rewrite Ha. cbn [deref bind].
  rewrite AHammingDistance_words by (auto; lia). cbn [hDist_of bind].
  rewrite index_in by lia. cbn [bind].
  rewrite IH by lia. cbn [bind].
  replace (Z.to_nat (i + 1)) with (S (Z.to_nat i)) by lia.
  f_equal. f_equal. f_equal; [lia |].
  unfold score_at, theta_at, hamming, row_words, storage.
  rewrite Z2Nat.id by lia. reflexivity.
Qed.

(** [neighborRowFromHash] with a well-formed sketch of the width of the
    array. *)
Lemma neighborRowFromHash_val (math_Cos : float64 -> float64)
    (sort_Sort : (IDist -> IDist -> bool) -> list IDist -> list IDist)
    (e : EuclidLSH) (a : Array) (x : Vector) (qn : float32) (size : Z) :
  index_ok e -> lshs e = Some a -> vector_ok (ABitNum a) x ->
  let ranked := sort_Sort sortByDist_Less (scored math_Cos a (norms e) x qn) in
  neighborRowFromHash math_Cos sort_Sort (Some x) qn size e
  = if Z.min size (Z.of_nat (length ranked)) <? 0 then Panic
    else Val (map (estimate qn)
                (firstn (Z.to_nat (Z.min size (Z.of_nat (length ranked)))) ranked),
              e).
Proof.
  intros He Ha Hx ranked. unfold neighborRowFromHash.
  pose proof He as (a0 & _ & _ & _ & [Hs1 _] & _).
  rewrite (score_rows_map math_Cos e a x qn He Ha Hx) by (unfold len in *; lia).
  cbn [bind]. change (Z.to_nat 0) with 0%nat. fold (scored math_Cos a (norms e) x qn).
  fold ranked. rewrite minInt_min. reflexivity.
Qed.

(** The sketch and the norm of a query the index can answer. *)
Lemma query_of_ok (calcStringHash : string -> Z)
    (NormFloat64 : Z -> nat -> float64)
    (q : query) (e : EuclidLSH) :
  index_ok e -> query_ok q e ->
  exists a x qn,
    lshs e = Some a /\
    query_of calcStringHash NormFloat64 q a (norms e) x qn /\
    vector_ok (ABitNum a) x.
Proof.
  intros (a & Ha & Hok & _ & [Hs1 Hs2] & Hlen & _ & Hb & _) Hq.
  destruct (array_ok_storage a Hok) as (_ & Hb0 & _).
  unfold len in *. destruct q as [id | v]; cbn [query_ok query_of] in *.
  - destruct (AGet_words a (id - 1) Hok ltac:(unfold len in *; lia))
      as (x & EG & _).
    exists a, x, (nth (Z.to_nat (id - 1)) (cells (norms e)) f32_zero).
    split; [exact Ha |]. split.
    + split; [exact EG |]. apply index_in. unfold len in *. lia.
    + apply (AGet_vector_ok a (id - 1) x Hok); [unfold len in *; lia | exact EG].
  - destruct (cosineLSH_ok calcStringHash NormFloat64 v (ABitNum a))
      as (x & Ex & Hx); [lia |].
    exists a, x, (l2Norm v). auto.
Qed.

(** A query, as a function of the index. *)
Lemma run_query_val (math_Cos : float64 -> float64)
    (calcStringHash : string -> Z) (NormFloat64 : Z -> nat -> float64)
    (sort_Sort : (IDist -> IDist -> bool) -> list IDist -> list IDist)
    (q : query) (size : Z) (e : EuclidLSH) (a : Array) (x : Vector) (qn : float32) :
  index_ok e -> lshs e = Some a ->
  query_of calcStringHash NormFloat64 q a (norms e) x qn ->
  vector_ok (ABitNum a) x ->
  run_query math_Cos calcStringHash NormFloat64 sort_Sort q size e
  = neighborRowFromHash math_Cos sort_Sort (Some x) qn size e.
Proof.
  intros He Ha Hq Hx. destruct q as [id | v]; cbn [run_query query_of] in *.
  - destruct Hq as [EG En]. unfold NeighborRowFromID.
    rewrite Ha. cbn [deref bind]. rewrite EG, En. reflexivity.
  - destruct Hq as [Ex ->]. unfold NeighborRowFromFV.
    rewrite Ha. cbn [deref bind]. rewrite Ex. reflexivity.
Qed.

(** X16 (euclid_lsh.go, [NeighborRowFromID], [NeighborRowFromFV] and
    [neighborRowFromHash]; array.go, [Get] and [HammingDistance]): on a
    well-formed index, a query by the identifier of a stored row or by a
    feature vector, with a size that is not negative, returns and leaves
    the index as it was.  The result is the first [min(size, len)]
    elements of what [sort.Sort] makes of the rows with their scores
    [norm_i * (norm_i - 2 * queryNorm * cos(hamming_i * pi / hashNum))],
    each reported with [sqrt(queryNorm^2 + score)], where [hamming_i] is
    the number of bits in which row [i] differs from the sketch of the
    query. *)
Theorem query_result (math_Cos : float64 -> float64)
    (calcStringHash : string -> Z) (NormFloat64 : Z -> nat -> float64)
    (sort_Sort : (IDist -> IDist -> bool) -> list IDist -> list IDist)
    (q : query) (size : Z) (e : EuclidLSH) :
  index_ok e -> query_ok q e -> 0 <= size ->
  exists a x qn,
    lshs e = Some a /\
    query_of calcStringHash NormFloat64 q a (norms e) x qn /\
    let ranked := sort_Sort sortByDist_Less (scored math_Cos a (norms e) x qn) in
    run_query math_Cos calcStringHash NormFloat64 sort_Sort q size e
    = Val (map (estimate qn)
             (firstn (Z.to_nat (Z.min size (Z.of_nat (length ranked)))) ranked),
           e).
Proof.
  intros He Hq Hsize.
  destruct (query_of_ok calcStringHash NormFloat64 q e He Hq)
    as (a & x & qn & Ha & Hqo & Hx).
  exists a, x, qn. split; [exact Ha |]. split; [exact Hqo |].
  intros ranked.
  rewrite (run_query_val math_Cos calcStringHash NormFloat64 sort_Sort q size e
             a x qn He Ha Hqo Hx).
  rewrite (neighborRowFromHash_val math_Cos sort_Sort e a x qn size He Ha Hx).
  fold ranked.
  replace (Z.min size (Z.of_nat (length ranked)) <? 0) with false
    by (symmetry; apply Z.ltb_ge; lia).
  reflexivity.
Qed.

Lemma query_result_witness :
  exists a x qn,
    lshs example_index = Some a /\
    query_of length_hash unit_draws (ByID 1) a (norms example_index) x qn /\
    let ranked := sort_by sortByDist_Less
                    (scored unit_cos a (norms example_index) x qn) in
    run_query unit_cos length_hash unit_draws sort_by (ByID 1) 2 example_index
    = Val (map (estimate qn)
             (firstn (Z.to_nat (Z.min 2 (Z.of_nat (length ranked)))) ranked),
           example_index).
Proof.
  apply (query_result unit_cos length_hash unit_draws sort_by (ByID 1) 2
           example_index).
  - exact example_index_ok.
  - cbn [query_ok]. vm_compute. split; discriminate.
  - lia.
Defined.

Lemma insert_by_permutation (less : IDist -> IDist -> bool) (x : IDist)
    (l : list IDist) :
  Permutation (x :: l) (insert_by less x l).
Proof.
  induction l as [| y l IH]; cbn [insert_by]; [apply Permutation_refl |].
  destruct (less x y); [apply Permutation_refl |].
  apply Permutation_trans with (y :: x :: l); [apply perm_swap |].
  apply perm_skip. exact IH.
Qed.

(** The sort of the examples rearranges its input. *)
Lemma sort_by_permutation (less : IDist -> IDist -> bool) (l : list IDist) :
  Permutation l (sort_by less l).
Proof.
  unfold sort_by. induction l as [| x l IH]; cbn [fold_right];
    [apply Permutation_refl |].
  apply Permutation_trans with (x :: fold_right (insert_by less) [] l).
  - apply perm_skip. exact IH.
  - apply insert_by_permutation.
Qed.

Lemma NoDup_firstn_of {A : Type} (k : nat) (l : list A) :
  NoDup l -> NoDup (firstn k l).
Proof.
  intros H. rewrite <- (firstn_skipn k l) in H.
  apply NoDup_app_remove_r in H. exact H.
Qed.

Lemma In_firstn_of {A : Type} (k : nat) (l : list A) (x : A) :
  In x (firstn k l) -> In x l.
Proof.
  intros H. rewrite <- (firstn_skipn k l). apply in_or_app. left. exact H.
Qed.

(** The identifiers of the scored rows: 1 to the number of rows. *)
Lemma scored_ids (math_Cos : float64 -> float64) (a : Array)
    (ns : slice float32) (x : Vector) (qn : float32) :
  map IDist_ID (scored math_Cos a ns x qn)
  = map (fun i => Z.of_nat i + 1) (seq 0 (Z.to_nat (slen ns))).
Proof.
  unfold scored. rewrite map_map. reflexivity.
Qed.

Lemma row_ids_NoDup (n : nat) :
  forall s, NoDup (map (fun i => Z.of_nat i + 1) (seq s n)).
Proof.
  induction n as [| n IH]; intros s; cbn [seq map]; constructor.
  - intros Hin. apply in_map_iff in Hin. destruct Hin as (i & Hi & Hs).
    apply in_seq in Hs. lia.
  - apply IH.
Qed.

(** X17 (euclid_lsh.go, [NeighborRowFromID], [NeighborRowFromFV] and
    [neighborRowFromHash]): with a [sort.Sort] that rearranges the slice
    it is given, a query of size [size >= 0] on a well-formed index
    returns [min(size, len)] results, no two of them with the same
    identifier, and every identifier is one of the rows, from 1 to
    [len]. *)
Theorem query_rows (math_Cos : float64 -> float64)
    (calcStringHash : string -> Z) (NormFloat64 : Z -> nat -> float64)
    (sort_Sort : (IDist -> IDist -> bool) -> list IDist -> list IDist)
    (q : query) (size : Z) (e : EuclidLSH) :
  index_ok e -> query_ok q e -> 0 <= size ->
  (forall less l, Permutation l (sort_Sort less l)) ->
  exists res,
    run_query math_Cos calcStringHash NormFloat64 sort_Sort q size e
    = Val (res, e) /\
    Z.of_nat (length res) = Z.min size (len (norms e)) /\
    NoDup (map IDist_ID res) /\
    forall d, In d res -> 1 <= IDist_ID d <= len (norms e).
Proof.
  intros He Hq Hsize Hperm.
  destruct (query_of_ok calcStringHash NormFloat64 q e He Hq)
    as (a & x & qn & Ha & Hqo & Hx).
  pose proof He as (a0 & _ & _ & _ & [Hs1 _] & _).
  rewrite (run_query_val math_Cos calcStringHash NormFloat64 sort_Sort q size e
             a x qn He Ha Hqo Hx).
  rewrite (neighborRowFromHash_val math_Cos sort_Sort e a x qn size He Ha Hx).
  cbv zeta.
  set (rows := scored math_Cos a (norms e) x qn).
  set (ranked := sort_Sort sortByDist_Less rows).
  assert (Hp : Permutation rows ranked) by apply Hperm.
  assert (Hrows : length rows = Z.to_nat (slen (norms e))).
  { unfold rows, scored. rewrite length_map, length_seq. reflexivity. }
  assert (Hlen : length ranked = Z.to_nat (slen (norms e))).
  { rewrite <- (Permutation_length Hp). exact Hrows. }
  assert (Hids : NoDup (map IDist_ID ranked)).
  { apply (Permutation_NoDup (Permutation_map IDist_ID Hp)).
    unfold rows. rewrite scored_ids.
    apply row_ids_NoDup. }
  replace (Z.min size (Z.of_nat (length ranked)) <? 0) with false
    by (symmetry; apply Z.ltb_ge; lia).
  eexists. split; [reflexivity |].
  unfold len in *.
  assert (Hmapid : forall l, map IDist_ID (map (estimate qn) l) = map IDist_ID l).
  { intros l. rewrite map_map. reflexivity. }
  split; [| split].
  - rewrite length_map, length_firstn. lia.
  - rewrite Hmapid. rewrite <- firstn_map. apply NoDup_firstn_of. exact Hids.
  - intros d Hd. apply in_map_iff in Hd. destruct Hd as (d0 & <- & Hd0).
    cbn [estimate IDist_ID].
    apply In_firstn_of in Hd0.
    apply (Permutation_in _ (Permutation_sym Hp)) in Hd0.
    unfold rows, scored in Hd0. apply in_map_iff in Hd0.
    destruct Hd0 as (i & <- & Hi). apply in_seq in Hi. cbn [IDist_ID]. lia.
Qed.

Lemma query_rows_witness :
  exists res,
    run_query unit_cos length_hash unit_draws sort_by (ByFV example_fv3) 2
      example_index
    = Val (res, example_index) /\
    Z.of_nat (length res) = Z.min 2 (len (norms example_index)) /\
    NoDup (map IDist_ID res) /\
    forall d, In d res -> 1 <= IDist_ID d <= len (norms example_index).
Proof.
  apply (query_rows unit_cos length_hash unit_draws sort_by (ByFV example_fv3) 2
           example_index).
  - exact example_index_ok.
  - exact I.
  - lia.
  - intros less l. apply sort_by_permutation.
Defined.

(** X18 (euclid_lsh.go, [NeighborRowFromID], [NeighborRowFromFV] and
    [neighborRowFromHash]): on a well-formed index a query with a
    negative size panics (the result slice is made with a negative
    length), and a query by an identifier that is not one of the rows, 1
    to [len], panics ([norms[id-1]] is out of range). *)
Theorem query_panics (math_Cos : float64 -> float64)
    (calcStringHash : string -> Z) (NormFloat64 : Z -> nat -> float64)
    (sort_Sort : (IDist -> IDist -> bool) -> list IDist -> list IDist)
    (q : query) (size : Z) (e : EuclidLSH) :
  index_ok e ->
  (query_ok q e /\ size < 0) \/
  (exists id, q = ByID id /\ (id < 1 \/ len (norms e) < id)) ->
  run_query math_Cos calcStringHash NormFloat64 sort_Sort q size e = Panic.
Proof.
  intros He [[Hq Hsize] | (id & -> & Hid)].
  - destruct (query_of_ok calcStringHash NormFloat64 q e He Hq)
      as (a & x & qn & Ha & Hqo & Hx).
    rewrite (run_query_val math_Cos calcStringHash NormFloat64 sort_Sort q size e
               a x qn He Ha Hqo Hx).
    rewrite (neighborRowFromHash_val math_Cos sort_Sort e a x qn size He Ha Hx).
    cbv zeta.
    replace (Z.min size _ <? 0) with true by (symmetry; apply Z.ltb_lt; lia).
    reflexivity.
  - destruct He as (a & Ha & Hok & _ & [Hs1 Hs2] & Hlen & _).
    unfold len in *. cbn [run_query]. unfold NeighborRowFromID.
    rewrite Ha. cbn [deref bind].
    rewrite AGet_out_of_range by lia.
    unfold index.
    replace ((0 <=? id - 1) && (id - 1 <? slen (norms e))) with false
      by (symmetry; apply andb_false_iff; rewrite Z.leb_gt, Z.ltb_ge; lia).
    reflexivity.
Qed.

Lemma query_panics_witness :
  run_query unit_cos length_hash unit_draws sort_by (ByID 4) 2 example_index
  = Panic.
Proof.
  apply (query_panics unit_cos length_hash unit_draws sort_by (ByID 4) 2
           example_index).
  - exact example_index_ok.
  - right. exists 4. split; [reflexivity |]. right. vm_compute. reflexivity.
Defined.

(* ===================================================================== *)
(** * The order of the scores *)
(* ===================================================================== *)

(** [<] on floats that are not NaN is the order of their keys. *)
Lemma f32_lt_key (x y : float32) :
  is_nan x = false -> is_nan y = false ->
  (f32_lt x y = true <-> key_lt (float_key x) (float_key y)).
Proof.
  intros Hx Hy. unfold f32_lt, SFltb, SFcompare.
  destruct x as [sx | sx | | sx mx ex]; try discriminate;
    destruct y as [sy | sy | | sy my ey]; try discriminate;
    try destruct sx; try destruct sy; cbn [float_key key_lt];
    try (split; [discriminate | lia]);
    try (split; [lia | reflexivity]).
  - destruct (Z.compare_spec ex ey) as [E | E | E].
    + rewrite Pos.compare_cont_spec. cbn [Pos.switch_Eq].
      destruct (Pos.compare_spec mx my) as [M | M | M]; cbn [CompOpp];
        (split; [try discriminate; lia | try reflexivity; lia]).
    + split; [discriminate | lia].
    + split; [lia | reflexivity].
  - destruct (Z.compare_spec ex ey) as [E | E | E].
    + rewrite Pos.compare_cont_spec. cbn [Pos.switch_Eq].
      destruct (Pos.compare_spec mx my) as [M | M | M];
        (split; [try discriminate; lia | try reflexivity; lia]).
    + split; [lia | reflexivity].
    + split; [discriminate | lia].
Qed.

Lemma key_lt_asym (k1 k2 : Z * Z * Z) : key_lt k1 k2 -> ~ key_lt k2 k1.
Proof.
  destruct k1 as [[a1 b1] c1], k2 as [[a2 b2] c2]. cbn [key_lt]. lia.
Qed.

Lemma key_lt_negtrans (k1 k2 k3 : Z * Z * Z) :
  ~ key_lt k1 k2 -> ~ key_lt k2 k3 -> ~ key_lt k1 k3.
Proof.
  destruct k1 as [[a1 b1] c1], k2 as [[a2 b2] c2], k3 as [[a3 b3] c3].
  cbn [key_lt]. lia.
Qed.

(** Where no score is a NaN, [Less] of [sortByDist] is an ordering. *)
Lemma scores_ordering (l : list IDist) :
  scores_ordered l -> ordering_on sortByDist_Less l.
Proof.
  intros H. unfold scores_ordered in H. rewrite Forall_forall in H.
  unfold ordering_on, sortByDist_Less. split.
  - intros a b Ha Hb Hab.
    apply (f32_lt_key _ _ (H a Ha) (H b Hb)) in Hab.
    apply not_true_is_false. intros Hba.
    apply (f32_lt_key _ _ (H b Hb) (H a Ha)) in Hba.
    exact (key_lt_asym _ _ Hab Hba).
  - intros a b c Ha Hb Hc Hab Hbc.
    apply not_true_is_false. intros Hac.
    apply (f32_lt_key _ _ (H a Ha) (H c Hc)) in Hac.
    apply (key_lt_negtrans _ _ _
             (fun K => eq_true_false_abs _
                         (proj2 (f32_lt_key _ _ (H a Ha) (H b Hb)) K) Hab)
             (fun K => eq_true_false_abs _
                         (proj2 (f32_lt_key _ _ (H b Hb) (H c Hc)) K) Hbc)).
    exact Hac.
Qed.

Lemma StronglySorted_app_inv {A : Type} (R : A -> A -> Prop) (l1 l2 : list A) :
  StronglySorted R (l1 ++ l2) ->
  StronglySorted R l1 /\ forall p r, In p l1 -> In r l2 -> R p r.
Proof.
  induction l1 as [| x l1 IH]; cbn [app]; intros H.
  - split; [constructor | intros p r []].
  - apply StronglySorted_inv in H. destruct H as [Hs Hx].
    destruct (IH Hs) as [H1 H2]. rewrite Forall_forall in Hx. split.
    + constructor; [exact H1 |]. apply Forall_forall.
      intros y Hy. apply Hx. apply in_or_app. left. exact Hy.
    + intros p r [<- | Hp] Hr.
      * apply Hx. apply in_or_app. right. exact Hr.
      * apply H2; assumption.
Qed.

(** X19 (euclid_lsh.go, [NeighborRowFromID], [NeighborRowFromFV],
    [neighborRowFromHash] and [sortByDist]): with a [sort.Sort] that meets
    its contract, and where no score is a NaN, a query of size
    [size >= 0] on a well-formed index reports the [min(size, len)] rows
    of smallest score, in ascending order of score: the rows reported and
    the rows left out are together the rows of the index, the rows
    reported are in order, and no row left out scores below a row
    reported. *)
Theorem query_ranks_nearest (math_Cos : float64 -> float64)
    (calcStringHash : string -> Z) (NormFloat64 : Z -> nat -> float64)
    (sort_Sort : (IDist -> IDist -> bool) -> list IDist -> list IDist)
    (q : query) (size : Z) (e : EuclidLSH) :
  index_ok e -> query_ok q e -> 0 <= size -> sort_contract sort_Sort ->
  (forall a x qn,
     lshs e = Some a ->
     query_of calcStringHash NormFloat64 q a (norms e) x qn ->
     scores_ordered (scored math_Cos a (norms e) x qn)) ->
  exists a x qn best rest,
    lshs e = Some a /\
    query_of calcStringHash NormFloat64 q a (norms e) x qn /\
    run_query math_Cos calcStringHash NormFloat64 sort_Sort q size e
    = Val (map (estimate qn) best, e) /\
    Permutation (scored math_Cos a (norms e) x qn) (best ++ rest) /\
    Z.of_nat (length best) = Z.min size (len (norms e)) /\
    ascending best /\
    forall p r, In p best -> In r rest -> sortByDist_Less r p = false.
Proof.
  intros He Hq Hsize Hsort Hnan.
  destruct (query_of_ok calcStringHash NormFloat64 q e He Hq)
    as (a & x & qn & Ha & Hqo & Hx).
  pose proof He as (a0 & _ & _ & _ & [Hs1 _] & _).
  specialize (Hnan a x qn Ha Hqo).
  set (rows := scored math_Cos a (norms e) x qn) in *.
  destruct (Hsort sortByDist_Less rows) as [Hp Hsorted].
  specialize (Hsorted (scores_ordering rows Hnan)).
  set (ranked := sort_Sort sortByDist_Less rows) in *.
  assert (Hlen : length ranked = Z.to_nat (slen (norms e))).
  { rewrite <- (Permutation_length Hp). unfold rows, scored.
    rewrite length_map, length_seq. reflexivity. }
  set (k := Z.to_nat (Z.min size (Z.of_nat (length ranked)))).
  exists a, x, qn, (firstn k ranked), (skipn k ranked).
  split; [exact Ha |]. split; [exact Hqo |].
  split.
  { rewrite (run_query_val math_Cos calcStringHash NormFloat64 sort_Sort q size e
               a x qn He Ha Hqo Hx).
    rewrite (neighborRowFromHash_val math_Cos sort_Sort e a x qn size He Ha Hx).
    cbv zeta. fold rows. fold ranked.
    replace (Z.min size (Z.of_nat (length ranked)) <? 0) with false
      by (symmetry; apply Z.ltb_ge; lia).
    reflexivity. }
  split; [rewrite firstn_skipn; exact Hp |].
  split; [unfold len, k in *; rewrite length_firstn; lia |].
  rewrite <- (firstn_skipn k ranked) in Hsorted.
  apply StronglySorted_app_inv in Hsorted. exact Hsorted.
Qed.

Lemma insert_by_sorted (less : IDist -> IDist -> bool) (L : list IDist) :
  ordering_on less L ->
  forall (x : IDist) (l : list IDist),
    In x L -> (forall y, In y l -> In y L) ->
    StronglySorted (fun p r => less r p = false) l ->
    StronglySorted (fun p r => less r p = false) (insert_by less x l).
Proof.
  intros [Hasym Htrans] x l Hx. induction l as [| y l IH]; intros Hl Hs.
  - cbn [insert_by]. constructor; constructor.
  - apply StronglySorted_inv in Hs. destruct Hs as [Hs Hy].
    rewrite Forall_forall in Hy. cbn [insert_by].
    assert (HyL : In y L) by (apply Hl; left; reflexivity).
    destruct (less x y) eqn:Exy.
    + constructor.
      * constructor; [exact Hs | apply Forall_forall; exact Hy].
      * apply Forall_forall. intros r [<- | Hr].
        -- apply Hasym; assumption.
        -- apply (Htrans r y x); auto.
           apply Hl. right. exact Hr.
    + constructor.
      * apply IH; [| exact Hs]. intros z Hz. apply Hl. right. exact Hz.
      * apply Forall_forall. intros r Hr.
        apply (Permutation_in _ (Permutation_sym (insert_by_permutation less x l)))
          in Hr.
        destruct Hr as [<- | Hr]; [exact Exy | apply Hy; exact Hr].
Qed.

(** The sort of the examples meets the contract of [sort.Sort]. *)
Lemma sort_by_contract : sort_contract sort_by.
Proof.
  intros less l. split; [apply sort_by_permutation |].
  intros Hord.
  assert (H : forall l', (forall y, In y l' -> In y l) ->
                         StronglySorted (fun p r => less r p = false)
                                        (sort_by less l')).
  { induction l' as [| x l' IH]; intros Hsub.
    - constructor.
    - unfold sort_by. cbn [fold_right]. fold (sort_by less l').
      apply (insert_by_sorted less l Hord).
      + apply Hsub. left. reflexivity.
      + intros y Hy.
        apply (Permutation_in _ (Permutation_sym (sort_by_permutation less l')))
          in Hy.
        apply Hsub. right. exact Hy.
      + apply IH. intros y Hy. apply Hsub. right. exact Hy. }
  apply H. auto.
Defined.

Lemma query_ranks_nearest_witness :
  exists a x qn best rest,
    lshs example_index = Some a /\
    query_of length_hash unit_draws (ByID 1) a (norms example_index) x qn /\
    run_query unit_cos length_hash unit_draws sort_by (ByID 1) 2 example_index
    = Val (map (estimate qn) best, example_index) /\
    Permutation (scored unit_cos a (norms example_index) x qn) (best ++ rest) /\
    Z.of_nat (length best) = Z.min 2 (len (norms example_index)) /\
    ascending best /\
    forall p r, In p best -> In r rest -> sortByDist_Less r p = false.
Proof.
  apply (query_ranks_nearest unit_cos length_hash unit_draws sort_by (ByID 1) 2
           example_index).
  - exact example_index_ok.
  - cbn [query_ok]. vm_compute. split; discriminate.
  - lia.
  - exact sort_by_contract.
  - intros a x qn Ha [HG Hn].
    vm_compute in Ha. injection Ha as <-.
    vm_compute in HG. injection HG as <-.
    vm_compute in Hn. injection Hn as <-.
    vm_compute. repeat constructor.
Defined.

(* ===================================================================== *)
(** * Indexes a program reaches, and indexes it cannot use *)
(* ===================================================================== *)

(** X20 (euclid_lsh.go, [NewEuclidLSH], [SetRow], [extend], [save],
    [loadEuclidLSHFormatV1] and the queries): an index reached from
    [NewEuclidLSH] with a positive width, by calls of [SetRow] with
    identifiers from 1 on and by loading what [save] wrote, has a sketch
    array with as many rows as there are norms; on it [SetRow] with an
    identifier from 1 on returns an index of the same kind, and a query
    by a stored identifier or by a feature vector, with a size that is
    not negative, returns and leaves the index as it was.  None of them
    panics. *)
Theorem reachable_index_safe (math_Cos : float64 -> float64)
    (calcStringHash : string -> Z) (NormFloat64 : Z -> nat -> float64)
    (sort_Sort : (IDist -> IDist -> bool) -> list IDist -> list IDist)
    (encode : arrayData -> list Byte.byte) (decode : decoder)
    (encode_lsh : euclidLSHMsgpack -> list Byte.byte)
    (decode_lsh : list Byte.byte -> option (euclidLSHMsgpack * list Byte.byte))
    (e : EuclidLSH) :
  mutated calcStringHash NormFloat64 encode decode encode_lsh decode_lsh e ->
  (exists a, lshs e = Some a /\ array_ok a /\ len (norms e) = ALen a) /\
  (forall id v, 1 <= id -> row_fits e id ->
     exists e',
       SetRow calcStringHash NormFloat64 id v e = Val (tt, e') /\
       mutated calcStringHash NormFloat64 encode decode encode_lsh decode_lsh e') /\
  (forall q size, query_ok q e -> 0 <= size ->
     exists res,
       run_query math_Cos calcStringHash NormFloat64 sort_Sort q size e
       = Val (res, e)).
Proof.
  intros Hm.
  assert (He := mutated_index_ok _ _ _ _ _ _ e Hm).
  split; [| split].
  - destruct He as (a & Ha & Hok & _ & _ & Hlen & _). exists a. auto.
  - intros id v Hid Hfit.
    destruct (SetRow_ok calcStringHash NormFloat64 e id v He Hid Hfit)
      as (e' & a' & ES & _).
    exists e'. split; [exact ES |].
    exact (mutated_SetRow _ _ _ _ _ _ e e' id v Hm Hid Hfit ES).
  - intros q size Hq Hsize.
    destruct (query_of_ok calcStringHash NormFloat64 q e He Hq)
      as (a & x & qn & Ha & Hqo & Hx).
    rewrite (run_query_val math_Cos calcStringHash NormFloat64 sort_Sort q size e
               a x qn He Ha Hqo Hx).
    rewrite (neighborRowFromHash_val math_Cos sort_Sort e a x qn size He Ha Hx).
    cbv zeta.
    replace (Z.min size _ <? 0) with false by (symmetry; apply Z.ltb_ge; lia).
    eexists. reflexivity.
Qed.

Lemma reachable_index_safe_witness :
  (exists a, lshs example_index = Some a /\ array_ok a /\
             len (norms example_index) = ALen a) /\
  (forall id v, 1 <= id -> row_fits example_index id ->
     exists e',
       SetRow length_hash unit_draws id v example_index = Val (tt, e') /\
       mutated length_hash unit_draws encode_nothing
         (decode_const (mkArrayData nil_slice 8 0)) encode_no_norms
         (decode_norms (mkEuclidLSHMsgpack 1 nil_slice)) e') /\
  (forall q size, query_ok q example_index -> 0 <= size ->
     exists res,
       run_query unit_cos length_hash unit_draws sort_by q size example_index
       = Val (res, example_index)).
Proof.
  apply (reachable_index_safe unit_cos length_hash unit_draws sort_by
           encode_nothing (decode_const (mkArrayData nil_slice 8 0))
           encode_no_norms (decode_norms (mkEuclidLSHMsgpack 1 nil_slice))
           example_index).
  exact example_index_mutated.
Defined.

(** X21 (euclid_lsh.go, [NewEuclidLSH], [SetRow] and the queries;
    array.go, [NewArray] and [createArray]): [NewEuclidLSH] does not check
    its width.  For a width of 0 or below the index has a nil array, and
    every call of [SetRow], [NeighborRowFromID] and [NeighborRowFromFV]
    on it panics. *)
Theorem NewEuclidLSH_nonpositive_panics (math_Cos : float64 -> float64)
    (calcStringHash : string -> Z) (NormFloat64 : Z -> nat -> float64)
    (sort_Sort : (IDist -> IDist -> bool) -> list IDist -> list IDist)
    (hashNum : Z) :
  hashNum <= 0 ->
  lshs (NewEuclidLSH hashNum) = None /\
  (forall id v,
     SetRow calcStringHash NormFloat64 id v (NewEuclidLSH hashNum) = Panic) /\
  (forall q size,
     run_query math_Cos calcStringHash NormFloat64 sort_Sort q size
       (NewEuclidLSH hashNum) = Panic).
Proof.
  intros Hh.
  assert (Hnil : NewArray hashNum = None).
  { unfold NewArray, createArray.
    replace (hashNum <=? 0) with true by (symmetry; apply Z.leb_le; lia).
    reflexivity. }
  unfold NewEuclidLSH. rewrite Hnil. cbn [lshs].
  split; [reflexivity |]. split.
  - intros id v. unfold SetRow, SetRow_extend, extend, SetRow_Set.
    cbn [lshs norms deref bind len slen nil_slice].
    destruct (0 <? id); reflexivity.
  - intros [id | v] size; reflexivity.
Qed.

Lemma NewEuclidLSH_nonpositive_panics_witness :
  lshs (NewEuclidLSH 0) = None /\
  (forall id v, SetRow length_hash unit_draws id v (NewEuclidLSH 0) = Panic) /\
  (forall q size,
     run_query unit_cos length_hash unit_draws sort_by q size (NewEuclidLSH 0)
     = Panic).
Proof.
  apply (NewEuclidLSH_nonpositive_panics unit_cos length_hash unit_draws sort_by 0).
  lia.
Defined.

(** X7 (array.go, [LoadArray], [loadArrayFormatV1] and [createArray]):
    [LoadArray] returns the error of the reader on an empty input, the
    unsupported-version error on a first byte other than 1, and the error
    of the decoder where the record cannot be decoded; a decoded record
    is not checked: with a width of 0 or below, or a negative length,
    [LoadArray] returns a nil array and no error. *)
Theorem LoadArray_edges (decode : decoder) :
  LoadArray decode [] = Err IOFailure /\
  (forall b r, b <> Byte.x01 ->
     LoadArray decode (b :: r)
     = Err (UnsupportedVersion (Z.of_nat (Byte.to_nat b)))) /\
  (forall r, decode r = None -> LoadArray decode (Byte.x01 :: r) = Err IOFailure) /\
  (forall r d rest,
     decode r = Some (d, rest) -> BitNum d <= 0 \/ Len d < 0 ->
     LoadArray decode (Byte.x01 :: r) = Val (None, rest)).
Proof.
  split; [reflexivity |]. split; [| split].
  - intros b r Hb. cbn [LoadArray].
    destruct (Byte.eqb b Byte.x01) eqn:E; [| reflexivity].
    apply Byte.byte_dec_bl in E. contradiction.
  - intros r Hr. cbn [LoadArray]. change (Byte.eqb Byte.x01 Byte.x01) with true.
    cbv iota. unfold loadArrayFormatV1. rewrite Hr. reflexivity.
  - intros r d rest Hr Hbad. cbn [LoadArray].
    change (Byte.eqb Byte.x01 Byte.x01) with true.
    cbv iota. unfold loadArrayFormatV1. rewrite Hr. unfold createArray.
    replace ((BitNum d <=? 0) || (Len d <? 0)) with true; [reflexivity |].
    symmetry. apply orb_true_iff. rewrite Z.leb_le, Z.ltb_lt. exact Hbad.
Qed.

(** X22 (euclid_lsh.go, [save] and [loadEuclidLSH]): [save] starts with
    the encoded record of the norms, and [loadEuclidLSH] takes the first
    byte of its input for a version byte.  Where the record of the norms
    is encoded with a first byte other than 1, [loadEuclidLSH] on what
    [save] wrote returns the unsupported-version error. *)
Theorem loadEuclidLSH_after_save (encode : arrayData -> list Byte.byte)
    (decode : decoder)
    (encode_lsh : euclidLSHMsgpack -> list Byte.byte)
    (decode_lsh : list Byte.byte -> option (euclidLSHMsgpack * list Byte.byte))
    (e : EuclidLSH) (a : Array) (b : Byte.byte) (bs : list Byte.byte) :
  lshs e = Some a ->
  encode_lsh (norms_record e) = b :: bs -> b <> Byte.x01 ->
  exists bytes,
    save encode encode_lsh e [] = Val bytes /\
    forall rest,
      loadEuclidLSH decode decode_lsh (bytes ++ rest)
      = Err (UnsupportedVersion (Z.of_nat (Byte.to_nat b))).
Proof.
  intros Ha Henc Hb. unfold save. rewrite Ha. cbn [deref bind app].
  rewrite ASave_record. eexists. split; [reflexivity |].
  intros rest. fold (norms_record e). rewrite Henc. cbn [app loadEuclidLSH].
  destruct (Byte.eqb b Byte.x01) eqn:E; [| reflexivity].
  apply Byte.byte_dec_bl in E. contradiction.
Qed.

Lemma loadEuclidLSH_after_save_witness :
  exists bytes,
    save encode_nothing (fun _ => [Byte.x92]) example_index [] = Val bytes /\
    forall rest,
      loadEuclidLSH (decode_const (mkArrayData nil_slice 8 0))
        (decode_norms (mkEuclidLSHMsgpack 1 nil_slice)) (bytes ++ rest)
      = Err (UnsupportedVersion (Z.of_nat (Byte.to_nat Byte.x92))).
Proof.
  apply (loadEuclidLSH_after_save encode_nothing
           (decode_const (mkArrayData nil_slice 8 0))
           (fun _ => [Byte.x92])
           (decode_norms (mkEuclidLSHMsgpack 1 nil_slice))
           example_index
           (SmallBits (smallBitsArray.mk (generalArray.mk (mkslice [255] 1) 8 3)))
           Byte.x92 []).
  - vm_compute. reflexivity.
  - reflexivity.
  - discriminate.
Defined.

(* ===================================================================== *)
(** * Rows that were never set *)
(* ===================================================================== *)

(** The statements of [SetRow], one by one. *)
Lemma SetRow_steps (calcStringHash : string -> Z)
    (NormFloat64 : Z -> nat -> float64)
    (e : EuclidLSH) (id : ID) (v : FeatureVector) :
  index_ok e -> 1 <= id -> row_fits e id ->
  exists a e1 a1 x a2,
    lshs e = Some a /\
    SetRow_extend id e = Val (tt, e1) /\ index_ok e1 /\ lshs e1 = Some a1 /\
    array_ok a1 /\ ABitNum a1 = ABitNum a /\
    ALen a1 = Z.max id (len (norms e)) /\ len (norms e1) = ALen a1 /\
    vector_ok (ABitNum a1) x /\ ASet a1 (id - 1) x = Val a2 /\
    SetRow calcStringHash NormFloat64 id v e
    = Val (tt, mkEuclidLSH (Some a2)
                 (mkslice (overwrite (cells (norms e1)) (Z.to_nat (id - 1))
                             [l2Norm v])
                          (slen (norms e1)))).
Proof.
  intros He Hid Hfit.
  destruct (SetRow_extend_ok e id He Hid Hfit)
    as (a & e1 & a1 & Ha & E1 & He1 & Ha1 & Hb1 & Hn1 & Hl1).
  destruct (SetRow_Set_ok calcStringHash NormFloat64 e1 a1 id v He1 Ha1)
    as (x & a2 & Ex & Hx & ES & E2 & He2 & Hl2 & Hb2); [lia |].
  pose proof He1 as (a1' & Ha1' & Hok1 & _ & [Ht1 Ht2] & _).
  rewrite Ha1 in Ha1'. injection Ha1' as <-.
  pose proof He as (a0 & _ & _ & _ & [Hs1 _] & _).
  unfold len in *.
  exists a, e1, a1, x, a2.
  repeat (split; [solve [auto] |]).
  unfold SetRow. rewrite E1. cbn [bind snd]. rewrite E2. cbn [bind].
  cbn [lshs norms]. rewrite store_in by lia. reflexivity.
Qed.

Lemma NewEuclidLSH_zero_beyond (hashNum : Z) : zero_beyond (NewEuclidLSH hashNum).
Proof.
  unfold zero_beyond, NewEuclidLSH. cbn [lshs norms nil_slice cells slen].
  split.
  - intros a Ha k Hk.
    destruct (Z.leb_spec hashNum 0) as [Hle | Hgt].
    + unfold NewArray, createArray in Ha.
      replace (hashNum <=? 0) with true in Ha by (symmetry; apply Z.leb_le; lia).
      discriminate.
    + destruct (NewArray_ok hashNum Hgt) as (a' & E & _ & _ & _ & _ & Hst).
      rewrite E in Ha. injection Ha as <-. rewrite Hst. apply bit_at_nil.
  - intros i _. destruct (Z.to_nat i); reflexivity.
Qed.

(** [extend(n)] beyond the rows, on an index that never shrank: the rows
    and the norms it brings in are zero. *)
Lemma extend_zero_rows (e e1 : EuclidLSH) (a a1 : Array) (n : Z) :
  index_ok e -> zero_beyond e -> len (norms e) < n -> row_fits e n ->
  extend n e = Val (tt, e1) -> lshs e = Some a -> lshs e1 = Some a1 ->
  tail_zero a1 /\
  (forall k, ABitNum a * ALen a <= k -> bit_at (cells (storage a1)) k = false) /\
  (forall i, len (norms e) <= i ->
     nth (Z.to_nat i) (cells (norms e1)) f32_zero = f32_zero).
Proof.
  intros (a0 & Ha0 & Hok & Hpw & [Hs1 Hs2] & Hlen & Hcap & Hb & Hnc) [Hz Hnz] Hn
         (a2 & Ha2 & Hfit) EE Ha Ha1.
  rewrite Ha in Ha0, Ha2. injection Ha0 as <-. injection Ha2 as <-.
  specialize (Hz a Ha). unfold len in *.
  destruct (array_ok_storage a Hok) as (_ & Hb0 & Hl0 & _ & _).
  assert (Hn1 : n <= 2 ^ 40) by nia.
  assert (Hrf : resize_fits a n) by (split; lia).
  destruct (Resize_resized a n Hok Hrf ltac:(lia))
    as (a' & ER & Hok' & Hl' & Hb' & _ & _ & Hbits).
  unfold extend in EE. rewrite Ha in EE. cbn [deref bind] in EE.
  replace (ALen a <? n) with true in EE by (symmetry; apply Z.ltb_lt; lia).
  rewrite ER in EE. cbn [bind] in EE.
  assert (Hz' : forall k, ABitNum a * ALen a <= k ->
                          bit_at (cells (storage a')) k = false).
  { intros k Hk. destruct (Hbits k ltac:(nia)) as [E | [_ E]]; [| exact E].
    rewrite E. apply Hz. exact Hk. }
  assert (Htz : tail_zero a').
  { intros k Hk. rewrite Hl', Hb' in Hk. apply Hz'. nia. }
  destruct (Z.geb_spec (cap (norms e)) n) as [Hge | Hlt].
  - rewrite slice_range_val in EE by lia. cbn [bind skipn Z.to_nat] in EE.
    injection EE as <-. cbn [lshs norms cells] in *. injection Ha1 as <-.
    repeat split; auto.
  - rewrite imul_small in EE by lia. rewrite maxInt_max in EE.
    rewrite make_cap_val in EE by lia. cbn [bind] in EE.
    injection EE as <-. cbn [lshs norms cells copy slen] in *. injection Ha1 as <-.
    repeat split; auto.
    intros i Hi. unfold cap in *.
    rewrite overwrite_nth
      by (rewrite ?repeat_length, ?length_firstn; cbn [Nat.add]; lia).
    rewrite length_firstn. cbn [Nat.add Nat.leb andb].
    replace (Z.to_nat i <? Nat.min (Z.to_nat (Z.min n (slen (norms e))))
                                   (length (cells (norms e))))%nat
      with false by (symmetry; apply Nat.ltb_ge; lia).
    apply repeat_nth.
Qed.

(** [SetRow] on an index that never shrank: the index it leaves never
    shrank, and the rows it brings in besides row [id] are zero. *)
Lemma SetRow_zero_rows (calcStringHash : string -> Z)
    (NormFloat64 : Z -> nat -> float64)
    (e e' : EuclidLSH) (a' : Array) (id : ID) (v : FeatureVector) :
  index_ok e -> zero_beyond e -> 1 <= id -> row_fits e id ->
  SetRow calcStringHash NormFloat64 id v e = Val (tt, e') ->
  lshs e' = Some a' ->
  zero_beyond e' /\
  forall j, len (norms e) < j < id ->
    (exists y, AGet a' (j - 1) = Val y /\ vbitNum y = ABitNum a' /\
               visible (vdata y) = zero_words (ABitNum a')) /\
    index f32_zero (norms e') (j - 1) = Val f32_zero.
Proof.
  intros He Hzb Hid Hfit ES Ha'.
  destruct (SetRow_steps calcStringHash NormFloat64 e id v He Hid Hfit)
    as (a & e1 & a1 & x & a2 & Ha & E1 & He1 & Ha1 & Hok1 & Hb1 & Hl1 & Hn1
        & Hx & ESet & ESR).
  rewrite ESR in ES. injection ES as <-. cbn [lshs norms] in *.
  injection Ha' as <-.
  pose proof He as (a0 & Ha0 & Hok & _ & [Hs1 Hs2] & Hlen & _).
  rewrite Ha in Ha0. injection Ha0 as <-.
  pose proof He1 as (a1' & Ha1' & _ & _ & [Ht1 Ht2] & _).
  rewrite Ha1 in Ha1'. injection Ha1' as <-.
  destruct (ASet_written a1 (id - 1) x Hok1 Hx ltac:(lia))
    as (a2' & ESet' & Hok2 & Hl2 & Hb2 & _ & _).
  rewrite ESet in ESet'. injection ESet' as <-.
  destruct (array_ok_storage a Hok) as (_ & Hb0 & Hl0 & _ & _).
  unfold len in *.
  (* the index after the first statement *)
  assert (H1 : tail_zero a1 /\
               (forall k, ABitNum a * ALen a <= k ->
                          bit_at (cells (storage a1)) k = false) /\
               (forall i, slen (norms e) <= i ->
                  nth (Z.to_nat i) (cells (norms e1)) f32_zero = f32_zero)).
  { unfold SetRow_extend, len in E1.
    destruct (Z.ltb_spec (slen (norms e)) id) as [Hlt | Hge].
    - exact (extend_zero_rows e e1 a a1 id He Hzb Hlt Hfit E1 Ha Ha1).
    - injection E1 as <-. rewrite Ha in Ha1. injection Ha1 as <-.
      destruct Hzb as [Hz Hnz]. specialize (Hz a Ha).
      repeat split; auto. }
  destruct H1 as (Htz1 & Hgap1 & Hnz1).
  split.
  - split.
    + intros a3 Ha3. injection Ha3 as <-.
      exact (ASet_tail_zero a1 a2 (id - 1) x Hok1 Hx ltac:(lia) ESet Htz1).
    + cbn [norms slen cells]. intros i Hi. unfold cap in *.
      rewrite overwrite_nth by (cbn [length]; lia). cbn [length].
      replace ((Z.to_nat (id - 1) <=? Z.to_nat i)%nat
               && (Z.to_nat i <? Z.to_nat (id - 1) + 1)%nat) with false
        by (symmetry; apply andb_false_iff; rewrite Nat.leb_gt, Nat.ltb_ge; lia).
      apply Hnz1. lia.
  - intros j Hj. split.
    + destruct (ASet_Get_other a1 a2 (id - 1) (j - 1) x Hok1 Hx ltac:(lia) ESet
                  ltac:(lia) ltac:(lia)) as (y1 & y2 & Ey1 & Ey2 & Hy2).
      destruct (AGet_words a1 (j - 1) Hok1 ltac:(lia)) as (y1' & Ey1' & Hyb & Hyw).
      rewrite Ey1 in Ey1'. injection Ey1' as <-.
      destruct (array_ok_storage a1 Hok1) as (Hc1 & _ & _ & Hfit1 & Hcap1).
      exists y2. split; [exact Ey2 |].
      destruct Hy2 as [Q1 Q2]. split; [congruence |].
      rewrite Q2, Hyw. fold (storage a1). rewrite Hb2. unfold zero_words.
      apply general_words_zero; auto; try lia; try nia.
      intros k Hk. apply Hgap1. rewrite <- Hb1. nia.
    + unfold index. cbn [norms slen cells].
      replace ((0 <=? j - 1) && (j - 1 <? slen (norms e1))) with true
        by (symmetry; apply andb_true_iff; rewrite Z.leb_le, Z.ltb_lt; lia).
      f_equal. unfold cap in *.
      rewrite overwrite_nth by (cbn [length]; lia). cbn [length].
      replace ((Z.to_nat (id - 1) <=? Z.to_nat (j - 1))%nat
               && (Z.to_nat (j - 1) <? Z.to_nat (id - 1) + 1)%nat) with false
        by (symmetry; apply andb_false_iff; rewrite Nat.leb_gt, Nat.ltb_ge; lia).
      apply Hnz1. lia.
Qed.

(** Loading what [save] wrote for an index that never shrank. *)
Lemma load_zero_beyond (encode : arrayData -> list Byte.byte) (decode : decoder)
    (encode_lsh : euclidLSHMsgpack -> list Byte.byte)
    (decode_lsh : list Byte.byte -> option (euclidLSHMsgpack * list Byte.byte))
    (e e' : EuclidLSH) (bytes rest : list Byte.byte) :
  index_ok e -> zero_beyond e ->
  index_roundtrip encode decode encode_lsh decode_lsh e ->
  save encode encode_lsh e [] = Val bytes ->
  loadEuclidLSHFormatV1 decode decode_lsh (bytes ++ rest) = Val (e', rest) ->
  zero_beyond e'.
Proof.
  intros He [Hz Hnz] Hrt Hsave Hload.
  pose proof He as (a & Ha & Hok & Hpw & [Hs1 Hs2] & Hlen & _).
  pose proof Hrt as [Hn Hc]. specialize (Hc a Ha). specialize (Hz a Ha).
  destruct (LoadArray_saved encode decode a rest Hok Hpw Hc)
    as (a' & EL & Hok' & _ & Hb' & Hl' & Hst').
  unfold save in Hsave. rewrite Ha in Hsave. cbn [deref bind app] in Hsave.
  rewrite ASave_record in Hsave. injection Hsave as <-.
  unfold loadEuclidLSHFormatV1 in Hload.
  rewrite <- !app_assoc in Hload. fold (norms_record e) in Hload.
  rewrite Hn in Hload. cbn [app bind Norms norms_record] in Hload.
  rewrite EL in Hload. cbn [bind fst snd] in Hload. injection Hload as <-.
  destruct (array_ok_general a Hok) as (Hp & _). fold (storage a) in Hp.
  split.
  - cbn [lshs]. intros a3 Ha3. injection Ha3 as <-.
    intros k Hk. rewrite Hst'. unfold exact_copy. cbn [cells].
    unfold visible. rewrite Hl', Hb' in Hk.
    destruct (array_ok_storage a Hok) as (_ & Hb0 & Hl0 & _ & _).
    rewrite bit_at_firstn by nia.
    destruct (_ <? _); [apply Hz; exact Hk | reflexivity].
  - cbn [norms]. unfold exact_copy. cbn [slen cells]. intros i Hi.
    apply nth_overflow. lia.
Qed.

(** An index a program reaches never shrank. *)
Lemma mutated_zero_beyond (calcStringHash : string -> Z)
    (NormFloat64 : Z -> nat -> float64)
    (encode : arrayData -> list Byte.byte) (decode : decoder)
    (encode_lsh : euclidLSHMsgpack -> list Byte.byte)
    (decode_lsh : list Byte.byte -> option (euclidLSHMsgpack * list Byte.byte))
    (e : EuclidLSH) :
  mutated calcStringHash NormFloat64 encode decode encode_lsh decode_lsh e ->
  zero_beyond e.
Proof.
  induction 1 as [h Hh | e e' id v Hm IH Hid Hfit ES
                  | e e' bytes rest Hm IH Hrt Hsave Hload].
  - apply NewEuclidLSH_zero_beyond.
  - assert (He := mutated_index_ok _ _ _ _ _ _ e Hm).
    destruct (SetRow_ok calcStringHash NormFloat64 e id v He Hid Hfit)
      as (e2 & a2 & E & _ & Ha2 & _).
    rewrite ES in E. injection E as <-.
    exact (proj1 (SetRow_zero_rows calcStringHash NormFloat64 e e' a2 id v
                    He IH Hid Hfit ES Ha2)).
  - assert (He := mutated_index_ok _ _ _ _ _ _ e Hm).
    exact (load_zero_beyond encode decode encode_lsh decode_lsh e e' bytes rest
             He IH Hrt Hsave Hload).
Qed.

(** X23 (euclid_lsh.go, [SetRow] and [extend]; array.go, [Resize], [Set]
    and [Get]): on an index a program reaches, [SetRow(id, v)] with an
    identifier beyond the rows adds every row up to [id]; the rows it
    adds in between, which were never set, read as the all-zero sketch
    with a norm of 0. *)
Theorem SetRow_gap_rows (calcStringHash : string -> Z)
    (NormFloat64 : Z -> nat -> float64)
    (encode : arrayData -> list Byte.byte) (decode : decoder)
    (encode_lsh : euclidLSHMsgpack -> list Byte.byte)
    (decode_lsh : list Byte.byte -> option (euclidLSHMsgpack * list Byte.byte))
    (e : EuclidLSH) (id : ID) (v : FeatureVector) :
  mutated calcStringHash NormFloat64 encode decode encode_lsh decode_lsh e ->
  len (norms e) < id -> row_fits e id ->
  exists e' a',
    SetRow calcStringHash NormFloat64 id v e = Val (tt, e') /\
    lshs e' = Some a' /\ ALen a' = id /\ len (norms e') = id /\
    forall j, len (norms e) < j < id ->
      (exists y, AGet a' (j - 1) = Val y /\ vbitNum y = ABitNum a' /\
                 visible (vdata y) = zero_words (ABitNum a')) /\
      index f32_zero (norms e') (j - 1) = Val f32_zero.
Proof.
  intros Hm Hid Hfit.
  assert (He := mutated_index_ok _ _ _ _ _ _ e Hm).
  assert (Hz := mutated_zero_beyond _ _ _ _ _ _ e Hm).
  pose proof He as (a0 & _ & _ & _ & [Hs1 _] & _). unfold len in *.
  destruct (SetRow_ok calcStringHash NormFloat64 e id v He ltac:(lia) Hfit)
    as (e' & a' & ES & _ & Ha' & Hl' & Hn').
  exists e', a'. split; [exact ES |]. split; [exact Ha' |].
  unfold len in *. split; [lia |]. split; [lia |].
  exact (proj2 (SetRow_zero_rows calcStringHash NormFloat64 e e' a' id v
                  He Hz ltac:(lia) Hfit ES Ha')).
Qed.

Lemma SetRow_gap_rows_witness :
  exists e' a',
    SetRow length_hash unit_draws 6 example_fv1 example_index = Val (tt, e') /\
    lshs e' = Some a' /\ ALen a' = 6 /\ len (norms e') = 6 /\
    forall j, len (norms example_index) < j < 6 ->
      (exists y, AGet a' (j - 1) = Val y /\ vbitNum y = ABitNum a' /\
                 visible (vdata y) = zero_words (ABitNum a')) /\
      index f32_zero (norms e') (j - 1) = Val f32_zero.
Proof.
  apply (SetRow_gap_rows length_hash unit_draws encode_nothing
           (decode_const (mkArrayData nil_slice 8 0)) encode_no_norms
           (decode_norms (mkEuclidLSHMsgpack 1 nil_slice))
           example_index 6 example_fv1).
  - exact example_index_mutated.
  - vm_compute. reflexivity.
  - apply example_row_fits. lia.
Defined.

(* ===================================================================== *)
(** * Reading back through a query *)
(* ===================================================================== *)

(** The scores depend on the sketch through its words only. *)
Lemma scored_same (math_Cos : float64 -> float64) (a : Array)
    (ns : slice float32) (x1 x2 : Vector) (qn : float32) :
  visible (vdata x1) = visible (vdata x2) ->
  scored math_Cos a ns x1 qn = scored math_Cos a ns x2 qn.
Proof.
  intros H. unfold scored, score_at, theta_at, hamming. rewrite H. reflexivity.
Qed.

(** X24 (euclid_lsh.go, [SetRow], [NeighborRowFromID] and
    [NeighborRowFromFV]): after [SetRow(id, v)] on a well-formed index, a
    query by the identifier [id] and a query by the vector [v] give the
    same outcome, whatever the size. *)
Theorem query_by_id_after_SetRow (math_Cos : float64 -> float64)
    (calcStringHash : string -> Z) (NormFloat64 : Z -> nat -> float64)
    (sort_Sort : (IDist -> IDist -> bool) -> list IDist -> list IDist)
    (e : EuclidLSH) (id : ID) (v : FeatureVector) (size : Z) :
  index_ok e -> 1 <= id -> row_fits e id ->
  exists e',
    SetRow calcStringHash NormFloat64 id v e = Val (tt, e') /\
    run_query math_Cos calcStringHash NormFloat64 sort_Sort (ByID id) size e'
    = run_query math_Cos calcStringHash NormFloat64 sort_Sort (ByFV v) size e'.
Proof.
  intros He Hid Hfit.
  destruct (SetRow_spec calcStringHash NormFloat64 e id v He Hid Hfit)
    as (a & e' & a' & x & xr & Ha & ES & Ha' & Hb' & Hl' & Hn' & Ex & EG & Hsame
        & Hnorm & _).
  destruct (SetRow_ok calcStringHash NormFloat64 e id v He Hid Hfit)
    as (e2 & a2 & ES2 & He' & _).
  rewrite ES in ES2. injection ES2 as <-.
  exists e'. split; [exact ES |].
  pose proof He' as (a3 & Ha3 & Hok' & _ & _ & _ & _ & Hbb & _).
  rewrite Ha' in Ha3. injection Ha3 as <-.
  destruct (array_ok_storage a' Hok') as (_ & Hb0 & _).
  destruct (cosineLSH_ok calcStringHash NormFloat64 v (ABitNum a'))
    as (x' & Ex' & Hx'); [lia |].
  rewrite Hb', Ex in Ex'. injection Ex' as <-.
  assert (Hin : 0 <= id - 1 < ALen a') by lia.
  assert (Hxr : vector_ok (ABitNum a') xr)
    by exact (AGet_vector_ok a' (id - 1) xr Hok' Hin EG).
  rewrite (run_query_val math_Cos calcStringHash NormFloat64 sort_Sort (ByID id)
             size e' a' xr (l2Norm v) He' Ha');
    [| split; assumption | exact Hxr].
  rewrite (run_query_val math_Cos calcStringHash NormFloat64 sort_Sort (ByFV v)
             size e' a' x (l2Norm v) He' Ha');
    [| split; [rewrite Hb'; exact Ex | reflexivity] | exact Hx'].
  rewrite (neighborRowFromHash_val math_Cos sort_Sort e' a' xr (l2Norm v) size
             He' Ha' Hxr).
  rewrite (neighborRowFromHash_val math_Cos sort_Sort e' a' x (l2Norm v) size
             He' Ha' Hx').
  cbv zeta. rewrite (scored_same math_Cos a' (norms e') xr x (l2Norm v));
    [reflexivity | apply Hsame].
Qed.

Lemma query_by_id_after_SetRow_witness :
  exists e',
    SetRow length_hash unit_draws 2 example_fv1 example_index = Val (tt, e') /\
    run_query unit_cos length_hash unit_draws sort_by (ByID 2) 3 e'
    = run_query unit_cos length_hash unit_draws sort_by (ByFV example_fv1) 3 e'.
Proof.
  apply (query_by_id_after_SetRow unit_cos length_hash unit_draws sort_by
           example_index 2 example_fv1 3).
  - exact example_index_ok.
  - lia.
  - apply example_row_fits. lia.
Defined.

(** X25 (array.go, the five [Get] methods): a read of a row in range
    returns a well-formed vector of the array's width: as many words as
    the width needs, and no bit set from the width on, whatever the
    buffer holds around the row. *)
Theorem Get_well_formed (a : Array) (n : Z) :
  array_ok a -> 0 <= n < ALen a ->
  exists x, AGet a n = Val x /\ vector_ok (ABitNum a) x.
Proof.
  intros Hok Hn.
  destruct (AGet_words a n Hok Hn) as (x & EG & _).
  exists x. split; [exact EG |].
  exact (AGet_vector_ok a n x Hok Hn EG).
Qed.

Lemma Get_well_formed_witness :
  exists x, AGet example_array 1 = Val x /\ vector_ok (ABitNum example_array) x.
Proof.
  apply (Get_well_formed example_array 1).
  - exact example_array_ok.
  - cbn [ALen example_array generalArray.Len generalArray.len]. lia.
Defined.

(* ===================================================================== *)
(** * Arrays that never shrank *)
(* ===================================================================== *)

(** An array built by [NewArray], growing calls of [Resize] and [Set] is
    well formed and has no bit set beyond its rows. *)
Lemma grown_ok (a : Array) : grown a -> array_ok a /\ tail_zero a.
Proof.
  induction 1 as [h a Hh E | a a' n _ [Hok Hz] Hfit Hn ER
                  | a a' i v _ [Hok Hz] Hv Hi ES].
  - destruct (Z.leb_spec h 0) as [Hle | Hgt].
    + unfold NewArray, createArray in E.
      replace (h <=? 0) with true in E by (symmetry; apply Z.leb_le; lia).
      discriminate.
    + destruct (NewArray_ok h Hgt) as (a' & E' & Hok & _ & _ & _ & Hst).
      rewrite E in E'. injection E' as <-.
      split; [exact Hok |]. intros k _. rewrite Hst. apply bit_at_nil.
  - destruct (array_ok_storage a Hok) as (_ & Hb0 & Hl0 & _ & _).
    destruct (Resize_resized a n Hok Hfit ltac:(lia))
      as (a'' & ER' & Hok' & Hl' & Hb' & _ & _ & Hbits).
    rewrite ER in ER'. injection ER' as <-.
    split; [exact Hok' |].
    intros k Hk. rewrite Hl', Hb' in Hk.
    destruct (Hbits k ltac:(nia)) as [E | [_ E]]; [| exact E].
    rewrite E. apply Hz. nia.
  - destruct (ASet_written a i v Hok Hv Hi) as (a'' & ES' & Hok' & _).
    rewrite ES in ES'. injection ES' as <-.
    split; [exact Hok' |].
    exact (ASet_tail_zero a a' i v Hok Hv Hi ES Hz).
Qed.

(** X26 (array.go, [NewArray], the five [Resize], [Set] and [Get]
    methods): in an array that was built by [NewArray], calls of [Resize]
    that lengthen it and calls of [Set], a call of [Resize] to a greater
    length returns an array of that kind in which every row brought in
    reads as the all-zero vector. *)
Theorem grown_rows_read_zero (a : Array) (n : Z) :
  grown a -> resize_fits a n -> ALen a < n ->
  exists a',
    Resize a n = Val a' /\ grown a' /\ ALen a' = n /\
    forall i, ALen a <= i < n ->
      exists x,
        AGet a' i = Val x /\ vbitNum x = ABitNum a' /\
        visible (vdata x) = zero_words (ABitNum a').
Proof.
  intros Hg Hfit Hn.
  destruct (grown_ok a Hg) as [Hok Hz].
  destruct (array_ok_storage a Hok) as (_ & Hb0 & Hl0 & _ & _).
  destruct (Resize_resized a n Hok Hfit ltac:(lia))
    as (a' & ER & Hok' & Hl' & Hb' & _ & _ & Hbits).
  exists a'. split; [exact ER |].
  split; [exact (grown_Resize a a' n Hg Hfit ltac:(lia) ER) |].
  split; [exact Hl' |].
  intros i Hi.
  destruct (AGet_words a' i Hok' ltac:(lia)) as (x & EG & Hxb & Hxw).
  destruct (array_ok_storage a' Hok') as (Hc' & _ & _ & Hfit' & Hcap').
  exists x. split; [exact EG |]. split; [exact Hxb |].
  rewrite Hxw. fold (storage a'). unfold zero_words.
  rewrite Hl' in Hfit'.
  apply general_words_zero; auto; try lia; try nia.
  intros k Hk. rewrite Hb' in Hk.
  destruct (Hbits k ltac:(nia)) as [E | [_ E]]; [| exact E].
  rewrite E. apply Hz. nia.
Qed.

Lemma grown_rows_read_zero_witness :
  exists a',
    Resize (General (generalArray.mk nil_slice 70 0)) 3 = Val a' /\
    grown a' /\ ALen a' = 3 /\
    forall i, ALen (General (generalArray.mk nil_slice 70 0)) <= i < 3 ->
      exists x,
        AGet a' i = Val x /\ vbitNum x = ABitNum a' /\
        visible (vdata x) = zero_words (ABitNum a').
Proof.
  apply (grown_rows_read_zero (General (generalArray.mk nil_slice 70 0)) 3).
  - apply (grown_new 70); [lia | reflexivity].
  - unfold resize_fits, storage, cap, nil_slice.
    cbn [as_general ABitNum generalArray.BitNum generalArray.data
         generalArray.bitNum cells length].
    split; lia.
  - cbn [ALen generalArray.Len generalArray.len]. lia.
Defined.
